(** * EnigmaBridge client: wire codec and provisioning helpers

    A shallow embedding of the parts of [lib/eb-core.js] that frame,
    pad, encrypt and authenticate [ProcessData] messages, format and
    parse user-object handles, and patch provisioning templates, together
    with the properties of those functions.

    JavaScript numbers that occur in this code are integers far below
    2^53, so they are modelled as [Z]; the bitwise operators go through
    [ToInt32]/[ToUint32] as in ECMAScript.  An SJCL [bitArray] is a
    [list Z] exactly as in the library: 32-bit words, the last of which
    may be a partial word carrying its length above bit 40. *)

From Stdlib Require Import ZArith List String Ascii Bool Lia.
Import ListNotations.
Local Open Scope Z_scope.

(* ================================================================== *)
(** * Part I: definitions *)
(* ================================================================== *)

(** ** ECMAScript integer operators *)

Module JS.

Definition ToInt32 (x : Z) : Z := (x + 2 ^ 31) mod 2 ^ 32 - 2 ^ 31.
Definition ToUint32 (x : Z) : Z := x mod 2 ^ 32.

(** [a & b], [a | b], [a ^ b], [~a]: the operands are converted with
    [ToInt32] and the result is a signed 32-bit integer. *)
Definition and (a b : Z) : Z := ToInt32 (Z.land (ToInt32 a) (ToInt32 b)).
Definition or (a b : Z) : Z := ToInt32 (Z.lor (ToInt32 a) (ToInt32 b)).
Definition xor (a b : Z) : Z := ToInt32 (Z.lxor (ToInt32 a) (ToInt32 b)).
Definition not (a : Z) : Z := ToInt32 (Z.lnot (ToInt32 a)).

(** [a << n], [a >> n], [a >>> n]: the shift count is taken modulo 32;
    [>>>] converts with [ToUint32] and gives an unsigned result. *)
Definition shl (a n : Z) : Z := ToInt32 (Z.shiftl (ToInt32 a) (n mod 32)).
Definition sar (a n : Z) : Z := ToInt32 (Z.shiftr (ToInt32 a) (n mod 32)).
Definition shr (a n : Z) : Z := ToUint32 (Z.shiftr (ToUint32 a) (n mod 32)).

(** [Math.ceil(a / b)] and [ToInteger(a / b)] for integers [a], [b > 0]. *)
Definition ceil_div (a b : Z) : Z := - ((- a) / b).
Definition trunc_div (a b : Z) : Z := Z.quot a b.

(** [a[i]] where the result only feeds a bitwise operator: a missing
    element is [undefined], which those operators read as 0. *)
Definition get (a : list Z) (i : Z) : Z :=
  if i <? 0 then 0 else nth (Z.to_nat i) a 0.

(** [a[i]] proper: [None] is [undefined]. *)
Definition get_opt (a : list Z) (i : Z) : option Z :=
  if i <? 0 then None else nth_error a (Z.to_nat i).

(** [Array.prototype.slice(s, e)] with its treatment of negative and
    oversized indices. *)
Definition rel_index (n i : Z) : Z :=
  if i <? 0 then Z.max (n + i) 0 else Z.min i n.

Definition slice {A} (a : list A) (s e : Z) : list A :=
  let n := Z.of_nat (List.length a) in
  let s' := rel_index n s in
  let e' := rel_index n e in
  firstn (Z.to_nat (e' - s')) (skipn (Z.to_nat s') a).

Definition slice_from {A} (a : list A) (s : Z) : list A :=
  slice a s (Z.of_nat (List.length a)).

(** [a[a.length - 1] = x] on a non-empty array. *)
Definition set_last (a : list Z) (x : Z) : list Z := removelast a ++ [x].

End JS.

(** ** Exceptions and results *)

Inductive exn : Type :=
| SjclCorrupt (message : string)      (* sjcl.exception.corrupt *)
| SjclInvalid (message : string)      (* sjcl.exception.invalid *)
| SjclNotReady                        (* sjcl.exception.notReady *)
| EbCorrupt (message : string)        (* eb.exception.corrupt *)
| EbInvalid (message : string)        (* eb.exception.invalid *)
| TypeError.                          (* property access on undefined *)

Inductive result (A : Type) : Type :=
| Ok (a : A)
| Throw (e : exn).
Arguments Ok {A} a.
Arguments Throw {A} e.

Definition rbind {A B} (m : result A) (k : A -> result B) : result B :=
  match m with Ok a => k a | Throw e => Throw e end.

Definition is_ok {A} (m : result A) : bool :=
  match m with Ok _ => true | Throw _ => false end.

Definition is_corrupt {A} (m : result A) : bool :=
  match m with Throw (SjclCorrupt _) => true | _ => false end.

Declare Scope result_scope.
Delimit Scope result_scope with result.
Notation "x <- m ;; k" := (rbind m (fun x => k))
  (at level 61, m at next level, right associativity) : result_scope.
Notation "'ensure' c 'else' e ;; k" := (if c then k else Throw e)
  (at level 61, c at level 200, e at level 200, right associativity) : result_scope.

(** ** sjcl.bitArray

    Modelled from the spec: the SJCL library ([./built/sjcl/sjcl]) is not
    part of the sources; section 4.A describes its bit container as a
    sequence of 32-bit big-endian words with an exact bit length and the
    operations concat, slice, extract and equal.  The definitions follow
    the library's word-level algorithms, which the padding, nonce and
    template code depend on. *)

Module bitArray.

(** [Math.round(x / 0x10000000000) || 32] *)
Definition getPartial (x : Z) : Z :=
  let r := (x + 2 ^ 39) / 2 ^ 40 in
  if r =? 0 then 32 else r.

(** [partial(len, x, _end)] *)
Definition partial (len x : Z) (_end : bool) : Z :=
  if len =? 32 then x
  else (if _end then JS.or x 0 else JS.shl x (32 - len)) + len * 0x10000000000.

Definition bitLength (a : list Z) : Z :=
  match a with
  | [] => 0
  | _ => (Z.of_nat (List.length a) - 1) * 32 + getPartial (last a 0)
  end.

Definition clamp (a : list Z) (len : Z) : list Z :=
  if Z.of_nat (List.length a) * 32 <? len then a
  else
    let a := JS.slice a 0 (JS.ceil_div len 32) in
    let l := List.length a in
    let len := JS.and len 31 in
    if (0 <? Z.of_nat l) && negb (len =? 0)
    then JS.set_last a
           (partial len (JS.and (last a 0) (JS.sar 0x80000000 (len - 1))) true)
    else a.

(** The word loop of [_shiftRight]:
    [out.push(carry | a[i] >>> shift); carry = a[i] << (32 - shift)]. *)
Fixpoint shift_words (a : list Z) (shift carry : Z) (out : list Z)
  : list Z * Z :=
  match a with
  | [] => (out, carry)
  | x :: r =>
      shift_words r shift (JS.shl x (32 - shift))
        (out ++ [JS.or carry (JS.shr x shift)])
  end.

Definition _shiftRight (a : list Z) (shift carry : Z) (out : list Z)
  : list Z :=
  (* for (; shift >= 32; shift -= 32) { out.push(carry); carry = 0; } *)
  let k := if shift <? 32 then 0 else shift / 32 in
  let out := out ++ firstn (Z.to_nat k) (carry :: repeat 0 (Z.to_nat k)) in
  let carry := if 0 <? k then 0 else carry in
  let shift := shift - 32 * k in
  if shift =? 0 then out ++ a
  else
    let '(out, carry) := shift_words a shift carry out in
    let last2 := last a 0 in
    let shift2 := getPartial last2 in
    if 32 <? shift + shift2
    then out ++ [partial (JS.and (shift + shift2) 31) carry true]
    else removelast out
           ++ [partial (JS.and (shift + shift2) 31) (last out 0) true].

(** [bitSlice(a, bstart, bend)]; [bend = None] is the two-argument call.
    [_shiftRight] is called without a carry: the word that would hold
    it is the one dropped by [.slice(1)], and [undefined | x] is [x],
    so the carry is read as 0. *)
Definition bitSlice (a : list Z) (bstart : Z) (bend : option Z) : list Z :=
  let a := JS.slice_from
             (_shiftRight (JS.slice_from a (JS.trunc_div bstart 32))
                (32 - JS.and bstart 31) 0 [])
             1 in
  match bend with
  | None => a
  | Some bend => clamp a (bend - bstart)
  end.

Definition extract (a : list Z) (bstart blength : Z) : Z :=
  let sh := JS.and (- bstart - blength) 31 in
  let x :=
    if negb (JS.and (JS.xor (bstart + blength - 1) bstart) (-32) =? 0)
    then JS.xor (JS.shl (JS.get a (JS.trunc_div bstart 32)) (32 - sh))
                (JS.shr (JS.get a (JS.trunc_div bstart 32 + 1)) sh)
    else JS.shr (JS.get a (JS.trunc_div bstart 32)) sh in
  JS.and x (JS.shl 1 blength - 1).

Definition concat (a1 a2 : list Z) : list Z :=
  match a1, a2 with
  | [], _ | _, [] => a1 ++ a2
  | _, _ =>
      let last := last a1 0 in
      let shift := getPartial last in
      if shift =? 32 then a1 ++ a2
      else _shiftRight a2 shift (JS.or last 0) (removelast a1)
  end.

(** [equal(a, b)]: equal bit lengths, then the OR of the word-wise XORs
    over the indices of [a] must vanish. *)
Definition equal (a b : list Z) : bool :=
  if negb (bitLength a =? bitLength b) then false
  else
    fold_left
      (fun x i => JS.or x (JS.xor (JS.get a (Z.of_nat i)) (JS.get b (Z.of_nat i))))
      (seq 0 (List.length a)) 0
    =? 0.

(** [sjcl.bitArray.extract32], defined in eb-core.js because [extract]
    cannot return 32 bits. *)
Definition extract32 (a : list Z) (bstart : Z) : Z :=
  let sh := JS.and (- bstart - 32) 31 in
  if negb (JS.and (JS.xor (bstart + 32 - 1) bstart) (-32) =? 0)
  then JS.xor (JS.shl (JS.get a (JS.trunc_div bstart 32)) (32 - sh))
              (JS.shr (JS.get a (JS.trunc_div bstart 32 + 1)) sh)
  else JS.shr (JS.get a (JS.trunc_div bstart 32)) sh.

End bitArray.

(** ** Strings: hexadecimal digits, [Number.toString(16)], [parseInt(s, 16)] *)

Module Str.

Definition hex_char (d : Z) : ascii :=
  ascii_of_nat (Z.to_nat (if d <? 10 then 48 + d else 87 + d)).

Definition hex_val (c : ascii) : option Z :=
  let n := Z.of_nat (nat_of_ascii c) in
  if (48 <=? n) && (n <=? 57) then Some (n - 48)
  else if (97 <=? n) && (n <=? 102) then Some (n - 87)
  else if (65 <=? n) && (n <=? 70) then Some (n - 55)
  else None.

Definition is_hex (c : ascii) : bool :=
  match hex_val c with Some _ => true | None => false end.

(** ASCII members of the regular-expression class [\s]. *)
Definition is_space (c : ascii) : bool :=
  let n := Z.of_nat (nat_of_ascii c) in
  ((9 <=? n) && (n <=? 13)) || (n =? 32).

Definition upper_char (c : ascii) : ascii :=
  let n := nat_of_ascii c in
  if (Nat.leb 97 n) && (Nat.leb n 122) then ascii_of_nat (n - 32) else c.

Fixpoint map (f : ascii -> ascii) (s : string) : string :=
  match s with
  | EmptyString => EmptyString
  | String c r => String (f c) (map f r)
  end.

Definition toUpperCase (s : string) : string := map upper_char s.

Fixpoint forallb (p : ascii -> bool) (s : string) : bool :=
  match s with
  | EmptyString => true
  | String c r => p c && forallb p r
  end.

Fixpoint repeat (c : ascii) (n : nat) : string :=
  match n with
  | O => EmptyString
  | S k => String c (repeat c k)
  end.

Fixpoint drop (n : nat) (s : string) : string :=
  match n, s with
  | O, _ => s
  | S k, EmptyString => EmptyString
  | S k, String _ r => drop k r
  end.

Fixpoint take (n : nat) (s : string) : string :=
  match n, s with
  | O, _ => EmptyString
  | S k, EmptyString => EmptyString
  | S k, String c r => String c (take k r)
  end.

Fixpoint concat (l : list string) : string :=
  match l with
  | [] => EmptyString
  | s :: r => (s ++ concat r)%string
  end.

(** Digits of a positive number, most significant first, without
    leading zeros; [fuel] bounds the number of digits. *)
Fixpoint hex_digits (fuel : nat) (n : Z) (acc : string) : string :=
  match fuel with
  | O => acc
  | S f =>
      let acc' := String (hex_char (n mod 16)) acc in
      if n / 16 =? 0 then acc' else hex_digits f (n / 16) acc'
  end.

(** [n.toString(16)] for an integer [n]. *)
Definition toString16 (n : Z) : string :=
  if n <? 0
  then String "-"%char (hex_digits (S (Z.to_nat (Z.log2 (- n)))) (- n) EmptyString)
  else hex_digits (S (Z.to_nat (Z.log2 n))) n EmptyString.

(** Value of the longest prefix of hexadecimal digits, with the number
    of digits read. *)
Fixpoint hex_prefix (s : string) (acc : Z) (n : nat) : Z * nat :=
  match s with
  | EmptyString => (acc, n)
  | String c r =>
      match hex_val c with
      | Some d => hex_prefix r (16 * acc + d) (S n)
      | None => (acc, n)
      end
  end.

Fixpoint skip_space (s : string) : string :=
  match s with
  | String c r => if is_space c then skip_space r else s
  | EmptyString => s
  end.

(** [parseInt(s, 16)]; [None] is [NaN]. *)
Definition parseInt16 (s : string) : option Z :=
  let s := skip_space s in
  let '(sign, s) :=
    match s with
    | String "-"%char r => (-1, r)
    | String "+"%char r => (1, r)
    | _ => (1, s)
    end in
  let s :=
    match s with
    | String "0"%char (String "x"%char r) => r
    | String "0"%char (String "X"%char r) => r
    | _ => s
    end in
  match hex_prefix s 0 O with
  | (_, O) => None
  | (v, _) => Some (sign * v)
  end.

(** [s.indexOf(c)] for a one-character needle; [-1] when absent. *)
Fixpoint indexOf (c : ascii) (s : string) : Z :=
  match s with
  | EmptyString => -1
  | String d r =>
      if Ascii.eqb c d then 0
      else let i := indexOf c r in if i <? 0 then -1 else 1 + i
  end.

(** [s.substring(0, e)]: a negative end is read as 0. *)
Definition substring0 (s : string) (e : Z) : string := take (Z.to_nat e) s.

(** [s.substr(i)] and [s.substr(i, n)] for [i >= 0]. *)
Definition substr_from (s : string) (i : Z) : string := drop (Z.to_nat i) s.
Definition substr (s : string) (i n : Z) : string :=
  take (Z.to_nat n) (drop (Z.to_nat i) s).

(** [s.trim()] *)
Fixpoint rtrim (s : string) : string :=
  match s with
  | EmptyString => EmptyString
  | String c r =>
      match rtrim r with
      | EmptyString => if is_space c then EmptyString else String c EmptyString
      | r' => String c r'
      end
  end.
Definition trim (s : string) : string := rtrim (skip_space s).

End Str.

(** ** sprintf

    Modelled from the spec: [./eb-util-sprintf] is not part of the
    sources.  The spec gives the handle as [apiKey ‖ "00" ‖ uoId(8 hex)
    ‖ "00" ‖ uoType(8 hex)] and the length field of the wire format as
    two bytes, i.e. the conversions [%08x] and [%04X]: the number is
    written in hexadecimal and zero-padded on the left up to the minimum
    field width, never truncated. *)

Module sprintf.

Definition pad_left (c : ascii) (width : nat) (s : string) : string :=
  (Str.repeat c (width - String.length s) ++ s)%string.

(** [%0<width>x] *)
Definition x (width : nat) (n : Z) : string :=
  pad_left "0"%char width (Str.toString16 (JS.ToUint32 n)).

(** [%0<width>X] *)
Definition X (width : nat) (n : Z) : string :=
  Str.toUpperCase (x width n).

End sprintf.

(** ** sjcl.codec.hex

    Modelled from the spec: part of the SJCL library, which is not in the
    sources; the spec lists the hex codec among the external collaborators
    and uses it as [hex(CT)], [hex(TAG)] in the wire format. *)

Module hex.

(** [((w|0) + 0xF00000000000).toString(16).substr(4)] *)
Definition word (w : Z) : string :=
  Str.substr_from (Str.toString16 (JS.or w 0 + 0xF00000000000)) 4.

Definition fromBits (arr : list Z) : string :=
  let out := Str.concat (List.map word arr) in
  Str.substr out 0 (JS.trunc_div (bitArray.bitLength arr) 4).

(** [str.replace(/\s|0x/g, "")] *)
Fixpoint strip (s : string) : string :=
  match s with
  | EmptyString => EmptyString
  | String c r =>
      if Str.is_space c then strip r
      else
        match c, r with
        | "0"%char, String "x"%char r' => strip r'
        | _, _ => String c (strip r)
        end
  end.

(** [parseInt(chunk, 16) ^ 0] *)
Definition parse_word (chunk : string) : Z :=
  match Str.parseInt16 chunk with
  | Some v => JS.xor v 0
  | None => 0
  end.

(** [for (i = 0; i < str.length; i += 8) out.push(...)] *)
Fixpoint words (fuel : nat) (s : string) : list Z :=
  match fuel, s with
  | O, _ | _, EmptyString => []
  | S f, _ => parse_word (Str.take 8 s) :: words f (Str.drop 8 s)
  end.

Definition toBits (str : string) : list Z :=
  let str := strip str in
  let len := String.length str in
  let str := (str ++ "00000000")%string in
  bitArray.clamp (words (String.length str) str) (Z.of_nat len * 4).

End hex.

(** ** Effects: the random generator and the block cipher

    Code that draws random words or calls the cipher runs in [M]: it
    threads a [world] holding the words [sjcl.random] will deliver next
    and the log of cipher-block operations performed so far, and it may
    throw. *)

Inductive event : Type :=
| AesEncrypt (key block : list Z)
| AesDecrypt (key block : list Z).

Definition is_decrypt (e : event) : bool :=
  match e with AesDecrypt _ _ => true | AesEncrypt _ _ => false end.

Record world : Type := mkWorld {
  entropy : list Z;
  trace : list event
}.

Definition M (A : Type) : Type := world -> result A * world.

Definition ret {A} (a : A) : M A := fun w => (Ok a, w).
Definition throw {A} (e : exn) : M A := fun w => (Throw e, w).
Definition bind {A B} (m : M A) (k : A -> M B) : M B :=
  fun w => match m w with
           | (Ok a, w') => k a w'
           | (Throw e, w') => (Throw e, w')
           end.
Definition lift {A} (r : result A) : M A := fun w => (r, w).
Definition log (e : event) : M unit :=
  fun w => (Ok tt, mkWorld (entropy w) (trace w ++ [e])).

Declare Scope eff_scope.
Delimit Scope eff_scope with eff.
Notation "x <- m ;; k" := (bind m (fun x => k))
  (at level 61, m at next level, right associativity) : eff_scope.
Notation "'ensure' c 'else' e ;; k" := (if c then k else throw e)
  (at level 61, c at level 200, e at level 200, right associativity) : eff_scope.

(** Modelled from the spec: the AES primitive is library-provided and out
    of scope; it is an arbitrary keyed permutation of four-word blocks. *)
Class BlockCipher : Type := {
  block_encrypt : list Z -> list Z -> list Z;
  block_decrypt : list Z -> list Z -> list Z
}.

Definition int32 (x : Z) : Prop := - 2 ^ 31 <= x < 2 ^ 31.

Class BlockCipherLaws (C : BlockCipher) : Prop := {
  encrypt_block_words :
    forall k b, List.length (block_encrypt k b) = 4%nat
                /\ Forall int32 (block_encrypt k b);
  decrypt_encrypt_block :
    forall k b, List.length b = 4%nat -> Forall int32 b ->
                block_decrypt k (block_encrypt k b) = b
}.

(** A keyed permutation used to instantiate the cipher in examples: the
    block is XORed with the first four key words. *)
Definition xor_key (k b : list Z) : list Z :=
  [JS.xor (JS.get b 0) (JS.get k 0); JS.xor (JS.get b 1) (JS.get k 1);
   JS.xor (JS.get b 2) (JS.get k 2); JS.xor (JS.get b 3) (JS.get k 3)].

Definition xor_cipher : BlockCipher :=
  {| block_encrypt := xor_key; block_decrypt := xor_key |}.

Module sjcl.
Local Open Scope eff_scope.

(** Modelled from the spec: [sjcl.random.randomWords(n)], the CSPRNG
    producing 32-bit words.  It throws [notReady] when the generator
    cannot deliver. *)
Definition randomWords (n : nat) : M (list Z) :=
  fun w =>
    if Nat.ltb (List.length (entropy w)) n then (Throw SjclNotReady, w)
    else (Ok (List.map (fun x => JS.or x 0) (firstn n (entropy w))),
          mkWorld (skipn n (entropy w)) (trace w)).

(** Modelled from the spec: [new sjcl.cipher.aes(key)] accepts keys of
    4, 6 or 8 words; its [encrypt] and [decrypt] take one block of four
    words. *)
Record cipher : Type := { cipher_key : list Z }.

Definition aes (key : list Z) : result cipher :=
  let n := List.length key in
  if Nat.eqb n 4 || Nat.eqb n 6 || Nat.eqb n 8 then Ok {| cipher_key := key |}
  else Throw (SjclInvalid "invalid aes key size").

Section Cipher.
Context {C : BlockCipher}.

Definition encrypt (a : cipher) (block : list Z) : M (list Z) :=
  ensure Nat.eqb (List.length block) 4
  else SjclInvalid "invalid aes block size" ;;
  _ <- log (AesEncrypt (cipher_key a) block) ;;
  ret (block_encrypt (cipher_key a) block).

Definition decrypt (a : cipher) (block : list Z) : M (list Z) :=
  ensure Nat.eqb (List.length block) 4
  else SjclInvalid "invalid aes block size" ;;
  _ <- log (AesDecrypt (cipher_key a) block) ;;
  ret (block_decrypt (cipher_key a) block).
End Cipher.

End sjcl.

(** ** eb.misc *)

(** A value that the code accepts as number, hex-coded string or
    bitArray ([typeof x === 'number'], ['string'], otherwise). *)
Inductive input : Type :=
| InNum (n : Z)
| InStr (s : string)
| InBits (a : list Z).

Module misc.
Local Open Scope result_scope.

Definition xor (x y : list Z) : list Z :=
  [JS.xor (JS.get x 0) (JS.get y 0); JS.xor (JS.get x 1) (JS.get y 1);
   JS.xor (JS.get x 2) (JS.get y 2); JS.xor (JS.get x 3) (JS.get y 3)].

(** [x.trim().replace(/^0x/, '')] followed by the test against
    [/^[0-9A-Fa-f]+$/]. *)
Definition hex_string (x : string) : result string :=
  let x := Str.trim x in
  let x := match x with
           | String "0"%char (String "x"%char r) => r
           | _ => x
           end in
  ensure negb (String.length x =? 0)%nat && Str.forallb Str.is_hex x
  else EbInvalid "Invalid hex coded number" ;;
  Ok x.

Definition inputToBits (x : input) : result (list Z) :=
  match x with
  | InNum n => Ok (hex.toBits (sprintf.x 2 n))
  | InStr s => x <- hex_string s ;; Ok (hex.toBits x)
  | InBits a => Ok a
  end.

(** [inputToHexNum(x)] with [noThrow] unset.  A validated hex string
    always parses, so the [NaN] case is unreachable. *)
Definition inputToHexNum (x : input) : result Z :=
  match x with
  | InNum n => Ok n
  | InStr s =>
      x <- hex_string s ;;
      match Str.parseInt16 x with Some v => Ok v | None => Ok 0 end
  | InBits _ => Throw (EbInvalid "Invalid argument - not a number or string")
  end.

Definition getZeroBits (bitLength : Z) : list Z :=
  if bitLength <=? 0 then []
  else
    (* bs = [0 x 8]; for (i = 256; i < bitLength; i += 32) bs.push(0) *)
    let extra := if 256 <? bitLength then JS.ceil_div (bitLength - 256) 32 else 0 in
    bitArray.bitSlice (List.repeat 0 (8 + Z.to_nat extra)) 0 (Some bitLength).

Definition replacePart (buffer : list Z) (offsetStartBit offsetEndBit : Z)
    (replacement : list Z) : list Z :=
  let ba := bitArray.concat
              (bitArray.bitSlice buffer 0 (Some offsetStartBit)) replacement in
  bitArray.concat ba (bitArray.bitSlice buffer offsetEndBit None).

Definition transformPart (buffer : list Z) (offsetStartBit offsetEndBit : Z)
    (fction : list Z -> list Z) : list Z :=
  let slice := bitArray.bitSlice buffer offsetStartBit (Some offsetEndBit) in
  let ba := bitArray.concat
              (bitArray.bitSlice buffer 0 (Some offsetStartBit)) (fction slice) in
  bitArray.concat ba (bitArray.bitSlice buffer offsetEndBit None).

(** [x.trim().replace(/[\s]+/g, '').replace(/^0x/, '')], then a leading
    ["0"] when the length is odd. *)
Fixpoint remove_spaces (s : string) : string :=
  match s with
  | EmptyString => EmptyString
  | String c r => if Str.is_space c then remove_spaces r
                  else String c (remove_spaces r)
  end.

Definition padHexToEven (x : string) : string :=
  let x := remove_spaces (Str.trim x) in
  let x := match x with
           | String "0"%char (String "x"%char r) => r
           | _ => x
           end in
  if Nat.odd (String.length x) then String "0"%char x else x.

(** [inputToHex(x)]; a number is written with [sprintf("%x", x)]. *)
Definition inputToHex (x : input) : result string :=
  match x with
  | InNum n => Ok (sprintf.x 0 n)
  | InStr s => hex_string s
  | InBits a => Ok (hex.fromBits a)
  end.

(** [getRandomBits(bitLength)]:
    [clamp(randomWords(Math.ceil(bitLength / 32)), bitLength)]. *)
Definition getRandomBits (bitLength : Z) : M (list Z) :=
  bind (sjcl.randomWords (Z.to_nat (JS.ceil_div bitLength 32)))
       (fun ws => ret (bitArray.clamp ws bitLength)).

(** [numberToBits(num, bitSize)] *)
Definition numberToBits (num bitSize : Z) : result (list Z) :=
  ensure negb (32 <? bitSize)
  else EbInvalid "num can be maximally 32bit wide" ;;
  if bitSize =? 32 then Ok [num]
  else Ok (bitArray.bitSlice [num] (32 - bitSize) (Some 32)).

(** [serialize64bit(num)] for an integer [num]:
    [[Math.floor(num / 0x100000000), (num | 0)]]. *)
Definition serialize64bit (num : Z) : list Z :=
  [num / 0x100000000; JS.or num 0].

(** [deserialize64bit(arr, offset)]; [offset = offset || 0]. *)
Definition deserialize64bit (arr : list Z) (offset : option Z) : Z :=
  let offset := match offset with None => 0 | Some o => o end in
  let hi := bitArray.extract32 arr offset in
  let lo := bitArray.extract32 arr (offset + 32) in
  hi * 0x100000000 + lo + (if lo <? 0 then 0x100000000 else 0).

(** [padHexToSize(x, size)] *)
Definition padHexToSize (x : string) (size : Z) : string :=
  let x := remove_spaces (Str.trim x) in
  let x := match x with
           | String "0"%char (String "x"%char r) => r
           | _ => x
           end in
  if Z.of_nat (String.length x) <? size
  then (Str.repeat "0"%char (Z.to_nat (size - Z.of_nat (String.length x))) ++ x)%string
  else x.

(** [padToBlockSize(x, bs)]: [x + (bs - (x % bs))] on integers; [None]
    is [NaN], the result for [bs = 0]. *)
Definition padToBlockSize (x bs : Z) : option Z :=
  if bs =? 0 then None else Some (x + (bs - Z.rem x bs)).

End misc.

(** ** eb.padding *)

Module padding.
(** A padding strategy, as passed to [sjcl.misc.hmac_cbc]. *)
Record scheme : Type := {
  pad : list Z -> option Z -> result (list Z);
  unpad : list Z -> option Z -> result (list Z)
}.

(** [eb.padding.empty] *)
Definition empty : scheme :=
  {| pad := fun a _ => Ok a; unpad := fun a _ => Ok a |}.
End padding.

Module pkcs7.
Local Open Scope result_scope.

(** [blocklen = blocklen || 16] and the two checks that follow. *)
Definition check_blocklen (blocklen : option Z) : result unit :=
  let blocklen := match blocklen with
                  | None => 16
                  | Some b => if b =? 0 then 16 else b
                  end in
  ensure (negb (blocklen =? 0)) && (JS.and blocklen (blocklen - 1) =? 0)
  else SjclCorrupt "blocklength has to be power of 2" ;;
  ensure blocklen =? 16
  else SjclCorrupt "blocklength different than 16 is not implemented yet" ;;
  Ok tt.

Definition pad (a : list Z) (blocklen : option Z) : result (list Z) :=
  _ <- check_blocklen blocklen ;;
  let bl := bitArray.bitLength a in
  let padLen := 16 - JS.and (JS.sar bl 3) 15 in
  let padFill := padLen * 0x1010101 in
  Ok (JS.slice (bitArray.concat a [padFill; padFill; padFill; padFill])
        0 (JS.sar (JS.sar bl 3 + padLen) 2)).

Definition unpad (a : list Z) (blocklen : option Z) : result (list Z) :=
  _ <- check_blocklen blocklen ;;
  let bl := bitArray.bitLength a in
  ensure (JS.and bl 127 =? 0) && negb (Nat.eqb (List.length a) 0)
  else SjclCorrupt "input must be a positive multiple of the block size" ;;
  let bi := JS.and (JS.get a (JS.sar (JS.sar bl 3) 2 - 1)) 255 in
  ensure negb ((bi =? 0) || (16 <? bi))
  else SjclCorrupt "pkcs#5 padding corrupt" ;;
  let bo := bi * 0x1010101 in
  let n5 := JS.shl (Z.of_nat (List.length a)) 5 in
  ensure bitArray.equal
           (bitArray.bitSlice [bo; bo; bo; bo] 0 (Some (JS.shl bi 3)))
           (bitArray.bitSlice a (n5 - JS.shl bi 3) (Some n5))
  else SjclCorrupt "pkcs#5 padding corrupt" ;;
  Ok (bitArray.bitSlice a 0 (Some (n5 - JS.shl bi 3))).

Definition scheme : padding.scheme := {| padding.pad := pad; padding.unpad := unpad |}.
End pkcs7.

Module pkcs15.
Local Open Scope eff_scope.

(** [do { curByte = randomWords(1)[0] & 0xff } while (curByte === 0)]:
    words are drawn until one has a non-zero low byte. *)
Fixpoint nonzero_byte (pool : list Z) : option (Z * list Z) :=
  match pool with
  | [] => None
  | w :: r =>
      let b := JS.and w 0xff in
      if b =? 0 then nonzero_byte r else Some (b, r)
  end.

Definition random_nonzero_byte : M Z :=
  fun w =>
    match nonzero_byte (entropy w) with
    | Some (b, r) => (Ok b, mkWorld r (trace w))
    | None => (Throw SjclNotReady, mkWorld [] (trace w))
    end.

(** The loop [for (i = 0; i < psLen; i++)] building the padding string
    [ps] four bytes to a word; returns [ps] and the pending [tmp]. *)
Fixpoint ps_loop (n : nat) (i : Z) (bt : Z) (ps : list Z) (tmp : Z)
  : M (list Z * Z) :=
  match n with
  | O => ret (ps, tmp)
  | S n' =>
      curByte <- (if bt =? 1 then ret 0xff
                  else if bt =? 2 then random_nonzero_byte
                  else ret 0) ;;
      let tmp := JS.or (JS.shl tmp 8) curByte in
      if JS.and i 3 =? 3 then ps_loop n' (i + 1) bt (ps ++ [tmp]) 0
      else ps_loop n' (i + 1) bt ps tmp
  end.

(** [pad(a, blockLength, bt)]; [bt = None] is the call without [bt]. *)
Definition pad (a : list Z) (blockLength : Z) (bt : option Z) : M (list Z) :=
  let bl := bitArray.bitLength a in
  let bt := match bt with None => 0 | Some bt => bt end in
  ensure (JS.and bl 7 =? 0) && negb (Nat.eqb (List.length a) 0)
  else SjclCorrupt "input type has to have be byte padded" ;;
  ensure (bt =? 0) || (bt =? 1) || (bt =? 2)
  else SjclCorrupt "invalid BT size" ;;
  let blb := bl / 8 in
  ensure blb + 3 <=? blockLength
  else SjclCorrupt "data to pad is too big for the padding block length" ;;
  let psLen := blockLength - 3 - blb in
  r <- ps_loop (Z.to_nat psLen) 0 bt [] 0 ;;
  let '(ps, tmp) := r in
  let i := psLen in
  let ps := if JS.and i 3 =? 0 then ps
            else ps ++ [bitArray.partial (8 * JS.and i 3) tmp false] in
  let baBuff := [bitArray.partial 8 0 false] in
  let baBuff := bitArray.concat baBuff [bitArray.partial 8 bt false] in
  let baBuff := bitArray.concat baBuff ps in
  let baBuff := bitArray.concat baBuff [bitArray.partial 8 0 false] in
  ret (bitArray.concat baBuff a).
(** The scanning loops [for (i = 2; i < blb; i++)] of [unpad], one per
    block type; [n] is the number of bytes still to visit.  The result
    is [dataPosStart] ([-1] when the loop runs out) and [ffCorrect]. *)
Fixpoint scan (a : list Z) (bt : Z) (n : nat) (i : Z) (ffCorrect : bool)
  : Z * bool :=
  match n with
  | O => (-1, ffCorrect)
  | S n' =>
      let cur := bitArray.extract a (8 * i) 8 in
      if bt =? 0 then
        if negb (cur =? 0) then (i, ffCorrect)
        else scan a bt n' (i + 1) ffCorrect
      else if bt =? 1 then
        let ffCorrect :=
          if negb (cur =? 0) && negb (cur =? 0xff) then false
          else ffCorrect in
        if cur =? 0 then (i + 1, ffCorrect)
        else scan a bt n' (i + 1) ffCorrect
      else
        if cur =? 0 then (i + 1, ffCorrect)
        else scan a bt n' (i + 1) ffCorrect
  end.

(** [unpad(a)] *)
Definition unpad (a : list Z) : result (list Z) :=
  let bl := bitArray.bitLength a in
  let blb := bl / 8 in
  (ensure (JS.and bl 7 =? 0) && negb (blb <? 3)
          && negb (Nat.eqb (List.length a) 0)
   else SjclCorrupt "data size block is invalid" ;;
   let prefixByte := bitArray.extract a 0 8 in
   ensure prefixByte =? 0
   else SjclCorrupt "data size block is invalid" ;;
   let bt := bitArray.extract a 8 8 in
   ensure (bt =? 0) || (bt =? 1) || (bt =? 2)
   else SjclCorrupt "Padding data error, BT is outside of the definition set" ;;
   let '(dataPosStart, ffCorrect) := scan a bt (Z.to_nat (blb - 2)) 2 true in
   ensure ffCorrect
   else SjclCorrupt "Trail of 0xFF in padding contains also unexpected characters" ;;
   ensure negb ((dataPosStart <? 0) || (blb <? dataPosStart))
   else SjclCorrupt "Padding could not be parsed" ;;
   Ok (bitArray.bitSlice a (dataPosStart * 8) None))%result.
End pkcs15.

(** ** sjcl.misc.hmac_cbc and sjcl.mode.cbc (as defined in eb-core.js) *)

Section Modes.
Context {C : BlockCipher}.
Local Open Scope eff_scope.

(** [new sjcl.misc.hmac_cbc(Cipher, bs, padding)] *)
Record hmac_cbc : Type := {
  _cipher : sjcl.cipher;
  _bs : Z;
  _padding : padding.scheme
}.

(** [for (i = 0; bp + bsb <= bl; i += 4, bp += bsb)
      c = cipher.encrypt(xor(c, data.slice(i, i + 4)))];
    [n] is the number of iterations left. *)
Fixpoint mac_loop (a : sjcl.cipher) (data : list Z) (n : nat) (i : Z)
    (c : list Z) : M (list Z) :=
  match n with
  | O => ret c
  | S n' =>
      c <- sjcl.encrypt a (misc.xor c (JS.slice data i (i + 4))) ;;
      mac_loop a data n' (i + 4) c
  end.

Definition mac (h : hmac_cbc) (data : list Z) : M (list Z) :=
  let bl := bitArray.bitLength data in
  let bsb := JS.shl (_bs h) 3 in
  data <- lift (padding.pad (_padding h) data (Some (_bs h))) ;;
  let c := misc.getZeroBits (_bs h * 8) in
  mac_loop (_cipher h) data (Z.to_nat (bl / bsb)) 0 c.

(** The block loop of [cbc.encrypt]; [output.splice(i, 0, c[0..3])]
    inserts at the end, as [output] holds [i] words. *)
Fixpoint cbc_encrypt_loop (a : sjcl.cipher) (b : list Z) (n : nat) (i : Z)
    (c output : list Z) : M (list Z * list Z) :=
  match n with
  | O => ret (c, output)
  | S n' =>
      c <- sjcl.encrypt a (misc.xor c (JS.slice b i (i + 4))) ;;
      cbc_encrypt_loop a b n' (i + 4) c
        (output ++ [JS.get c 0; JS.get c 1; JS.get c 2; JS.get c 3])
  end.

Definition cbc_encrypt (a : sjcl.cipher) (b c d : list Z) (noPad : bool)
  : M (list Z) :=
  ensure Nat.eqb (List.length d) 0
  else SjclInvalid "cbc can't authenticate data" ;;
  ensure bitArray.bitLength c =? 128
  else SjclInvalid "cbc iv must be 128 bits" ;;
  let bl := bitArray.bitLength b in
  ensure negb (noPad && negb (JS.and bl 127 =? 0))
  else SjclInvalid "when padding is disabled, plaintext has to be a positive multiple of a block size" ;;
  ensure JS.and bl 7 =? 0
  else SjclInvalid "pkcs#5 padding only works for multiples of a byte" ;;
  let n := Z.to_nat (bl / 128) in
  r <- cbc_encrypt_loop a b n 0 c [] ;;
  let '(c, output) := r in
  let i := 4 * Z.of_nat n in
  if noPad then ret output
  else
    let bl := (16 - JS.and (JS.sar bl 3) 15) * 0x1010101 in
    c <- sjcl.encrypt a
           (misc.xor c (JS.slice (bitArray.concat b [bl; bl; bl; bl]) i (i + 4))) ;;
    ret (output ++ [JS.get c 0; JS.get c 1; JS.get c 2; JS.get c 3]).

(** The block loop of [cbc.decrypt]:
    [for (i = 0; i < b.length; i += 4)]. *)
Fixpoint cbc_decrypt_loop (a : sjcl.cipher) (b : list Z) (n : nat) (i : Z)
    (c output : list Z) : M (list Z) :=
  match n with
  | O => ret output
  | S n' =>
      let bi := JS.slice b i (i + 4) in
      x <- sjcl.decrypt a bi ;;
      let bo := misc.xor c x in
      cbc_decrypt_loop a b n' (i + 4) bi (output ++ bo)
  end.

Definition cbc_decrypt (a : sjcl.cipher) (b c d : list Z) (noPad : bool)
  : M (list Z) :=
  ensure Nat.eqb (List.length d) 0
  else SjclInvalid "cbc can't authenticate data" ;;
  ensure bitArray.bitLength c =? 128
  else SjclInvalid "cbc iv must be 128 bits" ;;
  ensure (JS.and (bitArray.bitLength b) 127 =? 0)
         && negb (Nat.eqb (List.length b) 0)
  else SjclCorrupt "cbc ciphertext must be a positive multiple of the block size" ;;
  let n := Z.to_nat (JS.ceil_div (Z.of_nat (List.length b)) 4) in
  output <- cbc_decrypt_loop a b n 0 c [] ;;
  let i := 4 * Z.of_nat n in
  if noPad then ret output
  else
    let bi := JS.and (JS.get output (i - 1)) 255 in
    ensure negb ((bi =? 0) || (16 <? bi))
    else SjclCorrupt "pkcs#5 padding corrupt" ;;
    let bo := bi * 0x1010101 in
    let n5 := JS.shl (Z.of_nat (List.length output)) 5 in
    ensure bitArray.equal
             (bitArray.bitSlice [bo; bo; bo; bo] 0 (Some (JS.shl bi 3)))
             (bitArray.bitSlice output (n5 - JS.shl bi 3) (Some n5))
    else SjclCorrupt "pkcs#5 padding corrupt" ;;
    ret (bitArray.bitSlice output 0 (Some (n5 - JS.shl bi 3))).

End Modes.

(** ** eb.comm: nonce demangling and handles *)

Module comm.
Local Open Scope result_scope.

(** The loop of [demangleNonce]:
    [c = nonce.slice(i, i + 1)[0] - 0x01010101; output.splice(i, 0, c)].
    A missing element gives [NaN], which every later use reads as the
    word 0. *)
Fixpoint demangle_loop (nonce : list Z) (n : nat) (i : Z) (output : list Z)
  : list Z :=
  match n with
  | O => output
  | S n' =>
      let c := match JS.get_opt nonce i with
               | Some x => x - 0x01010101
               | None => 0
               end in
      demangle_loop nonce n' (i + 1) (output ++ [c])
  end.

Definition demangleNonce (nonce : list Z) : result (list Z) :=
  let bl := bitArray.bitLength nonce in
  ensure JS.and bl 7 =? 0
  else SjclInvalid "nonce has to be aligned to bytes" ;;
  (* for (i = 0; bp + 32 <= bl; i += 1, bp += 32) *)
  let n := Z.to_nat (bl / 32) in
  let output := demangle_loop nonce n 0 [] in
  let i := Z.of_nat n in
  let bp := 32 * i in
  if bp + 32 =? bl then Ok output
  else
    let rbl := bl - (bp - 32) in
    let sub := JS.and 0x01010101 (JS.shl (JS.shl 1 rbl - 1) (32 - rbl)) in
    (* (NaN - sub) >>> rbl is 0 *)
    let c := match JS.get_opt nonce i with
             | Some x => JS.shr (x - sub) rbl
             | None => 0
             end in
    Ok (bitArray.clamp (output ++ [c]) bl).

(** [getUoHandle(apiKey, uoId, uoType)]; [None] is an omitted argument. *)
Definition getUoHandle (apiKey : string) (uoId uoType : option input)
  : result string :=
  match uoId with
  | None => Ok apiKey
  | Some uoId =>
      let uoType := match uoType with None => InNum 0 | Some t => t end in
      id <- misc.inputToHexNum uoId ;;
      ty <- misc.inputToHexNum uoType ;;
      Ok (apiKey ++ "00" ++ sprintf.x 8 id ++ "00" ++ sprintf.x 8 ty)%string
  end.

Record handle : Type := {
  apiKey : string;
  uoId : string;
  uoType : option string
}.

(** The character class [[a-zA-Z0-9_-]]. *)
Definition is_key_char (c : ascii) : bool :=
  let n := Z.of_nat (nat_of_ascii c) in
  ((97 <=? n) && (n <=? 122)) || ((65 <=? n) && (n <=? 90))
  || ((48 <=? n) && (n <=? 57)) || (n =? 95) || (n =? 45).

(** [00([0-9a-fA-F]{8})] at the start of [s]: the group and the rest. *)
Definition match_00_hex8 (s : string) : option (string * string) :=
  match s with
  | String "0"%char (String "0"%char r) =>
      let g := Str.take 8 r in
      if Nat.eqb (String.length g) 8 && Str.forallb Str.is_hex g
      then Some (g, Str.drop 8 r)
      else None
  | _ => None
  end.

(** [00([0-9a-fA-F]{8})(?:00([0-9a-fA-F]{8}))?$]: the optional group is
    greedy, so it is tried first. *)
Definition match_tail (s : string) : option (string * option string) :=
  match match_00_hex8 s with
  | None => None
  | Some (id, r) =>
      match match_00_hex8 r with
      | Some (ty, EmptyString) => Some (id, Some ty)
      | _ => match r with
             | EmptyString => Some (id, None)
             | _ => None
             end
      end
  end.

(** [^([a-zA-Z0-9_-]+?)...]: the lazy group takes one character, then
    as few more as allow the tail to match; [key] is the part of the
    group read so far. *)
Fixpoint match_handle (key s : string) : option handle :=
  match s with
  | EmptyString => None
  | String c r =>
      if is_key_char c then
        let key := (key ++ String c EmptyString)%string in
        match match_tail r with
        | Some (id, ty) => Some {| apiKey := key; uoId := id; uoType := ty |}
        | None => match_handle key r
        end
      else None
  end.

Definition parseHandle (h : string) : result handle :=
  match match_handle EmptyString h with
  | Some res => Ok res
  | None => Throw (EbInvalid "Invalid handle")
  end.

End comm.

(** ** eb.comm.processDataRequestBodyBuilder and processDataResponseParser

    The [_log] calls only report intermediate values when debugging is
    switched on and are left out. *)

Module processData.
Local Open Scope eff_scope.

(** [genNonce(length, alphabet)]: one random word per character,
    [alphabet.charAt((w & 0xffff) % alphabetLen)]. *)
Definition genNonce (length : nat) (alphabet : string) : M string :=
  ws <- sjcl.randomWords length ;;
  ret (Str.concat
         (List.map (fun w =>
            Str.substr alphabet
              (JS.and w 0xffff mod Z.of_nat (String.length alphabet)) 1) ws)).

Definition genHexNonce (length : nat) : M string :=
  genNonce length "0123456789abcdef".

(** The fields set by the constructor; an absent [nonce], [aesKey] or
    [macKey] is the empty string and an absent [reqType] is "PLAINAES". *)
Record builder : Type := {
  nonce : input;
  aesKey : input;
  macKey : input;
  userObjectId : input;
  reqType : string
}.

(** JavaScript truthiness of a [number | string | array]. *)
Definition truthy (x : input) : bool :=
  match x with
  | InNum n => negb (n =? 0)
  | InStr s => negb (Nat.eqb (String.length s) 0)
  | InBits _ => true
  end.

Section Build.
Context {C : BlockCipher}.

Definition build (this : builder) (plainData requestData : list Z)
  : M string :=
  nonce <- (if truthy (nonce this) then ret (nonce this)
            else s <- genHexNonce 16 ;; ret (InStr s)) ;;
  let baPlain := plainData in
  let plainDataLength := JS.trunc_div (bitArray.bitLength baPlain) 8 in
  let baBuff := [bitArray.partial 8 0x1f false] in
  uoid <- lift (misc.inputToHexNum (userObjectId this)) ;;
  let baBuff := bitArray.concat baBuff [uoid] in
  nonceBits <- lift (misc.inputToBits nonce) ;;
  let baBuff := bitArray.concat baBuff nonceBits in
  let baBuff := bitArray.concat baBuff requestData in
  baBuff <- lift (pkcs7.pad baBuff None) ;;
  aesKeyBits <- lift (misc.inputToBits (aesKey this)) ;;
  macKeyBits <- lift (misc.inputToBits (macKey this)) ;;
  aes <- lift (sjcl.aes aesKeyBits) ;;
  aesMac <- lift (sjcl.aes macKeyBits) ;;
  let hmac := {| _cipher := aesMac; _bs := 16; _padding := padding.empty |} in
  let IV := [0; 0; 0; 0] in
  encryptedData <- cbc_encrypt aes baBuff IV [] true ;;
  hmacData <- mac hmac encryptedData ;;
  ret ("Packet0_" ++ reqType this ++ "_"
         ++ sprintf.X 4 plainDataLength
         ++ hex.fromBits plainData
         ++ hex.fromBits encryptedData
         ++ hex.fromBits hmacData)%string.
End Build.

(** The JSON object received from the service. *)
Record json : Type := {
  json_status : option string;
  json_statusdetail : option string;
  json_function : option string;
  json_result : option string
}.

(** [eb.comm.processDataResponse]; [statusCode = None] is [NaN]. *)
Record response : Type := {
  statusCode : option Z;
  statusDetail : string;
  function_name : string;
  raw_result : option string;
  plainData : list Z;
  protectedData : list Z;
  userObjectID : Z;
  resp_nonce : list Z;
  resp_mac : list Z;
  computedMac : list Z
}.

Definition nonempty (s : option string) : bool :=
  match s with
  | Some (String _ _) => true
  | _ => false
  end.

Definition or_empty (s : option string) : string :=
  match s with Some s => s | None => EmptyString end.

(** [parseCommonHeaders] on a fresh response object. *)
Definition parseCommonHeaders (data : json) : result response :=
  if nonempty (json_status data) && nonempty (json_function data) then
    Ok {| statusCode := Str.parseInt16 (or_empty (json_status data));
          statusDetail := or_empty (json_statusdetail data);
          function_name := or_empty (json_function data);
          raw_result := json_result data;
          plainData := []; protectedData := []; userObjectID := 0;
          resp_nonce := []; resp_mac := []; computedMac := [] |}
  else Throw (SjclInvalid "response data invalid").

(** [isCodeOk]: [statusCode == eb.comm.status.SW_STAT_OK] *)
Definition isCodeOk (r : response) : bool :=
  match statusCode r with Some c => c =? 0x9000 | None => false end.

(** The parser object holds the two keys. *)
Record parser : Type := {
  parser_aesKey : input;
  parser_macKey : input
}.

Section Parse.
Context {C : BlockCipher}.

Definition parse (this : parser) (data : json) : M response :=
  resp <- lift (parseCommonHeaders data) ;;
  if negb (isCodeOk resp) then ret resp
  else
    resultBuffer <- lift (match raw_result resp with
                          | Some s => Ok s
                          | None => Throw TypeError
                          end) ;;
    let baResult := hex.toBits (Str.substring0 resultBuffer
                                  (Str.indexOf "_" resultBuffer)) in
    let plainLen := bitArray.extract baResult 0 (2 * 8) in
    let plainBits := bitArray.bitSlice baResult (2 * 8)
                       (Some (2 * 8 + plainLen * 8)) in
    let protectedBits := bitArray.bitSlice baResult (2 * 8 + plainLen * 8) None in
    let protectedBitsBl := bitArray.bitLength protectedBits in
    aesKeyBits <- lift (misc.inputToBits (parser_aesKey this)) ;;
    macKeyBits <- lift (misc.inputToBits (parser_macKey this)) ;;
    aes <- lift (sjcl.aes aesKeyBits) ;;
    aesMac <- lift (sjcl.aes macKeyBits) ;;
    let hmac := {| _cipher := aesMac; _bs := 16; _padding := padding.empty |} in
    (* Verify MAC. *)
    let macTagOffset := protectedBitsBl - 16 * 8 in
    let dataToMac := bitArray.bitSlice protectedBits 0 (Some macTagOffset) in
    ensure JS.and (bitArray.bitLength dataToMac) 127 =? 0
    else SjclCorrupt "Padding size invalid" ;;
    let mac_ := bitArray.bitSlice protectedBits macTagOffset None in
    ensure bitArray.bitLength mac_ =? 16 * 8
    else SjclCorrupt "MAC corrupted" ;;
    computed <- mac hmac dataToMac ;;
    ensure bitArray.equal mac_ computed
    else SjclCorrupt "Padding is not valid" ;;
    (* Decrypt. *)
    let dataToDecrypt := bitArray.bitSlice protectedBits 0 (Some macTagOffset) in
    ensure JS.and (bitArray.bitLength dataToDecrypt) 127 =? 0
    else SjclCorrupt "Ciphertext block invalid" ;;
    let IV := [0; 0; 0; 0] in
    decryptedData <- cbc_decrypt aes dataToDecrypt IV [] false ;;
    (* Check the flag. *)
    let responseFlag := bitArray.extract decryptedData 0 8 in
    ensure responseFlag =? 0xf1
    else SjclCorrupt "Given data packet is not a response (flag mismatch)" ;;
    let returnedMangledNonce :=
      bitArray.bitSlice decryptedData (5 * 8) (Some (5 * 8 + 8 * 8)) in
    nonce <- lift (comm.demangleNonce returnedMangledNonce) ;;
    ret {| statusCode := statusCode resp;
           statusDetail := statusDetail resp;
           function_name := function_name resp;
           raw_result := raw_result resp;
           plainData := plainBits;
           protectedData := bitArray.bitSlice decryptedData (5 * 8 + 8 * 8) None;
           userObjectID := bitArray.extract32 decryptedData 8;
           resp_nonce := nonce;
           resp_mac := mac_;
           computedMac := computed |}.
End Parse.

(** [isMacOk]: both tags are set, both are 128 bits long and they are
    equal.  The fields start as the empty string, which is falsy; an
    empty array in their place fails the length test, so both readings
    agree. *)
Definition isMacOk (r : response) : bool :=
  (bitArray.bitLength (resp_mac r) =? 16 * 8)
  && (bitArray.bitLength (computedMac r) =? 16 * 8)
  && bitArray.equal (resp_mac r) (computedMac r).

End processData.

(** ** src/public/enigma.js: the helpers of the demo page

    The page carries its own copies of the PKCS#7 padding and of two
    string helpers.  A JavaScript string is taken as the list of its
    UTF-16 code units where its characters matter beyond ASCII. *)

Module enigma.
Local Open Scope result_scope.

(** [eb.padding.pkcs7.pad(a)] of the page: an input that already fills
    its last block is returned as it is. *)
Definition pad (a : list Z) : list Z :=
  let bl := bitArray.bitLength a in
  let padLen := 16 - JS.and (JS.sar bl 3) 15 in
  if padLen =? 16 then a
  else
    let padFill := padLen * 0x1010101 in
    JS.slice (bitArray.concat a [padFill; padFill; padFill; padFill])
      0 (JS.sar (JS.sar bl 3 + padLen) 2).

(** [eb.padding.pkcs7.unpad(a)] of the page. *)
Definition unpad (a : list Z) : result (list Z) :=
  let bl := bitArray.bitLength a in
  ensure (JS.and bl 127 =? 0) && negb (Nat.eqb (List.length a) 0)
  else SjclCorrupt "input must be a positive multiple of the block size" ;;
  let bi := JS.and (JS.get a (JS.sar (JS.sar bl 3) 2 - 1)) 255 in
  ensure negb ((bi =? 0) || (16 <? bi))
  else SjclCorrupt "pkcs#5 padding corrupt" ;;
  let bo := bi * 0x1010101 in
  let n5 := JS.shl (Z.of_nat (List.length a)) 5 in
  ensure bitArray.equal
           (bitArray.bitSlice [bo; bo; bo; bo] 0 (Some (JS.shl bi 3)))
           (bitArray.bitSlice a (n5 - JS.shl bi 3) (Some n5))
  else SjclCorrupt "pkcs#5 padding corrupt" ;;
  Ok (bitArray.bitSlice a 0 (Some (n5 - JS.shl bi 3))).

(** [s.slice(-n)]: the last [n] characters. *)
Definition slice_last (n : nat) (s : string) : string :=
  Str.drop (String.length s - n) s.

(** [String.prototype.hexEncode]: every code unit as four hexadecimal
    digits, [("000" + c.toString(16)).slice(-4)]. *)
Definition hexEncode (this : list Z) : string :=
  Str.concat
    (List.map (fun c => slice_last 4 ("000" ++ Str.toString16 c)%string) this).

(** The line terminators among the 8-bit characters, which [.] in a
    regular expression does not match. *)
Definition is_line_terminator (c : ascii) : bool :=
  let n := Z.of_nat (nat_of_ascii c) in (n =? 10) || (n =? 13).

(** [this.match(/.{1,4}/g) || []]: the maximal runs of characters other
    than line terminators, cut into pieces of four; [cur] is the piece
    being read. *)
Fixpoint chunks4 (s : string) (cur : string) : list string :=
  match s with
  | EmptyString =>
      match cur with EmptyString => [] | _ => [cur] end
  | String c r =>
      if is_line_terminator c then
        match cur with
        | EmptyString => chunks4 r EmptyString
        | _ => cur :: chunks4 r EmptyString
        end
      else
        let cur := (cur ++ String c EmptyString)%string in
        if Nat.eqb (String.length cur) 4 then cur :: chunks4 r EmptyString
        else chunks4 r cur
  end.

(** [String.prototype.hexDecode]:
    [String.fromCharCode(parseInt(piece, 16))] for every piece;
    [fromCharCode] reduces its argument modulo [2^16] and reads [NaN]
    as 0. *)
Definition hexDecode (this : string) : list Z :=
  List.map (fun piece =>
              match Str.parseInt16 piece with
              | Some v => v mod 2 ^ 16
              | None => 0
              end)
           (chunks4 this EmptyString).

End enigma.

(** ** eb.comm.createUO: template filler *)

Module createUO.
Local Open Scope eff_scope.

Record keyoffset : Type := {
  ko_type : string;
  ko_offset : Z;
  ko_length : Z
}.

Record importkey : Type := {
  ik_id : Z;
  ik_type : string;
  ik_key : input
}.

(** The template record received from the service ([response.uot]). *)
Record template : Type := {
  objectid : string;
  encryptionoffset : Z;
  flagoffset : Z;
  keyoffsets : list keyoffset;
  importkeys : list importkey;
  template_data : input
}.

(** [options.keys]: a plain object from key type to [{key: ...}]; the
    list holds its own properties, in their order. *)
Definition keymap : Type := list (string * input).

(** [keys[k].key] for an own property [k]. *)
Fixpoint lookup (k : string) (m : keymap) : option input :=
  match m with
  | [] => None
  | (k', v) :: r => if String.eqb k k' then Some v else lookup k r
  end.

(** Modelled from the spec: the language standard gives every plain
    object the members of [Object.prototype]; these are their names. *)
Definition object_prototype_names : list string :=
  ["constructor"; "toString"; "toLocaleString"; "valueOf"; "hasOwnProperty";
   "isPrototypeOf"; "propertyIsEnumerable"; "__proto__"; "__defineGetter__";
   "__defineSetter__"; "__lookupGetter__"; "__lookupSetter__"]%string.

Definition inherited (k : string) : bool :=
  existsb (String.eqb k) object_prototype_names.

(** [k in keys]: an own property, or a member of the prototype. *)
Definition has_property (k : string) (m : keymap) : bool :=
  match lookup k m with
  | Some _ => true
  | None => inherited k
  end.

(** The loop over [keysOffset]: a slot whose type is empty or not [in
    keys], or whose key has another bit length than the slot, is
    skipped with a log message.  When the type is only an inherited
    member of [keys], [keys[type].key] is [undefined], which
    [inputToBits] hands back and on which [bitLength] throws. *)
Fixpoint fill_keys (keysOffset : list keyoffset) (keys : keymap)
    (ba : list Z) (appKeyProvided : bool) : result (list Z * bool) :=
  match keysOffset with
  | [] => Ok (ba, appKeyProvided)
  | cKeyOff :: rest =>
      if Nat.eqb (String.length (ko_type cKeyOff)) 0
         || negb (has_property (ko_type cKeyOff) keys)
      then fill_keys rest keys ba appKeyProvided
      else
        match lookup (ko_type cKeyOff) keys with
        | None => Throw TypeError
        | Some cKey =>
            rbind (misc.inputToBits cKey) (fun cKeyVal =>
            if negb (bitArray.bitLength cKeyVal =? ko_length cKeyOff)
            then fill_keys rest keys ba appKeyProvided
            else
              let appKeyProvided :=
                if String.eqb (ko_type cKeyOff) "app" then true
                else appKeyProvided in
              fill_keys rest keys
                (misc.replacePart ba (ko_offset cKeyOff)
                   (ko_offset cKeyOff + ko_length cKeyOff) cKeyVal)
                appKeyProvided)
        end
  end.

(** The function passed to [transformPart]: clear the "generate
    communication key" bit, and the "generate application key" bit when
    an application key was supplied. *)
Definition reset_flags (appKeyProvided : bool) (x : list Z) : list Z :=
  let num := bitArray.extract x 0 8 in
  let num := JS.and num (JS.not 0x8) in
  let num := if appKeyProvided then JS.and num (JS.not 0x10) else num in
  [bitArray.partial 8 num false].

(** The template blob after key filling and flag reset, before it is
    split at [encryptionoffset] and encrypted. *)
Definition patch (tpl : template) (keys : keymap) : result (list Z) :=
  rbind (misc.inputToBits (template_data tpl)) (fun ba =>
  rbind (fill_keys (keyoffsets tpl) keys ba false) (fun r =>
  let '(ba, appKeyProvided) := r in
  Ok (misc.transformPart ba (flagoffset tpl + 8) (flagoffset tpl + 16)
        (reset_flags appKeyProvided)))).

(** [_getBestImportKey]: the first rsa2048 key, else the first rsa1024
    key, else [undefined]. *)
Definition getBestImportKey (importKeys : list importkey) : option importkey :=
  match find (fun k => String.eqb (ik_type k) "rsa2048") importKeys with
  | Some k => Some k
  | None => find (fun k => String.eqb (ik_type k) "rsa1024") importKeys
  end.

(** [readSerializedPubKey]: TLV records [tag | len-2B | value];
    tag 0x81 is the exponent, 0x82 the modulus.  Each round advances
    [pos] by at least 3, so [fuel = ln] rounds suffice. *)
Fixpoint read_tlv (fuel : nat) (ba : list Z) (pos ln : Z)
    (n e : option (list Z)) : option (list Z) * option (list Z) :=
  match fuel with
  | O => (n, e)
  | S f =>
      if negb (pos <? ln) then (n, e)
      else
        let tag := bitArray.extract ba (8 * pos) 8 in
        let pos := pos + 1 in
        let len := bitArray.extract ba (8 * pos) 16 in
        let pos := pos + 2 in
        let dat := bitArray.bitSlice ba (8 * pos) (Some (8 * (pos + len))) in
        let pos := pos + len in
        if tag =? 0x81 then read_tlv f ba pos ln n (Some dat)
        else if tag =? 0x82 then read_tlv f ba pos ln (Some dat) e
        else read_tlv f ba pos ln n e
  end.

Definition readSerializedPubKey (pubKey : input)
  : result (list Z * list Z) :=
  rbind (misc.inputToBits pubKey) (fun ba =>
  let ln := bitArray.bitLength ba / 8 in
  match read_tlv (Z.to_nat ln) ba 0 ln None None with
  | (Some n, Some e) => Ok (n, e)
  | _ => Throw (EbInvalid "Could not deserialize TLV serialized public key")
  end).

(** Modelled from the spec: the big-integer primitives (jsbn) are
    library-provided; [msg.modPowInt(exp, mod)] is [msg^exp mod mod],
    computed by square and multiply, and 1 when [exp] is outside
    [1 .. 0xffffffff]. *)
Fixpoint pow_mod (b : Z) (e : positive) (m : Z) : Z :=
  match e with
  | xH => b mod m
  | xO e' => let r := pow_mod b e' m in (r * r) mod m
  | xI e' => let r := pow_mod b e' m in (((r * r) mod m) * b) mod m
  end.

Definition modPowInt (msg exp modulus : Z) : Z :=
  match exp with
  | Zpos e => if 0xffffffff <? exp then 1 else pow_mod msg e modulus
  | _ => 1
  end.

(** [new BigInteger(s, 16)] and [parseInt(s, 16)] on the output of the
    hex codec; an empty string gives 0, resp. [NaN]. *)
Definition hex_value (s : string) : Z := fst (Str.hex_prefix s 0 O).

Definition rsaEncrypt (input : list Z) (key : option importkey)
  : M (list Z) :=
  key <- lift (match key with Some k => Ok k | None => Throw TypeError end) ;;
  let iKeyBl := if String.eqb (ik_type key) "rsa2048" then 2048 else 1024 in
  data <- pkcs15.pad input (iKeyBl / 8) (Some 2) ;;
  pubKey <- lift (readSerializedPubKey (ik_key key)) ;;
  let '(n, e) := pubKey in
  let msg := hex_value (hex.fromBits data) in
  let modulus := hex_value (hex.fromBits n) in
  let exp := match Str.parseInt16 (hex.fromBits e) with
             | Some v => v
             | None => 0
             end in
  let res := modPowInt msg exp modulus in
  ret (hex.toBits (misc.padHexToEven (Str.toString16 res))).

Record filled : Type := {
  uo : list Z;
  keyUsed : option importkey
}.

Section Build.
Context {C : BlockCipher}.

Definition build (tpl : template) (keys : keymap) : M filled :=
  let encOffset := encryptionoffset tpl in
  ba <- lift (patch tpl keys) ;;
  let baPlain := bitArray.bitSlice ba 0 (Some encOffset) in
  let baProtected := bitArray.bitSlice ba encOffset None in
  tek <- sjcl.randomWords 8 ;;
  tmk <- sjcl.randomWords 8 ;;
  baProtected <- lift (pkcs7.pad baProtected None) ;;
  aes <- lift (sjcl.aes tek) ;;
  aesMac <- lift (sjcl.aes tmk) ;;
  let hmac := {| _cipher := aesMac; _bs := 16; _padding := padding.empty |} in
  let IV := [0; 0; 0; 0] in
  baProtected <- cbc_encrypt aes baProtected IV [] true ;;
  let ba := bitArray.concat baPlain baProtected in
  ba <- lift (pkcs7.pad ba None) ;;
  tag <- mac hmac ba ;;
  let ba := bitArray.concat ba tag in
  let iKey := getBestImportKey (importkeys tpl) in
  let baRsaEnc := bitArray.concat []
                    [match Str.parseInt16 (objectid tpl) with
                     | Some v => v
                     | None => 0
                     end] in
  let baRsaEnc := bitArray.concat baRsaEnc tek in
  let baRsaEnc := bitArray.concat baRsaEnc tmk in
  wrapped <- rsaEncrypt baRsaEnc iKey ;;
  let finalTpl := [bitArray.partial 8 0xa1 false] in
  let finalTpl := bitArray.concat finalTpl
                    [bitArray.partial 16 (bitArray.bitLength wrapped / 8) false] in
  let finalTpl := bitArray.concat finalTpl wrapped in
  let finalTpl := bitArray.concat finalTpl [bitArray.partial 8 0xa2 false] in
  let finalTpl := bitArray.concat finalTpl
                    [bitArray.partial 16 (bitArray.bitLength ba / 8) false] in
  let finalTpl := bitArray.concat finalTpl ba in
  ret {| uo := finalTpl; keyUsed := iKey |}.
End Build.

End createUO.

(** ** Specification vocabulary

    The meaning of a bitArray as a sequence of bits, well-formedness of
    the word representation, and the reference definitions the claims
    are stated against. *)

(** [n] bits of [x] from bit position [hi] downwards. *)
Fixpoint bits_from (x : Z) (hi : Z) (n : nat) : list bool :=
  match n with
  | O => []
  | S n' => Z.testbit x hi :: bits_from x (hi - 1) n'
  end.

(** The top [n] bits of the 32-bit word [x], most significant first. *)
Definition word_bits (n : nat) (x : Z) : list bool := bits_from x 31 n.

(** The bit sequence held by a bitArray: every word but the last gives 32
    bits, the last gives as many as its partial length says. *)
Fixpoint bits (a : list Z) : list bool :=
  match a with
  | [] => []
  | x :: r =>
      match r with
      | [] => word_bits (Z.to_nat (bitArray.getPartial x)) x
      | _ => word_bits 32 x ++ bits r
      end
  end.

Definition byte_bits (b : Z) : list bool := bits_from b 7 8.
Definition bytes_bits (l : list Z) : list bool := flat_map byte_bits l.

(** Value of a bit sequence read as a big-endian number. *)
Definition bits_value (l : list bool) : Z :=
  fold_left (fun acc (b : bool) => 2 * acc + (if b then 1 else 0)) l 0.

(** Bits spelled by a string of hexadecimal digits. *)
Fixpoint hex_bits (s : string) : list bool :=
  match s with
  | EmptyString => []
  | String c r =>
      bits_from (match Str.hex_val c with Some d => d | None => 0 end) 3 4
        ++ hex_bits r
  end.

(** All words taken as full 32-bit words. *)
Definition bits32 (a : list Z) : list bool := flat_map (word_bits 32) a.

(** The low [32 - n] bits of the word [x] are zero. *)
Definition low_zero (n : Z) (x : Z) : Prop :=
  forall k, 0 <= k < 32 - n -> Z.testbit x k = false.

(** The words pushed by the loop of [_shiftRight], and the carry it
    leaves. *)
Fixpoint shifted (a : list Z) (s c : Z) : list Z :=
  match a with
  | [] => []
  | x :: r => JS.or c (JS.shr x s) :: shifted r s (JS.shl x (32 - s))
  end.

Fixpoint carry_out (a : list Z) (s c : Z) : Z :=
  match a with
  | [] => c
  | x :: r => carry_out r s (JS.shl x (32 - s))
  end.

(** The [n] low hexadecimal digits of [v], most significant first. *)
Fixpoint hexn (n : nat) (v : Z) : string :=
  match n with
  | O => EmptyString
  | S k => String (Str.hex_char ((v / 16 ^ Z.of_nat k) mod 16)) (hexn k v)
  end.

(** A full word: a number whose partial-length field rounds to 0. *)
Definition fullb (x : Z) : bool := (- 2 ^ 39 <=? x) && (x <? 2 ^ 39).

Definition int32b (x : Z) : bool := (- 2 ^ 31 <=? x) && (x <? 2 ^ 31).

(** An admissible last word: full, or a partial word of 1 to 31 bits
    whose unused low bits are zero. *)
Definition lastb (x : Z) : bool :=
  fullb x
  || (let len := (x + 2 ^ 39) / 2 ^ 40 in
      let v := x - len * 2 ^ 40 in
      (1 <=? len) && (len <=? 31) && int32b v && (v mod 2 ^ (32 - len) =? 0)).

Fixpoint wfb (a : list Z) : bool :=
  match a with
  | [] => true
  | x :: r =>
      match r with
      | [] => lastb x
      | _ => fullb x && wfb r
      end
  end.

(** Well-formed bitArray. *)
Definition wf (a : list Z) : Prop := wfb a = true.

(** A canonical bitArray: well-formed, and every full word is a signed
    32-bit integer, as produced by the bitwise operators. *)
Definition lastcb (x : Z) : bool :=
  int32b x
  || (let len := (x + 2 ^ 39) / 2 ^ 40 in
      let v := x - len * 2 ^ 40 in
      (1 <=? len) && (len <=? 31) && int32b v && (v mod 2 ^ (32 - len) =? 0)).

Fixpoint canonb (a : list Z) : bool :=
  match a with
  | [] => true
  | x :: r =>
      match r with
      | [] => lastcb x
      | _ => int32b x && canonb r
      end
  end.

Definition canon (a : list Z) : Prop := canonb a = true.

(** A bitArray that holds whole bytes. *)
Definition byte_aligned (a : list Z) : Prop :=
  wf a /\ (bitArray.bitLength a mod 8 = 0).

(** Number of bytes of a byte-aligned bitArray. *)
Definition byte_length (a : list Z) : Z := bitArray.bitLength a / 8.

(** CBC over whole blocks, after section 4.C of the spec:
    [c_i = AES(k, c_{i-1} xor p_i)]; the CBC-MAC is the last block of
    the same recurrence started from the zero block. *)
Fixpoint blocks_of (a : list Z) : list (list Z) :=
  match a with
  | x0 :: x1 :: x2 :: x3 :: r => [x0; x1; x2; x3] :: blocks_of r
  | _ => []
  end.

Section Reference.
Context {C : BlockCipher}.

Fixpoint CBC_spec (k c : list Z) (blocks : list (list Z)) : list (list Z) :=
  match blocks with
  | [] => []
  | p :: r =>
      let c' := block_encrypt k (misc.xor c p) in
      c' :: CBC_spec k c' r
  end.

Definition CBC_encrypt_spec (k iv p : list Z) : list Z :=
  List.concat (CBC_spec k iv (blocks_of p)).

Definition CBC_MAC_spec (k data : list Z) : list Z :=
  last (CBC_spec k [0; 0; 0; 0] (blocks_of data)) [0; 0; 0; 0].

(** The encryption events of a CBC pass over [blocks]. *)
Fixpoint CBC_events (k c : list Z) (blocks : list (list Z)) : list event :=
  match blocks with
  | [] => []
  | p :: r =>
      AesEncrypt k (misc.xor c p)
        :: CBC_events k (block_encrypt k (misc.xor c p)) r
  end.
End Reference.

(** ** CBC by the book

    The mode as the standard defines it, written without the code:
    every block is combined with the previous cipher block (first the
    IV) by the bitwise exclusive or of their 32-bit words, and the
    outcome is encrypted; the MAC is the last cipher block of the pass
    with a zero IV. *)

Definition xor_words (a b : list Z) : list Z :=
  List.map (fun i => JS.ToInt32 (Z.lxor (nth i a 0) (nth i b 0))) (seq 0 4).

Section Standard.
Context {C : BlockCipher}.

Fixpoint CBC_chain (k prev : list Z) (blocks : list (list Z)) : list (list Z) :=
  match blocks with
  | [] => []
  | p :: r =>
      let c := block_encrypt k (xor_words p prev) in
      c :: CBC_chain k c r
  end.

Definition CBC_encrypt_std (k iv p : list Z) : list Z :=
  List.concat (CBC_chain k iv (blocks_of p)).

Definition CBC_MAC_std (k data : list Z) : list Z :=
  last (CBC_chain k [0; 0; 0; 0] (blocks_of data)) [0; 0; 0; 0].

(** The cipher calls of such a pass. *)
Fixpoint CBC_calls (k prev : list Z) (blocks : list (list Z)) : list event :=
  match blocks with
  | [] => []
  | p :: r =>
      AesEncrypt k (xor_words p prev)
        :: CBC_calls k (block_encrypt k (xor_words p prev)) r
  end.
End Standard.

(** The server's nonce mangling (spec 4.D): [0x01010101] is added to
    every 32-bit word; in a final partial word of [r] bits only the high
    [r] bits of the constant take part. *)
Definition mangle_word (x : Z) : Z := JS.or (x + 0x01010101) 0.

Definition mangle_last (x : Z) : Z :=
  let r := bitArray.getPartial x in
  if r =? 32 then mangle_word x
  else bitArray.partial r
         (JS.and (x + JS.and 0x01010101 (JS.sar 0x80000000 (r - 1)))
                 (JS.sar 0x80000000 (r - 1)))
         true.

Fixpoint mangle (nonce : list Z) : list Z :=
  match nonce with
  | [] => []
  | x :: r =>
      match r with
      | [] => [mangle_last x]
      | _ => mangle_word x :: mangle r
      end
  end.

(** ** The loopback of the round-trip property

    Modelled from the spec: section 8, property 1, feeds the request
    through "a loopback that swaps the [0x1F] flag for [0xF1] and adds
    [0x01010101] to the nonce".  The loopback reads the request body,
    decrypts [CT], rewrites the flag byte and the two nonce words in the
    padded frame, encrypts and MACs the result under the same keys, and
    answers with status [9000] and the body
    [plainLen ‖ plainData ‖ CT' ‖ TAG'] in hexadecimal followed by
    ["_"]. *)
Section Loopback.
Context {C : BlockCipher}.

(** CBC decryption over whole blocks: [p_i = c_{i-1} xor D(k, c_i)]. *)
Fixpoint CBC_decrypt_spec (k c : list Z) (blocks : list (list Z)) : list Z :=
  match blocks with
  | [] => []
  | b :: r => misc.xor c (block_decrypt k b) ++ CBC_decrypt_spec k b r
  end.

Definition mirror (frame : list Z) : list Z :=
  let flag := [bitArray.partial 8 0xf1 false] in
  let uoid := bitArray.bitSlice frame 8 (Some 40) in
  let nonce := bitArray.bitSlice frame 40 (Some 104) in
  let rest := bitArray.bitSlice frame 104 None in
  bitArray.concat
    (bitArray.concat (bitArray.concat flag uoid) (mangle nonce)) rest.

Definition loopback (encKey macKey : list Z) (reqType wire : string)
  : processData.json :=
  let body := Str.drop (String.length ("Packet0_" ++ reqType ++ "_")) wire in
  let ba := hex.toBits body in
  let plainLen := bitArray.extract ba 0 16 in
  let head := bitArray.bitSlice ba 0 (Some (16 + 8 * plainLen)) in
  let prot := bitArray.bitSlice ba (16 + 8 * plainLen) None in
  let ct := bitArray.bitSlice prot 0 (Some (bitArray.bitLength prot - 128)) in
  let frame := CBC_decrypt_spec encKey [0; 0; 0; 0] (blocks_of ct) in
  let ct' := CBC_encrypt_spec encKey [0; 0; 0; 0] (mirror frame) in
  let tag' := CBC_MAC_spec macKey ct' in
  {| processData.json_status := Some "9000"%string;
     processData.json_statusdetail := None;
     processData.json_function := Some "ProcessData"%string;
     processData.json_result :=
       Some (hex.fromBits (bitArray.concat (bitArray.concat head ct') tag')
             ++ "_")%string |}.
End Loopback.

(** The protected part [CT ‖ TAG] of a response body as the parser
    cuts it out, and its two halves: the trailing 16 bytes are the
    tag. *)
Definition response_protected (s : string) : list Z :=
  let baResult := hex.toBits (Str.substring0 s (Str.indexOf "_" s)) in
  let plainLen := bitArray.extract baResult 0 (2 * 8) in
  bitArray.bitSlice baResult (2 * 8 + plainLen * 8) None.

Definition response_ct (s : string) : list Z :=
  bitArray.bitSlice (response_protected s) 0
    (Some (bitArray.bitLength (response_protected s) - 16 * 8)).

Definition response_tag (s : string) : list Z :=
  bitArray.bitSlice (response_protected s)
    (bitArray.bitLength (response_protected s) - 16 * 8) None.

(** A key slot of the template is spliced when [keys] holds a value for
    its type whose bit length equals the slot length. *)
Definition spliced (keys : createUO.keymap) (ko : createUO.keyoffset) : bool :=
  if Nat.eqb (String.length (createUO.ko_type ko)) 0 then false
  else
    match createUO.lookup (createUO.ko_type ko) keys with
    | None => false
    | Some v =>
        match misc.inputToBits v with
        | Ok b => bitArray.bitLength b =? createUO.ko_length ko
        | Throw _ => false
        end
    end.

(** Bit position [i] lies in a spliced key range [[offset, offset+length)]. *)
Definition in_spliced_range (keys : createUO.keymap)
    (slots : list createUO.keyoffset) (i : Z) : bool :=
  existsb (fun ko => spliced keys ko
                     && (createUO.ko_offset ko <=? i)
                     && (i <? createUO.ko_offset ko + createUO.ko_length ko))
          slots.

(** The type of the slot is a member [keys] inherits and has not of its
    own: the key loop fails on such a slot. *)
Definition dangling (keys : createUO.keymap) (ko : createUO.keyoffset) : bool :=
  match createUO.lookup (createUO.ko_type ko) keys with
  | Some _ => false
  | None => createUO.inherited (createUO.ko_type ko)
  end.

(** A key slot of type ["app"] is filled: [appKeyProvided] after the
    loop over the slots. *)
Definition app_spliced (keys : createUO.keymap)
    (slots : list createUO.keyoffset) : bool :=
  existsb (fun ko => spliced keys ko && String.eqb (createUO.ko_type ko) "app")
          slots.

(** Bit position [i] lies in the flag byte at [flagoffset+8 .. flagoffset+16). *)
Definition in_flag_byte (tpl : createUO.template) (i : Z) : bool :=
  (createUO.flagoffset tpl + 8 <=? i) && (i <? createUO.flagoffset tpl + 16).

(** Bit [i] of a bitArray. *)
Definition bit (a : list Z) (i : Z) : bool := nth (Z.to_nat i) (bits a) false.

(** Every key slot and the flag byte lie inside a blob of [bl] bits. *)
Definition slots_in_range (tpl : createUO.template) (bl : Z) : Prop :=
  Forall (fun ko => 0 <= createUO.ko_offset ko /\ 0 <= createUO.ko_length ko
                    /\ createUO.ko_offset ko + createUO.ko_length ko <= bl)
         (createUO.keyoffsets tpl)
  /\ 0 <= createUO.flagoffset tpl + 8 /\ createUO.flagoffset tpl + 16 <= bl.

(** Every supplied key value converts to a well-formed bitArray. *)
Definition keys_wf (keys : createUO.keymap) : Prop :=
  forall k v, createUO.lookup k keys = Some v ->
              exists b, misc.inputToBits v = Ok b /\ wf b.

(** ** PKCS#7 on bit sequences

    The padding of section 4.B in the spec's words, on the sequence of
    bits: pad appends [k] bytes of value [k], [k = 16 - (len mod 16)];
    unpad requires a positive multiple of the block size, reads the last
    byte [k], requires [1 <= k <= 16] and the last [k] bytes equal to
    [k], and strips them. *)

Fixpoint bits_eqb (l1 l2 : list bool) : bool :=
  match l1, l2 with
  | [], [] => true
  | b1 :: r1, b2 :: r2 => Bool.eqb b1 b2 && bits_eqb r1 r2
  | _, _ => false
  end.

Definition pkcs7_padlen (bitlen : Z) : Z := 16 - (bitlen / 8) mod 16.

Definition pkcs7_pad_spec (l : list bool) : list bool :=
  let k := pkcs7_padlen (Z.of_nat (List.length l)) in
  l ++ bytes_bits (List.repeat k (Z.to_nat k)).

Definition pkcs7_unpad_spec (l : list bool) : option (list bool) :=
  let n := Z.of_nat (List.length l) in
  if (n mod 128 =? 0) && (0 <? n) then
    let k := bits_value (skipn (Z.to_nat (n - 8)) l) in
    if (1 <=? k) && (k <=? 16)
       && bits_eqb (skipn (Z.to_nat (n - 8 * k)) l)
                   (bytes_bits (List.repeat k (Z.to_nat k)))
    then Some (firstn (Z.to_nat (n - 8 * k)) l)
    else None
  else None.

(** ** PKCS#1 v1.5 padding string

    The bytes of the padding string [PS] for block type [bt]: zeros for
    type 0, [0xFF] for type 1, and for type 2 the non-zero low bytes of
    the random words, in the order drawn. *)

Fixpoint draw_nonzero (n : nat) (pool : list Z) : option (list Z * list Z) :=
  match n with
  | O => Some ([], pool)
  | S n' =>
      match pkcs15.nonzero_byte pool with
      | None => None
      | Some (b, r) =>
          match draw_nonzero n' r with
          | Some (bs, r') => Some (b :: bs, r')
          | None => None
          end
      end
  end.

Definition pkcs15_ps (bt : Z) (n : nat) (pool : list Z)
  : option (list Z * list Z) :=
  if bt =? 1 then Some (List.repeat 0xff n, pool)
  else if bt =? 2 then draw_nonzero n pool
  else Some (List.repeat 0 n, pool).

(** The packing of bytes into words done by the loop of [pkcs15.pad]. *)
Fixpoint pack_loop (bs : list Z) (i : Z) (ps : list Z) (tmp : Z) : list Z * Z :=
  match bs with
  | [] => (ps, tmp)
  | b :: r =>
      let tmp := JS.or (JS.shl tmp 8) b in
      if JS.and i 3 =? 3 then pack_loop r (i + 1) (ps ++ [tmp]) 0
      else pack_loop r (i + 1) ps tmp
  end.

Definition is_byte (b : Z) : Prop := 0 <= b < 256.

(** ** TLV records

    The serialisation read by [readSerializedPubKey]: a record is its
    tag byte, the number of bytes of its value on two bytes, and the
    value. *)

Definition tlv_record (tag : Z) (v : list Z) : list bool :=
  byte_bits tag ++ bits_from (Z.of_nat (List.length v)) 15 16 ++ bytes_bits v.

Definition tlv_bits (recs : list (Z * list Z)) : list bool :=
  flat_map (fun r => tlv_record (fst r) (snd r)) recs.

(** The value of the last record that carries [tag]. *)
Fixpoint tlv_last (tag : Z) (recs : list (Z * list Z)) : option (list Z) :=
  match recs with
  | [] => None
  | (t, v) :: r =>
      match tlv_last tag r with
      | Some x => Some x
      | None => if t =? tag then Some v else None
      end
  end.

Definition tlv_ok (r : Z * list Z) : Prop :=
  is_byte (fst r) /\ Forall is_byte (snd r)
  /\ Z.of_nat (List.length (snd r)) < 2 ^ 16.

(** What the loop leaves in a field of the result: the value of the
    last record with the tag of the field, or the field as it was. *)
Definition tlv_field (r' : option (list Z)) (lst : option (list Z))
    (r0 : option (list Z)) : Prop :=
  match lst with
  | Some v => exists x, r' = Some x /\ wf x /\ bits x = bytes_bits v
  | None => r' = r0
  end.


(** The unpad rule in the words of section 4.B alone: read the last
    byte [k], require [1 <= k <= 16] and the last [k] bytes equal to
    [k], strip them; nothing is asked of the input length. *)
Definition pkcs7_unpad_claimed (l : list bool) : option (list bool) :=
  let n := Z.of_nat (List.length l) in
  let k := bits_value (skipn (Z.to_nat (n - 8)) l) in
  if (1 <=? k) && (k <=? 16)
     && bits_eqb (skipn (Z.to_nat (n - 8 * k)) l)
                 (bytes_bits (List.repeat k (Z.to_nat k)))
  then Some (firstn (Z.to_nat (n - 8 * k)) l)
  else None.

(** [keys] without the entries for key type [k]. *)
Definition remove_key (k : string) (keys : createUO.keymap) : createUO.keymap :=
  filter (fun e => negb (String.eqb k (fst e))) keys.

(** [tpl] without the key slots of type [k]. *)
Definition drop_slots (k : string) (tpl : createUO.template) : createUO.template :=
  {| createUO.objectid := createUO.objectid tpl;
     createUO.encryptionoffset := createUO.encryptionoffset tpl;
     createUO.flagoffset := createUO.flagoffset tpl;
     createUO.keyoffsets :=
       filter (fun ko => negb (String.eqb (createUO.ko_type ko) k))
              (createUO.keyoffsets tpl);
     createUO.importkeys := createUO.importkeys tpl;
     createUO.template_data := createUO.template_data tpl |}.

(** ** Sample data

    A small template with two key slots and an RSA-1024 import key, a
    key map, and an entropy pool, used to run the functions above. *)

Definition sample_world : world := mkWorld (List.repeat 0x01020304 128) [].

Definition sample_pubkey : string :=
  ("81" ++ "0003" ++ "010001" ++ "82" ++ "0080" ++ hexn 256 (2 ^ 1024 - 105))%string.

Definition sample_template : createUO.template :=
  {| createUO.objectid := "7654";
     createUO.encryptionoffset := 64;
     createUO.flagoffset := 0;
     createUO.keyoffsets :=
       [ {| createUO.ko_type := "comenc"; createUO.ko_offset := 128;
            createUO.ko_length := 32 |};
         {| createUO.ko_type := "app"; createUO.ko_offset := 192;
            createUO.ko_length := 32 |} ];
     createUO.importkeys :=
       [ {| createUO.ik_id := 1; createUO.ik_type := "rsa1024";
            createUO.ik_key := InStr sample_pubkey |} ];
     createUO.template_data :=
       InStr "00ff11223344556600112233445566778899aabbccddeeff0102030405060708" |}.

Definition sample_keys : createUO.keymap := [("comenc"%string, InStr "deadbeef")].

(** A key of 16 bits for the 32-bit slot [comenc]. *)
Definition sample_keys_short : createUO.keymap := [("comenc"%string, InStr "dead")].

(** The builder of the spec's build scenario: object id [0xEE01],
    all-zero 256-bit keys, nonce [aaaabbbbccccdddd]. *)
Definition sample_builder : processData.builder :=
  {| processData.nonce := InStr "aaaabbbbccccdddd";
     processData.aesKey := InStr (Str.repeat "0" 64);
     processData.macKey := InStr (Str.repeat "0" 64);
     processData.userObjectId := InNum 0xEE01;
     processData.reqType := "PLAINAES" |}.

(** 65536 bytes of plain data. *)
Definition sample_long_plain : list Z := List.repeat 0 (Z.to_nat 16384).

(** A parser with the all-zero keys, and a response of one ciphertext
    block whose tag is wrong. *)
Definition sample_parser : processData.parser :=
  {| processData.parser_aesKey := InStr (Str.repeat "0" 64);
     processData.parser_macKey := InStr (Str.repeat "0" 64) |}.

Definition sample_bad_response : processData.json :=
  {| processData.json_status := Some "9000"%string;
     processData.json_statusdetail := None;
     processData.json_function := Some "ProcessData"%string;
     processData.json_result :=
       Some ("0000" ++ "00112233445566778899aabbccddeeff"
             ++ "ffffffffffffffffffffffffffffffff" ++ "_")%string |}.


(* ================================================================== *)
(** * Part II: properties *)
(* ================================================================== *)

(** ** The integer operators, bit by bit *)

Ltac zconst :=
  change (2 ^ 31) with 2147483648 in *;
  change (2 ^ 32) with 4294967296 in *;
  change (2 ^ 39) with 549755813888 in *;
  change (2 ^ 40) with 1099511627776 in *.

Lemma int32b_spec x : int32b x = true <-> int32 x.
Proof. unfold int32b, int32. rewrite andb_true_iff, Z.leb_le, Z.ltb_lt. tauto. Qed.

Lemma ToInt32_int32 x : int32 (JS.ToInt32 x).
Proof.
  unfold int32, JS.ToInt32. zconst.
  pose proof (Z.mod_pos_bound (x + 2147483648) 4294967296). lia.
Qed.

Lemma ToInt32_id x : int32 x -> JS.ToInt32 x = x.
Proof.
  unfold int32, JS.ToInt32. zconst. intros H.
  rewrite Z.mod_small by lia. lia.
Qed.

Lemma ToInt32_mod x : JS.ToInt32 x mod 2 ^ 32 = x mod 2 ^ 32.
Proof.
  unfold JS.ToInt32. zconst.
  rewrite Zminus_mod, Zmod_mod, <- Zminus_mod. f_equal. lia.
Qed.

Lemma ToUint32_mod x : JS.ToUint32 x mod 2 ^ 32 = x mod 2 ^ 32.
Proof. unfold JS.ToUint32. apply Zmod_mod. Qed.

Lemma ToUint32_range x : 0 <= JS.ToUint32 x < 2 ^ 32.
Proof. unfold JS.ToUint32. apply Z.mod_pos_bound. reflexivity. Qed.

Lemma ToUint32_id x : 0 <= x < 2 ^ 32 -> JS.ToUint32 x = x.
Proof. intros. unfold JS.ToUint32. apply Z.mod_small. assumption. Qed.

Lemma testbit_mod_eq a b k :
  a mod 2 ^ 32 = b mod 2 ^ 32 -> 0 <= k < 32 -> Z.testbit a k = Z.testbit b k.
Proof.
  intros E Hk.
  rewrite <- (Z.mod_pow2_bits_low a 32 k), <- (Z.mod_pow2_bits_low b 32 k) by lia.
  now rewrite E.
Qed.

Lemma mod_eq_testbit a b :
  (forall k, 0 <= k < 32 -> Z.testbit a k = Z.testbit b k) ->
  a mod 2 ^ 32 = b mod 2 ^ 32.
Proof.
  intros H. apply Z.bits_inj'. intros k Hk.
  destruct (Z.lt_ge_cases k 32).
  - rewrite !Z.mod_pow2_bits_low by lia. apply H. lia.
  - rewrite !Z.mod_pow2_bits_high by lia. reflexivity.
Qed.

Lemma tb_ToInt32 x k : 0 <= k < 32 -> Z.testbit (JS.ToInt32 x) k = Z.testbit x k.
Proof. apply testbit_mod_eq, ToInt32_mod. Qed.

Lemma tb_ToUint32 x k : 0 <= k < 32 -> Z.testbit (JS.ToUint32 x) k = Z.testbit x k.
Proof. apply testbit_mod_eq, ToUint32_mod. Qed.

Lemma ToInt32_ext a b :
  (forall k, 0 <= k < 32 -> Z.testbit a k = Z.testbit b k) ->
  JS.ToInt32 a = JS.ToInt32 b.
Proof.
  intros H. apply mod_eq_testbit in H.
  unfold JS.ToInt32. rewrite <- (Zplus_mod_idemp_l a), <- (Zplus_mod_idemp_l b).
  now rewrite H.
Qed.

Lemma int32_ext a b :
  int32 a -> int32 b ->
  (forall k, 0 <= k < 32 -> Z.testbit a k = Z.testbit b k) -> a = b.
Proof.
  intros Ha Hb H. rewrite <- (ToInt32_id a Ha), <- (ToInt32_id b Hb).
  now apply ToInt32_ext.
Qed.

Lemma ToInt32_idem x : JS.ToInt32 (JS.ToInt32 x) = JS.ToInt32 x.
Proof. apply ToInt32_id, ToInt32_int32. Qed.

Lemma and_int32 a b : int32 (JS.and a b).
Proof. apply ToInt32_int32. Qed.
Lemma or_int32 a b : int32 (JS.or a b).
Proof. apply ToInt32_int32. Qed.
Lemma xor_int32 a b : int32 (JS.xor a b).
Proof. apply ToInt32_int32. Qed.
Lemma shl_int32 a n : int32 (JS.shl a n).
Proof. apply ToInt32_int32. Qed.

Lemma tb_and a b k :
  0 <= k < 32 -> Z.testbit (JS.and a b) k = Z.testbit a k && Z.testbit b k.
Proof.
  intros. unfold JS.and. now rewrite tb_ToInt32, Z.land_spec, !tb_ToInt32.
Qed.

Lemma tb_or a b k :
  0 <= k < 32 -> Z.testbit (JS.or a b) k = Z.testbit a k || Z.testbit b k.
Proof.
  intros. unfold JS.or. now rewrite tb_ToInt32, Z.lor_spec, !tb_ToInt32.
Qed.

Lemma tb_xor a b k :
  0 <= k < 32 -> Z.testbit (JS.xor a b) k = xorb (Z.testbit a k) (Z.testbit b k).
Proof.
  intros. unfold JS.xor. now rewrite tb_ToInt32, Z.lxor_spec, !tb_ToInt32.
Qed.

Lemma tb_not a k :
  0 <= k < 32 -> Z.testbit (JS.not a) k = negb (Z.testbit a k).
Proof.
  intros. unfold JS.not. rewrite tb_ToInt32, Z.lnot_spec, tb_ToInt32 by lia.
  reflexivity.
Qed.

Lemma tb_shr x s k :
  0 <= s < 32 -> 0 <= k < 32 ->
  Z.testbit (JS.shr x s) k = if k + s <? 32 then Z.testbit x (k + s) else false.
Proof.
  intros Hs Hk. unfold JS.shr. rewrite (Z.mod_small s) by lia.
  rewrite tb_ToUint32, Z.shiftr_spec by lia.
  destruct (Z.ltb_spec (k + s) 32).
  - apply tb_ToUint32. lia.
  - unfold JS.ToUint32. apply Z.mod_pow2_bits_high. lia.
Qed.

Lemma tb_shl x s k :
  0 <= s < 32 -> 0 <= k < 32 ->
  Z.testbit (JS.shl x s) k = if s <=? k then Z.testbit x (k - s) else false.
Proof.
  intros Hs Hk. unfold JS.shl. rewrite (Z.mod_small s) by lia.
  rewrite tb_ToInt32, Z.shiftl_spec by lia.
  destruct (Z.leb_spec s k).
  - apply tb_ToInt32. lia.
  - apply Z.testbit_neg_r. lia.
Qed.

Lemma or_0_r x : JS.or x 0 = JS.ToInt32 x.
Proof.
  unfold JS.or. change (JS.ToInt32 0) with 0.
  now rewrite Z.lor_0_r, ToInt32_idem.
Qed.

Lemma xor_0_r x : JS.xor x 0 = JS.ToInt32 x.
Proof.
  unfold JS.xor. change (JS.ToInt32 0) with 0.
  now rewrite Z.lxor_0_r, ToInt32_idem.
Qed.

(** [x & (2^k - 1)] is [x mod 2^k]. *)
Lemma and_ones x k : 0 <= k <= 31 -> JS.and x (2 ^ k - 1) = x mod 2 ^ k.
Proof.
  intros Hk. unfold JS.and.
  assert (P : 0 < 2 ^ k) by (apply Z.pow_pos_nonneg; lia).
  assert (Q : 2 ^ k <= 2 ^ 31) by (apply Z.pow_le_mono_r; lia).
  rewrite (ToInt32_id (2 ^ k - 1)) by (unfold int32; zconst; lia).
  replace (2 ^ k - 1) with (Z.ones k) by (rewrite Z.ones_equiv; lia).
  rewrite Z.land_ones by lia.
  assert (E : JS.ToInt32 x mod 2 ^ k = x mod 2 ^ k).
  { pose proof (ToInt32_mod x) as E.
    replace (2 ^ 32) with (2 ^ k * 2 ^ (32 - k)) in E
      by (rewrite <- Z.pow_add_r by lia; f_equal; lia).
    assert (R : 0 < 2 ^ (32 - k)) by (apply Z.pow_pos_nonneg; lia).
    rewrite !Z.rem_mul_r in E by lia.
    apply (f_equal (fun z => z mod 2 ^ k)) in E.
    rewrite !(Z.mul_comm (2 ^ k)), !Z.mod_add, !Zmod_mod in E by lia.
    exact E. }
  rewrite E. apply ToInt32_id.
  pose proof (Z.mod_pos_bound x (2 ^ k) P). unfold int32. zconst. lia.
Qed.

Lemma and_3 x : JS.and x 3 = x mod 4.
Proof. exact (and_ones x 2 ltac:(lia)). Qed.
Lemma and_7 x : JS.and x 7 = x mod 8.
Proof. exact (and_ones x 3 ltac:(lia)). Qed.
Lemma and_15 x : JS.and x 15 = x mod 16.
Proof. exact (and_ones x 4 ltac:(lia)). Qed.
Lemma and_31 x : JS.and x 31 = x mod 32.
Proof. exact (and_ones x 5 ltac:(lia)). Qed.
Lemma and_127 x : JS.and x 127 = x mod 128.
Proof. exact (and_ones x 7 ltac:(lia)). Qed.
Lemma and_255 x : JS.and x 255 = x mod 256.
Proof. exact (and_ones x 8 ltac:(lia)). Qed.

Lemma sar_nonneg x s : 0 <= x < 2 ^ 31 -> 0 <= s < 32 -> JS.sar x s = x / 2 ^ s.
Proof.
  intros Hx Hs. unfold JS.sar. rewrite (Z.mod_small s) by lia.
  rewrite (ToInt32_id x) by (unfold int32; zconst; lia).
  rewrite Z.shiftr_div_pow2 by lia.
  apply ToInt32_id. unfold int32.
  assert (0 < 2 ^ s) by (apply Z.pow_pos_nonneg; lia).
  assert (0 <= x / 2 ^ s) by (apply Z.div_pos; lia).
  assert (x / 2 ^ s <= x) by (apply Z.div_le_upper_bound; nia).
  zconst. lia.
Qed.

Lemma shl_small x s :
  0 <= s < 32 -> int32 x -> int32 (x * 2 ^ s) -> JS.shl x s = x * 2 ^ s.
Proof.
  intros Hs Hx Hr. unfold JS.shl. rewrite (Z.mod_small s) by lia.
  rewrite (ToInt32_id x) by assumption.
  rewrite Z.shiftl_mul_pow2 by lia. now apply ToInt32_id.
Qed.

(** The mask [0x80000000 >> (len - 1)] selects the top [len] bits. *)
Lemma tb_topmask len k :
  1 <= len <= 32 -> 0 <= k < 32 ->
  Z.testbit (JS.sar 0x80000000 (len - 1)) k = (32 - len <=? k).
Proof.
  intros Hl Hk. unfold JS.sar. rewrite (Z.mod_small (len - 1)) by lia.
  rewrite tb_ToInt32, Z.shiftr_spec by lia.
  change (JS.ToInt32 0x80000000) with (- 2 ^ 31).
  rewrite Z.bits_opp by lia.
  replace (Z.pred (2 ^ 31)) with (Z.ones 31) by (rewrite Z.ones_equiv; reflexivity).
  destruct (Z.leb_spec (32 - len) k).
  - rewrite Z.ones_spec_high by lia. reflexivity.
  - rewrite Z.ones_spec_low by lia. reflexivity.
Qed.


(** ** Bit sequences of words *)

Lemma bits_from_length x hi n : List.length (bits_from x hi n) = n.
Proof. revert hi. induction n; simpl; intros; [reflexivity | now rewrite IHn]. Qed.

Lemma bits_from_app x hi n m :
  bits_from x hi (n + m) = bits_from x hi n ++ bits_from x (hi - Z.of_nat n) m.
Proof.
  revert hi. induction n; intros hi.
  - simpl. now rewrite Z.sub_0_r.
  - cbn [Nat.add bits_from app]. rewrite IHn. do 3 f_equal. lia.
Qed.

Lemma bits_from_ext x y hi hi' n :
  (forall i, 0 <= i < Z.of_nat n -> Z.testbit x (hi - i) = Z.testbit y (hi' - i)) ->
  bits_from x hi n = bits_from y hi' n.
Proof.
  revert hi hi'. induction n; intros hi hi' H; [reflexivity|].
  cbn [bits_from]. f_equal.
  - specialize (H 0). rewrite !Z.sub_0_r in H. apply H. lia.
  - apply IHn. intros i Hi. specialize (H (i + 1)).
    replace (hi - 1 - i) with (hi - (i + 1)) by lia.
    replace (hi' - 1 - i) with (hi' - (i + 1)) by lia. apply H. lia.
Qed.

Lemma bits_from_inj x y hi hi' n :
  bits_from x hi n = bits_from y hi' n ->
  forall i, 0 <= i < Z.of_nat n -> Z.testbit x (hi - i) = Z.testbit y (hi' - i).
Proof.
  revert hi hi'. induction n; intros hi hi' E i Hi; [lia|].
  cbn [bits_from] in E. injection E as E0 E1.
  destruct (Z.eq_dec i 0) as [->|Hn].
  - now rewrite !Z.sub_0_r.
  - specialize (IHn _ _ E1 (i - 1)).
    replace (hi - i) with (hi - 1 - (i - 1)) by lia.
    replace (hi' - i) with (hi' - 1 - (i - 1)) by lia. apply IHn. lia.
Qed.

Lemma firstn_bits_from x hi n m :
  (m <= n)%nat -> firstn m (bits_from x hi n) = bits_from x hi m.
Proof.
  intros H. replace n with (m + (n - m))%nat by lia.
  rewrite bits_from_app, firstn_app, bits_from_length, Nat.sub_diag.
  rewrite firstn_all2 by (rewrite bits_from_length; lia).
  simpl. apply app_nil_r.
Qed.

Lemma skipn_bits_from x hi n m :
  (m <= n)%nat ->
  skipn m (bits_from x hi n) = bits_from x (hi - Z.of_nat m) (n - m).
Proof.
  intros H. replace n with (m + (n - m))%nat at 1 by lia.
  rewrite bits_from_app, skipn_app, bits_from_length, Nat.sub_diag.
  rewrite skipn_all2 by (rewrite bits_from_length; lia).
  reflexivity.
Qed.

Lemma word_bits_length n x : List.length (word_bits n x) = n.
Proof. apply bits_from_length. Qed.

(** Words that agree modulo 2^32 hold the same bits. *)
Lemma word_bits_mod n x y :
  (n <= 32)%nat -> x mod 2 ^ 32 = y mod 2 ^ 32 -> word_bits n x = word_bits n y.
Proof.
  intros Hn E. apply bits_from_ext. intros i Hi. apply testbit_mod_eq; [exact E | lia].
Qed.

Lemma word_bits_ToInt32 n x : (n <= 32)%nat -> word_bits n (JS.ToInt32 x) = word_bits n x.
Proof. intros. apply word_bits_mod; [assumption | apply ToInt32_mod]. Qed.

Lemma word_bits_32_inj x y :
  word_bits 32 x = word_bits 32 y -> JS.ToInt32 x = JS.ToInt32 y.
Proof.
  intros E. apply ToInt32_ext. intros k Hk.
  pose proof (bits_from_inj _ _ _ _ _ E (31 - k)) as H.
  replace (31 - (31 - k)) with k in H by lia. apply H. lia.
Qed.

(** ** Partial words *)

Lemma fullb_spec x : fullb x = true <-> - 2 ^ 39 <= x < 2 ^ 39.
Proof. unfold fullb. rewrite andb_true_iff, Z.leb_le, Z.ltb_lt. tauto. Qed.

Lemma getPartial_full x : fullb x = true -> bitArray.getPartial x = 32.
Proof.
  rewrite fullb_spec. intros H. unfold bitArray.getPartial. zconst.
  replace ((x + 549755813888) / 1099511627776) with 0; [reflexivity|].
  symmetry. apply Z.div_small. lia.
Qed.

Lemma int32_full x : int32 x -> fullb x = true.
Proof. unfold int32. rewrite fullb_spec. zconst. lia. Qed.

Lemma getPartial_partial len v :
  1 <= len <= 31 -> int32 v -> bitArray.getPartial (v + len * 2 ^ 40) = len.
Proof.
  intros Hl Hv. unfold bitArray.getPartial, int32 in *. zconst.
  replace ((v + len * 1099511627776 + 549755813888) / 1099511627776) with len.
  - destruct (Z.eqb_spec len 0); [lia | reflexivity].
  - apply Z.div_unique with (r := v + 549755813888); lia.
Qed.

Lemma partial_mod len v : (v + len * 2 ^ 40) mod 2 ^ 32 = v mod 2 ^ 32.
Proof.
  replace (len * 2 ^ 40) with (len * 2 ^ 8 * 2 ^ 32)
    by (rewrite <- Z.mul_assoc; f_equal).
  apply Z.mod_add. discriminate.
Qed.

Lemma word_bits_partial n len v :
  (n <= 32)%nat -> word_bits n (v + len * 2 ^ 40) = word_bits n v.
Proof. intros. apply word_bits_mod; [assumption | apply partial_mod]. Qed.

Lemma mod_pow2_low_zero n v :
  0 <= n -> v mod 2 ^ (32 - n) = 0 -> low_zero n v.
Proof.
  intros Hn H k Hk.
  rewrite <- (Z.mod_pow2_bits_low v (32 - n) k) by lia.
  rewrite H. apply Z.testbit_0_l.
Qed.

Lemma low_zero_mod_pow2 n v :
  0 <= n <= 32 -> low_zero n v -> v mod 2 ^ (32 - n) = 0.
Proof.
  intros Hn H. apply Z.bits_inj'. intros k Hk. rewrite Z.testbit_0_l.
  destruct (Z.lt_ge_cases k (32 - n)).
  - rewrite Z.mod_pow2_bits_low by lia. apply H. lia.
  - apply Z.mod_pow2_bits_high. lia.
Qed.

(** What a well-formed last word looks like. *)
Lemma lastb_cases x :
  lastb x = true ->
  (fullb x = true /\ bitArray.getPartial x = 32)
  \/ (exists len v, x = v + len * 2 ^ 40 /\ 1 <= len <= 31 /\ int32 v
                    /\ low_zero len v /\ bitArray.getPartial x = len).
Proof.
  unfold lastb. rewrite orb_true_iff. intros [H|H].
  - left. split; [assumption | now apply getPartial_full].
  - right. rewrite !andb_true_iff in H. destruct H as [[[H1 H2] H3] H4].
    apply Z.leb_le in H1, H2. apply int32b_spec in H3. apply Z.eqb_eq in H4.
    set (len := (x + 2 ^ 39) / 2 ^ 40) in *.
    exists len, (x - len * 2 ^ 40).
    split; [lia|]. split; [lia|]. split; [assumption|]. split.
    + apply mod_pow2_low_zero; [lia | assumption].
    + replace x with (x - len * 2 ^ 40 + len * 2 ^ 40) at 1 by lia.
      apply getPartial_partial; [lia | assumption].
Qed.

Lemma lastb_range x : lastb x = true -> 1 <= bitArray.getPartial x <= 32.
Proof. intros H. destruct (lastb_cases x H) as [[_ E]|(len & v & _ & ? & _ & _ & E)]; lia. Qed.

Lemma lastb_low_zero x : lastb x = true -> low_zero (bitArray.getPartial x) x.
Proof.
  intros H. destruct (lastb_cases x H) as [[_ E]|(len & v & -> & ? & ? & L & E)].
  - rewrite E. intros k Hk. lia.
  - rewrite E. intros k Hk.
    rewrite (testbit_mod_eq _ v) by (try apply partial_mod; lia). apply L. lia.
Qed.

Lemma lastb_partial len v :
  1 <= len <= 31 -> int32 v -> low_zero len v -> lastb (v + len * 2 ^ 40) = true.
Proof.
  intros Hl Hv L. unfold lastb. apply orb_true_iff. right.
  assert (E : (v + len * 2 ^ 40 + 2 ^ 39) / 2 ^ 40 = len).
  { unfold int32 in Hv. zconst. symmetry.
    apply Z.div_unique with (r := v + 549755813888); lia. }
  rewrite E. replace (v + len * 2 ^ 40 - len * 2 ^ 40) with v by lia.
  rewrite !andb_true_iff, !Z.leb_le, int32b_spec, Z.eqb_eq.
  split; [split; [split; [lia | lia] | assumption]|].
  apply low_zero_mod_pow2; [lia | assumption].
Qed.

Lemma lastb_full x : fullb x = true -> lastb x = true.
Proof. intros H. unfold lastb. now rewrite H. Qed.

(** [partial(len, x, 1)] for a length obtained as [... & 31]: length 0
    stands for a full word. *)
Lemma partial_end_0 x : bitArray.partial 0 x true = JS.ToInt32 x.
Proof. unfold bitArray.partial. simpl. rewrite or_0_r. lia. Qed.

Lemma partial_end len x :
  1 <= len <= 31 -> bitArray.partial len x true = JS.ToInt32 x + len * 2 ^ 40.
Proof.
  intros H. unfold bitArray.partial.
  destruct (Z.eqb_spec len 32); [lia|]. now rewrite or_0_r.
Qed.

Lemma partial_shift len x :
  1 <= len <= 31 ->
  bitArray.partial len x false = JS.shl x (32 - len) + len * 2 ^ 40.
Proof.
  intros H. unfold bitArray.partial. destruct (Z.eqb_spec len 32); [lia | reflexivity].
Qed.


(** ** Well-formed arrays and their bits *)

Lemma wfb_snoc init l :
  wfb (init ++ [l]) = forallb fullb init && lastb l.
Proof.
  induction init as [|x r IH]; [reflexivity|].
  destruct r as [|y r'].
  - simpl. now rewrite andb_true_r.
  - change (wfb ((x :: y :: r') ++ [l])) with (fullb x && wfb ((y :: r') ++ [l])).
    rewrite IH. cbn [forallb]. now rewrite !andb_assoc.
Qed.

Lemma wf_snoc init l :
  forallb fullb init = true -> lastb l = true -> wf (init ++ [l]).
Proof. intros H1 H2. unfold wf. now rewrite wfb_snoc, H1, H2. Qed.

Lemma snoc_cases {A} (a : list A) : a = [] \/ exists init l, a = init ++ [l].
Proof.
  destruct a as [|x r]; [now left | right].
  destruct (exists_last (l := x :: r)) as (init & l & E); [discriminate|].
  eauto.
Qed.

Lemma wf_inv a :
  wf a ->
  a = [] \/ exists init l, a = init ++ [l] /\ forallb fullb init = true /\ lastb l = true.
Proof.
  intros H. destruct (snoc_cases a) as [->|(init & l & ->)]; [now left | right].
  unfold wf in H. rewrite wfb_snoc in H. apply andb_true_iff in H.
  exists init, l. tauto.
Qed.

Lemma bits_snoc init l :
  bits (init ++ [l]) = bits32 init ++ word_bits (Z.to_nat (bitArray.getPartial l)) l.
Proof.
  induction init as [|x r IH]; [reflexivity|].
  destruct r as [|y r'].
  - change (bits ([x] ++ [l])) with (word_bits 32 x ++ bits [l]).
    unfold bits32. cbn [flat_map]. now rewrite app_nil_r.
  - change (bits ((x :: y :: r') ++ [l]))
      with (word_bits 32 x ++ bits ((y :: r') ++ [l])).
    rewrite IH. change (bits32 (x :: y :: r')) with (word_bits 32 x ++ bits32 (y :: r')).
    now rewrite app_assoc.
Qed.

Lemma bits32_app a b : bits32 (a ++ b) = bits32 a ++ bits32 b.
Proof. apply flat_map_app. Qed.

Lemma bits32_length a : List.length (bits32 a) = (32 * List.length a)%nat.
Proof.
  induction a as [|x r IH]; [reflexivity|].
  unfold bits32 in *. cbn [flat_map]. rewrite length_app, IH, word_bits_length.
  cbn [List.length]. lia.
Qed.

Lemma bits_full a : forallb fullb a = true -> bits a = bits32 a.
Proof.
  intros H. destruct (snoc_cases a) as [->|(init & l & ->)]; [reflexivity|].
  rewrite forallb_app in H. apply andb_true_iff in H. destruct H as [_ H].
  simpl in H. rewrite andb_true_r in H.
  rewrite bits_snoc, bits32_app, (getPartial_full l H).
  change (Z.to_nat 32) with 32%nat. unfold bits32. cbn [flat_map].
  now rewrite app_nil_r.
Qed.

Lemma bits_app_full a b :
  forallb fullb a = true -> b <> [] -> bits (a ++ b) = bits32 a ++ bits b.
Proof.
  intros Ha Hb. destruct (snoc_cases b) as [->|(init & l & ->)]; [congruence|].
  now rewrite app_assoc, !bits_snoc, bits32_app, app_assoc.
Qed.

Lemma wf_app_full a b :
  forallb fullb a = true -> wf b -> wf (a ++ b).
Proof.
  intros Ha Hb. destruct (wf_inv b Hb) as [->|(init & l & -> & Hi & Hl)].
  - rewrite app_nil_r. destruct (snoc_cases a) as [->|(i & l & ->)]; [reflexivity|].
    rewrite forallb_app in Ha. apply andb_true_iff in Ha. destruct Ha as [H1 H2].
    simpl in H2. rewrite andb_true_r in H2.
    apply wf_snoc; [assumption | now apply lastb_full].
  - rewrite app_assoc. apply wf_snoc; [|assumption].
    now rewrite forallb_app, Ha, Hi.
Qed.

Lemma bitLength_snoc init l :
  bitArray.bitLength (init ++ [l])
  = 32 * Z.of_nat (List.length init) + bitArray.getPartial l.
Proof.
  unfold bitArray.bitLength. destruct (init ++ [l]) eqn:E.
  - destruct init; discriminate.
  - rewrite <- E, last_last, length_app. cbn [List.length]. lia.
Qed.

Lemma bits_length a : wf a -> Z.of_nat (List.length (bits a)) = bitArray.bitLength a.
Proof.
  intros H. destruct (wf_inv a H) as [->|(init & l & -> & Hi & Hl)]; [reflexivity|].
  rewrite bits_snoc, bitLength_snoc, length_app, bits32_length, word_bits_length.
  pose proof (lastb_range l Hl). lia.
Qed.

Lemma bitLength_nonneg a : wf a -> 0 <= bitArray.bitLength a.
Proof. intros H. rewrite <- (bits_length a H). lia. Qed.

Lemma bitLength_full a :
  forallb fullb a = true -> bitArray.bitLength a = 32 * Z.of_nat (List.length a).
Proof.
  intros H. destruct (snoc_cases a) as [->|(init & l & ->)]; [reflexivity|].
  rewrite forallb_app in H. apply andb_true_iff in H. destruct H as [_ H].
  simpl in H. rewrite andb_true_r in H.
  rewrite bitLength_snoc, (getPartial_full l H), length_app. cbn [List.length]. lia.
Qed.

Lemma wf_full a : forallb fullb a = true -> wf a.
Proof. intros H. rewrite <- (app_nil_r a). now apply wf_app_full. Qed.

Lemma forallb_int32_full a : Forall int32 a -> forallb fullb a = true.
Proof.
  intros H. apply forallb_forall. rewrite Forall_forall in H.
  intros x Hx. apply int32_full. auto.
Qed.

(** ** The word loop of [_shiftRight] *)

Lemma shift_words_eq a s c out :
  bitArray.shift_words a s c out = (out ++ shifted a s c, carry_out a s c).
Proof.
  revert c out. induction a as [|x r IH]; intros c out; simpl.
  - now rewrite app_nil_r.
  - rewrite IH, <- app_assoc. reflexivity.
Qed.

Lemma shifted_length a s c : List.length (shifted a s c) = List.length a.
Proof. revert c. induction a; simpl; intros; [reflexivity | now rewrite IHa]. Qed.

Lemma shifted_int32 a s c : Forall int32 (shifted a s c).
Proof.
  revert c. induction a; simpl; intros; constructor; [apply or_int32 | apply IHa].
Qed.

Lemma shifted_snoc init l s c :
  shifted (init ++ [l]) s c
  = shifted init s c ++ [JS.or (carry_out init s c) (JS.shr l s)].
Proof. revert c. induction init; simpl; intros; [reflexivity | now rewrite IHinit]. Qed.

Lemma carry_out_snoc init l s c :
  carry_out (init ++ [l]) s c = JS.shl l (32 - s).
Proof. revert c. induction init; simpl; intros; [reflexivity | apply IHinit]. Qed.

Lemma shl_low_zero x s : 0 < s < 32 -> low_zero s (JS.shl x (32 - s)).
Proof.
  intros Hs k Hk. rewrite tb_shl by lia.
  destruct (Z.leb_spec (32 - s) k); [lia | reflexivity].
Qed.

Lemma carry_out_low_zero a s c :
  0 < s < 32 -> low_zero s c -> low_zero s (carry_out a s c).
Proof.
  intros Hs. revert c. induction a; simpl; intros c Hc; [assumption|].
  apply IHa. now apply shl_low_zero.
Qed.

Lemma word_bits_or_shr c x s :
  0 < s < 32 -> low_zero s c ->
  word_bits 32 (JS.or c (JS.shr x s))
  = word_bits (Z.to_nat s) c ++ bits_from x 31 (Z.to_nat (32 - s)).
Proof.
  intros Hs Hc. unfold word_bits.
  replace 32%nat with (Z.to_nat s + Z.to_nat (32 - s))%nat by lia.
  rewrite bits_from_app. f_equal.
  - apply bits_from_ext. intros i Hi. rewrite tb_or, tb_shr by lia.
    destruct (Z.ltb_spec (31 - i + s) 32); [lia|]. apply orb_false_r.
  - apply bits_from_ext. intros i Hi. rewrite tb_or, tb_shr by lia.
    rewrite Hc by lia.
    destruct (Z.ltb_spec (31 - Z.of_nat (Z.to_nat s) - i + s) 32); [|lia].
    cbn [orb]. f_equal. lia.
Qed.

Lemma word_bits_shl x s :
  0 < s < 32 ->
  word_bits (Z.to_nat s) (JS.shl x (32 - s)) = bits_from x (s - 1) (Z.to_nat s).
Proof.
  intros Hs. apply bits_from_ext. intros i Hi. rewrite tb_shl by lia.
  destruct (Z.leb_spec (32 - s) (31 - i)); [|lia]. f_equal. lia.
Qed.

Lemma word_bits_split x s :
  0 < s < 32 ->
  word_bits 32 x = bits_from x 31 (Z.to_nat (32 - s)) ++ bits_from x (s - 1) (Z.to_nat s).
Proof.
  intros Hs. unfold word_bits.
  replace 32%nat with (Z.to_nat (32 - s) + Z.to_nat s)%nat by lia.
  rewrite bits_from_app. do 2 f_equal. lia.
Qed.

Lemma shifted_bits a s c :
  0 < s < 32 -> low_zero s c ->
  bits32 (shifted a s c) ++ word_bits (Z.to_nat s) (carry_out a s c)
  = word_bits (Z.to_nat s) c ++ bits32 a.
Proof.
  intros Hs. revert c. induction a as [|x r IH]; intros c Hc.
  - simpl. now rewrite app_nil_r.
  - cbn [shifted carry_out bits32 flat_map]. fold (bits32 (shifted r s (JS.shl x (32 - s)))).
    fold (bits32 r).
    rewrite <- app_assoc, IH by (now apply shl_low_zero).
    rewrite word_bits_or_shr, word_bits_shl, (word_bits_split x s) by assumption.
    now rewrite <- !app_assoc.
Qed.

(** ** Canonical arrays *)

Lemma int32b_fullb x : int32b x = true -> fullb x = true.
Proof. rewrite int32b_spec. apply int32_full. Qed.

Lemma lastcb_lastb x : lastcb x = true -> lastb x = true.
Proof.
  unfold lastcb, lastb. rewrite !orb_true_iff. intros [H|H]; [left | now right].
  now apply int32b_fullb.
Qed.

Lemma canonb_snoc init l :
  canonb (init ++ [l]) = forallb int32b init && lastcb l.
Proof.
  induction init as [|x r IH]; [reflexivity|].
  destruct r as [|y r'].
  - simpl. now rewrite andb_true_r.
  - change (canonb ((x :: y :: r') ++ [l])) with (int32b x && canonb ((y :: r') ++ [l])).
    rewrite IH. cbn [forallb]. now rewrite !andb_assoc.
Qed.

Lemma canon_snoc init l :
  forallb int32b init = true -> lastcb l = true -> canon (init ++ [l]).
Proof. intros H1 H2. unfold canon. now rewrite canonb_snoc, H1, H2. Qed.

Lemma canon_inv a :
  canon a ->
  a = [] \/ exists init l, a = init ++ [l] /\ forallb int32b init = true /\ lastcb l = true.
Proof.
  intros H. destruct (snoc_cases a) as [->|(init & l & ->)]; [now left | right].
  unfold canon in H. rewrite canonb_snoc in H. apply andb_true_iff in H.
  exists init, l. tauto.
Qed.

Lemma forallb_int32b_fullb a : forallb int32b a = true -> forallb fullb a = true.
Proof.
  rewrite !forallb_forall. intros H x Hx. apply int32b_fullb. auto.
Qed.

Lemma canon_wf a : canon a -> wf a.
Proof.
  intros H. destruct (canon_inv a H) as [->|(init & l & -> & Hi & Hl)]; [reflexivity|].
  apply wf_snoc; [now apply forallb_int32b_fullb | now apply lastcb_lastb].
Qed.

Lemma lastcb_int32 x : int32 x -> lastcb x = true.
Proof. intros H. unfold lastcb. apply int32b_spec in H. now rewrite H. Qed.

Lemma lastcb_partial len v :
  1 <= len <= 31 -> int32 v -> low_zero len v -> lastcb (v + len * 2 ^ 40) = true.
Proof.
  intros Hl Hv L. pose proof (lastb_partial len v Hl Hv L) as H.
  unfold lastb in H. unfold lastcb. apply orb_true_iff in H. apply orb_true_iff.
  destruct H as [H|H]; [|now right]. right.
  (* a partial word is not a full word *)
  apply fullb_spec in H. unfold int32 in Hv. zconst. lia.
Qed.

Lemma forallb_int32b_Forall a : forallb int32b a = true <-> Forall int32 a.
Proof.
  rewrite forallb_forall, Forall_forall. split; intros H x Hx.
  - apply int32b_spec. auto.
  - apply int32b_spec. auto.
Qed.

Lemma canon_app_int32 a b : forallb int32b a = true -> canon b -> canon (a ++ b).
Proof.
  intros Ha Hb. destruct (canon_inv b Hb) as [->|(init & l & -> & Hi & Hl)].
  - rewrite app_nil_r. destruct (snoc_cases a) as [->|(i & l & ->)]; [reflexivity|].
    rewrite forallb_app in Ha. apply andb_true_iff in Ha. destruct Ha as [H1 H2].
    simpl in H2. rewrite andb_true_r in H2.
    apply canon_snoc; [assumption|]. unfold lastcb. now rewrite H2.
  - rewrite app_assoc. apply canon_snoc; [|assumption].
    now rewrite forallb_app, Ha, Hi.
Qed.

Lemma canon_int32 a : Forall int32 a -> canon a.
Proof.
  intros H. rewrite <- (app_nil_r a). apply canon_app_int32; [|reflexivity].
  now apply forallb_int32b_Forall.
Qed.

(** The full words of a canonical array of whole words are int32. *)
Lemma canon_full_int32 a :
  canon a -> bitArray.bitLength a mod 32 = 0 -> Forall int32 a.
Proof.
  intros H Hm. destruct (canon_inv a H) as [->|(init & l & -> & Hi & Hl)]; [constructor|].
  apply forallb_int32b_Forall. rewrite forallb_app, Hi. cbn [forallb].
  rewrite andb_true_r. unfold lastcb in Hl. apply orb_true_iff in Hl.
  destruct Hl as [Hl|Hl]; [assumption|]. exfalso.
  rewrite !andb_true_iff in Hl. destruct Hl as [[[H1 H2] H3] H4].
  apply Z.leb_le in H1, H2. apply int32b_spec in H3.
  set (len := (l + 2 ^ 39) / 2 ^ 40) in *.
  rewrite bitLength_snoc in Hm.
  replace l with (l - len * 2 ^ 40 + len * 2 ^ 40) in Hm by lia.
  rewrite getPartial_partial in Hm by (try assumption; lia).
  rewrite Z.add_comm, Z.mul_comm, Z.mod_add in Hm by lia.
  rewrite Z.mod_small in Hm; lia.
Qed.


(** ** Array slices *)

Lemma slice_spec {A} (a : list A) s e :
  0 <= s <= e -> JS.slice a s e = firstn (Z.to_nat (e - s)) (skipn (Z.to_nat s) a).
Proof.
  intros H. unfold JS.slice, JS.rel_index.
  destruct (Z.ltb_spec s 0); [lia|]. destruct (Z.ltb_spec e 0); [lia|].
  set (n := Z.of_nat (List.length a)).
  destruct (Z.le_gt_cases n s) as [Hs|Hs].
  - rewrite !skipn_all2 by lia. now rewrite !firstn_nil.
  - rewrite (Z.min_l s n) by lia.
    destruct (Z.le_gt_cases e n) as [He|He].
    + now rewrite (Z.min_l e n) by lia.
    + rewrite (Z.min_r e n) by lia.
      rewrite !firstn_all2; try reflexivity; rewrite length_skipn; lia.
Qed.

Lemma slice_0 {A} (a : list A) e : 0 <= e -> JS.slice a 0 e = firstn (Z.to_nat e) a.
Proof. intros. rewrite slice_spec by lia. now rewrite Z.sub_0_r. Qed.

Lemma slice_from_spec {A} (a : list A) s :
  0 <= s -> JS.slice_from a s = skipn (Z.to_nat s) a.
Proof.
  intros H. unfold JS.slice_from.
  destruct (Z.le_gt_cases s (Z.of_nat (List.length a))).
  - rewrite slice_spec by lia. apply firstn_all2. rewrite length_skipn. lia.
  - unfold JS.slice, JS.rel_index.
    destruct (Z.ltb_spec s 0); [lia|].
    destruct (Z.ltb_spec (Z.of_nat (List.length a)) 0); [lia|].
    rewrite Z.min_id, (Z.min_r s), Z.sub_diag by lia.
    rewrite !skipn_all2 by lia. reflexivity.
Qed.

(** ** [_shiftRight] *)

Lemma shiftRight_small a s c out :
  0 < s < 32 ->
  bitArray._shiftRight a s c out =
  if 32 <? s + bitArray.getPartial (last a 0)
  then (out ++ shifted a s c)
         ++ [bitArray.partial (JS.and (s + bitArray.getPartial (last a 0)) 31)
               (carry_out a s c) true]
  else removelast (out ++ shifted a s c)
         ++ [bitArray.partial (JS.and (s + bitArray.getPartial (last a 0)) 31)
               (last (out ++ shifted a s c) 0) true].
Proof.
  intros Hs. unfold bitArray._shiftRight.
  destruct (Z.ltb_spec s 32); [|lia].
  change (Z.to_nat 0) with 0%nat. cbn [firstn]. rewrite app_nil_r.
  change (0 <? 0) with false. cbv iota. rewrite Z.mul_0_r, Z.sub_0_r.
  destruct (Z.eqb_spec s 0); [lia|].
  now rewrite shift_words_eq.
Qed.

Lemma bits32_firstn a n :
  bits32 (firstn n a) = firstn (32 * n) (bits32 a).
Proof.
  revert a. induction n; intros a.
  - reflexivity.
  - destruct a as [|x r]; [now rewrite firstn_nil|].
    cbn [firstn]. unfold bits32 in *. cbn [flat_map].
    replace (32 * S n)%nat with (List.length (word_bits 32 x) + 32 * n)%nat
      by (rewrite word_bits_length; lia).
    now rewrite firstn_app_2, IHn.
Qed.

Lemma bits32_skipn a n :
  bits32 (skipn n a) = skipn (32 * n) (bits32 a).
Proof.
  revert a. induction n; intros a.
  - reflexivity.
  - destruct a as [|x r]; [now rewrite skipn_nil|].
    cbn [skipn]. unfold bits32 in *. cbn [flat_map].
    rewrite skipn_app, word_bits_length.
    rewrite (skipn_all2 (word_bits 32 x)) by (rewrite word_bits_length; lia).
    rewrite IHn. cbn [app]. f_equal. lia.
Qed.

(** The bits of a well-formed array are a prefix of the bits of its
    words. *)
Lemma bits_prefix a :
  wf a -> bits a = firstn (Z.to_nat (bitArray.bitLength a)) (bits32 a).
Proof.
  intros H. destruct (wf_inv a H) as [->|(init & l & -> & Hi & Hl)]; [reflexivity|].
  pose proof (lastb_range l Hl) as Hp.
  rewrite bits_snoc, bitLength_snoc, bits32_app.
  replace (Z.to_nat (32 * Z.of_nat (List.length init) + bitArray.getPartial l))
    with (List.length (bits32 init) + Z.to_nat (bitArray.getPartial l))%nat
    by (rewrite bits32_length; lia).
  rewrite firstn_app_2. f_equal.
  unfold bits32. cbn [flat_map]. rewrite app_nil_r.
  unfold word_bits. symmetry. apply firstn_bits_from. lia.
Qed.

Lemma firstn_app_le {A} (x y : list A) n :
  (n <= List.length x)%nat -> firstn n (x ++ y) = firstn n x.
Proof.
  intros H. rewrite firstn_app. replace (n - List.length x)%nat with 0%nat by lia.
  cbn [firstn]. apply app_nil_r.
Qed.

Lemma low_zero_ToInt32 n x : 0 <= n -> low_zero n x -> low_zero n (JS.ToInt32 x).
Proof. intros Hn H k Hk. rewrite tb_ToInt32 by lia. apply H. lia. Qed.

(** The array produced by [_shiftRight] holds the top [s] bits of the
    carry followed by the bits of [a]. *)
Lemma shiftRight_spec a s c :
  0 < s < 32 -> wf a -> low_zero s c ->
  exists R, (forall out, bitArray._shiftRight a s c out = out ++ R)
            /\ canon R /\ R <> []
            /\ bits R = word_bits (Z.to_nat s) c ++ bits a.
Proof.
  intros Hs Hwf Hc.
  destruct (wf_inv a Hwf) as [->|(init & l & -> & Hi & Hl)].
  - (* nothing to shift: the carry becomes a partial word *)
    exists [JS.ToInt32 c + s * 2 ^ 40]. split; [|split; [|split]].
    + intros out. rewrite shiftRight_small by assumption.
      cbn [last shifted carry_out]. change (bitArray.getPartial 0) with 32.
      destruct (Z.ltb_spec 32 (s + 32)); [|lia].
      rewrite and_31, app_nil_r.
      replace ((s + 32) mod 32) with s
        by (rewrite <- Zplus_mod_idemp_r; change (32 mod 32) with 0;
            rewrite Z.add_0_r, Z.mod_small; lia).
      now rewrite partial_end by lia.
    + unfold canon. cbn [canonb]. apply lastcb_partial; [lia | apply ToInt32_int32 |].
      apply low_zero_ToInt32; [lia | assumption].
    + discriminate.
    + cbn [bits]. rewrite getPartial_partial by (try apply ToInt32_int32; lia).
      rewrite word_bits_partial, word_bits_ToInt32 by lia. now rewrite app_nil_r.
  - pose proof (lastb_range l Hl) as Hp.
    pose proof (lastb_low_zero l Hl) as Hz.
    set (p := bitArray.getPartial l) in *.
    set (n := List.length init).
    pose proof (shifted_bits (init ++ [l]) s c Hs Hc) as E.
    rewrite carry_out_snoc, shifted_snoc, !bits32_app in E.
    set (w := JS.or (carry_out init s c) (JS.shr l s)) in *.
    set (c' := JS.shl l (32 - s)) in *.
    assert (Hfull : forallb int32b (shifted init s c) = true)
      by (apply forallb_int32b_Forall, shifted_int32).
    assert (Hlen : List.length (bits32 (shifted init s c)) = (32 * n)%nat)
      by (rewrite bits32_length, shifted_length; reflexivity).
    (* the bits wanted, as a prefix of the right-hand side of E *)
    assert (RHS : word_bits (Z.to_nat s) c ++ bits (init ++ [l])
                  = firstn (32 * n + Z.to_nat (s + p))
                      (word_bits (Z.to_nat s) c ++ bits32 init ++ bits32 [l])).
    { rewrite bits_snoc. fold p.
      replace (32 * n + Z.to_nat (s + p))%nat
        with (List.length (word_bits (Z.to_nat s) c)
              + (List.length (bits32 init) + Z.to_nat p))%nat
        by (rewrite word_bits_length, bits32_length; lia).
      rewrite firstn_app_2, firstn_app_2. do 2 f_equal.
      unfold bits32. cbn [flat_map]. rewrite app_nil_r.
      unfold word_bits. symmetry. apply firstn_bits_from. lia. }
    rewrite <- E in RHS. clear E.
    destruct (Z.ltb_spec 32 (s + p)) as [Hgt|Hle].
    + (* one more word, holding the carry *)
      exists (shifted init s c ++ [w] ++ [c' + (s + p - 32) * 2 ^ 40]).
      assert (Hc' : low_zero (s + p - 32) c').
      { intros k Hk. unfold c'. rewrite tb_shl by lia.
        destruct (Z.leb_spec (32 - s) k); [|reflexivity]. apply Hz. lia. }
      split; [|split; [|split]].
      * intros out. rewrite shiftRight_small by assumption.
        rewrite last_last, shifted_snoc, carry_out_snoc. fold p w c'.
        destruct (Z.ltb_spec 32 (s + p)); [|lia].
        rewrite and_31.
        replace ((s + p) mod 32) with (s + p - 32)
          by (apply Z.mod_unique with (q := 1); lia).
        rewrite partial_end by lia.
        rewrite (ToInt32_id c') by apply shl_int32.
        now rewrite <- !app_assoc.
      * rewrite !app_assoc. apply canon_snoc.
        -- rewrite forallb_app, Hfull. cbn [forallb].
           now rewrite (proj2 (int32b_spec w) (or_int32 _ _)).
        -- apply lastcb_partial; [lia | apply shl_int32 | assumption].
      * destruct (shifted init s c); discriminate.
      * rewrite RHS. rewrite !app_assoc, bits_snoc, bits32_app.
        rewrite getPartial_partial by (try apply shl_int32; lia).
        rewrite word_bits_partial by lia.
        rewrite <- !app_assoc.
        replace (32 * n + Z.to_nat (s + p))%nat
          with (List.length (bits32 (shifted init s c))
                + (List.length (bits32 [w]) + Z.to_nat (s + p - 32)))%nat
          by (rewrite Hlen, bits32_length; cbn [List.length]; lia).
        rewrite firstn_app_2, firstn_app_2. do 2 f_equal.
        unfold word_bits. symmetry. apply firstn_bits_from. lia.
    + (* the last shifted word absorbs the tail *)
      assert (Hw : low_zero (s + p) w).
      { intros k Hk. unfold w. rewrite tb_or, tb_shr by lia.
        rewrite (carry_out_low_zero init s c Hs Hc) by lia.
        destruct (Z.ltb_spec (k + s) 32); [|reflexivity]. apply Hz. lia. }
      exists (shifted init s c ++ [bitArray.partial (JS.and (s + p) 31) w true]).
      split; [|split; [|split]].
      * intros out. rewrite shiftRight_small by assumption.
        rewrite last_last, shifted_snoc. fold p w.
        destruct (Z.ltb_spec 32 (s + p)); [lia|].
        rewrite !app_assoc, last_last, removelast_last. reflexivity.
      * rewrite and_31. destruct (Z.eq_dec (s + p) 32) as [E32|N32].
        -- rewrite E32. change (32 mod 32) with 0. rewrite partial_end_0.
           apply canon_snoc; [assumption|]. apply lastcb_int32, ToInt32_int32.
        -- rewrite Z.mod_small by lia. rewrite partial_end by lia.
           rewrite (ToInt32_id w) by apply or_int32.
           apply canon_snoc; [assumption|].
           apply lastcb_partial; [lia | apply or_int32 | assumption].
      * destruct (shifted init s c); discriminate.
      * rewrite RHS, bits_snoc. rewrite <- !app_assoc.
        replace (32 * n + Z.to_nat (s + p))%nat
          with (List.length (bits32 (shifted init s c)) + Z.to_nat (s + p))%nat
          by (rewrite Hlen; lia).
        rewrite firstn_app_2. f_equal.
        rewrite firstn_app_le
          by (rewrite bits32_length; cbn [List.length]; lia).
        unfold bits32. cbn [flat_map]. rewrite app_nil_r.
        rewrite and_31. destruct (Z.eq_dec (s + p) 32) as [E32|N32].
        -- rewrite E32. change (32 mod 32) with 0. rewrite partial_end_0.
           rewrite (getPartial_full _ (int32_full _ (ToInt32_int32 w))).
           rewrite word_bits_ToInt32 by lia.
           unfold word_bits. symmetry. apply firstn_bits_from. lia.
        -- rewrite Z.mod_small by lia. rewrite partial_end by lia.
           rewrite getPartial_partial by (try apply ToInt32_int32; lia).
           rewrite word_bits_partial, word_bits_ToInt32 by lia.
           unfold word_bits. symmetry. apply firstn_bits_from. lia.
Qed.


(** ** [concat] *)

Lemma ToInt32_partial len v : int32 v -> JS.ToInt32 (v + len * 2 ^ 40) = v.
Proof.
  intros Hv. rewrite <- (ToInt32_id v Hv) at 2. apply ToInt32_ext.
  intros k Hk. apply testbit_mod_eq; [apply partial_mod | assumption].
Qed.

Lemma lastb_32_full l : lastb l = true -> bitArray.getPartial l = 32 -> fullb l = true.
Proof.
  intros H E. destruct (lastb_cases l H) as [[F _]|(len & v & _ & ? & _ & _ & E')];
    [assumption | lia].
Qed.

Theorem concat_spec a1 a2 :
  wf a1 -> wf a2 ->
  wf (bitArray.concat a1 a2) /\ bits (bitArray.concat a1 a2) = bits a1 ++ bits a2.
Proof.
  intros H1 H2. destruct a1 as [|x1 r1]; [now split|].
  destruct a2 as [|x2 r2].
  - unfold bitArray.concat. rewrite !app_nil_r. now split.
  - unfold bitArray.concat.
    destruct (wf_inv _ H1) as [E|(init & l & E & Hi & Hl)]; [discriminate|].
    rewrite E, last_last, removelast_last.
    destruct (Z.eqb_spec (bitArray.getPartial l) 32) as [E32|N32].
    + pose proof (lastb_32_full l Hl E32) as Hf.
      assert (Hall : forallb fullb (init ++ [l]) = true)
        by (rewrite forallb_app, Hi; cbn [forallb]; now rewrite Hf).
      split; [now apply wf_app_full|].
      rewrite bits_app_full by (try assumption; discriminate).
      now rewrite (bits_full _ Hall).
    + destruct (lastb_cases l Hl) as [[_ ?]|(len & v & -> & Hlen & Hv & Hz & Ep)];
        [contradiction|].
      rewrite Ep, or_0_r, ToInt32_partial by assumption.
      destruct (shiftRight_spec (x2 :: r2) len v ltac:(lia) H2 Hz)
        as (R & HR & Hwf%canon_wf & Hne & Hb).
      rewrite HR. split; [now apply wf_app_full|].
      rewrite bits_app_full, Hb, bits_snoc, Ep by assumption.
      rewrite word_bits_partial by lia. now rewrite app_assoc.
Qed.

Corollary concat_wf a1 a2 : wf a1 -> wf a2 -> wf (bitArray.concat a1 a2).
Proof. intros. now apply concat_spec. Qed.

Corollary concat_bits a1 a2 :
  wf a1 -> wf a2 -> bits (bitArray.concat a1 a2) = bits a1 ++ bits a2.
Proof. intros. now apply concat_spec. Qed.

Corollary concat_bitLength a1 a2 :
  wf a1 -> wf a2 ->
  bitArray.bitLength (bitArray.concat a1 a2)
  = bitArray.bitLength a1 + bitArray.bitLength a2.
Proof.
  intros H1 H2. rewrite <- !bits_length by (try apply concat_wf; assumption).
  rewrite concat_bits, length_app by assumption. lia.
Qed.

(** ** Prefixes and suffixes by whole words *)

Lemma bitLength_le a : wf a -> bitArray.bitLength a <= 32 * Z.of_nat (List.length a).
Proof.
  intros H. destruct (wf_inv a H) as [->|(init & l & -> & Hi & Hl)]; [simpl; lia|].
  pose proof (lastb_range l Hl). rewrite bitLength_snoc, length_app.
  cbn [List.length]. lia.
Qed.

Lemma bitLength_gt a :
  wf a -> a <> [] -> 32 * (Z.of_nat (List.length a) - 1) < bitArray.bitLength a.
Proof.
  intros H Hn. destruct (wf_inv a H) as [->|(init & l & -> & Hi & Hl)]; [congruence|].
  pose proof (lastb_range l Hl). rewrite bitLength_snoc, length_app.
  cbn [List.length]. lia.
Qed.

Lemma firstn_snoc_lt {A} (init : list A) l k :
  (k <= List.length init)%nat -> firstn k (init ++ [l]) = firstn k init.
Proof. intros. now apply firstn_app_le. Qed.

Lemma forallb_firstn {A} (f : A -> bool) a k :
  forallb f a = true -> forallb f (firstn k a) = true.
Proof.
  intros H. rewrite forallb_forall in *. intros x Hx. apply H.
  rewrite <- (firstn_skipn k a). apply in_or_app. now left.
Qed.

Lemma forallb_skipn {A} (f : A -> bool) a k :
  forallb f a = true -> forallb f (skipn k a) = true.
Proof.
  intros H. rewrite forallb_forall in *. intros x Hx. apply H.
  rewrite <- (firstn_skipn k a). apply in_or_app. now right.
Qed.

(** A strict prefix consists of full words. *)
Lemma firstn_full a k :
  wf a -> (k < List.length a)%nat -> forallb fullb (firstn k a) = true.
Proof.
  intros H Hk. destruct (wf_inv a H) as [->|(init & l & -> & Hi & Hl)].
  - simpl in Hk. lia.
  - rewrite length_app in Hk. cbn [List.length] in Hk.
    rewrite firstn_snoc_lt by lia. now apply forallb_firstn.
Qed.

Lemma wf_firstn a k : wf a -> wf (firstn k a).
Proof.
  intros H. destruct (Nat.lt_ge_cases k (List.length a)).
  - apply wf_full. now apply firstn_full.
  - now rewrite firstn_all2.
Qed.

Lemma wf_skipn a k : wf a -> wf (skipn k a).
Proof.
  intros H. destruct (wf_inv a H) as [->|(init & l & -> & Hi & Hl)].
  - now rewrite skipn_nil.
  - destruct (Nat.le_gt_cases k (List.length init)).
    + rewrite skipn_app. replace (k - List.length init)%nat with 0%nat by lia.
      cbn [skipn]. apply wf_snoc; [now apply forallb_skipn | assumption].
    + rewrite skipn_all2; [reflexivity|]. rewrite length_app. cbn [List.length]. lia.
Qed.

Lemma bits_skipn_words a k :
  wf a -> 32 * Z.of_nat k <= bitArray.bitLength a ->
  bits (skipn k a) = skipn (32 * k) (bits a).
Proof.
  intros H Hk. destruct (wf_inv a H) as [->|(init & l & -> & Hi & Hl)].
  - now rewrite !skipn_nil.
  - pose proof (lastb_range l Hl) as Hp. rewrite bitLength_snoc in Hk.
    destruct (Nat.le_gt_cases k (List.length init)).
    + rewrite skipn_app. replace (k - List.length init)%nat with 0%nat by lia.
      cbn [skipn]. rewrite !bits_snoc, bits32_skipn, skipn_app.
      rewrite bits32_length. replace (32 * k - 32 * List.length init)%nat with 0%nat by lia.
      reflexivity.
    + rewrite skipn_all2 by (rewrite length_app; cbn [List.length]; lia).
      rewrite skipn_all2; [reflexivity|].
      rewrite bits_snoc, length_app, bits32_length, word_bits_length. lia.
Qed.

Lemma firstn_S_nth (a : list Z) j :
  (j < List.length a)%nat -> firstn (S j) a = firstn j a ++ [nth j a 0].
Proof.
  revert a. induction j; intros a H.
  - destruct a; [simpl in H; lia | reflexivity].
  - destruct a as [|x r]; [simpl in H; lia|].
    cbn [firstn nth app]. f_equal. apply IHj. simpl in H. lia.
Qed.

Lemma bits32_nth_split a j :
  (j < List.length a)%nat ->
  bits32 a = bits32 (firstn j a) ++ word_bits 32 (nth j a 0) ++ bits32 (skipn (S j) a).
Proof.
  intros H. rewrite <- (firstn_skipn (S j) a) at 1.
  rewrite firstn_S_nth by assumption. rewrite !bits32_app.
  unfold bits32 at 2. cbn [flat_map]. now rewrite app_nil_r, <- !app_assoc.
Qed.

(** ** [clamp] *)

Lemma word_bits_topmask r x :
  1 <= r <= 31 ->
  word_bits (Z.to_nat r) (JS.and x (JS.sar 0x80000000 (r - 1)))
  = word_bits (Z.to_nat r) x.
Proof.
  intros Hr. apply bits_from_ext. intros i Hi.
  rewrite tb_and, tb_topmask by lia.
  destruct (Z.leb_spec (32 - r) (31 - i)); [apply andb_true_r | lia].
Qed.

Lemma topmask_low_zero r x :
  1 <= r <= 31 -> low_zero r (JS.and x (JS.sar 0x80000000 (r - 1))).
Proof.
  intros Hr k Hk. rewrite tb_and, tb_topmask by lia.
  destruct (Z.leb_spec (32 - r) k); [lia | apply andb_false_r].
Qed.

Lemma ceil_div_32 len :
  0 <= len ->
  JS.ceil_div len 32 = if len mod 32 =? 0 then len / 32 else len / 32 + 1.
Proof.
  intros H. unfold JS.ceil_div.
  pose proof (Z.div_mod len 32 ltac:(lia)) as E.
  pose proof (Z.mod_pos_bound len 32 ltac:(lia)) as B.
  destruct (Z.eqb_spec (len mod 32) 0) as [E0|N0].
  - rewrite Z.div_opp_l_z by lia. lia.
  - rewrite Z.div_opp_l_nz by lia. lia.
Qed.

Theorem clamp_spec a len :
  wf a -> 0 <= len <= bitArray.bitLength a ->
  wf (bitArray.clamp a len)
  /\ bits (bitArray.clamp a len) = firstn (Z.to_nat len) (bits a).
Proof.
  intros H Hlen. pose proof (bitLength_le a H) as Hle.
  unfold bitArray.clamp.
  destruct (Z.ltb_spec (Z.of_nat (List.length a) * 32) len); [lia|].
  rewrite ceil_div_32, and_31 by lia.
  pose proof (Z.div_mod len 32 ltac:(lia)) as E.
  pose proof (Z.mod_pos_bound len 32 ltac:(lia)) as B.
  assert (Hq : 0 <= len / 32) by (apply Z.div_pos; lia).
  destruct (Z.eqb_spec (len mod 32) 0) as [E0|N0].
  - (* a whole number of words *)
    rewrite andb_false_r, slice_0 by lia.
    split; [now apply wf_firstn|].
    destruct (Nat.lt_ge_cases (Z.to_nat (len / 32)) (List.length a)) as [Hlt|Hge].
    + rewrite bits_full by (now apply firstn_full).
      rewrite bits32_firstn, (bits_prefix a H), firstn_firstn.
      f_equal. lia.
    + rewrite firstn_all2 by assumption.
      rewrite firstn_all2; [reflexivity|].
      apply Nat2Z.inj_le. rewrite (bits_length a H). lia.
  - (* the last word is cut to [len mod 32] bits *)
    set (r := len mod 32) in *. set (j := Z.to_nat (len / 32)).
    assert (Hj : (j < List.length a)%nat) by lia.
    rewrite slice_0 by lia.
    replace (Z.to_nat (len / 32 + 1)) with (S j) by lia.
    rewrite firstn_S_nth by assumption.
    rewrite length_app. cbn [List.length].
    destruct (Z.ltb_spec 0 (Z.of_nat (List.length (firstn j a) + 1))); [|lia].
    cbn [andb negb]. unfold JS.set_last. rewrite removelast_last, last_last.
    rewrite partial_end by lia. rewrite (ToInt32_id _ (and_int32 _ _)).
    split.
    + apply wf_snoc; [now apply firstn_full|].
      apply lastb_partial; [lia | apply and_int32 | apply topmask_low_zero; lia].
    + rewrite bits_snoc, getPartial_partial by (try apply and_int32; lia).
      rewrite word_bits_partial, word_bits_topmask by lia.
      rewrite (bits_prefix a H), firstn_firstn.
      replace (Init.Nat.min (Z.to_nat len) (Z.to_nat (bitArray.bitLength a)))
        with (List.length (bits32 (firstn j a)) + Z.to_nat r)%nat
        by (rewrite bits32_length, length_firstn; lia).
      rewrite (bits32_nth_split a j Hj) at 1.
      rewrite firstn_app_2. f_equal.
      rewrite firstn_app_le by (rewrite word_bits_length; lia).
      unfold word_bits. symmetry. apply firstn_bits_from. lia.
Qed.

(** ** [bitSlice] *)

Lemma shiftRight_32 a c out : bitArray._shiftRight a 32 c out = out ++ [c] ++ a.
Proof.
  unfold bitArray._shiftRight. change (32 <? 32) with false. cbv iota.
  change (32 / 32) with 1. change (Z.to_nat 1) with 1%nat.
  cbn [repeat firstn]. change (0 <? 1) with true. cbv iota.
  change (32 - 32 * 1 =? 0) with true. cbv iota.
  now rewrite <- app_assoc.
Qed.

Lemma low_zero_0 n : low_zero n 0.
Proof. intros k _. apply Z.testbit_0_l. Qed.

Lemma word_bits_0_length n : List.length (word_bits n 0) = n.
Proof. apply word_bits_length. Qed.

Theorem bitSlice_from_spec a s :
  wf a -> 0 <= s <= bitArray.bitLength a ->
  wf (bitArray.bitSlice a s None)
  /\ bits (bitArray.bitSlice a s None) = skipn (Z.to_nat s) (bits a).
Proof.
  intros H Hs. pose proof (bitLength_le a H) as Hle.
  unfold bitArray.bitSlice, JS.trunc_div.
  rewrite Z.quot_div_nonneg, and_31 by lia.
  pose proof (Z.div_mod s 32 ltac:(lia)) as E.
  pose proof (Z.mod_pos_bound s 32 ltac:(lia)) as B.
  assert (Hq : 0 <= s / 32) by (apply Z.div_pos; lia).
  rewrite (slice_from_spec a) by lia.
  set (q := Z.to_nat (s / 32)). set (r := s mod 32) in *.
  assert (Hwq : wf (skipn q a)) by now apply wf_skipn.
  assert (Hbq : bits (skipn q a) = skipn (32 * q) (bits a))
    by (apply bits_skipn_words; [assumption | lia]).
  destruct (Z.eq_dec r 0) as [E0|N0].
  - rewrite E0, Z.sub_0_r, shiftRight_32.
    rewrite slice_from_spec by lia. change (Z.to_nat 1) with 1%nat. cbn [app skipn].
    split; [assumption|]. rewrite Hbq. f_equal. lia.
  - destruct (shiftRight_spec (skipn q a) (32 - r) 0 ltac:(lia) Hwq (low_zero_0 _))
      as (R & HR & Hwf%canon_wf & Hne & Hb).
    rewrite HR, slice_from_spec by lia. cbn [app].
    change (Z.to_nat 1) with 1%nat.
    split; [now apply wf_skipn|].
    rewrite bits_skipn_words; [| assumption |].
    + rewrite Hb, skipn_app, word_bits_length.
      rewrite skipn_all2 by (rewrite word_bits_length; lia).
      cbn [app]. rewrite Hbq, skipn_skipn. f_equal. lia.
    + rewrite <- (bits_length R Hwf), Hb, length_app, word_bits_length, Hbq.
      rewrite length_skipn. pose proof (bits_length a H). lia.
Qed.

Lemma bitSlice_from_bitLength a s :
  wf a -> 0 <= s <= bitArray.bitLength a ->
  bitArray.bitLength (bitArray.bitSlice a s None) = bitArray.bitLength a - s.
Proof.
  intros H Hs. destruct (bitSlice_from_spec a s H Hs) as [Hw Hb].
  rewrite <- (bits_length _ Hw), Hb, length_skipn.
  pose proof (bits_length a H). lia.
Qed.

Theorem bitSlice_spec a s e :
  wf a -> 0 <= s <= e -> e <= bitArray.bitLength a ->
  wf (bitArray.bitSlice a s (Some e))
  /\ bits (bitArray.bitSlice a s (Some e))
     = firstn (Z.to_nat (e - s)) (skipn (Z.to_nat s) (bits a)).
Proof.
  intros H Hs He.
  destruct (bitSlice_from_spec a s H ltac:(lia)) as [Hw Hb].
  pose proof (bitSlice_from_bitLength a s H ltac:(lia)) as Hl.
  change (bitArray.bitSlice a s (Some e))
    with (bitArray.clamp (bitArray.bitSlice a s None) (e - s)).
  destruct (clamp_spec (bitArray.bitSlice a s None) (e - s) Hw ltac:(lia)) as [Hw' Hb'].
  split; [assumption|]. now rewrite Hb', Hb.
Qed.

Lemma bitSlice_bitLength a s e :
  wf a -> 0 <= s <= e -> e <= bitArray.bitLength a ->
  bitArray.bitLength (bitArray.bitSlice a s (Some e)) = e - s.
Proof.
  intros H Hs He. destruct (bitSlice_spec a s e H Hs He) as [Hw Hb].
  rewrite <- (bits_length _ Hw), Hb, length_firstn, length_skipn.
  pose proof (bits_length a H). lia.
Qed.


(** ** Canonical arrays are preserved *)

Lemma lastcb_cases x :
  lastcb x = true ->
  (int32 x /\ bitArray.getPartial x = 32)
  \/ (exists len v, x = v + len * 2 ^ 40 /\ 1 <= len <= 31 /\ int32 v
                    /\ low_zero len v /\ bitArray.getPartial x = len).
Proof.
  intros H. unfold lastcb in H. apply orb_true_iff in H. destruct H as [H|H].
  - left. apply int32b_spec in H. split; [assumption|].
    now apply getPartial_full, int32_full.
  - right. assert (L : lastb x = true) by (unfold lastb; rewrite H; apply orb_true_r).
    destruct (lastb_cases x L) as [[F E]|?]; [|assumption]. exfalso.
    rewrite !andb_true_iff in H. destruct H as [[[H1 H2] H3] H4].
    apply Z.leb_le in H1, H2. apply fullb_spec in F. zconst.
    assert ((x + 549755813888) / 1099511627776 = 0) by (apply Z.div_small; lia).
    lia.
Qed.

Lemma canon_firstn a k : canon a -> canon (firstn k a).
Proof.
  intros H. destruct (canon_inv a H) as [->|(init & l & -> & Hi & Hl)].
  - now rewrite firstn_nil.
  - destruct (Nat.le_gt_cases k (List.length init)).
    + rewrite firstn_snoc_lt by assumption.
      apply canon_int32, forallb_int32b_Forall. now apply forallb_firstn.
    + rewrite firstn_all2 by (rewrite length_app; cbn [List.length]; lia).
      now apply canon_snoc.
Qed.

Lemma canon_skipn a k : canon a -> canon (skipn k a).
Proof.
  intros H. destruct (canon_inv a H) as [->|(init & l & -> & Hi & Hl)].
  - now rewrite skipn_nil.
  - destruct (Nat.le_gt_cases k (List.length init)).
    + rewrite skipn_app. replace (k - List.length init)%nat with 0%nat by lia.
      cbn [skipn]. apply canon_snoc; [now apply forallb_skipn | assumption].
    + rewrite skipn_all2; [reflexivity|]. rewrite length_app. cbn [List.length]. lia.
Qed.

Lemma firstn_int32 a k :
  canon a -> (k < List.length a)%nat -> forallb int32b (firstn k a) = true.
Proof.
  intros H Hk. destruct (canon_inv a H) as [->|(init & l & -> & Hi & Hl)].
  - simpl in Hk. lia.
  - rewrite length_app in Hk. cbn [List.length] in Hk.
    rewrite firstn_snoc_lt by lia. now apply forallb_firstn.
Qed.

(** Appending to an array that ends in a partial word recomputes every
    appended word, so the result is canonical whatever [a2] holds. *)
Lemma concat_canon_shift a1 a2 :
  canon a1 -> wf a2 -> a2 <> [] -> bitArray.bitLength a1 mod 32 <> 0 ->
  canon (bitArray.concat a1 a2).
Proof.
  intros H1 H2 Hn Hm. destruct a1 as [|x1 r1]; [exfalso; apply Hm; reflexivity|].
  destruct a2 as [|x2 r2]; [congruence|].
  unfold bitArray.concat.
  destruct (canon_inv _ H1) as [E|(init & l & E & Hi & Hl)]; [discriminate|].
  rewrite E, last_last, removelast_last. rewrite E, bitLength_snoc in Hm.
  destruct (lastcb_cases l Hl) as [[_ E32]|(len & v & -> & Hlen & Hv & Hz & Ep)].
  - exfalso. apply Hm. rewrite E32.
    replace (32 * Z.of_nat (List.length init) + 32)
      with ((Z.of_nat (List.length init) + 1) * 32) by lia.
    apply Z.mod_mul. lia.
  - destruct (Z.eqb_spec (bitArray.getPartial (v + len * 2 ^ 40)) 32); [lia|].
    rewrite Ep, or_0_r, ToInt32_partial by assumption.
    destruct (shiftRight_spec (x2 :: r2) len v ltac:(lia) H2 Hz)
      as (R & HR & Hc & _ & _).
    rewrite HR. now apply canon_app_int32.
Qed.

Lemma concat_canon a1 a2 :
  canon a1 -> canon a2 -> canon (bitArray.concat a1 a2).
Proof.
  intros H1 H2. destruct a1 as [|x1 r1]; [assumption|].
  destruct a2 as [|x2 r2].
  - unfold bitArray.concat. now rewrite !app_nil_r.
  - destruct (Z.eq_dec (bitArray.bitLength (x1 :: r1) mod 32) 0) as [E0|N0].
    + pose proof (canon_full_int32 _ H1 E0) as Hf.
      unfold bitArray.concat.
      destruct (canon_inv _ H1) as [E|(init & l & E & Hi & Hl)]; [discriminate|].
      rewrite E, last_last. rewrite E in Hf.
      assert (Hlf : int32 l).
      { rewrite Forall_forall in Hf. apply Hf, in_or_app. right. now left. }
      rewrite (getPartial_full l (int32_full l Hlf)). change (32 =? 32) with true.
      cbv iota. apply canon_app_int32; [|assumption].
      now apply forallb_int32b_Forall.
    + apply concat_canon_shift; [assumption | now apply canon_wf | discriminate | assumption].
Qed.

Lemma clamp_canon a len :
  canon a -> 0 <= len <= bitArray.bitLength a -> canon (bitArray.clamp a len).
Proof.
  intros H Hlen. pose proof (bitLength_le a (canon_wf a H)) as Hle.
  unfold bitArray.clamp.
  destruct (Z.ltb_spec (Z.of_nat (List.length a) * 32) len); [lia|].
  rewrite ceil_div_32, and_31 by lia.
  pose proof (Z.div_mod len 32 ltac:(lia)) as E.
  pose proof (Z.mod_pos_bound len 32 ltac:(lia)) as B.
  assert (Hq : 0 <= len / 32) by (apply Z.div_pos; lia).
  destruct (Z.eqb_spec (len mod 32) 0) as [E0|N0].
  - rewrite andb_false_r, slice_0 by lia. now apply canon_firstn.
  - set (r := len mod 32) in *. set (j := Z.to_nat (len / 32)).
    assert (Hj : (j < List.length a)%nat) by lia.
    rewrite slice_0 by lia.
    replace (Z.to_nat (len / 32 + 1)) with (S j) by lia.
    rewrite firstn_S_nth by assumption.
    rewrite length_app. cbn [List.length].
    destruct (Z.ltb_spec 0 (Z.of_nat (List.length (firstn j a) + 1))); [|lia].
    cbn [andb negb]. unfold JS.set_last. rewrite removelast_last, last_last.
    rewrite partial_end by lia. rewrite (ToInt32_id _ (and_int32 _ _)).
    apply canon_snoc; [now apply firstn_int32|].
    apply lastcb_partial; [lia | apply and_int32 | apply topmask_low_zero; lia].
Qed.

(** A slice that does not start on a word boundary is recomputed word
    by word. *)
Lemma bitSlice_from_canon_shift a s :
  wf a -> 0 <= s <= bitArray.bitLength a -> s mod 32 <> 0 ->
  canon (bitArray.bitSlice a s None).
Proof.
  intros H Hs Hm.
  unfold bitArray.bitSlice, JS.trunc_div.
  rewrite Z.quot_div_nonneg, and_31 by lia.
  pose proof (Z.mod_pos_bound s 32 ltac:(lia)) as B.
  assert (Hq : 0 <= s / 32) by (apply Z.div_pos; lia).
  rewrite (slice_from_spec a) by lia.
  destruct (shiftRight_spec (skipn (Z.to_nat (s / 32)) a) (32 - s mod 32) 0
              ltac:(lia) (wf_skipn _ _ H) (low_zero_0 _))
    as (R & HR & Hc & _ & _).
  rewrite HR, slice_from_spec by lia. cbn [app]. now apply canon_skipn.
Qed.

Lemma bitSlice_from_canon a s :
  canon a -> 0 <= s <= bitArray.bitLength a -> canon (bitArray.bitSlice a s None).
Proof.
  intros H Hs. destruct (Z.eq_dec (s mod 32) 0) as [E0|N0].
  - unfold bitArray.bitSlice, JS.trunc_div.
    rewrite Z.quot_div_nonneg, and_31, E0, Z.sub_0_r, shiftRight_32 by lia.
    assert (Hq : 0 <= s / 32) by (apply Z.div_pos; lia).
    rewrite !slice_from_spec by lia. change (Z.to_nat 1) with 1%nat.
    cbn [app skipn]. now apply canon_skipn.
  - apply bitSlice_from_canon_shift; [now apply canon_wf | assumption | assumption].
Qed.

Lemma bitSlice_canon a s e :
  canon a -> 0 <= s <= e -> e <= bitArray.bitLength a ->
  canon (bitArray.bitSlice a s (Some e)).
Proof.
  intros H Hs He.
  change (bitArray.bitSlice a s (Some e))
    with (bitArray.clamp (bitArray.bitSlice a s None) (e - s)).
  apply clamp_canon; [apply bitSlice_from_canon; [assumption | lia]|].
  rewrite bitSlice_from_bitLength by (try apply canon_wf; try assumption; lia). lia.
Qed.

(** ** Canonical arrays are determined by their bits *)

Lemma app_inj_length {A} (x x' y y' : list A) :
  List.length x = List.length x' -> x ++ y = x' ++ y' -> x = x' /\ y = y'.
Proof.
  revert x'. induction x as [|a x IH]; intros [|a' x'] L E; simpl in *;
    try discriminate; [now split|].
  injection E as -> E. destruct (IH x' ltac:(lia) E) as [-> ->]. now split.
Qed.

Lemma bits32_inj a b :
  Forall int32 a -> Forall int32 b -> bits32 a = bits32 b -> a = b.
Proof.
  intros Ha. revert b. induction Ha as [|x a Hx Ha IH]; intros b Hb E.
  - destruct b as [|y b]; [reflexivity|]. exfalso.
    apply (f_equal (@List.length bool)) in E. rewrite !bits32_length in E.
    simpl in E. lia.
  - destruct Hb as [|y b Hy Hb].
    + exfalso. apply (f_equal (@List.length bool)) in E.
      rewrite !bits32_length in E. simpl in E. lia.
    + unfold bits32 in E. cbn [flat_map] in E.
      apply app_inj_length in E; [|now rewrite !word_bits_length].
      destruct E as [E1 E2]. apply word_bits_32_inj in E1.
      rewrite !ToInt32_id in E1 by assumption. subst y. f_equal. now apply IH.
Qed.

Lemma word_bits_inj p x y :
  1 <= p <= 32 -> int32 x -> int32 y -> low_zero p x -> low_zero p y ->
  word_bits (Z.to_nat p) x = word_bits (Z.to_nat p) y -> x = y.
Proof.
  intros Hp Hx Hy Zx Zy E. apply int32_ext; try assumption. intros k Hk.
  destruct (Z.lt_ge_cases k (32 - p)).
  - now rewrite Zx, Zy by lia.
  - pose proof (bits_from_inj _ _ _ _ _ E (31 - k) ltac:(lia)) as H1.
    now replace (31 - (31 - k)) with k in H1 by lia.
Qed.

Theorem canon_inj a b : canon a -> canon b -> bits a = bits b -> a = b.
Proof.
  intros Ha Hb E.
  pose proof (bits_length a (canon_wf a Ha)) as La.
  pose proof (bits_length b (canon_wf b Hb)) as Lb.
  destruct (canon_inv a Ha) as [->|(ia & la & -> & Hia & Hla)];
    destruct (canon_inv b Hb) as [->|(ib & lb & -> & Hib & Hlb)].
  - reflexivity.
  - exfalso. rewrite <- E, bitLength_snoc in Lb. cbn [bits List.length] in Lb.
    pose proof (lastb_range lb (lastcb_lastb _ Hlb)). lia.
  - exfalso. rewrite E, bitLength_snoc in La. cbn [bits List.length] in La.
    pose proof (lastb_range la (lastcb_lastb _ Hla)). lia.
  - pose proof (lastb_range la (lastcb_lastb _ Hla)) as Ra.
    pose proof (lastb_range lb (lastcb_lastb _ Hlb)) as Rb.
    rewrite E, Lb, !bitLength_snoc in La.
    assert (Hn : List.length ia = List.length ib) by lia.
    assert (Hp : bitArray.getPartial la = bitArray.getPartial lb) by lia.
    rewrite !bits_snoc in E.
    apply app_inj_length in E; [|rewrite !bits32_length; lia].
    destruct E as [E1 E2].
    apply bits32_inj in E1; try (now apply forallb_int32b_Forall). subst ib.
    f_equal. f_equal.
    destruct (lastcb_cases la Hla) as [[Ia Pa]|(len & v & -> & Hlen & Hv & Hz & Ep)];
      destruct (lastcb_cases lb Hlb) as [[Ib Pb]|(len' & v' & -> & Hlen' & Hv' & Hz' & Ep')];
      try lia.
    + rewrite Pa, Pb in E2. apply word_bits_32_inj in E2.
      now rewrite !ToInt32_id in E2.
    + rewrite Ep, Ep' in *. subst len'.
      rewrite !word_bits_partial in E2 by lia.
      f_equal. apply (word_bits_inj len); try assumption; lia.
Qed.


(** ** [equal] *)

Lemma xor_eq_0 u v : JS.xor u v = 0 <-> JS.ToInt32 u = JS.ToInt32 v.
Proof.
  split; intros H.
  - apply ToInt32_ext. intros k Hk.
    pose proof (tb_xor u v k Hk) as T. rewrite H, Z.testbit_0_l in T.
    symmetry in T. now apply xorb_eq in T.
  - unfold JS.xor. rewrite H, Z.lxor_nilpotent. reflexivity.
Qed.

Lemma or_eq_0 x y : int32 x -> int32 y -> (JS.or x y = 0 <-> x = 0 /\ y = 0).
Proof.
  intros Hx Hy. split.
  - intros H.
    assert (T : forall k, 0 <= k < 32 -> Z.testbit x k = false /\ Z.testbit y k = false).
    { intros k Hk. pose proof (tb_or x y k Hk) as T.
      rewrite H, Z.testbit_0_l in T. symmetry in T. now apply orb_false_iff in T. }
    split; apply int32_ext; try assumption; try (unfold int32; zconst; lia);
      intros k Hk; rewrite Z.testbit_0_l; now apply T.
  - intros [-> ->]. reflexivity.
Qed.

Lemma fold_or_eq_0 (f : nat -> Z) l acc :
  int32 acc -> (forall i, int32 (f i)) ->
  (fold_left (fun x i => JS.or x (f i)) l acc = 0
   <-> acc = 0 /\ forall i, In i l -> f i = 0).
Proof.
  intros Hacc Hf. revert acc Hacc. induction l as [|i l IH]; intros acc Hacc.
  - simpl. split; [intros ->; split; [reflexivity | contradiction] | tauto].
  - cbn [fold_left]. rewrite IH by apply or_int32.
    rewrite or_eq_0 by auto. split.
    + intros [[-> H0] H]. split; [reflexivity|]. intros j [<-|Hj]; auto.
    + intros [-> H]. split; [split; [reflexivity|] |]; intros; apply H; simpl; auto.
Qed.

Lemma get_nth a i : JS.get a (Z.of_nat i) = nth i a 0.
Proof.
  unfold JS.get. destruct (Z.ltb_spec (Z.of_nat i) 0); [lia|].
  now rewrite Nat2Z.id.
Qed.

Lemma equal_iff a b :
  bitArray.equal a b = true
  <-> bitArray.bitLength a = bitArray.bitLength b
      /\ forall i, (i < List.length a)%nat ->
                   JS.ToInt32 (nth i a 0) = JS.ToInt32 (nth i b 0).
Proof.
  unfold bitArray.equal.
  destruct (Z.eqb_spec (bitArray.bitLength a) (bitArray.bitLength b)) as [E|N];
    cbn [negb].
  - rewrite Z.eqb_eq.
    rewrite (fold_or_eq_0
               (fun i => JS.xor (JS.get a (Z.of_nat i)) (JS.get b (Z.of_nat i))))
      by (try (unfold int32; zconst; lia); intros; apply xor_int32).
    split.
    + intros [_ H]. split; [assumption|]. intros i Hi.
      specialize (H i ltac:(apply in_seq; lia)).
      apply xor_eq_0 in H. now rewrite !get_nth in H.
    + intros [_ H]. split; [reflexivity|]. intros i Hi. apply in_seq in Hi.
      apply xor_eq_0. rewrite !get_nth. apply H. lia.
  - split; [discriminate | tauto].
Qed.

Lemma equal_refl a : bitArray.equal a a = true.
Proof. apply equal_iff. split; reflexivity. Qed.

Lemma wf_same_length a b :
  wf a -> wf b -> bitArray.bitLength a = bitArray.bitLength b ->
  List.length a = List.length b.
Proof.
  intros Ha Hb E.
  pose proof (bitLength_le a Ha). pose proof (bitLength_le b Hb).
  destruct a as [|x a]; destruct b as [|y b]; try reflexivity.
  - pose proof (bitLength_gt (y :: b) Hb ltac:(discriminate)).
    change (bitArray.bitLength []) with 0 in *. cbn [List.length] in *. lia.
  - pose proof (bitLength_gt (x :: a) Ha ltac:(discriminate)).
    change (bitArray.bitLength []) with 0 in *. cbn [List.length] in *. lia.
  - pose proof (bitLength_gt (x :: a) Ha ltac:(discriminate)).
    pose proof (bitLength_gt (y :: b) Hb ltac:(discriminate)). lia.
Qed.

Lemma nth_ToInt32_bits32 a b :
  List.length a = List.length b ->
  ((forall i, (i < List.length a)%nat ->
              JS.ToInt32 (nth i a 0) = JS.ToInt32 (nth i b 0))
   <-> bits32 a = bits32 b).
Proof.
  revert b. induction a as [|x a IH]; intros [|y b] L; simpl in L; try discriminate.
  - split; [reflexivity | intros _ i Hi; simpl in Hi; lia].
  - injection L as L. unfold bits32 in *. cbn [flat_map]. split.
    + intros H. f_equal.
      * rewrite <- (word_bits_ToInt32 32 x), <- (word_bits_ToInt32 32 y) by lia.
        f_equal. exact (H 0%nat ltac:(simpl; lia)).
      * apply IH; [assumption|]. intros i Hi. exact (H (S i) ltac:(simpl; lia)).
    + intros E. apply app_inj_length in E; [|now rewrite !word_bits_length].
      destruct E as [E1 E2]. intros [|i] Hi; cbn [nth].
      * now apply word_bits_32_inj.
      * apply IH; [assumption | assumption | simpl in Hi; lia].
Qed.

(** For well-formed arrays of the same length the bits of the words
    agree exactly when the bits of the arrays do. *)
Lemma bits32_eq_bits a b :
  wf a -> wf b -> bitArray.bitLength a = bitArray.bitLength b ->
  (bits32 a = bits32 b <-> bits a = bits b).
Proof.
  intros Ha Hb E. split; intros H.
  - now rewrite (bits_prefix a Ha), (bits_prefix b Hb), E, H.
  - pose proof (wf_same_length a b Ha Hb E) as L.
    destruct (wf_inv a Ha) as [->|(ia & la & -> & Hia & Hla)];
      destruct (wf_inv b Hb) as [->|(ib & lb & -> & Hib & Hlb)];
      try reflexivity;
      try (rewrite length_app in L; cbn [List.length] in L; lia).
    rewrite !length_app in L. cbn [List.length] in L.
    rewrite !bitLength_snoc in E.
    assert (Hp : bitArray.getPartial la = bitArray.getPartial lb) by lia.
    pose proof (lastb_range la Hla) as Ra.
    rewrite !bits_snoc in H.
    apply app_inj_length in H; [|rewrite !bits32_length; lia].
    destruct H as [H1 H2]. rewrite !bits32_app, H1. f_equal.
    unfold bits32. cbn [flat_map]. rewrite !app_nil_r.
    apply bits_from_ext. intros i Hi.
    destruct (Z.lt_ge_cases i (bitArray.getPartial la)).
    + rewrite Hp in H2.
      apply (bits_from_inj _ _ _ _ _ H2). lia.
    + rewrite (lastb_low_zero la Hla), (lastb_low_zero lb Hlb) by lia. reflexivity.
Qed.

Theorem equal_bits a b :
  wf a -> wf b -> (bitArray.equal a b = true <-> bits a = bits b).
Proof.
  intros Ha Hb. rewrite equal_iff. split.
  - intros [E H]. apply bits32_eq_bits; try assumption.
    apply nth_ToInt32_bits32; [now apply wf_same_length | assumption].
  - intros E.
    assert (L : bitArray.bitLength a = bitArray.bitLength b)
      by (rewrite <- !bits_length by assumption; now rewrite E).
    split; [assumption|].
    apply nth_ToInt32_bits32; [now apply wf_same_length|].
    now apply bits32_eq_bits.
Qed.

(** ** [extract] at offset 0 *)

Lemma extract_0 a len :
  1 <= len <= 30 ->
  bitArray.extract a 0 len = JS.shr (JS.get a 0) (32 - len) mod 2 ^ len.
Proof.
  intros Hl. unfold bitArray.extract, JS.trunc_div.
  change (Z.quot 0 32) with 0.
  replace (JS.and (JS.xor (0 + len - 1) 0) (-32)) with 0.
  - cbn [Z.eqb negb]. rewrite and_31.
    replace ((- 0 - len) mod 32) with (32 - len)
      by (apply Z.mod_unique with (q := -1); lia).
    rewrite shl_small; try lia.
    + rewrite Z.mul_1_l. apply and_ones. lia.
    + unfold int32. zconst. lia.
    + rewrite Z.mul_1_l. unfold int32.
      assert (2 ^ len <= 2 ^ 30) by (apply Z.pow_le_mono_r; lia).
      assert (0 < 2 ^ len) by (apply Z.pow_pos_nonneg; lia).
      zconst. change (2 ^ 30) with 1073741824 in *. lia.
  - symmetry. apply int32_ext; [apply and_int32 | unfold int32; zconst; lia |].
    intros k Hk. rewrite tb_and, tb_xor, !Z.testbit_0_l by lia.
    rewrite xorb_false_r.
    destruct (Z.lt_ge_cases k 5).
    + replace (Z.testbit (-32) k) with false; [apply andb_false_r|].
      symmetry. change (-32) with (- 2 ^ 5). rewrite Z.bits_opp by lia.
      replace (Z.pred (2 ^ 5)) with (Z.ones 5) by reflexivity.
      rewrite Z.ones_spec_low by lia. reflexivity.
    + replace (Z.testbit (0 + len - 1) k) with false; [reflexivity|].
      symmetry. destruct (Z.eq_dec (0 + len - 1) 0) as [->|N0]; [apply Z.testbit_0_l|].
      apply Z.bits_above_log2; [lia|].
      apply Z.log2_lt_pow2; [lia|].
      assert (2 ^ 5 <= 2 ^ k) by (apply Z.pow_le_mono_r; lia).
      change (2 ^ 5) with 32 in *. lia.
Qed.

(** Reading a field that leads the array: if the bits start with the
    [len]-bit big-endian encoding of [n], [extract] returns [n]. *)
Theorem extract_0_value a len n rest :
  wf a -> 1 <= len <= 30 -> 0 <= n < 2 ^ len ->
  bits a = bits_from n (len - 1) (Z.to_nat len) ++ rest ->
  bitArray.extract a 0 len = n.
Proof.
  intros Ha Hl Hn E. rewrite extract_0 by assumption.
  destruct a as [|x r].
  { apply (f_equal (@List.length bool)) in E.
    rewrite length_app, bits_from_length in E. simpl in E. lia. }
  change (JS.get (x :: r) 0) with x.
  assert (W : word_bits (Z.to_nat len) x = bits_from n (len - 1) (Z.to_nat len)).
  { pose proof (bits_length _ Ha) as L. rewrite E, length_app, bits_from_length in L.
    apply (f_equal (firstn (Z.to_nat len))) in E.
    rewrite firstn_app_le in E by (rewrite bits_from_length; lia).
    rewrite (firstn_all2 (bits_from n (len - 1) (Z.to_nat len))) in E
      by (rewrite bits_from_length; lia).
    rewrite <- E, (bits_prefix _ Ha), firstn_firstn.
    replace (Init.Nat.min (Z.to_nat len) (Z.to_nat (bitArray.bitLength (x :: r))))
      with (Z.to_nat len) by lia.
    unfold bits32. cbn [flat_map].
    rewrite firstn_app_le by (rewrite word_bits_length; lia).
    unfold word_bits. symmetry. apply firstn_bits_from. lia. }
  apply Z.bits_inj'. intros k Hk.
  destruct (Z.lt_ge_cases k len).
  - rewrite Z.mod_pow2_bits_low, tb_shr by lia.
    destruct (Z.ltb_spec (k + (32 - len)) 32); [|lia].
    pose proof (bits_from_inj _ _ _ _ _ W (len - 1 - k) ltac:(lia)) as T.
    replace (31 - (len - 1 - k)) with (k + (32 - len)) in T by lia.
    replace (len - 1 - (len - 1 - k)) with k in T by lia. exact T.
  - rewrite Z.mod_pow2_bits_high by lia. symmetry.
    destruct (Z.eq_dec n 0) as [->|]; [apply Z.testbit_0_l|].
    apply Z.bits_above_log2; [lia|].
    apply Z.lt_le_trans with len; [apply Z.log2_lt_pow2; lia | assumption].
Qed.


(** ** Template patching: [replacePart], [transformPart] and the frame *)

Lemma replacePart_spec buffer s e repl :
  wf buffer -> wf repl -> 0 <= s <= e -> e <= bitArray.bitLength buffer ->
  wf (misc.replacePart buffer s e repl)
  /\ bits (misc.replacePart buffer s e repl)
     = firstn (Z.to_nat s) (bits buffer) ++ bits repl
       ++ skipn (Z.to_nat e) (bits buffer).
Proof.
  intros Hb Hr Hs He. unfold misc.replacePart.
  destruct (bitSlice_spec buffer 0 s Hb ltac:(lia) ltac:(lia)) as [W1 B1].
  destruct (bitSlice_from_spec buffer e Hb ltac:(lia)) as [W2 B2].
  rewrite Z.sub_0_r in B1. change (Z.to_nat 0) with 0%nat in B1. cbn [skipn] in B1.
  pose proof (concat_wf _ _ W1 Hr) as W3.
  split; [now apply concat_wf|].
  rewrite !concat_bits, B1, B2 by assumption. now rewrite <- app_assoc.
Qed.

Lemma transformPart_spec buffer s e f :
  wf buffer -> wf (f (bitArray.bitSlice buffer s (Some e))) ->
  0 <= s <= e -> e <= bitArray.bitLength buffer ->
  wf (misc.transformPart buffer s e f)
  /\ bits (misc.transformPart buffer s e f)
     = firstn (Z.to_nat s) (bits buffer)
       ++ bits (f (bitArray.bitSlice buffer s (Some e)))
       ++ skipn (Z.to_nat e) (bits buffer).
Proof.
  intros Hb Hr Hs He. unfold misc.transformPart.
  destruct (bitSlice_spec buffer 0 s Hb ltac:(lia) ltac:(lia)) as [W1 B1].
  destruct (bitSlice_from_spec buffer e Hb ltac:(lia)) as [W2 B2].
  rewrite Z.sub_0_r in B1. change (Z.to_nat 0) with 0%nat in B1. cbn [skipn] in B1.
  pose proof (concat_wf _ _ W1 Hr) as W3.
  split; [now apply concat_wf|].
  rewrite !concat_bits, B1, B2 by assumption. now rewrite <- app_assoc.
Qed.

(** Replacing [e - s] bits in place: the length is kept and every bit
    outside [[s, e)] is unchanged. *)
Lemma splice_frame (l r : list bool) s e :
  (s <= e)%nat -> (e <= List.length l)%nat -> List.length r = (e - s)%nat ->
  let l' := firstn s l ++ r ++ skipn e l in
  List.length l' = List.length l
  /\ forall i, (i < s \/ e <= i)%nat -> nth i l' false = nth i l false.
Proof.
  intros Hs He Hr l'. subst l'. split.
  - rewrite !length_app, length_firstn, length_skipn. lia.
  - intros i Hi. destruct Hi as [Hi|Hi].
    + rewrite app_nth1 by (rewrite length_firstn; lia).
      rewrite nth_firstn. destruct (Nat.ltb_spec i s); [reflexivity | lia].
    + rewrite app_nth2 by (rewrite length_firstn; lia).
      rewrite app_nth2 by (rewrite length_firstn; lia).
      rewrite length_firstn, Hr, nth_skipn. f_equal. lia.
Qed.

Lemma replacePart_frame buffer s e repl :
  wf buffer -> wf repl -> 0 <= s <= e -> e <= bitArray.bitLength buffer ->
  bitArray.bitLength repl = e - s ->
  wf (misc.replacePart buffer s e repl)
  /\ bitArray.bitLength (misc.replacePart buffer s e repl) = bitArray.bitLength buffer
  /\ forall i, 0 <= i -> i < s \/ e <= i ->
               bit (misc.replacePart buffer s e repl) i = bit buffer i.
Proof.
  intros Hb Hr Hs He Hl.
  destruct (replacePart_spec buffer s e repl Hb Hr Hs He) as [W B].
  pose proof (bits_length _ Hb) as Lb. pose proof (bits_length _ Hr) as Lr.
  destruct (splice_frame (bits buffer) (bits repl) (Z.to_nat s) (Z.to_nat e))
    as [L F]; try lia.
  rewrite <- B in L, F.
  split; [assumption|]. split.
  - rewrite <- (bits_length _ W), L. assumption.
  - intros i H0 Hi. unfold bit. apply F. lia.
Qed.

Lemma reset_flags_wf app x :
  wf (createUO.reset_flags app x)
  /\ bitArray.bitLength (createUO.reset_flags app x) = 8.
Proof.
  unfold createUO.reset_flags.
  set (num := if app then _ else _).
  rewrite partial_shift by lia.
  assert (L : lastb (JS.shl num (32 - 8) + 8 * 2 ^ 40) = true).
  { apply lastb_partial; [lia | apply shl_int32 |].
    change (32 - 8) with (32 - 8). apply (shl_low_zero num 8). lia. }
  split.
  - exact L.
  - change [JS.shl num (32 - 8) + 8 * 2 ^ 40]
      with ([] ++ [JS.shl num (32 - 8) + 8 * 2 ^ 40]).
    rewrite bitLength_snoc. rewrite getPartial_partial by (try apply shl_int32; lia).
    reflexivity.
Qed.

Lemma transformPart_frame buffer s app :
  wf buffer -> 0 <= s -> s + 8 <= bitArray.bitLength buffer ->
  let r := misc.transformPart buffer s (s + 8) (createUO.reset_flags app) in
  wf r /\ bitArray.bitLength r = bitArray.bitLength buffer
  /\ forall i, 0 <= i -> i < s \/ s + 8 <= i -> bit r i = bit buffer i.
Proof.
  intros Hb Hs He r. subst r.
  destruct (reset_flags_wf app (bitArray.bitSlice buffer s (Some (s + 8)))) as [Wf Lf].
  destruct (transformPart_spec buffer s (s + 8) (createUO.reset_flags app) Hb Wf
              ltac:(lia) He) as [W B].
  pose proof (bits_length _ Hb) as Lb. pose proof (bits_length _ Wf) as Lr.
  destruct (splice_frame (bits buffer)
              (bits (createUO.reset_flags app (bitArray.bitSlice buffer s (Some (s + 8)))))
              (Z.to_nat s) (Z.to_nat (s + 8)))
    as [L F]; try lia.
  rewrite <- B in L, F.
  split; [assumption|]. split.
  - rewrite <- (bits_length _ W), L. assumption.
  - intros i H0 Hi. unfold bit. apply F. lia.
Qed.

Lemma inherited_nonempty k :
  Nat.eqb (String.length k) 0 = true -> createUO.inherited k = false.
Proof. destruct k; [reflexivity | discriminate]. Qed.

(** The key-filling loop fails on a slot whose type [keys] only
    inherits; otherwise it completes, keeps the blob length and touches
    only the spliced slots. *)
Lemma fill_keys_frame slots keys :
  keys_wf keys ->
  forall ba app,
  wf ba ->
  Forall (fun ko => 0 <= createUO.ko_offset ko /\ 0 <= createUO.ko_length ko
                    /\ createUO.ko_offset ko + createUO.ko_length ko
                       <= bitArray.bitLength ba) slots ->
  if existsb (dangling keys) slots
  then createUO.fill_keys slots keys ba app = Throw TypeError
  else exists ba' app',
    createUO.fill_keys slots keys ba app = Ok (ba', app')
    /\ wf ba' /\ bitArray.bitLength ba' = bitArray.bitLength ba
    /\ forall i, 0 <= i -> in_spliced_range keys slots i = false ->
                 bit ba' i = bit ba i.
Proof.
  intros Hk. induction slots as [|ko rest IH]; intros ba app Hw Hr.
  - cbn [existsb]. exists ba, app. repeat split; auto.
  - inversion Hr as [|? ? (Ho & Hl & He) Hrest]; subst.
    cbn [createUO.fill_keys in_spliced_range existsb].
    unfold spliced, dangling at 1, createUO.has_property.
    destruct (Nat.eqb (String.length (createUO.ko_type ko)) 0) eqn:E0.
    { cbn [orb]. rewrite (inherited_nonempty _ E0).
      assert (D : match createUO.lookup (createUO.ko_type ko) keys with
                  | Some _ => false | None => false end = false)
        by (destruct (createUO.lookup (createUO.ko_type ko) keys); reflexivity).
      rewrite D. cbn [orb]. specialize (IH ba app Hw Hrest).
      destruct (existsb (dangling keys) rest); [exact IH|].
      destruct IH as (ba' & app' & E & W & L & F).
      exists ba', app'. repeat split; auto. }
    cbn [orb].
    destruct (createUO.lookup (createUO.ko_type ko) keys) as [v|] eqn:Ev.
    2:{ destruct (createUO.inherited (createUO.ko_type ko)); cbn [negb orb].
        - reflexivity.
        - specialize (IH ba app Hw Hrest).
          destruct (existsb (dangling keys) rest); [exact IH|].
          destruct IH as (ba' & app' & E & W & L & F).
          exists ba', app'. repeat split; auto. }
    cbn [negb orb].
    destruct (Hk _ _ Ev) as (b & Eb & Wb). rewrite Eb. cbn [rbind].
    destruct (Z.eqb_spec (bitArray.bitLength b) (createUO.ko_length ko)) as [El|Nl];
      cbn [negb].
    + destruct (replacePart_frame ba (createUO.ko_offset ko)
                  (createUO.ko_offset ko + createUO.ko_length ko) b Hw Wb
                  ltac:(lia) He ltac:(lia)) as (W1 & L1 & F1).
      rewrite <- L1 in Hrest.
      specialize (IH _ (if String.eqb (createUO.ko_type ko) "app" then true else app)
                    W1 Hrest).
      destruct (existsb (dangling keys) rest); [exact IH|].
      destruct IH as (ba' & app' & E & W & L & F).
      exists ba', app'. split; [exact E|]. split; [assumption|]. split; [lia|].
      intros i H0 Hi. apply orb_false_iff in Hi. destruct Hi as [Hi1 Hi2].
      rewrite F by assumption. apply F1; [exact H0|].
      cbn [andb] in Hi1. apply andb_false_iff in Hi1.
      destruct Hi1 as [Hi1|Hi1]; [apply Z.leb_gt in Hi1 | apply Z.ltb_ge in Hi1]; lia.
    + specialize (IH ba app Hw Hrest).
      destruct (existsb (dangling keys) rest); [exact IH|].
      destruct IH as (ba' & app' & E & W & L & F).
      exists ba', app'. repeat split; auto.
Qed.

(** C10.  Patching a template before encryption leaves every bit of the
    blob outside the spliced key ranges [[offset, offset+length)] and
    outside the flag byte at bits [flagoffset+8 .. flagoffset+16)
    unchanged, and keeps the length of the blob: [replacePart] and
    [transformPart] keep what precedes [offsetStartBit] and what follows
    [offsetEndBit] ([replacePart_frame], [transformPart_frame]).  The
    one case in which there is no patched blob is a slot whose type is
    a member that [keys] only inherits from [Object.prototype]
    ([constructor], [toString], ...): the test [type in keys] lets it
    through and the key loop stops with a [TypeError]. *)
Theorem template_patch_frame tpl keys ba0 :
  misc.inputToBits (createUO.template_data tpl) = Ok ba0 ->
  wf ba0 -> keys_wf keys -> slots_in_range tpl (bitArray.bitLength ba0) ->
  if existsb (dangling keys) (createUO.keyoffsets tpl)
  then createUO.patch tpl keys = Throw TypeError
  else exists ba,
    createUO.patch tpl keys = Ok ba
    /\ wf ba /\ bitArray.bitLength ba = bitArray.bitLength ba0
    /\ forall i, 0 <= i ->
                 in_spliced_range keys (createUO.keyoffsets tpl) i = false ->
                 in_flag_byte tpl i = false ->
                 bit ba i = bit ba0 i.
Proof.
  intros E0 W0 Hk (Hslots & Hf1 & Hf2).
  pose proof (fill_keys_frame (createUO.keyoffsets tpl) keys Hk ba0 false W0 Hslots)
    as FK.
  destruct (existsb (dangling keys) (createUO.keyoffsets tpl)).
  { unfold createUO.patch. rewrite E0. cbn [rbind]. rewrite FK. reflexivity. }
  destruct FK as (ba1 & app & E1 & W1 & L1 & F1).
  destruct (transformPart_frame ba1 (createUO.flagoffset tpl + 8) app W1 Hf1
              ltac:(lia)) as (W2 & L2 & F2).
  replace (createUO.flagoffset tpl + 8 + 8) with (createUO.flagoffset tpl + 16)
    in * by lia.
  eexists. split.
  - unfold createUO.patch. rewrite E0. cbn [rbind]. rewrite E1. cbn [rbind].
    reflexivity.
  - split; [exact W2|]. split; [lia|].
    intros i H0 Hs Hfl. rewrite F2, F1; auto.
    unfold in_flag_byte in Hfl. apply andb_false_iff in Hfl.
    destruct Hfl as [H|H]; [apply Z.leb_gt in H | apply Z.ltb_ge in H]; lia.
Qed.


(** ** Values of bit sequences, bytes *)

Lemma bits_value_snoc l (b : bool) :
  bits_value (l ++ [b]) = 2 * bits_value l + (if b then 1 else 0).
Proof. unfold bits_value. now rewrite fold_left_app. Qed.

Lemma bits_from_snoc x hi n :
  bits_from x hi (S n) = bits_from x hi n ++ [Z.testbit x (hi - Z.of_nat n)].
Proof.
  replace (S n) with (n + 1)%nat by lia. now rewrite bits_from_app.
Qed.

Lemma bits_value_bits_from x hi n :
  0 <= hi - Z.of_nat n + 1 ->
  bits_value (bits_from x hi n)
  = (x / 2 ^ (hi - Z.of_nat n + 1)) mod 2 ^ Z.of_nat n.
Proof.
  induction n as [|n IH]; intros H.
  - simpl. now rewrite Z.mod_1_r.
  - rewrite bits_from_snoc, bits_value_snoc, IH by lia.
    set (m := hi - Z.of_nat (S n) + 1).
    replace (hi - Z.of_nat n + 1) with (m + 1) by lia.
    replace (hi - Z.of_nat n) with m by lia.
    replace (Z.of_nat (S n)) with (1 + Z.of_nat n) by lia.
    rewrite !Z.pow_add_r, Z.pow_1_r by lia.
    assert (P : 0 < 2 ^ m) by (apply Z.pow_pos_nonneg; lia).
    assert (Q : 0 < 2 ^ Z.of_nat n) by (apply Z.pow_pos_nonneg; lia).
    rewrite <- Z.div_div by lia.
    rewrite (Z.rem_mul_r (x / 2 ^ m) 2 (2 ^ Z.of_nat n)) by lia.
    pose proof (Z.testbit_spec' x m ltac:(lia)) as T.
    destruct (Z.testbit x m); simpl Z.b2z in T; lia.
Qed.

Lemma bits_eqb_spec l1 l2 : bits_eqb l1 l2 = true <-> l1 = l2.
Proof.
  revert l2. induction l1 as [|b1 r1 IH]; intros [|b2 r2]; simpl.
  - split; reflexivity.
  - split; discriminate.
  - split; discriminate.
  - rewrite andb_true_iff, IH, Bool.eqb_true_iff.
    split; [intros [-> ->]; reflexivity | intros [= -> ->]; tauto].
Qed.

Lemma bool_eq_iff (b1 b2 : bool) : (b1 = true <-> b2 = true) -> b1 = b2.
Proof.
  destruct b1, b2; intros [H1 H2]; try reflexivity.
  - symmetry. now apply H1.
  - now apply H2.
Qed.

Lemma bytes_bits_length l : List.length (bytes_bits l) = (8 * List.length l)%nat.
Proof.
  induction l as [|b l IH]; [reflexivity|].
  unfold bytes_bits in *. cbn [flat_map]. rewrite length_app, IH.
  unfold byte_bits. rewrite bits_from_length. cbn [List.length]. lia.
Qed.

Lemma bytes_bits_app l1 l2 : bytes_bits (l1 ++ l2) = bytes_bits l1 ++ bytes_bits l2.
Proof. apply flat_map_app. Qed.

Lemma repeat_split {A} (x : A) n j :
  (j <= n)%nat -> List.repeat x n = List.repeat x j ++ List.repeat x (n - j).
Proof. intros H. rewrite <- repeat_app. f_equal. lia. Qed.

Lemma firstn_bytes_repeat k n j :
  (j <= n)%nat ->
  firstn (8 * j) (bytes_bits (List.repeat k n)) = bytes_bits (List.repeat k j).
Proof.
  intros H. rewrite (repeat_split k n j H), bytes_bits_app.
  rewrite firstn_app_le by (rewrite bytes_bits_length, repeat_length; lia).
  apply firstn_all2. rewrite bytes_bits_length, repeat_length. lia.
Qed.

(** The four fill words [k * 0x1010101] hold sixteen bytes of value [k]. *)
Lemma fill_words k :
  1 <= k <= 16 ->
  let f := k * 0x1010101 in
  Forall int32 [f; f; f; f]
  /\ bits32 [f; f; f; f] = bytes_bits (List.repeat k 16).
Proof.
  intros H.
  assert (C : k = 1 \/ k = 2 \/ k = 3 \/ k = 4 \/ k = 5 \/ k = 6 \/ k = 7 \/ k = 8
              \/ k = 9 \/ k = 10 \/ k = 11 \/ k = 12 \/ k = 13 \/ k = 14 \/ k = 15
              \/ k = 16) by lia.
  repeat (destruct C as [->|C]); try subst k; cbv zeta;
    (split; [repeat (apply Forall_cons; [unfold int32; zconst; lia|]); apply Forall_nil
            | vm_compute; reflexivity]).
Qed.

Lemma wf_aligned_full a :
  wf a -> bitArray.bitLength a mod 32 = 0 -> forallb fullb a = true.
Proof.
  intros H Hm. destruct (wf_inv a H) as [->|(init & l & -> & Hi & Hl)]; [reflexivity|].
  rewrite forallb_app, Hi. cbn [forallb]. rewrite andb_true_r.
  apply lastb_32_full; [assumption|].
  pose proof (lastb_range l Hl) as R. rewrite bitLength_snoc in Hm.
  rewrite Z.add_comm, Z.mul_comm, Z.mod_add in Hm by lia.
  destruct (Z.eq_dec (bitArray.getPartial l) 32); [assumption|].
  rewrite Z.mod_small in Hm; lia.
Qed.

Lemma bits_firstn_words a k :
  wf a -> 32 * Z.of_nat k <= bitArray.bitLength a ->
  bits (firstn k a) = firstn (32 * k) (bits a).
Proof.
  intros H Hk. pose proof (bitLength_le a H) as Hle.
  destruct (Nat.lt_ge_cases k (List.length a)) as [Hlt|Hge].
  - rewrite bits_full by (now apply firstn_full).
    rewrite bits32_firstn, (bits_prefix a H), firstn_firstn. f_equal. lia.
  - rewrite firstn_all2 by assumption.
    rewrite firstn_all2; [reflexivity|].
    apply Nat2Z.inj_le. rewrite (bits_length a H). lia.
Qed.

(** ** PKCS#7 *)

Lemma check_blocklen_default : pkcs7.check_blocklen None = Ok tt.
Proof. reflexivity. Qed.

Lemma padlen_range bl : 1 <= pkcs7_padlen bl <= 16.
Proof.
  unfold pkcs7_padlen. pose proof (Z.mod_pos_bound (bl / 8) 16 ltac:(lia)). lia.
Qed.

Theorem pkcs7_pad_spec_ok a :
  byte_aligned a -> bitArray.bitLength a < 2 ^ 31 - 128 ->
  exists p, pkcs7.pad a None = Ok p
            /\ wf p /\ bits p = pkcs7_pad_spec (bits a)
            /\ (canon a -> canon p).
Proof.
  intros [Hw Hm] Hlt. pose proof (bitLength_nonneg a Hw) as H0.
  unfold pkcs7.pad. rewrite check_blocklen_default. cbn [rbind].
  set (bl := bitArray.bitLength a) in *.
  assert (Hbl8 : JS.sar bl 3 = bl / 8)
    by (rewrite sar_nonneg by (zconst; lia); reflexivity).
  rewrite Hbl8, and_15. fold (pkcs7_padlen bl).
  pose proof (padlen_range bl) as Hk. set (k := pkcs7_padlen bl) in *.
  destruct (fill_words k Hk) as [Fi Fb]. set (f := k * 0x1010101) in *.
  assert (Wf : wf [f; f; f; f]) by (apply canon_wf, canon_int32; assumption).
  destruct (concat_spec a [f; f; f; f] Hw Wf) as [Wc Bc].
  assert (Lc : bitArray.bitLength (bitArray.concat a [f; f; f; f]) = bl + 128).
  { rewrite concat_bitLength by assumption. fold bl.
    rewrite (bitLength_full [f; f; f; f]) by (apply forallb_int32_full; assumption).
    reflexivity. }
  (* the padded length is a whole number of words *)
  assert (D8 : bl = 8 * (bl / 8)) by (apply Z_div_exact_full_2; lia).
  assert (D16 : (bl / 8 + k) mod 16 = 0).
  { unfold k, pkcs7_padlen.
    pose proof (Z.div_mod (bl / 8) 16 ltac:(lia)) as E.
    replace (bl / 8 + (16 - (bl / 8) mod 16)) with ((bl / 8 / 16 + 1) * 16) by lia.
    apply Z.mod_mul. lia. }
  assert (D4 : bl / 8 + k = 4 * ((bl / 8 + k) / 4)).
  { pose proof (Z.div_mod (bl / 8 + k) 16 ltac:(lia)) as E. rewrite D16 in E.
    rewrite E at 2. replace (16 * ((bl / 8 + k) / 16) + 0)
      with (4 * ((bl / 8 + k) / 16) * 4) by lia.
    rewrite Z.div_mul by lia. lia. }
  assert (Hq : 0 <= bl / 8) by (apply Z.div_pos; lia).
  rewrite sar_nonneg by (zconst; lia). change (2 ^ 2) with 4.
  set (nw := (bl / 8 + k) / 4) in *.
  rewrite slice_0 by lia.
  eexists. split; [reflexivity|]. split; [now apply wf_firstn|]. split.
  - rewrite bits_firstn_words by (try assumption; lia).
    rewrite Bc. rewrite bits_full with (a := [f; f; f; f])
      by (apply forallb_int32_full; assumption).
    rewrite Fb. unfold pkcs7_pad_spec.
    pose proof (bits_length a Hw) as La. fold bl in La. rewrite La. fold k.
    replace (32 * Z.to_nat nw)%nat with (List.length (bits a) + 8 * Z.to_nat k)%nat by lia.
    rewrite firstn_app_2. f_equal. apply firstn_bytes_repeat. lia.
  - intros Hc. apply canon_firstn, concat_canon; [assumption|].
    now apply canon_int32.
Qed.


Lemma wf_empty_iff a : wf a -> (a = [] <-> bitArray.bitLength a = 0).
Proof.
  intros H. split; [intros ->; reflexivity|]. intros E.
  destruct a as [|x r]; [reflexivity|].
  pose proof (bitLength_gt (x :: r) H ltac:(discriminate)).
  cbn [List.length] in *. lia.
Qed.

Lemma last_byte_bits a :
  wf a -> a <> [] -> bitArray.bitLength a mod 32 = 0 ->
  skipn (Z.to_nat (bitArray.bitLength a - 8)) (bits a) = bits_from (last a 0) 7 8.
Proof.
  intros H Hn Hm. pose proof (wf_aligned_full a H Hm) as Hf.
  rewrite (bits_full a Hf), (bitLength_full a Hf).
  destruct (snoc_cases a) as [->|(init & l & ->)]; [congruence|].
  rewrite last_last, bits32_app, length_app. cbn [List.length].
  rewrite skipn_app, bits32_length.
  rewrite skipn_all2 by (rewrite bits32_length; lia). cbn [app].
  replace (Z.to_nat (32 * Z.of_nat (List.length init + 1) - 8) - 32 * List.length init)%nat
    with 24%nat by lia.
  unfold bits32. cbn [flat_map]. rewrite app_nil_r.
  unfold word_bits. now rewrite skipn_bits_from by lia.
Qed.

Lemma get_last a : a <> [] -> JS.get a (Z.of_nat (List.length a) - 1) = last a 0.
Proof.
  intros Hn. destruct (snoc_cases a) as [->|(init & l & ->)]; [congruence|].
  rewrite last_last, length_app. cbn [List.length].
  replace (Z.of_nat (List.length init + 1) - 1) with (Z.of_nat (List.length init)) by lia.
  rewrite get_nth, app_nth2 by lia. now rewrite Nat.sub_diag.
Qed.

(** [unpad] agrees with the reference definition on bit sequences. *)
Theorem pkcs7_unpad_spec_ok a :
  wf a -> bitArray.bitLength a < 2 ^ 31 ->
  match pkcs7_unpad_spec (bits a) with
  | Some l => exists r, pkcs7.unpad a None = Ok r /\ wf r /\ bits r = l
                        /\ (canon a -> canon r)
  | None => exists m, pkcs7.unpad a None = Throw (SjclCorrupt m)
  end.
Proof.
  intros Hw Hlt. pose proof (bitLength_nonneg a Hw) as H0.
  pose proof (bits_length a Hw) as Lb.
  unfold pkcs7.unpad, pkcs7_unpad_spec.
  rewrite check_blocklen_default. cbn [rbind]. rewrite Lb, and_127.
  set (bl := bitArray.bitLength a) in *.
  replace (negb (Nat.eqb (List.length a) 0)) with (0 <? bl).
  2:{ destruct (Z.ltb_spec 0 bl) as [P|P]; destruct (Nat.eqb_spec (List.length a) 0) as [Q|Q];
        cbn [negb]; try reflexivity; exfalso.
      - apply length_zero_iff_nil in Q. apply (wf_empty_iff a Hw) in Q. fold bl in Q. lia.
      - apply Q. apply length_zero_iff_nil. apply (wf_empty_iff a Hw). fold bl. lia. }
  destruct (Z.eqb_spec (bl mod 128) 0) as [E128|N128]; cbn [andb]; [|eauto].
  destruct (Z.ltb_spec 0 bl) as [Hpos|Hpos]; [|eauto].
  assert (Hne : a <> []) by (intros ->; unfold bl in Hpos; simpl in Hpos; lia).
  assert (E32 : bl mod 32 = 0).
  { pose proof (Z.div_mod bl 128 ltac:(lia)) as D. rewrite E128 in D.
    rewrite D. replace (128 * (bl / 128) + 0) with (4 * (bl / 128) * 32) by lia.
    apply Z.mod_mul. lia. }
  pose proof (wf_aligned_full a Hw E32) as Hf.
  pose proof (bitLength_full a Hf) as Hbl. fold bl in Hbl.
  assert (Hge : 128 <= bl).
  { pose proof (Z.div_mod bl 128 ltac:(lia)) as D. rewrite E128 in D.
    assert (0 < bl / 128) by (apply Z.div_str_pos; lia || (destruct (Z.lt_ge_cases bl 128); [|lia];
      rewrite Z.mod_small in E128; lia)). lia. }
  (* the last byte *)
  rewrite (sar_nonneg bl 3) by (zconst; lia). change (2 ^ 3) with 8.
  assert (Hq : 0 <= bl / 8) by (apply Z.div_pos; lia).
  assert (Hq8 : bl / 8 < 2 ^ 31) by (apply Z.div_lt_upper_bound; zconst; lia).
  rewrite (sar_nonneg (bl / 8) 2) by lia. change (2 ^ 2) with 4.
  rewrite Z.div_div by lia. change (8 * 4) with 32.
  replace (bl / 32) with (Z.of_nat (List.length a))
    by (rewrite Hbl, Z.mul_comm, Z.div_mul; lia).
  rewrite get_last by assumption. rewrite and_255.
  pose proof (last_byte_bits a Hw Hne E32) as LB. fold bl in LB. rewrite LB.
  rewrite bits_value_bits_from by lia.
  cbn [Z.of_nat Pos.of_succ_nat Pos.succ]. change (7 - 8 + 1) with 0.
  change (2 ^ 0) with 1. rewrite Z.div_1_r. change (2 ^ 8) with 256.
  set (k := last a 0 mod 256).
  replace (negb ((k =? 0) || (16 <? k))) with ((1 <=? k) && (k <=? 16)).
  2:{ pose proof (Z.mod_pos_bound (last a 0) 256 ltac:(lia)). fold k in H.
      destruct (Z.eqb_spec k 0), (Z.ltb_spec 16 k), (Z.leb_spec 1 k), (Z.leb_spec k 16);
        cbn; try reflexivity; lia. }
  destruct (Z.leb_spec 1 k) as [K1|K1]; cbn [andb]; [|eauto].
  destruct (Z.leb_spec k 16) as [K16|K16]; cbn [andb]; [|eauto].
  (* the comparison of the tail with the expected padding *)
  rewrite (shl_small (Z.of_nat (List.length a)) 5)
    by (try (unfold int32; zconst; change (2 ^ 5) with 32; lia); lia).
  change (2 ^ 5) with 32. rewrite (Z.mul_comm (Z.of_nat (List.length a)) 32), <- Hbl.
  rewrite (shl_small k 3)
    by (try (unfold int32; zconst; change (2 ^ 3) with 8; lia); lia).
  change (2 ^ 3) with 8. rewrite (Z.mul_comm k 8).
  destruct (fill_words k ltac:(lia)) as [Fi Fb]. set (f := k * 0x1010101) in *.
  assert (Wf : wf [f; f; f; f]) by (apply canon_wf, canon_int32; assumption).
  assert (Lf : bitArray.bitLength [f; f; f; f] = 128)
    by (rewrite bitLength_full by (apply forallb_int32_full; assumption); reflexivity).
  destruct (bitSlice_spec [f; f; f; f] 0 (8 * k) Wf ltac:(lia) ltac:(lia)) as [WX BX].
  destruct (bitSlice_spec a (bl - 8 * k) bl Hw ltac:(lia) ltac:(fold bl; lia)) as [WY BY].
  destruct (bitSlice_spec a 0 (bl - 8 * k) Hw ltac:(lia) ltac:(fold bl; lia)) as [WR BR].
  rewrite Z.sub_0_r in BX, BR. change (Z.to_nat 0) with 0%nat in BX, BR.
  cbn [skipn] in BX, BR.
  rewrite (bits_full [f; f; f; f]) in BX by (apply forallb_int32_full; assumption).
  rewrite Fb in BX.
  replace (Z.to_nat (8 * k)) with (8 * Z.to_nat k)%nat in BX by lia.
  rewrite firstn_bytes_repeat in BX by lia.
  replace (bl - (bl - 8 * k)) with (8 * k) in BY by lia.
  rewrite firstn_all2 in BY by (rewrite length_skipn; lia).
  replace (bitArray.equal (bitArray.bitSlice [f; f; f; f] 0 (Some (8 * k)))
             (bitArray.bitSlice a (bl - 8 * k) (Some bl)))
    with (bits_eqb (skipn (Z.to_nat (bl - 8 * k)) (bits a))
                   (bytes_bits (List.repeat k (Z.to_nat k)))).
  2:{ apply bool_eq_iff. rewrite bits_eqb_spec, equal_bits, BX, BY by assumption.
      split; congruence. }
  destruct (bits_eqb _ _); [|eauto].
  eexists. split; [reflexivity|]. split; [assumption|]. split; [assumption|].
  intros Hc. apply bitSlice_canon; [assumption | lia | fold bl; lia].
Qed.

Lemma pkcs7_unpad_pad_spec l :
  (List.length l mod 8 = 0)%nat -> pkcs7_unpad_spec (pkcs7_pad_spec l) = Some l.
Proof.
  intros H8. unfold pkcs7_unpad_spec, pkcs7_pad_spec.
  set (n := Z.of_nat (List.length l)).
  pose proof (padlen_range n) as Hk. set (k := pkcs7_padlen n) in *.
  assert (D8 : n = 8 * (n / 8)).
  { apply Z_div_exact_full_2; [lia|]. unfold n.
    pose proof (Nat.div_mod_eq (List.length l) 8) as D. rewrite H8 in D.
    apply Z.mod_divide; [lia|]. exists (Z.of_nat (List.length l / 8)). lia. }
  assert (Ln : Z.of_nat (List.length (l ++ bytes_bits (List.repeat k (Z.to_nat k))))
               = n + 8 * k)
    by (rewrite length_app, bytes_bits_length, repeat_length; lia).
  rewrite Ln.
  assert (D128 : (n + 8 * k) mod 128 = 0).
  { unfold k, pkcs7_padlen.
    pose proof (Z.div_mod (n / 8) 16 ltac:(lia)) as E.
    replace (n + 8 * (16 - (n / 8) mod 16)) with ((n / 8 / 16 + 1) * 128) by lia.
    apply Z.mod_mul. lia. }
  rewrite D128. change (0 =? 0) with true.
  destruct (Z.ltb_spec 0 (n + 8 * k)); [|lia]. cbn [andb].
  (* the last byte is [k] *)
  assert (Last : skipn (Z.to_nat (n + 8 * k - 8))
                   (l ++ bytes_bits (List.repeat k (Z.to_nat k))) = byte_bits k).
  { rewrite skipn_app. rewrite skipn_all2 by lia. cbn [app].
    replace (Z.to_nat (n + 8 * k - 8) - List.length l)%nat
      with (8 * (Z.to_nat k - 1))%nat by lia.
    rewrite (repeat_split k (Z.to_nat k) (Z.to_nat k - 1)) by lia.
    rewrite bytes_bits_app, skipn_app, bytes_bits_length, repeat_length.
    rewrite skipn_all2 by (rewrite bytes_bits_length, repeat_length; lia).
    replace (Z.to_nat k - (Z.to_nat k - 1))%nat with 1%nat by lia.
    replace (8 * (Z.to_nat k - 1) - 8 * (Z.to_nat k - 1))%nat with 0%nat by lia.
    cbn [app skipn List.repeat]. unfold bytes_bits. cbn [flat_map].
    apply app_nil_r. }
  rewrite Last. unfold byte_bits. rewrite bits_value_bits_from by lia.
  cbn [Z.of_nat Pos.of_succ_nat Pos.succ]. change (7 - 8 + 1) with 0.
  change (2 ^ 0) with 1. rewrite Z.div_1_r. change (2 ^ 8) with 256.
  rewrite (Z.mod_small k 256) by lia.
  destruct (Z.leb_spec 1 k); [|lia]. destruct (Z.leb_spec k 16); [|lia]. cbn [andb].
  replace (Z.to_nat (n + 8 * k - 8 * k)) with (List.length l) by lia.
  rewrite skipn_app, Nat.sub_diag, skipn_all. cbn [skipn app].
  rewrite (proj2 (bits_eqb_spec _ _) eq_refl).
  rewrite firstn_app, Nat.sub_diag, firstn_all. cbn [firstn].
  now rewrite app_nil_r.
Qed.


(** C4 (as amended).  [pkcs7.pad] appends [k] bytes of value [k] with
    [k = 16 - (len mod 16)], a full block of sixteen when [len] is a
    multiple of 16, and [unpad (pad x) = x].  [pkcs7.unpad] raises
    Corrupt unless its input is a positive multiple of the block size,
    its last byte [k] satisfies [1 <= k <= 16] and the last [k] bytes all
    equal [k]; otherwise it strips those [k] bytes
    ([pkcs7_unpad_spec]). *)
Theorem pkcs7_pad_unpad x a :
  byte_aligned x -> bitArray.bitLength x < 2 ^ 31 - 128 ->
  wf a -> bitArray.bitLength a < 2 ^ 31 ->
  (let k := 16 - byte_length x mod 16 in
   (byte_length x mod 16 = 0 -> k = 16)
   /\ exists p, pkcs7.pad x None = Ok p
      /\ bits p = bits x ++ bytes_bits (List.repeat k (Z.to_nat k))
      /\ exists r, pkcs7.unpad p None = Ok r /\ bits r = bits x
                   /\ (canon x -> r = x))
  /\ match pkcs7_unpad_spec (bits a) with
     | Some l => exists r, pkcs7.unpad a None = Ok r /\ bits r = l
     | None => exists m, pkcs7.unpad a None = Throw (SjclCorrupt m)
     end.
Proof.
  intros Hx Lx Ha La. split.
  - intros k. split; [subst k; lia|].
    destruct (pkcs7_pad_spec_ok x Hx Lx) as (p & Ep & Wp & Bp & Cp).
    destruct Hx as [Wx Mx]. pose proof (bits_length x Wx) as Lb.
    assert (Bp' : bits p = bits x ++ bytes_bits (List.repeat k (Z.to_nat k))).
    { rewrite Bp. unfold pkcs7_pad_spec. rewrite Lb. reflexivity. }
    exists p. split; [assumption|]. split; [assumption|].
    assert (Lp : bitArray.bitLength p < 2 ^ 31).
    { rewrite <- (bits_length p Wp), Bp', length_app, bytes_bits_length, repeat_length.
      assert (1 <= k <= 16)
        by (subst k; pose proof (Z.mod_pos_bound (byte_length x) 16 ltac:(lia)); lia).
      zconst. lia. }
    pose proof (pkcs7_unpad_spec_ok p Wp Lp) as U.
    rewrite Bp, pkcs7_unpad_pad_spec in U.
    + destruct U as (r & Er & Wr & Br & Cr). exists r.
      split; [assumption|]. split; [assumption|].
      intros Hc. apply canon_inj; auto.
    + apply Nat2Z.inj. rewrite Nat2Z.inj_mod, Lb. exact Mx.
  - pose proof (pkcs7_unpad_spec_ok a Ha La) as U.
    destruct (pkcs7_unpad_spec (bits a)).
    + destruct U as (r & Er & _ & Br & _). eauto.
    + exact U.
Qed.

(** ** PKCS#1 v1.5 padding *)

Lemma partial_byte_spec v :
  wf [bitArray.partial 8 v false]
  /\ bits [bitArray.partial 8 v false] = byte_bits v.
Proof.
  rewrite partial_shift by lia. split.
  - apply lastb_partial; [lia | apply shl_int32 | apply (shl_low_zero v 8); lia].
  - cbn [bits]. rewrite getPartial_partial by (try apply shl_int32; lia).
    rewrite word_bits_partial by lia. exact (word_bits_shl v 8 ltac:(lia)).
Qed.

Lemma pack_step tmp b r :
  0 <= r <= 3 -> is_byte b ->
  bits_from (JS.or (JS.shl tmp 8) b) (8 * (r + 1) - 1) (Z.to_nat (8 * (r + 1)))
  = bits_from tmp (8 * r - 1) (Z.to_nat (8 * r)) ++ byte_bits b.
Proof.
  intros Hr Hb. unfold byte_bits.
  replace (Z.to_nat (8 * (r + 1))) with (Z.to_nat (8 * r) + 8)%nat by lia.
  rewrite bits_from_app. f_equal.
  - apply bits_from_ext. intros i Hi. rewrite tb_or, tb_shl by lia.
    destruct (Z.leb_spec 8 (8 * (r + 1) - 1 - i)); [|lia].
    replace (Z.testbit b (8 * (r + 1) - 1 - i)) with false.
    + rewrite orb_false_r. f_equal. lia.
    + symmetry. unfold is_byte in Hb. destruct (Z.eq_dec b 0) as [->|]; [apply Z.testbit_0_l|].
      apply Z.bits_above_log2; [lia|].
      apply Z.lt_le_trans with 8; [apply Z.log2_lt_pow2; [lia | change (2 ^ 8) with 256; lia] | lia].
  - apply bits_from_ext. intros i Hi. rewrite tb_or, tb_shl by lia.
    destruct (Z.leb_spec 8 (8 * (r + 1) - 1 - Z.of_nat (Z.to_nat (8 * r)) - i)); [lia|].
    cbn [orb]. f_equal. lia.
Qed.

(** Invariant of the packing loop: the words pushed so far followed by
    the pending bytes in [tmp] spell the bytes consumed. *)
Lemma pack_loop_spec bs :
  Forall is_byte bs ->
  forall i ps tmp,
  0 <= i -> Forall int32 ps ->
  let '(ps', tmp') := pack_loop bs i ps tmp in
  let r := i mod 4 in
  let r' := (i + Z.of_nat (List.length bs)) mod 4 in
  Forall int32 ps'
  /\ bits32 ps' ++ bits_from tmp' (8 * r' - 1) (Z.to_nat (8 * r'))
     = bits32 ps ++ bits_from tmp (8 * r - 1) (Z.to_nat (8 * r)) ++ bytes_bits bs.
Proof.
  induction 1 as [|b bs Hb Hbs IH]; intros i ps tmp Hi Hps.
  - cbn [pack_loop List.length]. rewrite Z.add_0_r. split; [assumption|].
    cbn [bytes_bits flat_map]. now rewrite app_nil_r.
  - cbn [pack_loop]. rewrite and_3.
    pose proof (Z.mod_pos_bound i 4 ltac:(lia)) as B.
    pose proof (pack_step tmp b (i mod 4) ltac:(lia) Hb) as S.
    assert (Ei : (i + 1) mod 4 = if i mod 4 =? 3 then 0 else i mod 4 + 1).
    { destruct (Z.eqb_spec (i mod 4) 3) as [E|N].
      - rewrite <- Zplus_mod_idemp_l, E. reflexivity.
      - rewrite <- Zplus_mod_idemp_l. apply Z.mod_small. lia. }
    replace (i + Z.of_nat (List.length (b :: bs)))
      with (i + 1 + Z.of_nat (List.length bs)) by (cbn [List.length]; lia).
    destruct (Z.eqb_spec (i mod 4) 3) as [E3|N3].
    + specialize (IH (i + 1) (ps ++ [JS.or (JS.shl tmp 8) b]) 0 ltac:(lia)).
      destruct (pack_loop bs (i + 1) (ps ++ [JS.or (JS.shl tmp 8) b]) 0) as [ps' tmp'].
      destruct IH as [F E].
      { apply Forall_app. split; [assumption|]. constructor; [apply or_int32 | constructor]. }
      split; [assumption|]. rewrite E, Ei. cbn [Z.mul Z.sub Z.to_nat bits_from app].
      rewrite bits32_app. unfold bits32 at 2. cbn [flat_map]. rewrite app_nil_r.
      unfold word_bits. rewrite E3 in S. change (8 * (3 + 1) - 1) with 31 in S.
      change (Z.to_nat (8 * (3 + 1))) with 32%nat in S. rewrite S, E3.
      unfold bytes_bits. cbn [flat_map]. now rewrite <- !app_assoc.
    + specialize (IH (i + 1) ps (JS.or (JS.shl tmp 8) b) ltac:(lia) Hps).
      destruct (pack_loop bs (i + 1) ps (JS.or (JS.shl tmp 8) b)) as [ps' tmp'].
      destruct IH as [F E]. split; [assumption|]. rewrite E, Ei, S.
      unfold bytes_bits. cbn [flat_map]. now rewrite <- !app_assoc.
Qed.

Lemma nonzero_byte_range pool b r :
  pkcs15.nonzero_byte pool = Some (b, r) -> 1 <= b <= 255.
Proof.
  induction pool as [|w pool IH]; [discriminate|]. cbn [pkcs15.nonzero_byte].
  rewrite and_255. pose proof (Z.mod_pos_bound w 256 ltac:(lia)).
  destruct (Z.eqb_spec (w mod 256) 0); [exact IH|]. intros [= <- <-]. lia.
Qed.

Lemma draw_nonzero_spec n : forall pool bs rest,
  draw_nonzero n pool = Some (bs, rest) ->
  List.length bs = n /\ Forall (fun b => 1 <= b <= 255) bs.
Proof.
  induction n as [|n IH]; intros pool bs rest E; cbn [draw_nonzero] in E.
  - injection E as <- <-. split; [reflexivity | constructor].
  - destruct (pkcs15.nonzero_byte pool) as [[b r]|] eqn:Eb; [|discriminate].
    destruct (draw_nonzero n r) as [[bs' r']|] eqn:Ed; [|discriminate].
    injection E as <- <-. destruct (IH _ _ _ Ed) as [L F].
    split; [cbn [List.length]; now rewrite L|].
    constructor; [now apply (nonzero_byte_range pool b r) | assumption].
Qed.

(** Enough entropy: when the pool still holds [n] words with a non-zero
    low byte, the [n] padding bytes are delivered. *)
Lemma draw_nonzero_total n : forall pool,
  (n <= List.length (filter (fun w => negb (JS.and w 0xff =? 0)%Z) pool))%nat ->
  exists bs rest, draw_nonzero n pool = Some (bs, rest).
Proof.
  induction n as [|n IH]; intros pool H; [cbn; eauto|].
  induction pool as [|w pool IHp]; [simpl in H; lia|].
  cbn [draw_nonzero pkcs15.nonzero_byte]. cbn [filter] in H.
  destruct (JS.and w 255 =? 0) eqn:E; cbn [negb] in H.
  - apply IHp in H. cbn [draw_nonzero] in H. exact H.
  - cbn [List.length] in H. destruct (IH pool ltac:(lia)) as (bs & rest & ->). eauto.
Qed.

Lemma pkcs15_ps_spec bt n pool bs rest :
  pkcs15_ps bt n pool = Some (bs, rest) ->
  List.length bs = n /\ Forall is_byte bs
  /\ (bt = 1 -> bs = List.repeat 0xff n)
  /\ (bt = 2 -> Forall (fun b => 1 <= b <= 255) bs)
  /\ (bt = 0 -> bs = List.repeat 0 n).
Proof.
  unfold pkcs15_ps. intros E.
  destruct (Z.eqb_spec bt 1) as [->|N1].
  - injection E as <- <-. rewrite repeat_length. repeat split; try lia.
    apply Forall_forall. intros x Hx. apply repeat_spec in Hx. subst. unfold is_byte. lia.
  - destruct (Z.eqb_spec bt 2) as [->|N2].
    + destruct (draw_nonzero_spec _ _ _ _ E) as [L F]. repeat split; try lia; auto.
      eapply Forall_impl; [|exact F]. unfold is_byte. simpl. intros. lia.
    + injection E as <- <-. rewrite repeat_length. repeat split; try lia.
      apply Forall_forall. intros x Hx. apply repeat_spec in Hx. subst. unfold is_byte. lia.
Qed.

Lemma ps_loop_run bt n : forall pool bs rest i ps tmp tr,
  pkcs15_ps bt n pool = Some (bs, rest) ->
  pkcs15.ps_loop n i bt ps tmp (mkWorld pool tr)
  = (Ok (pack_loop bs i ps tmp), mkWorld rest tr).
Proof.
  unfold pkcs15_ps. induction n as [|n IH]; intros pool bs rest i ps tmp tr E.
  - assert (bs = [] /\ rest = pool) as [-> ->].
    { destruct (bt =? 1); [now injection E as <- <-|].
      destruct (bt =? 2); cbn in E; now injection E as <- <-. }
    reflexivity.
  - cbn [pkcs15.ps_loop]. unfold bind.
    destruct (Z.eqb_spec bt 1) as [E1|N1].
    + injection E as <- <-. cbn [List.repeat pack_loop]. unfold ret at 1.
      destruct (JS.and i 3 =? 3); apply IH; reflexivity.
    + destruct (Z.eqb_spec bt 2) as [E2|N2].
      * cbn [draw_nonzero] in E. unfold pkcs15.random_nonzero_byte. cbn [entropy trace].
        destruct (pkcs15.nonzero_byte pool) as [[b r]|]; [|discriminate].
        destruct (draw_nonzero n r) as [[bs' r']|] eqn:Ed; [|discriminate].
        injection E as <- <-. cbn [pack_loop].
        destruct (JS.and i 3 =? 3); apply IH; exact Ed.
      * injection E as <- <-. cbn [List.repeat pack_loop]. unfold ret at 1.
        destruct (JS.and i 3 =? 3); apply IH; reflexivity.
Qed.


(** The padding string as a bitArray: the packed words, closed by a
    partial word when the number of bytes is not a multiple of four. *)
Lemma ps_array_spec PS :
  Forall is_byte PS ->
  let n := Z.of_nat (List.length PS) in
  let '(ps, tmp) := pack_loop PS 0 [] 0 in
  let arr := if JS.and n 3 =? 0 then ps
             else ps ++ [bitArray.partial (8 * JS.and n 3) tmp false] in
  wf arr /\ bits arr = bytes_bits PS.
Proof.
  intros HB n.
  pose proof (pack_loop_spec PS HB 0 [] 0 ltac:(lia) ltac:(constructor)) as H.
  destruct (pack_loop PS 0 [] 0) as [ps tmp].
  cbv zeta in H. destruct H as [F E].
  change (0 mod 4) with 0 in E. cbn [Z.mul Z.sub Z.to_nat bits_from bits32 flat_map app] in E.
  rewrite Z.add_0_l in E. fold n in E.
  rewrite and_3. pose proof (Z.mod_pos_bound n 4 ltac:(lia)) as B.
  destruct (Z.eqb_spec (n mod 4) 0) as [E0|N0].
  - rewrite E0 in E. cbn [Z.mul Z.sub Z.to_nat bits_from] in E. rewrite app_nil_r in E.
    split; [now apply canon_wf, canon_int32|].
    rewrite bits_full by (now apply forallb_int32_full). exact E.
  - set (r := n mod 4) in *. rewrite partial_shift by lia. split.
    + apply wf_snoc; [now apply forallb_int32_full|].
      apply lastb_partial; [lia | apply shl_int32 | apply shl_low_zero; lia].
    + rewrite bits_snoc, getPartial_partial by (try apply shl_int32; lia).
      rewrite word_bits_partial, word_bits_shl by lia. exact E.
Qed.

(** C7 (as amended).  For non-empty byte-aligned data and block type
    [bt] in {0,1,2}, [pkcs15.pad] rejects the input when
    [|data| + 3 > blockLen] and otherwise produces
    [0x00 ‖ BT ‖ PS ‖ 0x00 ‖ data] with [|PS| = blockLen - 3 - |data|],
    which may be any number from 0 upwards; [PS] is zeros, [0xFF]s, or
    non-zero random bytes according to [bt]. *)
Theorem pkcs15_pad_layout a blockLen bt w :
  byte_aligned a -> a <> [] -> bt = 0 \/ bt = 1 \/ bt = 2 ->
  (blockLen < byte_length a + 3 ->
   pkcs15.pad a blockLen (Some bt) w
   = (Throw (SjclCorrupt "data to pad is too big for the padding block length"), w))
  /\ (byte_length a + 3 <= blockLen ->
      forall PS rest,
      pkcs15_ps bt (Z.to_nat (blockLen - 3 - byte_length a)) (entropy w)
      = Some (PS, rest) ->
      exists r,
        pkcs15.pad a blockLen (Some bt) w = (Ok r, mkWorld rest (trace w))
        /\ wf r
        /\ bits r = byte_bits 0 ++ byte_bits bt ++ bytes_bits PS
                    ++ byte_bits 0 ++ bits a
        /\ Z.of_nat (List.length PS) = blockLen - 3 - byte_length a
        /\ 0 <= Z.of_nat (List.length PS)
        /\ (bt = 0 -> PS = List.repeat 0 (List.length PS))
        /\ (bt = 1 -> PS = List.repeat 0xff (List.length PS))
        /\ (bt = 2 -> Forall (fun b => 1 <= b <= 255) PS)).
Proof.
  intros [Hw Hm] Hne Hbt. unfold byte_length.
  assert (Head :
            pkcs15.pad a blockLen (Some bt) w
            = (if bitArray.bitLength a / 8 + 3 <=? blockLen
               then bind (pkcs15.ps_loop
                            (Z.to_nat (blockLen - 3 - bitArray.bitLength a / 8)) 0 bt [] 0)
                      (fun r =>
                         let '(ps, tmp) := r in
                         let i := blockLen - 3 - bitArray.bitLength a / 8 in
                         let ps := if JS.and i 3 =? 0 then ps
                                   else ps ++ [bitArray.partial (8 * JS.and i 3) tmp false] in
                         ret (bitArray.concat
                                (bitArray.concat
                                   (bitArray.concat
                                      (bitArray.concat [bitArray.partial 8 0 false]
                                         [bitArray.partial 8 bt false]) ps)
                                   [bitArray.partial 8 0 false]) a))
               else throw (SjclCorrupt "data to pad is too big for the padding block length")) w).
  { unfold pkcs15.pad. rewrite and_7, Hm. change (0 =? 0) with true.
    destruct (Nat.eqb_spec (List.length a) 0) as [E|_];
      [apply length_zero_iff_nil in E; contradiction|].
    cbn [andb negb].
    replace ((bt =? 0) || (bt =? 1) || (bt =? 2)) with true
      by (destruct Hbt as [->|[->| ->]]; reflexivity).
    reflexivity. }
  rewrite Head. clear Head. split.
  - intros Hlt. destruct (Z.leb_spec (bitArray.bitLength a / 8 + 3) blockLen); [lia|].
    reflexivity.
  - intros Hle PS rest EPS.
    destruct (Z.leb_spec (bitArray.bitLength a / 8 + 3) blockLen); [|lia].
    set (n := blockLen - 3 - bitArray.bitLength a / 8) in *.
    destruct (pkcs15_ps_spec _ _ _ _ _ EPS) as (LPS & BPS & P1 & P2 & P0).
    unfold bind. destruct w as [pool tr]. cbn [entropy trace] in *.
    rewrite (ps_loop_run bt _ pool PS rest 0 [] 0 tr EPS).
    pose proof (ps_array_spec PS BPS) as A. cbv zeta in A.
    replace (Z.of_nat (List.length PS)) with n in A by lia.
    destruct (pack_loop PS 0 [] 0) as [ps tmp]. destruct A as [Wps Bps].
    set (arr := if JS.and n 3 =? 0 then ps
                else ps ++ [bitArray.partial (8 * JS.and n 3) tmp false]) in *.
    destruct (partial_byte_spec 0) as [W0 B0].
    destruct (partial_byte_spec bt) as [Wb Bb].
    destruct (concat_spec _ _ W0 Wb) as [W1 B1].
    destruct (concat_spec _ _ W1 Wps) as [W2 B2].
    destruct (concat_spec _ _ W2 W0) as [W3 B3].
    destruct (concat_spec _ _ W3 Hw) as [W4 B4].
    eexists. split; [reflexivity|]. split; [exact W4|]. split.
    + rewrite B4, B3, B2, B1, B0, Bb, Bps. now rewrite <- !app_assoc.
    + rewrite LPS. repeat split; try lia; auto.
Qed.


(** ** Hexadecimal strings *)

Ltac digit_cases d H :=
  let C := fresh "C" in
  assert (C : d = 0 \/ d = 1 \/ d = 2 \/ d = 3 \/ d = 4 \/ d = 5 \/ d = 6 \/ d = 7
              \/ d = 8 \/ d = 9 \/ d = 10 \/ d = 11 \/ d = 12 \/ d = 13 \/ d = 14
              \/ d = 15) by lia;
  clear H; repeat (destruct C as [->|C]); try subst d.

Lemma hex_val_char d : 0 <= d < 16 -> Str.hex_val (Str.hex_char d) = Some d.
Proof. intros H. digit_cases d H; reflexivity. Qed.

Lemma hex_val_upper d :
  0 <= d < 16 -> Str.hex_val (Str.upper_char (Str.hex_char d)) = Some d.
Proof. intros H. digit_cases d H; reflexivity. Qed.

Lemma is_hex_char d : 0 <= d < 16 -> Str.is_hex (Str.hex_char d) = true.
Proof. intros H. unfold Str.is_hex. now rewrite hex_val_char. Qed.

Lemma hex_val_range c d : Str.hex_val c = Some d -> 0 <= d < 16.
Proof.
  unfold Str.hex_val. set (n := Z.of_nat (nat_of_ascii c)).
  destruct ((48 <=? n) && (n <=? 57)) eqn:E1.
  { apply andb_true_iff in E1. destruct E1 as [A B]. apply Z.leb_le in A, B.
    intros [= <-]. lia. }
  destruct ((97 <=? n) && (n <=? 102)) eqn:E2.
  { apply andb_true_iff in E2. destruct E2 as [A B]. apply Z.leb_le in A, B.
    intros [= <-]. lia. }
  destruct ((65 <=? n) && (n <=? 70)) eqn:E3; [|discriminate].
  apply andb_true_iff in E3. destruct E3 as [A B]. apply Z.leb_le in A, B.
  intros [= <-]. lia.
Qed.

(** What a hexadecimal digit is not. *)
Lemma is_hex_not_special c :
  Str.is_hex c = true ->
  Str.is_space c = false /\ c <> "x"%char /\ c <> "X"%char /\ c <> "-"%char
  /\ c <> "+"%char /\ c <> "_"%char.
Proof.
  destruct c as [[] [] [] [] [] [] [] []]; intros H;
    try discriminate H; repeat split; try reflexivity; discriminate.
Qed.

Lemma pow16 k : 0 <= k -> 16 ^ k = 2 ^ (4 * k).
Proof. intros. change 16 with (2 ^ 4). now rewrite <- Z.pow_mul_r by lia. Qed.

Lemma pow16_pos k : 0 <= k -> 0 < 16 ^ k.
Proof. intros. apply Z.pow_pos_nonneg; lia. Qed.

Lemma hexn_length n v : String.length (hexn n v) = n.
Proof. induction n; simpl; [reflexivity | now rewrite IHn]. Qed.

Lemma hexn_is_hex n v : Str.forallb Str.is_hex (hexn n v) = true.
Proof.
  induction n as [|n IH]; [reflexivity|]. cbn [hexn Str.forallb].
  rewrite IH, is_hex_char; [reflexivity|]. apply Z.mod_pos_bound. lia.
Qed.

Lemma digit_bits v k :
  0 <= k ->
  bits_from ((v / 16 ^ k) mod 16) 3 4 = bits_from v (4 * k + 3) 4.
Proof.
  intros Hk. apply bits_from_ext. intros i Hi. cbn in Hi.
  change 16 with (2 ^ 4) at 2. rewrite Z.mod_pow2_bits_low by lia.
  rewrite pow16, Z.div_pow2_bits by lia. f_equal. lia.
Qed.

Lemma hex_bits_hexn n v :
  hex_bits (hexn n v) = bits_from v (4 * Z.of_nat n - 1) (4 * n).
Proof.
  induction n as [|n IH]; [reflexivity|].
  cbn [hexn hex_bits]. rewrite hex_val_char by (apply Z.mod_pos_bound; lia).
  rewrite IH, digit_bits by lia.
  replace (4 * S n)%nat with (4 + 4 * n)%nat by lia.
  rewrite bits_from_app. f_equal.
  - f_equal. lia.
  - f_equal. lia.
Qed.

Lemma hex_bits_app s1 s2 : hex_bits (s1 ++ s2) = hex_bits s1 ++ hex_bits s2.
Proof.
  induction s1 as [|c s1 IH]; [reflexivity|].
  cbn [append hex_bits]. now rewrite IH, app_assoc.
Qed.

Lemma hex_bits_length s : List.length (hex_bits s) = (4 * String.length s)%nat.
Proof.
  induction s as [|c s IH]; [reflexivity|].
  cbn [hex_bits String.length]. rewrite length_app, bits_from_length, IH. lia.
Qed.

(** [hexn] reads only [v mod 16^n]. *)
Lemma hexn_mod n v : hexn n (v mod 16 ^ Z.of_nat n) = hexn n v.
Proof.
  assert (G : forall k m, (k <= m)%nat -> hexn k (v mod 16 ^ Z.of_nat m) = hexn k v).
  { induction k as [|k IH]; intros m Hm; [reflexivity|].
    cbn [hexn]. rewrite IH by lia. f_equal. f_equal.
    replace (Z.of_nat m) with (Z.of_nat k + (Z.of_nat m - Z.of_nat k)) by lia.
    rewrite Z.pow_add_r by lia.
    pose proof (pow16_pos (Z.of_nat k) ltac:(lia)).
    pose proof (pow16_pos (Z.of_nat m - Z.of_nat k) ltac:(lia)).
    rewrite Z.rem_mul_r by lia.
    rewrite (Z.mul_comm (16 ^ Z.of_nat k)), Z.div_add by lia.
    rewrite (Z.div_small (v mod 16 ^ Z.of_nat k)) by (apply Z.mod_pos_bound; lia).
    rewrite Z.add_0_l.
    replace (Z.of_nat m - Z.of_nat k) with (1 + (Z.of_nat m - Z.of_nat k - 1)) by lia.
    rewrite Z.pow_add_r, Z.pow_1_r by lia.
    pose proof (pow16_pos (Z.of_nat m - Z.of_nat k - 1) ltac:(lia)).
    rewrite Z.rem_mul_r by lia.
    rewrite (Z.mul_comm 16), Z.mod_add by lia. apply Z.mod_mod. lia. }
  now apply G.
Qed.

Lemma hexn_snoc n v :
  hexn (S n) v
  = (hexn n (v / 16) ++ String (Str.hex_char (v mod 16)) EmptyString)%string.
Proof.
  induction n as [|n IH].
  - cbn [hexn append]. change (16 ^ Z.of_nat 0) with 1. now rewrite Z.div_1_r.
  - change (hexn (S (S n)) v)
      with (String (Str.hex_char ((v / 16 ^ Z.of_nat (S n)) mod 16)) (hexn (S n) v)).
    rewrite IH. cbn [hexn append]. f_equal. f_equal. f_equal.
    replace (Z.of_nat (S n)) with (1 + Z.of_nat n) by lia.
    rewrite Z.pow_add_r, Z.pow_1_r, Z.div_div by (try apply pow16_pos; lia).
    reflexivity.
Qed.

Lemma append_assoc (a b c : string) : ((a ++ b) ++ c = a ++ (b ++ c))%string.
Proof. induction a as [|x a IH]; [reflexivity|]. cbn [append]. now rewrite IH. Qed.

Lemma append_nil_r (a : string) : (a ++ "" = a)%string.
Proof. induction a as [|x a IH]; [reflexivity|]. cbn [append]. now rewrite IH. Qed.

Lemma append_length (a b : string) :
  String.length (a ++ b) = (String.length a + String.length b)%nat.
Proof. induction a as [|x a IH]; [reflexivity|]. cbn [append String.length]. now rewrite IH. Qed.

(** The digits written by [toString(16)]: no leading zero. *)
Lemma hex_digits_spec k : forall fuel v acc,
  (1 <= k)%nat -> (k <= fuel)%nat -> 0 <= v < 16 ^ Z.of_nat k ->
  (k = 1%nat \/ 16 ^ (Z.of_nat k - 1) <= v) ->
  Str.hex_digits fuel v acc = (hexn k v ++ acc)%string.
Proof.
  induction k as [|k IH]; intros fuel v acc H1 Hf Hv Hlo; [lia|].
  destruct fuel as [|fuel]; [lia|]. cbn [Str.hex_digits].
  rewrite hexn_snoc, append_assoc. cbn [append].
  destruct (Nat.eq_dec k 0) as [->|Hk].
  - change (16 ^ Z.of_nat 1) with 16 in Hv.
    rewrite (Z.div_small v 16) by lia. reflexivity.
  - assert (P : 16 ^ (Z.of_nat (S k) - 1) = 16 ^ Z.of_nat k) by (f_equal; lia).
    destruct Hlo as [Hlo|Hlo]; [lia|]. rewrite P in Hlo.
    assert (Q : 16 ^ Z.of_nat k = 16 * 16 ^ (Z.of_nat k - 1)).
    { rewrite <- (Z.pow_1_r 16) at 2. rewrite <- Z.pow_add_r by lia. f_equal. lia. }
    assert (R : 16 ^ Z.of_nat (S k) = 16 * 16 ^ Z.of_nat k).
    { rewrite <- (Z.pow_1_r 16) at 2. rewrite <- Z.pow_add_r by lia. f_equal. lia. }
    pose proof (pow16_pos (Z.of_nat k - 1) ltac:(lia)) as Pp.
    assert (D1 : 16 ^ (Z.of_nat k - 1) <= v / 16)
      by (apply Z.div_le_lower_bound; lia).
    assert (D2 : v / 16 < 16 ^ Z.of_nat k)
      by (apply Z.div_lt_upper_bound; lia).
    destruct (Z.eqb_spec (v / 16) 0) as [E|_]; [lia|].
    apply IH; try lia.
Qed.

Lemma ndigits_exists v :
  0 <= v ->
  exists k, (1 <= k)%nat /\ (k <= S (Z.to_nat (Z.log2 v)))%nat
            /\ v < 16 ^ Z.of_nat k /\ (k = 1%nat \/ 16 ^ (Z.of_nat k - 1) <= v).
Proof.
  intros Hv. destruct (Z.eq_dec v 0) as [->|Hn].
  { exists 1%nat. cbn. split; [lia|]. split; [lia|]. split; [lia|]. now left. }
  pose proof (Z.log2_spec v ltac:(lia)) as [L1 L2].
  pose proof (Z.log2_nonneg v) as L0.
  set (l := Z.log2 v) in *.
  exists (S (Z.to_nat (l / 4))).
  pose proof (Z.div_mod l 4 ltac:(lia)) as D.
  pose proof (Z.mod_pos_bound l 4 ltac:(lia)) as B.
  assert (Q : 0 <= l / 4) by (apply Z.div_pos; lia).
  split; [lia|]. split; [lia|]. split.
  - rewrite pow16 by lia. apply Z.lt_le_trans with (2 ^ Z.succ l); [assumption|].
    apply Z.pow_le_mono_r; lia.
  - right. rewrite pow16 by lia. apply Z.le_trans with (2 ^ l); [|assumption].
    apply Z.pow_le_mono_r; lia.
Qed.

Lemma toString16_hexn v :
  0 <= v ->
  exists k, (1 <= k)%nat /\ v < 16 ^ Z.of_nat k
            /\ (k = 1%nat \/ 16 ^ (Z.of_nat k - 1) <= v)
            /\ Str.toString16 v = hexn k v.
Proof.
  intros Hv. destruct (ndigits_exists v Hv) as (k & K1 & Kf & Kv & Klo).
  exists k. repeat split; try assumption.
  unfold Str.toString16. destruct (Z.ltb_spec v 0); [lia|].
  rewrite (hex_digits_spec k) by (try assumption; lia). apply append_nil_r.
Qed.

(** A number below [16^k] written with [j + k] digits starts with [j]
    zeros. *)
Lemma hexn_pad j k v :
  0 <= v < 16 ^ Z.of_nat k ->
  hexn (j + k) v = (Str.repeat "0"%char j ++ hexn k v)%string.
Proof.
  intros Hv. induction j as [|j IH]; [reflexivity|].
  cbn [Nat.add hexn Str.repeat append]. rewrite IH. f_equal.
  rewrite Z.div_small; [reflexivity|].
  split; [lia|]. apply Z.lt_le_trans with (16 ^ Z.of_nat k); [lia|].
  apply Z.pow_le_mono_r; lia.
Qed.


(** ** Worked instances: padding *)

(** [pkcs7_pad_unpad] at the two-byte input [aabb] and the padded block
    [... 02 02]. *)
Lemma pkcs7_pad_unpad_witness :
  let x := hex.toBits "aabb" in
  let a := hex.toBits "000102030405060708090a0b0c0d0202" in
  byte_aligned x /\ bitArray.bitLength x < 2 ^ 31 - 128
  /\ wf a /\ bitArray.bitLength a < 2 ^ 31
  /\ (exists p r, pkcs7.pad x None = Ok p
                  /\ bits p = bits x ++ bytes_bits (List.repeat 14 14)
                  /\ pkcs7.unpad p None = Ok r /\ r = x)
  /\ (exists r, pkcs7.unpad a None = Ok r
                /\ bits r = bits (hex.toBits "000102030405060708090a0b0c0d")).
Proof.
  intros x a.
  assert (H1 : byte_aligned x) by (split; reflexivity).
  assert (H2 : bitArray.bitLength x < 2 ^ 31 - 128) by reflexivity.
  assert (H3 : wf a) by reflexivity.
  assert (H4 : bitArray.bitLength a < 2 ^ 31) by reflexivity.
  destruct (pkcs7_pad_unpad x a H1 H2 H3 H4) as [[_ (p & Hp & Bp & r & Hr & _ & Cr)] U].
  repeat (split; [assumption|]). split.
  - exists p, r. repeat (split; [assumption|]). apply Cr. reflexivity.
  - exact U.
Defined.

(** The input consisting of the single byte [01]: the last byte is
    [k = 1] and the last byte equals [k], so the rule "read [k], check,
    strip" gives the empty string, but [pkcs7.unpad] raises Corrupt
    because one byte is not a multiple of the block size. *)
Lemma pkcs7_unpad_rejects_short_input :
  let a := hex.toBits "01" in
  wf a /\ bits a = byte_bits 1
  /\ pkcs7_unpad_claimed (bits a) = Some []
  /\ pkcs7.unpad a None
     = Throw (SjclCorrupt "input must be a positive multiple of the block size").
Proof. repeat split; reflexivity. Qed.

(** [pkcs15_pad_layout] at data [aabb], a 16-byte block and block type
    2: eleven random non-zero bytes of padding. *)
Lemma pkcs15_pad_layout_witness :
  let a := hex.toBits "aabb" in
  byte_aligned a /\ a <> [] /\ (2 = 0 \/ 2 = 1 \/ 2 = 2)
  /\ exists r,
       pkcs15.pad a 16 (Some 2) sample_world
       = (Ok r, mkWorld (List.repeat 0x01020304 117) [])
       /\ bits r = byte_bits 0 ++ byte_bits 2 ++ bytes_bits (List.repeat 4 11)
                   ++ byte_bits 0 ++ bits a.
Proof.
  intros a.
  assert (H1 : byte_aligned a) by (split; reflexivity).
  assert (H2 : a <> []) by discriminate.
  assert (H3 : 2 = 0 \/ 2 = 1 \/ 2 = 2) by (right; right; reflexivity).
  repeat (split; [assumption|]).
  destruct (pkcs15_pad_layout a 16 2 sample_world H1 H2 H3) as [_ L].
  destruct (L ltac:(vm_compute; discriminate) (List.repeat 4 11)
              (List.repeat 0x01020304 117) eq_refl)
    as (r & Er & _ & Br & _).
  exists r. split; assumption.
Defined.

(** Two bytes of data in a five-byte block leave no room for a padding
    string, and [pkcs15.pad] accepts: the result is [00 01 00 aa bb]. *)
Lemma pkcs15_pad_accepts_empty_ps :
  let a := hex.toBits "aabb" in
  byte_length a = 2 /\ 5 - 3 - byte_length a = 0
  /\ pkcs15.pad a 5 (Some 1) (mkWorld [] [])
     = (Ok (hex.toBits "000100aabb"), mkWorld [] []).
Proof. repeat split; reflexivity. Qed.

(** ** Worked instance: the template patch *)

Lemma sample_keys_wf : keys_wf sample_keys.
Proof.
  intros k v H. cbn in H.
  destruct (String.eqb k "comenc"); [|discriminate].
  injection H as <-. eexists. split; reflexivity.
Defined.

Lemma sample_slots_in_range : slots_in_range sample_template 256.
Proof.
  split; [|split; [discriminate | discriminate]].
  repeat constructor; discriminate.
Defined.

(** [template_patch_frame] on the sample template: the 32 bits of the
    [comenc] slot and the flag byte may change, nothing else does. *)
Lemma template_patch_frame_witness :
  let ba0 := hex.toBits "00ff11223344556600112233445566778899aabbccddeeff0102030405060708" in
  misc.inputToBits (createUO.template_data sample_template) = Ok ba0
  /\ wf ba0 /\ keys_wf sample_keys
  /\ slots_in_range sample_template (bitArray.bitLength ba0)
  /\ exists ba, createUO.patch sample_template sample_keys = Ok ba
       /\ wf ba /\ bitArray.bitLength ba = bitArray.bitLength ba0
       /\ forall i, 0 <= i ->
            in_spliced_range sample_keys (createUO.keyoffsets sample_template) i = false ->
            in_flag_byte sample_template i = false -> bit ba i = bit ba0 i.
Proof.
  intros ba0.
  assert (H1 : misc.inputToBits (createUO.template_data sample_template) = Ok ba0)
    by reflexivity.
  assert (H2 : wf ba0) by reflexivity.
  assert (H4 : slots_in_range sample_template (bitArray.bitLength ba0))
    by exact sample_slots_in_range.
  exact (conj H1 (conj H2 (conj sample_keys_wf (conj H4
           (template_patch_frame sample_template sample_keys ba0
              H1 H2 sample_keys_wf H4))))).
Defined.


(** ** Template filler: keys of the wrong length *)

Lemma lookup_remove_eq k keys : createUO.lookup k (remove_key k keys) = None.
Proof.
  induction keys as [|[k' v] keys IH]; [reflexivity|].
  unfold remove_key in *. cbn [filter fst].
  destruct (String.eqb k k') eqn:E; cbn [negb]; [exact IH|].
  cbn [createUO.lookup]. now rewrite E.
Qed.

Lemma lookup_remove_neq k k' keys :
  k' <> k -> createUO.lookup k' (remove_key k keys) = createUO.lookup k' keys.
Proof.
  intros Hne. induction keys as [|[k2 v] keys IH]; [reflexivity|].
  unfold remove_key in *. cbn [filter fst createUO.lookup].
  destruct (String.eqb k k2) eqn:E; cbn [negb].
  - apply String.eqb_eq in E. subst k2.
    destruct (String.eqb_spec k' k) as [->|_]; [contradiction | exact IH].
  - cbn [createUO.lookup]. now rewrite IH.
Qed.

(** A key whose length matches none of its slots leaves the key loop
    where it would be without those slots. *)
Lemma fill_keys_drop k v b keys : forall slots ba apk,
  createUO.lookup k keys = Some v -> misc.inputToBits v = Ok b ->
  Forall (fun ko => createUO.ko_type ko = k ->
                    bitArray.bitLength b <> createUO.ko_length ko) slots ->
  createUO.fill_keys slots keys ba apk
  = createUO.fill_keys
      (filter (fun ko => negb (String.eqb (createUO.ko_type ko) k)) slots)
      keys ba apk.
Proof.
  induction slots as [|ko slots IH]; intros ba apk Hk Hb Hs; [reflexivity|].
  inversion Hs as [|? ? Hko Hrest]; subst.
  cbn [filter].
  destruct (String.eqb_spec (createUO.ko_type ko) k) as [Ek|Ek]; cbn [negb].
  - cbn [createUO.fill_keys]. unfold createUO.has_property.
    rewrite Ek, Hk. cbn [negb]. rewrite orb_false_r.
    destruct (Nat.eqb (String.length k) 0); [now apply IH|].
    rewrite Hb. cbn [rbind]. specialize (Hko Ek).
    destruct (Z.eqb_spec (bitArray.bitLength b) (createUO.ko_length ko)) as [|_];
      [contradiction|]. cbn [negb]. now apply IH.
  - cbn [createUO.fill_keys].
    destruct (Nat.eqb (String.length (createUO.ko_type ko)) 0
              || negb (createUO.has_property (createUO.ko_type ko) keys));
      [now apply IH|].
    destruct (createUO.lookup (createUO.ko_type ko) keys) as [c|]; [|reflexivity].
    destruct (misc.inputToBits c) as [cv|e]; [|reflexivity]. cbn [rbind].
    destruct (negb (bitArray.bitLength cv =? createUO.ko_length ko)); now apply IH.
Qed.

(** For a key type that is not the name of an inherited member, the
    key loop is also where it would be without the key. *)
Lemma fill_keys_skip k v b keys : forall slots ba apk,
  createUO.inherited k = false ->
  createUO.lookup k keys = Some v -> misc.inputToBits v = Ok b ->
  Forall (fun ko => createUO.ko_type ko = k ->
                    bitArray.bitLength b <> createUO.ko_length ko) slots ->
  createUO.fill_keys slots keys ba apk
  = createUO.fill_keys slots (remove_key k keys) ba apk.
Proof.
  induction slots as [|ko slots IH]; intros ba apk Hi Hk Hb Hs; [reflexivity|].
  inversion Hs as [|? ? Hko Hrest]; subst.
  cbn [createUO.fill_keys]. unfold createUO.has_property.
  destruct (Nat.eqb (String.length (createUO.ko_type ko)) 0) eqn:E0.
  { cbn [orb]. now apply IH. }
  cbn [orb].
  destruct (String.eqb_spec (createUO.ko_type ko) k) as [Ek|Ek].
  - rewrite Ek, Hk, lookup_remove_eq, Hi, Hb. cbn [negb rbind].
    specialize (Hko Ek).
    destruct (Z.eqb_spec (bitArray.bitLength b) (createUO.ko_length ko)) as [|_];
      [contradiction|]. cbn [negb]. now apply IH.
  - rewrite (lookup_remove_neq k _ keys Ek).
    destruct (createUO.lookup (createUO.ko_type ko) keys) as [c|].
    + cbn [negb]. destruct (misc.inputToBits c) as [cv|e]; [|reflexivity].
      cbn [rbind].
      destruct (negb (bitArray.bitLength cv =? createUO.ko_length ko)); now apply IH.
    + destruct (createUO.inherited (createUO.ko_type ko)); cbn [negb];
        [reflexivity | now apply IH].
Qed.

(** C8 (as amended).  A supplied key whose bit length differs from the
    length recorded for its slot is not rejected: [templateFiller.build]
    skips the slot, and its result, success or failure, is the one it
    gives for the template without the slots of that type.  It is also
    the result it gives when that key is not supplied at all, unless
    the type of the key is the name of a member every object inherits
    ([constructor], [toString], ...): without the key such a slot is
    not skipped, it makes the build fail. *)
Theorem build_skips_mismatched_key {C : BlockCipher}
    (tpl : createUO.template) (keys : createUO.keymap) k v b (w : world) :
  createUO.lookup k keys = Some v -> misc.inputToBits v = Ok b ->
  Forall (fun ko => createUO.ko_type ko = k ->
                    bitArray.bitLength b <> createUO.ko_length ko)
         (createUO.keyoffsets tpl) ->
  createUO.build tpl keys w = createUO.build (drop_slots k tpl) keys w
  /\ (createUO.inherited k = false ->
      createUO.build tpl keys w = createUO.build tpl (remove_key k keys) w).
Proof.
  intros Hk Hb Hs. split.
  - assert (P : createUO.patch tpl keys = createUO.patch (drop_slots k tpl) keys).
    { unfold createUO.patch, drop_slots.
      cbn [createUO.template_data createUO.keyoffsets createUO.flagoffset].
      destruct (misc.inputToBits (createUO.template_data tpl)) as [ba|e];
        [|reflexivity].
      cbn [rbind]. now rewrite (fill_keys_drop k v b keys _ ba false Hk Hb Hs). }
    unfold createUO.build. rewrite P. reflexivity.
  - intros Hi.
    assert (P : createUO.patch tpl keys = createUO.patch tpl (remove_key k keys)).
    { unfold createUO.patch.
      destruct (misc.inputToBits (createUO.template_data tpl)) as [ba|e];
        [|reflexivity].
      cbn [rbind]. now rewrite (fill_keys_skip k v b keys _ ba false Hi Hk Hb Hs). }
    unfold createUO.build. now rewrite P.
Qed.

(** [build_skips_mismatched_key] on the sample template with a 16-bit
    key for the 32-bit slot [comenc]. *)
Lemma build_skips_mismatched_key_witness :
  createUO.lookup "comenc" sample_keys_short = Some (InStr "dead")
  /\ misc.inputToBits (InStr "dead") = Ok (hex.toBits "dead")
  /\ Forall (fun ko => createUO.ko_type ko = "comenc"%string ->
                       bitArray.bitLength (hex.toBits "dead") <> createUO.ko_length ko)
            (createUO.keyoffsets sample_template)
  /\ @createUO.build xor_cipher sample_template sample_keys_short sample_world
     = @createUO.build xor_cipher (drop_slots "comenc" sample_template)
         sample_keys_short sample_world
  /\ (createUO.inherited "comenc" = false ->
      @createUO.build xor_cipher sample_template sample_keys_short sample_world
      = @createUO.build xor_cipher sample_template
          (remove_key "comenc" sample_keys_short) sample_world).
Proof.
  assert (H1 : createUO.lookup "comenc" sample_keys_short = Some (InStr "dead"))
    by reflexivity.
  assert (H2 : misc.inputToBits (InStr "dead") = Ok (hex.toBits "dead"))
    by reflexivity.
  assert (H3 : Forall (fun ko => createUO.ko_type ko = "comenc"%string ->
                         bitArray.bitLength (hex.toBits "dead") <> createUO.ko_length ko)
                      (createUO.keyoffsets sample_template)).
  { repeat constructor; intros _; discriminate. }
  exact (conj H1 (conj H2 (conj H3
    (@build_skips_mismatched_key xor_cipher sample_template sample_keys_short
       "comenc" (InStr "dead") (hex.toBits "dead") sample_world H1 H2 H3)))).
Defined.

(** The sample template has a 32-bit slot [comenc]; with a 16-bit key
    supplied for it, [build] returns a filled template. *)
Lemma build_accepts_mismatched_key :
  createUO.lookup "comenc" sample_keys_short = Some (InStr "dead")
  /\ misc.inputToBits (InStr "dead") = Ok (hex.toBits "dead")
  /\ bitArray.bitLength (hex.toBits "dead") = 16
  /\ In {| createUO.ko_type := "comenc"; createUO.ko_offset := 128;
           createUO.ko_length := 32 |} (createUO.keyoffsets sample_template)
  /\ is_ok (fst (@createUO.build xor_cipher sample_template sample_keys_short
                   sample_world)) = true.
Proof.
  split; [reflexivity|]. split; [reflexivity|]. split; [reflexivity|].
  split; [left; reflexivity|]. vm_compute. reflexivity.
Qed.

(** A slot whose type is [constructor]: with a 16-bit key of that name
    the 32-bit slot is skipped and the template is patched; without the
    key, [type in keys] still holds, [keys[type].key] is [undefined] and
    the key loop throws. *)
Lemma patch_inherited_slot_type :
  let tpl :=
    {| createUO.objectid := createUO.objectid sample_template;
       createUO.encryptionoffset := createUO.encryptionoffset sample_template;
       createUO.flagoffset := createUO.flagoffset sample_template;
       createUO.keyoffsets :=
         [ {| createUO.ko_type := "constructor"; createUO.ko_offset := 128;
              createUO.ko_length := 32 |} ];
       createUO.importkeys := createUO.importkeys sample_template;
       createUO.template_data := createUO.template_data sample_template |} in
  let keys := [("constructor"%string, InStr "dead")] in
  is_ok (createUO.patch tpl keys) = true
  /\ createUO.patch tpl (remove_key "constructor" keys) = Throw TypeError.
Proof.
  intros tpl keys. split; vm_compute; reflexivity.
Qed.

(** ** Nonce demangling *)

(** C5.  On a nonce of one byte, [05], mangled by the server to [06],
    [demangleNonce] returns the byte [00]: the tail length is computed
    as [bl - (bp - 32)], 32 more than the bits that remain, and the tail
    word is shifted right instead of masked.  On the 56-bit example of
    the claim the same code returns 56 zero bits, which there happens to
    be the original nonce. *)
Theorem demangleNonce_tail :
  let n := [bitArray.partial 8 0x05 false] in
  canon n /\ bitArray.bitLength n = 8
  /\ mangle n = [bitArray.partial 8 0x06 false]
  /\ comm.demangleNonce (mangle n) = Ok [bitArray.partial 8 0x00 false]
  /\ bits [bitArray.partial 8 0x00 false] <> bits n
  /\ comm.demangleNonce [0x01010101; bitArray.partial 24 0x010101 false]
     = Ok [0; bitArray.partial 24 0 false].
Proof.
  repeat split; try reflexivity. vm_compute. discriminate.
Qed.


(** ** Handles *)

Lemma take_app n (a b : string) :
  String.length a = n -> Str.take n (a ++ b) = a.
Proof.
  revert a. induction n as [|n IH]; intros [|c a] H; try discriminate H;
    [reflexivity|]. cbn [append Str.take]. f_equal. apply IH. now injection H.
Qed.

Lemma drop_app n (a b : string) :
  String.length a = n -> Str.drop n (a ++ b) = b.
Proof.
  revert a. induction n as [|n IH]; intros [|c a] H; try discriminate H;
    [reflexivity|]. cbn [append Str.drop]. apply IH. now injection H.
Qed.

Lemma take_drop_length n s :
  String.length (Str.take n s) = n ->
  String.length s = (n + String.length (Str.drop n s))%nat.
Proof.
  revert s. induction n as [|n IH]; intros s H; [reflexivity|].
  destruct s as [|c s]; [discriminate H|].
  cbn [Str.take Str.drop String.length] in *. rewrite (IH s); lia.
Qed.

Lemma forallb_app p (a b : string) :
  Str.forallb p (a ++ b) = Str.forallb p a && Str.forallb p b.
Proof.
  induction a as [|c a IH]; [reflexivity|].
  cbn [append Str.forallb]. now rewrite IH, andb_assoc.
Qed.

(** [%08x] of a 32-bit number is its eight hexadecimal digits. *)
Lemma sprintf_x_hexn (n : nat) v :
  (1 <= n)%nat -> 0 <= v < 2 ^ 32 -> v < 16 ^ Z.of_nat n ->
  sprintf.x n v = hexn n v.
Proof.
  intros H1 Hv Hn. unfold sprintf.x, sprintf.pad_left.
  rewrite ToUint32_id by exact Hv.
  destruct (toString16_hexn v (proj1 Hv)) as (k & K1 & Kv & Klo & ->).
  rewrite hexn_length.
  assert (Hk : (k <= n)%nat).
  { destruct Klo as [->|Klo].
    - exact H1.
    - destruct (Nat.le_gt_cases k n) as [|G]; [assumption|].
      assert (16 ^ Z.of_nat n <= 16 ^ (Z.of_nat k - 1))
        by (apply Z.pow_le_mono_r; lia). lia. }
  rewrite <- (hexn_pad (n - k) k v) by lia. f_equal. lia.
Qed.

Lemma sprintf_x8 v : 0 <= v < 2 ^ 32 -> sprintf.x 8 v = hexn 8 v.
Proof. intros H. apply sprintf_x_hexn; [lia|assumption|]. change (16 ^ Z.of_nat 8) with (2 ^ 32). lia. Qed.

Lemma match_00_hex8_hexn v rest :
  comm.match_00_hex8 ("00" ++ hexn 8 v ++ rest) = Some (hexn 8 v, rest).
Proof.
  change ("00" ++ hexn 8 v ++ rest)%string
    with (String "0" (String "0" (hexn 8 v ++ rest))).
  cbn [comm.match_00_hex8].
  rewrite take_app, drop_app by apply hexn_length.
  now rewrite hexn_length, hexn_is_hex.
Qed.

Lemma match_00_hex8_length s g r :
  comm.match_00_hex8 s = Some (g, r) ->
  String.length s = (10 + String.length r)%nat.
Proof.
  destruct s as [|c0 [|c1 s]]; try discriminate.
  - cbn. destruct c0 as [[] [] [] [] [] [] [] []]; discriminate.
  - unfold comm.match_00_hex8.
    destruct (Ascii.eqb_spec c0 "0"); [subst c0|];
      [destruct (Ascii.eqb_spec c1 "0"); [subst c1|] |].
    + destruct (Nat.eqb_spec (String.length (Str.take 8 s)) 8) as [E|_];
        [|discriminate].
      destruct (Str.forallb Str.is_hex (Str.take 8 s)); [|discriminate].
      cbn [andb]. intros [= <- <-]. cbn [String.length].
      rewrite (take_drop_length 8 s E). cbn [Str.drop]. lia.
    + destruct c1 as [[] [] [] [] [] [] [] []]; try discriminate; contradiction.
    + destruct c0 as [[] [] [] [] [] [] [] []]; try discriminate; contradiction.
Qed.

(** The tail of the pattern matches 10 or 20 characters, no more. *)
Lemma match_tail_length s r :
  comm.match_tail s = Some r -> (String.length s <= 20)%nat.
Proof.
  unfold comm.match_tail.
  destruct (comm.match_00_hex8 s) as [[id rest]|] eqn:E1; [|discriminate].
  apply match_00_hex8_length in E1.
  destruct (comm.match_00_hex8 rest) as [[ty rest2]|] eqn:E2.
  - apply match_00_hex8_length in E2.
    destruct rest2 as [|c rest2].
    + intros _. cbn in E2. lia.
    + destruct rest; [cbn in E2; lia | discriminate].
  - destruct rest; [intros _; cbn in E1; lia | discriminate].
Qed.

Lemma match_tail_handle id ty :
  comm.match_tail ("00" ++ hexn 8 id ++ "00" ++ hexn 8 ty)
  = Some (hexn 8 id, Some (hexn 8 ty)).
Proof.
  unfold comm.match_tail. rewrite match_00_hex8_hexn.
  rewrite <- (append_nil_r (hexn 8 ty)) at 1.
  now rewrite (match_00_hex8_hexn ty "").
Qed.

(** The lazy group stops exactly at the end of the API key. *)
Lemma match_handle_key k : forall key t r,
  k <> EmptyString -> Str.forallb comm.is_key_char k = true ->
  String.length t = 20%nat -> comm.match_tail t = Some r ->
  comm.match_handle key (k ++ t)
  = Some {| comm.apiKey := (key ++ k)%string; comm.uoId := fst r;
            comm.uoType := snd r |}.
Proof.
  induction k as [|c k IH]; intros key t r Hne Hk Ht Hr; [contradiction|].
  cbn [Str.forallb] in Hk. apply andb_true_iff in Hk. destruct Hk as [Hc Hk].
  cbn [append comm.match_handle]. rewrite Hc.
  destruct k as [|c' k].
  - cbn [append]. rewrite Hr. now destruct r.
  - destruct (comm.match_tail (String c' k ++ t)) as [r'|] eqn:E.
    + apply match_tail_length in E. rewrite append_length in E.
      cbn [String.length] in E. lia.
    + rewrite (IH _ t r) by (try assumption; discriminate).
      now rewrite append_assoc.
Qed.

Lemma hex_prefix_hexn n : forall v rest acc m,
  Str.hex_prefix (hexn n v ++ rest) acc m
  = Str.hex_prefix rest (acc * 16 ^ Z.of_nat n + v mod 16 ^ Z.of_nat n) (m + n).
Proof.
  induction n as [|n IH]; intros v rest acc m.
  - cbn [hexn append]. change (16 ^ Z.of_nat 0) with 1.
    rewrite Z.mod_1_r. f_equal; lia.
  - cbn [hexn append Str.hex_prefix].
    rewrite hex_val_char by (apply Z.mod_pos_bound; lia).
    rewrite IH. f_equal; [|lia].
    replace (Z.of_nat (S n)) with (Z.of_nat n + 1) by lia.
    rewrite Z.pow_add_r, Z.pow_1_r by lia.
    pose proof (pow16_pos (Z.of_nat n) ltac:(lia)).
    rewrite (Z.rem_mul_r v) by lia. ring.
Qed.

Lemma skip_space_hex s :
  Str.forallb Str.is_hex s = true -> Str.skip_space s = s.
Proof.
  destruct s as [|c s]; [reflexivity|]. cbn [Str.forallb Str.skip_space].
  intros H. apply andb_true_iff in H. destruct H as [H _].
  apply is_hex_not_special in H. destruct H as [-> _]. reflexivity.
Qed.

Lemma rtrim_hex s :
  Str.forallb Str.is_hex s = true -> Str.rtrim s = s.
Proof.
  induction s as [|c s IH]; [reflexivity|]. cbn [Str.forallb Str.rtrim].
  intros H. apply andb_true_iff in H. destruct H as [Hc Hs].
  rewrite (IH Hs). apply is_hex_not_special in Hc. destruct Hc as [-> _].
  now destruct s.
Qed.

Lemma trim_hex s : Str.forallb Str.is_hex s = true -> Str.trim s = s.
Proof.
  intros H. unfold Str.trim. rewrite skip_space_hex by assumption.
  now apply rtrim_hex.
Qed.


(** A string of hexadecimal digits has no [0x] prefix to strip. *)
Lemma strip_0x_hex s :
  Str.forallb Str.is_hex s = true ->
  match s with
  | String "0"%char (String "x"%char r) => r
  | _ => s
  end = s.
Proof.
  destruct s as [|c0 [|c1 s]]; intros H.
  - reflexivity.
  - destruct c0 as [[] [] [] [] [] [] [] []]; reflexivity.
  - cbn [Str.forallb] in H. apply andb_true_iff in H. destruct H as [_ H].
    apply andb_true_iff in H. destruct H as [H _].
    destruct c0 as [[] [] [] [] [] [] [] []]; try reflexivity.
    destruct c1 as [[] [] [] [] [] [] [] []]; try reflexivity.
    discriminate H.
Qed.

Lemma parseInt16_hex s :
  Str.forallb Str.is_hex s = true ->
  Str.parseInt16 s
  = match Str.hex_prefix s 0 O with
    | (_, O) => None
    | (v, _) => Some v
    end.
Proof.
  intros H. unfold Str.parseInt16. rewrite skip_space_hex by assumption.
  assert (Sg : (match s with
                | String "-"%char r => (-1, r)
                | String "+"%char r => (1, r)
                | _ => (1, s)
                end) = (1, s)).
  { destruct s as [|c0 s]; [reflexivity|].
    cbn [Str.forallb] in H. apply andb_true_iff in H. destruct H as [H _].
    destruct c0 as [[] [] [] [] [] [] [] []]; try reflexivity; discriminate H. }
  rewrite Sg.
  assert (Px : (match s with
                | String "0"%char (String "x"%char r) => r
                | String "0"%char (String "X"%char r) => r
                | _ => s
                end) = s).
  { destruct s as [|c0 [|c1 s]].
    - reflexivity.
    - destruct c0 as [[] [] [] [] [] [] [] []]; reflexivity.
    - cbn [Str.forallb] in H. apply andb_true_iff in H. destruct H as [_ H].
      apply andb_true_iff in H. destruct H as [H _].
      destruct c0 as [[] [] [] [] [] [] [] []]; try reflexivity.
      destruct c1 as [[] [] [] [] [] [] [] []]; try reflexivity;
        discriminate H. }
  rewrite Px.
  destruct (Str.hex_prefix s 0 0) as [v [|n]]; [reflexivity|].
  now rewrite Z.mul_1_l.
Qed.

Lemma hex_string_hex s :
  s <> EmptyString -> Str.forallb Str.is_hex s = true ->
  misc.hex_string s = Ok s.
Proof.
  intros Hne H. unfold misc.hex_string.
  rewrite trim_hex, strip_0x_hex by assumption. rewrite H.
  destruct s; [contradiction | reflexivity].
Qed.

Lemma hexn_nonempty n v : hexn (S n) v <> EmptyString.
Proof. discriminate. Qed.

(** Reading back the digits written by [%08x]. *)
Lemma inputToHexNum_hexn n v :
  0 <= v < 16 ^ Z.of_nat (S n) ->
  misc.inputToHexNum (InStr (hexn (S n) v)) = Ok v.
Proof.
  intros Hv. unfold misc.inputToHexNum.
  rewrite hex_string_hex by (try apply hexn_is_hex; apply hexn_nonempty).
  cbn [rbind]. rewrite parseInt16_hex by apply hexn_is_hex.
  rewrite <- (append_nil_r (hexn (S n) v)), hex_prefix_hexn.
  cbn [Str.hex_prefix Nat.add]. rewrite Z.mod_small by assumption.
  reflexivity.
Qed.

(** C9.  For a non-empty API key over [[a-zA-Z0-9_-]] and identifier
    and type denoting numbers [id], [ty] below [2^32],
    [getUoHandle] gives [apiKey ‖ 00 ‖ id ‖ 00 ‖ ty] with eight
    hexadecimal digits each, and [parseHandle] of that handle returns
    the API key and the two eight-digit fields, which read back as [id]
    and [ty].  With the type omitted the handle is the one for type 0. *)
Theorem handle_round_trip k uoId uoType id ty :
  k <> EmptyString -> Str.forallb comm.is_key_char k = true ->
  misc.inputToHexNum uoId = Ok id -> misc.inputToHexNum uoType = Ok ty ->
  0 <= id < 2 ^ 32 -> 0 <= ty < 2 ^ 32 ->
  let h := (k ++ "00" ++ hexn 8 id ++ "00" ++ hexn 8 ty)%string in
  comm.getUoHandle k (Some uoId) (Some uoType) = Ok h
  /\ comm.parseHandle h
     = Ok {| comm.apiKey := k; comm.uoId := hexn 8 id;
             comm.uoType := Some (hexn 8 ty) |}
  /\ misc.inputToHexNum (InStr (hexn 8 id)) = Ok id
  /\ misc.inputToHexNum (InStr (hexn 8 ty)) = Ok ty
  /\ comm.getUoHandle k (Some uoId) None
     = comm.getUoHandle k (Some uoId) (Some (InNum 0))
  /\ comm.getUoHandle k (Some uoId) None
     = Ok (k ++ "00" ++ hexn 8 id ++ "00" ++ "00000000")%string.
Proof.
  intros Hne Hk Hid Hty Bid Bty h.
  assert (P16 : 16 ^ Z.of_nat 8 = 2 ^ 32) by reflexivity.
  split.
  { unfold comm.getUoHandle. rewrite Hid, Hty. cbn [rbind].
    now rewrite !sprintf_x8 by assumption. }
  split.
  { unfold comm.parseHandle, h.
    pose proof (match_handle_key k EmptyString
                  ("00" ++ hexn 8 id ++ "00" ++ hexn 8 ty)%string
                  (hexn 8 id, Some (hexn 8 ty)) Hne Hk) as M.
    rewrite M; [reflexivity | | apply match_tail_handle].
    rewrite !append_length, !hexn_length. reflexivity. }
  split; [apply inputToHexNum_hexn; rewrite P16; assumption|].
  split; [apply inputToHexNum_hexn; rewrite P16; assumption|].
  split; [reflexivity|].
  unfold comm.getUoHandle. rewrite Hid. cbn [rbind misc.inputToHexNum].
  rewrite sprintf_x8 by assumption. reflexivity.
Qed.

Lemma handle_round_trip_witness :
  ("TEST_API" <> EmptyString)%string
  /\ Str.forallb comm.is_key_char "TEST_API" = true
  /\ misc.inputToHexNum (InNum 0x13) = Ok 0x13
  /\ misc.inputToHexNum (InStr "00a00004") = Ok 0xa00004
  /\ 0 <= 0x13 < 2 ^ 32 /\ 0 <= 0xa00004 < 2 ^ 32
  /\ comm.getUoHandle "TEST_API" (Some (InNum 0x13)) (Some (InStr "00a00004"))
     = Ok "TEST_API00000000130000a00004"%string
  /\ comm.parseHandle "TEST_API00000000130000a00004"
     = Ok {| comm.apiKey := "TEST_API"; comm.uoId := "00000013";
             comm.uoType := Some "00a00004"%string |}.
Proof.
  assert (H1 : ("TEST_API" <> EmptyString)%string) by discriminate.
  assert (H2 : Str.forallb comm.is_key_char "TEST_API" = true) by reflexivity.
  assert (H3 : misc.inputToHexNum (InNum 0x13) = Ok 0x13) by reflexivity.
  assert (H4 : misc.inputToHexNum (InStr "00a00004") = Ok 0xa00004) by reflexivity.
  assert (H5 : 0 <= 0x13 < 2 ^ 32)
    by (split; [intro X; discriminate X | reflexivity]).
  assert (H6 : 0 <= 0xa00004 < 2 ^ 32)
    by (split; [intro X; discriminate X | reflexivity]).
  destruct (handle_round_trip "TEST_API" (InNum 0x13) (InStr "00a00004")
              0x13 0xa00004 H1 H2 H3 H4 H5 H6) as (G & P & _).
  exact (conj H1 (conj H2 (conj H3 (conj H4 (conj H5 (conj H6 (conj G P))))))).
Defined.

(** The first group of the pattern needs at least one character: in a
    handle built from the empty API key it takes the first ten digits,
    and the identifier is read from what was the type. *)
Lemma parseHandle_empty_key :
  comm.getUoHandle "" (Some (InNum 0x13)) (Some (InNum 0xa00004))
  = Ok "00000000130000a00004"%string
  /\ comm.parseHandle "00000000130000a00004"
     = Ok {| comm.apiKey := "0000000013"; comm.uoId := "00a00004";
             comm.uoType := None |}.
Proof. split; reflexivity. Qed.


(** ** Running the cipher modes *)

Lemma xor_length c p : List.length (misc.xor c p) = 4%nat.
Proof. reflexivity. Qed.

Lemma xor_int32s c p : Forall int32 (misc.xor c p).
Proof. unfold misc.xor. repeat constructor; apply xor_int32. Qed.

Lemma xor_xor a b : JS.xor a (JS.xor a b) = JS.ToInt32 b.
Proof.
  rewrite <- (ToInt32_id (JS.xor a (JS.xor a b))) by apply xor_int32.
  apply ToInt32_ext. intros k Hk. rewrite !tb_xor by assumption.
  now destruct (Z.testbit a k), (Z.testbit b k).
Qed.

Lemma xor_xor_l a b : JS.xor (JS.xor b a) a = JS.ToInt32 b.
Proof.
  rewrite <- (ToInt32_id (JS.xor (JS.xor b a) a)) by apply xor_int32.
  apply ToInt32_ext. intros k Hk. rewrite !tb_xor by assumption.
  now destruct (Z.testbit a k), (Z.testbit b k).
Qed.

Lemma get_0 (x0 x1 x2 x3 : Z) : JS.get [x0; x1; x2; x3] 0 = x0.
Proof. reflexivity. Qed.
Lemma get_1 (x0 x1 x2 x3 : Z) : JS.get [x0; x1; x2; x3] 1 = x1.
Proof. reflexivity. Qed.
Lemma get_2 (x0 x1 x2 x3 : Z) : JS.get [x0; x1; x2; x3] 2 = x2.
Proof. reflexivity. Qed.
Lemma get_3 (x0 x1 x2 x3 : Z) : JS.get [x0; x1; x2; x3] 3 = x3.
Proof. reflexivity. Qed.

(** XOR with the chaining block undoes itself, up to [ToInt32]. *)
Lemma xor_cancel c p :
  List.length p = 4%nat -> misc.xor c (misc.xor c p) = List.map JS.ToInt32 p.
Proof.
  destruct p as [|p0 [|p1 [|p2 [|p3 [|]]]]]; try discriminate. intros _.
  unfold misc.xor. rewrite !get_0, !get_1, !get_2, !get_3.
  cbn [List.map]. now rewrite !xor_xor.
Qed.

Lemma map_ToInt32_id a : Forall int32 a -> List.map JS.ToInt32 a = a.
Proof.
  induction 1 as [|x a Hx _ IH]; [reflexivity|].
  cbn [List.map]. now rewrite IH, ToInt32_id.
Qed.

(** The sample cipher is a keyed permutation of blocks. *)
Lemma xor_cipher_laws : BlockCipherLaws xor_cipher.
Proof.
  split; cbn [block_encrypt block_decrypt xor_cipher].
  - intros k b. split; [reflexivity|].
    unfold xor_key. repeat constructor; apply xor_int32.
  - intros k b Hl Hb.
    destruct b as [|b0 [|b1 [|b2 [|b3 [|]]]]]; try discriminate.
    unfold xor_key. rewrite !get_0, !get_1, !get_2, !get_3, !xor_xor_l.
    inversion Hb as [|? ? H0 Hb1]; subst. inversion Hb1 as [|? ? H1 Hb2]; subst.
    inversion Hb2 as [|? ? H2 Hb3]; subst. inversion Hb3 as [|? ? H3 _]; subst.
    now rewrite !ToInt32_id by assumption.
Qed.

Lemma bind_run {A B} (m : M A) (k : A -> M B) w a w' :
  m w = (Ok a, w') -> bind m k w = k a w'.
Proof. intros H. unfold bind. now rewrite H. Qed.

Lemma bind_throw {A B} (m : M A) (k : A -> M B) w e w' :
  m w = (Throw e, w') -> bind m k w = (Throw e, w').
Proof. intros H. unfold bind. now rewrite H. Qed.

Lemma bind_lift {A B} (r : result A) (k : A -> M B) w a :
  r = Ok a -> bind (lift r) k w = k a w.
Proof. intros ->. reflexivity. Qed.

(** The events appended to the trace between two worlds. *)
Lemma world_eta w : mkWorld (entropy w) (trace w) = w.
Proof. now destruct w. Qed.

Lemma encrypt_run {C : BlockCipher} a block w :
  List.length block = 4%nat ->
  sjcl.encrypt a block w
  = (Ok (block_encrypt (sjcl.cipher_key a) block),
     mkWorld (entropy w) (trace w ++ [AesEncrypt (sjcl.cipher_key a) block])).
Proof. intros H. unfold sjcl.encrypt. now rewrite H. Qed.

Lemma decrypt_run {C : BlockCipher} a block w :
  List.length block = 4%nat ->
  sjcl.decrypt a block w
  = (Ok (block_decrypt (sjcl.cipher_key a) block),
     mkWorld (entropy w) (trace w ++ [AesDecrypt (sjcl.cipher_key a) block])).
Proof. intros H. unfold sjcl.decrypt. now rewrite H. Qed.

(** Lists of whole blocks. *)
Lemma blocks_ind (P : list Z -> Prop) :
  P [] ->
  (forall x0 x1 x2 x3 r, P r -> P (x0 :: x1 :: x2 :: x3 :: r)) ->
  forall m b, List.length b = (4 * m)%nat -> P b.
Proof.
  intros H0 H4. induction m as [|m IH]; intros b Hb.
  - destruct b; [assumption | discriminate].
  - destruct b as [|x0 [|x1 [|x2 [|x3 r]]]]; try (cbn in Hb; lia).
    apply H4, IH. cbn in Hb. lia.
Qed.

Lemma blocks_of_length m b :
  List.length b = (4 * m)%nat -> List.length (blocks_of b) = m.
Proof.
  revert b. induction m as [|m IH]; intros b Hb.
  - destruct b; [reflexivity | discriminate].
  - destruct b as [|x0 [|x1 [|x2 [|x3 r]]]]; try (cbn in Hb; lia).
    cbn [blocks_of List.length]. f_equal. apply IH. cbn in Hb. lia.
Qed.

Lemma blocks_of_concat m b :
  List.length b = (4 * m)%nat -> List.concat (blocks_of b) = b.
Proof.
  intros Hb.
  apply (blocks_ind (fun l => List.concat (blocks_of l) = l)) with (m := m);
    [reflexivity | | assumption].
  intros x0 x1 x2 x3 r IH. cbn [blocks_of List.concat app]. now rewrite IH.
Qed.

Lemma blocks_of_app4 x0 x1 x2 x3 r :
  blocks_of (x0 :: x1 :: x2 :: x3 :: r) = [x0; x1; x2; x3] :: blocks_of r.
Proof. reflexivity. Qed.

Lemma slice_block (pre : list Z) x0 x1 x2 x3 r :
  JS.slice (pre ++ x0 :: x1 :: x2 :: x3 :: r)
    (Z.of_nat (List.length pre)) (Z.of_nat (List.length pre) + 4)
  = [x0; x1; x2; x3].
Proof.
  rewrite slice_spec by lia.
  rewrite Nat2Z.id, skipn_app, skipn_all, Nat.sub_diag. cbn [app skipn].
  replace (Z.of_nat (List.length pre) + 4 - Z.of_nat (List.length pre)) with 4 by lia.
  reflexivity.
Qed.

Lemma get4 (c : list Z) :
  List.length c = 4%nat -> [JS.get c 0; JS.get c 1; JS.get c 2; JS.get c 3] = c.
Proof.
  destruct c as [|c0 [|c1 [|c2 [|c3 [|]]]]]; try discriminate. reflexivity.
Qed.


Lemma last_cons_default {A} (x d : A) l : last (x :: l) d = last l x.
Proof.
  revert x d. induction l as [|y l IH]; intros x d; [reflexivity|].
  change (last (x :: y :: l) d) with (last (y :: l) d).
  rewrite (IH y d). symmetry. apply IH.
Qed.

Lemma snoc_block (pre : list Z) x0 x1 x2 x3 r :
  pre ++ x0 :: x1 :: x2 :: x3 :: r = (pre ++ [x0; x1; x2; x3]) ++ r.
Proof. now rewrite <- app_assoc. Qed.

Lemma snoc_block_length (pre : list Z) x0 x1 x2 x3 :
  Z.of_nat (List.length pre) + 4 = Z.of_nat (List.length (pre ++ [x0; x1; x2; x3])).
Proof. rewrite length_app. cbn [List.length]. lia. Qed.

Section Runs.
Context {C : BlockCipher}.

(** The CBC-MAC loop computes the recurrence of section 4.C and logs one
    encryption per block. *)
Lemma mac_loop_run a m : forall rest pre c w,
  List.length rest = (4 * m)%nat ->
  mac_loop a (pre ++ rest) m (Z.of_nat (List.length pre)) c w
  = (Ok (last (CBC_spec (sjcl.cipher_key a) c (blocks_of rest)) c),
     mkWorld (entropy w)
       (trace w ++ CBC_events (sjcl.cipher_key a) c (blocks_of rest))).
Proof.
  induction m as [|m IH]; intros rest pre c w Hl.
  - destruct rest; [|discriminate]. cbn. now rewrite app_nil_r, world_eta.
  - destruct rest as [|x0 [|x1 [|x2 [|x3 r]]]]; try (cbn in Hl; lia).
    cbn [mac_loop]. rewrite slice_block.
    erewrite bind_run by (apply encrypt_run, xor_length).
    rewrite (snoc_block pre x0 x1 x2 x3 r), (snoc_block_length pre x0 x1 x2 x3), IH by (cbn in Hl; lia).
    cbn [blocks_of CBC_spec CBC_events entropy trace].
    now rewrite last_cons_default, <- app_assoc.
Qed.

(** Whatever the data, the MAC loop returns, and it logs encryptions
    only. *)
Lemma mac_loop_events a data n : forall i c w,
  exists r es,
    mac_loop a data n i c w = (Ok r, mkWorld (entropy w) (trace w ++ es))
    /\ existsb is_decrypt es = false.
Proof.
  induction n as [|n IH]; intros i c w.
  - exists c, []. cbn. now rewrite app_nil_r, world_eta.
  - cbn [mac_loop].
    erewrite bind_run by (apply encrypt_run, xor_length).
    destruct (IH (i + 4)
                (block_encrypt (sjcl.cipher_key a)
                   (misc.xor c (JS.slice data i (i + 4))))
                (mkWorld (entropy w)
                   (trace w ++ [AesEncrypt (sjcl.cipher_key a)
                                  (misc.xor c (JS.slice data i (i + 4)))])))
      as (r & es & E & D).
    exists r, (AesEncrypt (sjcl.cipher_key a)
                 (misc.xor c (JS.slice data i (i + 4))) :: es).
    split; [|exact D]. rewrite E. cbn [entropy trace].
    now rewrite <- app_assoc.
Qed.

Lemma mac_events a data w :
  exists r es,
    mac {| _cipher := a; _bs := 16; _padding := padding.empty |} data w
    = (Ok r, mkWorld (entropy w) (trace w ++ es))
    /\ existsb is_decrypt es = false.
Proof. unfold mac. cbn [_padding _cipher _bs padding.pad padding.empty]. apply mac_loop_events. Qed.

Lemma mac_run a data m w :
  forallb fullb data = true -> List.length data = (4 * m)%nat ->
  mac {| _cipher := a; _bs := 16; _padding := padding.empty |} data w
  = (Ok (CBC_MAC_spec (sjcl.cipher_key a) data),
     mkWorld (entropy w)
       (trace w ++ CBC_events (sjcl.cipher_key a) [0; 0; 0; 0] (blocks_of data))).
Proof.
  intros Hf Hl. unfold mac. cbn [_padding _cipher _bs padding.pad padding.empty].
  change (bind (lift (Ok data)) ?k w) with (k data w). cbv beta.
  rewrite (bitLength_full data Hf), Hl.
  change (JS.shl 16 3) with 128. change (misc.getZeroBits (16 * 8)) with [0; 0; 0; 0].
  replace (Z.to_nat (32 * Z.of_nat (4 * m) / 128)) with m.
  2:{ replace (32 * Z.of_nat (4 * m)) with (Z.of_nat m * 128) by lia.
      rewrite Z.div_mul by lia. lia. }
  exact (mac_loop_run a m data [] [0; 0; 0; 0] w Hl).
Qed.

Context {L : BlockCipherLaws C}.

Lemma CBC_spec_words k : forall blocks c,
  Forall int32 (List.concat (CBC_spec k c blocks))
  /\ List.length (List.concat (CBC_spec k c blocks))
     = (4 * List.length blocks)%nat.
Proof.
  induction blocks as [|p r IH]; intros c; [split; [constructor | reflexivity]|].
  cbn [CBC_spec List.concat List.length].
  destruct (encrypt_block_words k (misc.xor c p)) as [E4 Ei].
  destruct (IH (block_encrypt k (misc.xor c p))) as [Ii I4]. split.
  - apply Forall_app. split; assumption.
  - rewrite length_app, E4, I4. lia.
Qed.

(** The CBC encryption loop. *)
Lemma cbc_encrypt_loop_run a m : forall rest pre c out w,
  List.length rest = (4 * m)%nat ->
  cbc_encrypt_loop a (pre ++ rest) m (Z.of_nat (List.length pre)) c out w
  = (Ok (last (CBC_spec (sjcl.cipher_key a) c (blocks_of rest)) c,
         out ++ List.concat (CBC_spec (sjcl.cipher_key a) c (blocks_of rest))),
     mkWorld (entropy w)
       (trace w ++ CBC_events (sjcl.cipher_key a) c (blocks_of rest))).
Proof.
  induction m as [|m IH]; intros rest pre c out w Hl.
  - destruct rest; [|discriminate]. cbn. now rewrite !app_nil_r, world_eta.
  - destruct rest as [|x0 [|x1 [|x2 [|x3 r]]]]; try (cbn in Hl; lia).
    cbn [cbc_encrypt_loop]. rewrite slice_block.
    erewrite bind_run by (apply encrypt_run, xor_length).
    rewrite get4 by apply (encrypt_block_words (sjcl.cipher_key a)).
    rewrite (snoc_block pre x0 x1 x2 x3 r), (snoc_block_length pre x0 x1 x2 x3), IH by (cbn in Hl; lia).
    cbn [blocks_of CBC_spec CBC_events List.concat entropy trace].
    now rewrite last_cons_default, <- !app_assoc.
Qed.

(** [cbc.encrypt] without padding, on whole blocks and a 128-bit IV. *)
Lemma cbc_encrypt_run a b iv m w :
  forallb fullb b = true -> List.length b = (4 * m)%nat ->
  bitArray.bitLength b < 2 ^ 31 -> bitArray.bitLength iv = 128 ->
  cbc_encrypt a b iv [] true w
  = (Ok (CBC_encrypt_spec (sjcl.cipher_key a) iv b),
     mkWorld (entropy w)
       (trace w ++ CBC_events (sjcl.cipher_key a) iv (blocks_of b))).
Proof.
  intros Hf Hl Hlt Hiv. unfold cbc_encrypt. cbn [List.length Nat.eqb].
  rewrite Hiv. cbn [Z.eqb Pos.eqb].
  pose proof (bitLength_full b Hf) as Hbl. rewrite Hl in Hbl.
  assert (Hbl' : bitArray.bitLength b = Z.of_nat m * 128) by lia.
  rewrite and_127, and_7. rewrite Hbl'.
  rewrite Z.mod_mul by lia.
  assert (E8 : (Z.of_nat m * 128) mod 8 = 0).
  { replace (Z.of_nat m * 128) with (Z.of_nat m * 16 * 8) by lia.
    apply Z.mod_mul. lia. }
  rewrite E8. cbn [Z.eqb negb andb].
  rewrite Z.div_mul, Nat2Z.id by lia.
  erewrite bind_run by (exact (cbc_encrypt_loop_run a m b [] iv [] w Hl)).
  reflexivity.
Qed.

End Runs.


(** ** The ProcessData request *)

Lemma pkcs7_pad_spec_length l :
  (Z.of_nat (List.length l)) mod 8 = 0 ->
  Z.of_nat (List.length (pkcs7_pad_spec l)) mod 128 = 0
  /\ Z.of_nat (List.length l) < Z.of_nat (List.length (pkcs7_pad_spec l))
     <= Z.of_nat (List.length l) + 128.
Proof.
  intros H8. unfold pkcs7_pad_spec.
  set (n := Z.of_nat (List.length l)) in *.
  pose proof (padlen_range n) as R. unfold pkcs7_padlen in *.
  set (q := n / 8) in *.
  assert (Hn : n = 8 * q) by (unfold q; pose proof (Z.div_mod n 8 ltac:(lia)); lia).
  pose proof (Z.div_mod q 16 ltac:(lia)) as D.
  set (k := 16 - q mod 16) in *.
  rewrite length_app, bytes_bits_length, repeat_length.
  rewrite Nat2Z.inj_add, Nat2Z.inj_mul, Z2Nat.id by lia.
  fold n. change (Z.of_nat 8) with 8. split; [|lia].
  replace (n + 8 * k) with ((q / 16 + 1) * 128) by lia.
  apply Z.mod_mul. lia.
Qed.

Lemma wf_full_length a m' :
  wf a -> bitArray.bitLength a = 128 * m' ->
  forallb fullb a = true /\ List.length a = (4 * Z.to_nat m')%nat /\ 0 <= m'.
Proof.
  intros Hw Hb.
  assert (E32 : bitArray.bitLength a mod 32 = 0).
  { rewrite Hb. replace (128 * m') with (4 * m' * 32) by lia. apply Z.mod_mul. lia. }
  pose proof (wf_aligned_full a Hw E32) as Hf.
  pose proof (bitLength_full a Hf) as Hl. split; [assumption|]. lia.
Qed.

Lemma bits_single_full x : fullb x = true -> bits [x] = word_bits 32 x.
Proof. intros H. cbn [bits]. now rewrite getPartial_full. Qed.

Lemma uoid_full uoid : 0 <= uoid < 2 ^ 32 -> fullb uoid = true.
Proof. intros H. apply fullb_spec. zconst. lia. Qed.

Lemma aes_ok key :
  List.length key = 8%nat -> sjcl.aes key = Ok {| sjcl.cipher_key := key |}.
Proof. intros H. unfold sjcl.aes. now rewrite H. Qed.

(** The request frame before padding: flag, object id, nonce, data. *)
Lemma frame_bits flag uoid nb data :
  wf [bitArray.partial 8 flag false] ->
  0 <= uoid < 2 ^ 32 -> wf nb -> wf data ->
  let f := bitArray.concat
             (bitArray.concat
                (bitArray.concat [bitArray.partial 8 flag false] [uoid]) nb) data in
  wf f
  /\ bits f = bits [bitArray.partial 8 flag false] ++ word_bits 32 uoid
              ++ bits nb ++ bits data.
Proof.
  intros Hfl Hu Hn Hd f.
  assert (Wu : wf [uoid]) by (apply wf_full; cbn; now rewrite uoid_full).
  destruct (concat_spec _ _ Hfl Wu) as [W1 B1].
  destruct (concat_spec _ _ W1 Hn) as [W2 B2].
  destruct (concat_spec _ _ W2 Hd) as [W3 B3].
  split; [exact W3|]. unfold f.
  rewrite B3, B2, B1, (bits_single_full uoid) by now apply uoid_full.
  now rewrite <- !app_assoc.
Qed.

Section BuildRun.
Context {C : BlockCipher} {L : BlockCipherLaws C}.

(** What [build] returns and logs when the nonce is supplied. *)
Lemma build_run (this : processData.builder) plainData requestData w
    nb uoid ek mk :
  processData.truthy (processData.nonce this) = true ->
  misc.inputToBits (processData.nonce this) = Ok nb ->
  wf nb -> bitArray.bitLength nb = 64 ->
  misc.inputToHexNum (processData.userObjectId this) = Ok uoid ->
  0 <= uoid < 2 ^ 32 ->
  misc.inputToBits (processData.aesKey this) = Ok ek -> List.length ek = 8%nat ->
  misc.inputToBits (processData.macKey this) = Ok mk -> List.length mk = 8%nat ->
  byte_aligned requestData -> bitArray.bitLength requestData < 2 ^ 30 ->
  exists frame m,
    wf frame /\ forallb fullb frame = true
    /\ List.length frame = (4 * m)%nat /\ (1 <= m)%nat
    /\ bits frame
       = pkcs7_pad_spec (byte_bits 0x1f ++ word_bits 32 uoid ++ bits nb
                         ++ bits requestData)
    /\ pkcs7.pad
         (bitArray.concat
            (bitArray.concat
               (bitArray.concat [bitArray.partial 8 0x1f false] [uoid]) nb)
            requestData) None = Ok frame
    /\ let CT := CBC_encrypt_spec ek [0; 0; 0; 0] frame in
       let TAG := CBC_MAC_spec mk CT in
       processData.build this plainData requestData w
       = (Ok ("Packet0_" ++ processData.reqType this ++ "_"
              ++ sprintf.X 4 (JS.trunc_div (bitArray.bitLength plainData) 8)
              ++ hex.fromBits plainData ++ hex.fromBits CT ++ hex.fromBits TAG)%string,
          mkWorld (entropy w)
            (trace w ++ CBC_events ek [0; 0; 0; 0] (blocks_of frame)
                     ++ CBC_events mk [0; 0; 0; 0] (blocks_of CT))).
Proof.
  intros Ht Hnb Wnb Lnb Hu Bu Hek Lek Hmk Lmk [Wr Ar] Lr.
  assert (Wfl : wf [bitArray.partial 8 0x1f false]) by reflexivity.
  destruct (frame_bits 0x1f uoid nb requestData Wfl Bu Wnb Wr) as [Wf Bf].
  set (f := bitArray.concat
              (bitArray.concat
                 (bitArray.concat [bitArray.partial 8 0x1f false] [uoid]) nb)
              requestData) in *.
  change (bits [bitArray.partial 8 31 false]) with (byte_bits 0x1f) in Bf.
  pose proof (bits_length f Wf) as Lf.
  pose proof (bits_length nb Wnb) as Lbn.
  pose proof (bits_length requestData Wr) as Lbr.
  pose proof (bitLength_nonneg requestData Wr) as Nr.
  assert (Ef : bitArray.bitLength f = 104 + bitArray.bitLength requestData).
  { rewrite <- Lf, Bf, !length_app, word_bits_length.
    unfold byte_bits. rewrite bits_from_length. lia. }
  assert (Af : byte_aligned f).
  { split; [assumption|]. rewrite Ef.
    rewrite <- Zplus_mod_idemp_r, Ar. reflexivity. }
  assert (Sf : bitArray.bitLength f < 2 ^ 31 - 128).
  { rewrite Ef. zconst. change (2 ^ 30) with 1073741824 in Lr. lia. }
  destruct (pkcs7_pad_spec_ok f Af Sf) as (p & Ep & Wp & Bp & _).
  assert (L8 : Z.of_nat (List.length (bits f)) mod 8 = 0)
    by (rewrite Lf; apply Af).
  destruct (pkcs7_pad_spec_length (bits f) L8) as [P128 Prange].
  rewrite <- Bp, (bits_length p Wp), Lf in *.
  set (m' := bitArray.bitLength p / 128).
  assert (Hp : bitArray.bitLength p = 128 * m')
    by (unfold m'; pose proof (Z.div_mod (bitArray.bitLength p) 128 ltac:(lia)); lia).
  destruct (wf_full_length p m' Wp Hp) as (Fp & Lp & Nm).
  assert (Sp : bitArray.bitLength p < 2 ^ 31)
    by (zconst; change (2 ^ 30) with 1073741824 in Lr; lia).
  exists p, (Z.to_nat m').
  split; [assumption|]. split; [assumption|]. split; [assumption|].
  split; [lia|]. split; [now rewrite Bp, Bf|]. split; [exact Ep|].
  intros CT TAG.
  unfold processData.build. rewrite Ht.
  change (bind (ret (processData.nonce this)) ?k w) with (k (processData.nonce this) w).
  cbv beta.
  rewrite (bind_lift _ _ w uoid Hu), (bind_lift _ _ w nb Hnb).
  rewrite (bind_lift _ _ w p Ep).
  rewrite (bind_lift _ _ w ek Hek), (bind_lift _ _ w mk Hmk).
  rewrite (bind_lift _ _ w _ (aes_ok ek Lek)), (bind_lift _ _ w _ (aes_ok mk Lmk)).
  erewrite bind_run
    by (apply (cbc_encrypt_run _ p [0; 0; 0; 0] (Z.to_nat m'));
        [assumption | assumption | assumption | reflexivity]).
  cbn [sjcl.cipher_key]. fold CT.
  destruct (CBC_spec_words ek (blocks_of p) [0; 0; 0; 0]) as [Ci Cl].
  rewrite (blocks_of_length _ _ Lp) in Cl.
  erewrite bind_run
    by (apply (mac_run _ CT (Z.to_nat m'));
        [apply forallb_int32_full; exact Ci | exact Cl]).
  cbn [sjcl.cipher_key entropy trace]. fold TAG.
  unfold ret. now rewrite <- app_assoc.
Qed.

End BuildRun.


(** ** The length field of the request *)


(** [%04X] of a number below [2^16]: exactly four digits. *)
Lemma sprintf_X4 n :
  0 <= n < 2 ^ 16 -> sprintf.X 4 n = Str.toUpperCase (hexn 4 n).
Proof.
  intros H. unfold sprintf.X. rewrite sprintf_x_hexn; [reflexivity | lia | |].
  - change (2 ^ 16) with 65536 in H. zconst. lia.
  - change (16 ^ Z.of_nat 4) with (2 ^ 16). lia.
Qed.

(** [%04X] of a number from [2^16] on: the field grows to five digits
    or more, nothing is cut off. *)
Lemma sprintf_X4_long n :
  2 ^ 16 <= n < 2 ^ 32 ->
  exists k, (5 <= k)%nat /\ n < 16 ^ Z.of_nat k
            /\ sprintf.X 4 n = Str.toUpperCase (hexn k n).
Proof.
  intros H. unfold sprintf.X, sprintf.x, sprintf.pad_left.
  assert (H0 : 0 <= n) by (change (2 ^ 16) with 65536 in H; lia).
  rewrite ToUint32_id by lia.
  destruct (toString16_hexn n H0) as (k & K1 & Kv & Klo & ->).
  assert (K5 : (5 <= k)%nat).
  { destruct (Nat.le_gt_cases 5 k) as [|G]; [assumption|]. exfalso.
    assert (16 ^ Z.of_nat k <= 16 ^ 4) by (apply Z.pow_le_mono_r; lia).
    change (16 ^ 4) with (2 ^ 16) in *. lia. }
  exists k. split; [assumption|]. split; [assumption|].
  rewrite hexn_length. replace (4 - k)%nat with 0%nat by lia. reflexivity.
Qed.

(** ** The chaining of the code is that of the standard

    [eb.misc.xor], with which [cbc.encrypt] and [hmac_cbc.mac] chain
    their blocks, is the bitwise exclusive or of the 32-bit words; so
    the passes of the code are CBC as the standard defines it. *)

Lemma JS_xor_lxor a b : JS.xor a b = JS.ToInt32 (Z.lxor b a).
Proof.
  unfold JS.xor. apply ToInt32_ext. intros k Hk.
  rewrite !Z.lxor_spec, !tb_ToInt32 by lia. apply xorb_comm.
Qed.

Lemma xor_is_xor_words c p : misc.xor c p = xor_words p c.
Proof.
  unfold misc.xor, xor_words. cbn [seq List.map].
  rewrite !JS_xor_lxor.
  change (JS.get c 0) with (nth 0 c 0). change (JS.get p 0) with (nth 0 p 0).
  change (JS.get c 1) with (nth 1 c 0). change (JS.get p 1) with (nth 1 p 0).
  change (JS.get c 2) with (nth 2 c 0). change (JS.get p 2) with (nth 2 p 0).
  change (JS.get c 3) with (nth 3 c 0). change (JS.get p 3) with (nth 3 p 0).
  reflexivity.
Qed.

Section Chaining.
Context {C : BlockCipher}.

Lemma CBC_spec_chain k : forall blocks c,
  CBC_spec k c blocks = CBC_chain k c blocks.
Proof.
  induction blocks as [|p r IH]; intros c; [reflexivity|].
  cbn [CBC_spec CBC_chain]. now rewrite xor_is_xor_words, IH.
Qed.

Lemma CBC_events_calls k : forall blocks c,
  CBC_events k c blocks = CBC_calls k c blocks.
Proof.
  induction blocks as [|p r IH]; intros c; [reflexivity|].
  cbn [CBC_events CBC_calls]. now rewrite xor_is_xor_words, IH.
Qed.

Lemma CBC_encrypt_spec_std k iv p :
  CBC_encrypt_spec k iv p = CBC_encrypt_std k iv p.
Proof. unfold CBC_encrypt_spec, CBC_encrypt_std. now rewrite CBC_spec_chain. Qed.

Lemma CBC_MAC_spec_std k data : CBC_MAC_spec k data = CBC_MAC_std k data.
Proof. unfold CBC_MAC_spec, CBC_MAC_std. now rewrite CBC_spec_chain. Qed.

End Chaining.

Section Wire.
Context {C : BlockCipher} {L : BlockCipherLaws C}.


(** C6.  Plain data of more than [0xFFFF] bytes does not make [build]
    fail: the wire string is returned as for shorter plain data, with a
    length field of five or more hexadecimal digits where the format of
    the request has four ([<plain-data-length-4B>]).  A reader of that
    format, which like [parse] takes the first 16 bits of the body as
    the length of the plain data, gets a smaller number. *)
Theorem build_long_plain (this : processData.builder) plainData requestData w
    nb uoid ek mk :
  processData.truthy (processData.nonce this) = true ->
  misc.inputToBits (processData.nonce this) = Ok nb ->
  wf nb -> bitArray.bitLength nb = 64 ->
  misc.inputToHexNum (processData.userObjectId this) = Ok uoid ->
  0 <= uoid < 2 ^ 32 ->
  misc.inputToBits (processData.aesKey this) = Ok ek -> List.length ek = 8%nat ->
  misc.inputToBits (processData.macKey this) = Ok mk -> List.length mk = 8%nat ->
  byte_aligned requestData -> bitArray.bitLength requestData < 2 ^ 30 ->
  byte_aligned plainData -> 0xFFFF < byte_length plainData < 2 ^ 32 ->
  exists k body,
    (5 <= k)%nat
    /\ fst (processData.build this plainData requestData w)
       = Ok ("Packet0_" ++ processData.reqType this ++ "_"
             ++ Str.toUpperCase (hexn k (byte_length plainData))
             ++ hex.fromBits plainData ++ body)%string
    /\ bitArray.extract
         (hex.toBits (Str.toUpperCase (hexn k (byte_length plainData))
                      ++ hex.fromBits plainData ++ body))
         0 (2 * 8)
       < byte_length plainData.
Proof.
  intros Ht Hnb Wnb Lnb Hu Bu Hek Lek Hmk Lmk Hr Lr [Wp Ap] Lp.
  destruct (build_run this plainData requestData w nb uoid ek mk
              Ht Hnb Wnb Lnb Hu Bu Hek Lek Hmk Lmk Hr Lr)
    as (frame & m & _ & _ & _ & _ & _ & _ & E).
  cbv zeta in E. rewrite E. cbn [fst].
  pose proof (bitLength_nonneg plainData Wp) as Np.
  unfold JS.trunc_div. rewrite Z.quot_div_nonneg by lia.
  fold (byte_length plainData).
  destruct (sprintf_X4_long (byte_length plainData)) as (k & K5 & _ & ->).
  { change (2 ^ 16) with 65536. lia. }
  exists k. eexists. split; [assumption|]. split; [reflexivity|].
  rewrite extract_0 by lia.
  match goal with
  | |- ?x mod _ < _ => pose proof (Z.mod_pos_bound x (2 ^ (2 * 8)) ltac:(lia)) as B
  end.
  change (2 ^ (2 * 8)) with 65536 in *. lia.
Qed.

End Wire.


(** ** Worked instances: the request of the spec's build scenario *)

Lemma sample_nonce_bits :
  misc.inputToBits (processData.nonce sample_builder)
  = Ok [-1431651397; -858989091].
Proof. reflexivity. Qed.

Lemma sample_key_bits :
  misc.inputToBits (InStr (Str.repeat "0" 64)) = Ok [0; 0; 0; 0; 0; 0; 0; 0].
Proof. reflexivity. Qed.

Lemma sample_uoid_range : 0 <= 0xEE01 < 2 ^ 32.
Proof. split; [intro X; discriminate X | reflexivity]. Qed.

Lemma sample_request_aligned : byte_aligned (hex.toBits "1122334455").
Proof. split; reflexivity. Qed.

Lemma sample_long_plain_aligned : byte_aligned sample_long_plain.
Proof. split; vm_compute; reflexivity. Qed.


Lemma build_long_plain_witness :
  byte_aligned sample_long_plain
  /\ 0xFFFF < byte_length sample_long_plain < 2 ^ 32
  /\ exists k body,
       (5 <= k)%nat
       /\ fst (@processData.build xor_cipher sample_builder sample_long_plain
                 (hex.toBits "1122334455") sample_world)
          = Ok ("Packet0_" ++ processData.reqType sample_builder ++ "_"
                ++ Str.toUpperCase (hexn k (byte_length sample_long_plain))
                ++ hex.fromBits sample_long_plain ++ body)%string
       /\ bitArray.extract
            (hex.toBits (Str.toUpperCase (hexn k (byte_length sample_long_plain))
                         ++ hex.fromBits sample_long_plain ++ body))
            0 (2 * 8)
          < byte_length sample_long_plain.
Proof.
  assert (H1 : processData.truthy (processData.nonce sample_builder) = true)
    by reflexivity.
  assert (H3 : 0xFFFF < byte_length sample_long_plain < 2 ^ 32)
    by (split; vm_compute; reflexivity).
  refine (conj sample_long_plain_aligned (conj H3 _)).
  exact (@build_long_plain xor_cipher xor_cipher_laws sample_builder
           sample_long_plain (hex.toBits "1122334455") sample_world
           [-1431651397; -858989091] 0xEE01
           [0; 0; 0; 0; 0; 0; 0; 0] [0; 0; 0; 0; 0; 0; 0; 0]
           H1 sample_nonce_bits eq_refl eq_refl eq_refl
           sample_uoid_range
           sample_key_bits eq_refl sample_key_bits eq_refl
           sample_request_aligned eq_refl sample_long_plain_aligned H3).
Defined.

(** Plain data of 65536 bytes, one more than [0xFFFF]: [build] returns
    a wire string, with the length written as [10000]. *)
Lemma build_accepts_long_plain :
  byte_aligned sample_long_plain
  /\ byte_length sample_long_plain = 0xFFFF + 1
  /\ exists body,
       fst (@processData.build xor_cipher sample_builder sample_long_plain
              (hex.toBits "1122334455") sample_world)
       = Ok ("Packet0_PLAINAES_10000" ++ body)%string.
Proof.
  split; [exact sample_long_plain_aligned|]. split; [vm_compute; reflexivity|].
  assert (H1 : processData.truthy (processData.nonce sample_builder) = true)
    by reflexivity.
  destruct (@build_run xor_cipher xor_cipher_laws sample_builder
              sample_long_plain (hex.toBits "1122334455") sample_world
              [-1431651397; -858989091] 0xEE01
              [0; 0; 0; 0; 0; 0; 0; 0] [0; 0; 0; 0; 0; 0; 0; 0]
              H1 sample_nonce_bits eq_refl eq_refl eq_refl
              sample_uoid_range
              sample_key_bits eq_refl sample_key_bits eq_refl
              sample_request_aligned eq_refl)
    as (frame & m & _ & _ & _ & _ & _ & _ & E).
  cbv zeta in E. rewrite E. cbn [fst].
  replace (sprintf.X 4 (JS.trunc_div (bitArray.bitLength sample_long_plain) 8))
    with "10000"%string by (vm_compute; reflexivity).
  match goal with
  | |- exists body, Ok (_ ++ _ ++ _ ++ _ ++ ?X)%string = _ => exists X
  end.
  cbn [append processData.reqType sample_builder]. reflexivity.
Qed.


(** ** The hex codec *)

Lemma drop_hexn j k v : Str.drop j (hexn (j + k) v) = hexn k v.
Proof. induction j as [|j IH]; [reflexivity|]. cbn [Nat.add hexn Str.drop]. exact IH. Qed.

(** One word is written as its eight hexadecimal digits. *)
Lemma hex_word w : hex.word w = hexn 8 w.
Proof.
  unfold hex.word. rewrite or_0_r.
  pose proof (ToInt32_int32 w) as Hi. unfold int32 in Hi. zconst.
  set (y := JS.ToInt32 w + 263882790666240).
  destruct (toString16_hexn y ltac:(unfold y; lia)) as (k & K1 & Kv & Klo & ->).
  assert (Y1 : 16 ^ 11 <= y) by (change (16 ^ 11) with 17592186044416; unfold y; lia).
  assert (Y2 : y < 16 ^ 12) by (change (16 ^ 12) with 281474976710656; unfold y; lia).
  assert (Hk : k = 12%nat).
  { destruct (Nat.lt_trichotomy k 12) as [G|[G|G]]; [exfalso | assumption | exfalso].
    - assert (16 ^ Z.of_nat k <= 16 ^ 11) by (apply Z.pow_le_mono_r; lia). lia.
    - destruct Klo as [->|Klo]; [lia|].
      assert (16 ^ 12 <= 16 ^ (Z.of_nat k - 1)) by (apply Z.pow_le_mono_r; lia). lia. }
  subst k. unfold Str.substr_from. change (Z.to_nat 4) with 4%nat.
  change (Str.drop 4 (hexn 12 y)) with (Str.drop 4 (hexn (4 + 8) y)).
  rewrite (drop_hexn 4 8 y).
  rewrite <- (hexn_mod 8 y), <- (hexn_mod 8 w). f_equal.
  change (16 ^ Z.of_nat 8) with (2 ^ 32). unfold y.
  rewrite <- (ToInt32_mod w).
  replace 263882790666240 with (61440 * 2 ^ 32) by reflexivity.
  apply Z.mod_add. discriminate.
Qed.

Lemma hex_bits_word w : hex_bits (hex.word w) = word_bits 32 w.
Proof. rewrite hex_word, hex_bits_hexn. reflexivity. Qed.

Lemma hex_words_bits arr :
  hex_bits (Str.concat (List.map hex.word arr)) = bits32 arr.
Proof.
  induction arr as [|x r IH]; [reflexivity|].
  cbn [List.map Str.concat]. rewrite hex_bits_app, hex_bits_word, IH. reflexivity.
Qed.

Lemma hex_words_is_hex arr :
  Str.forallb Str.is_hex (Str.concat (List.map hex.word arr)) = true.
Proof.
  induction arr as [|x r IH]; [reflexivity|].
  cbn [List.map Str.concat]. now rewrite forallb_app, hex_word, hexn_is_hex, IH.
Qed.

Lemma hex_words_length arr :
  String.length (Str.concat (List.map hex.word arr)) = (8 * List.length arr)%nat.
Proof.
  induction arr as [|x r IH]; [reflexivity|].
  cbn [List.map Str.concat List.length].
  rewrite append_length, hex_word, hexn_length, IH. lia.
Qed.

Lemma hex_bits_take n s :
  hex_bits (Str.take n s) = firstn (4 * n) (hex_bits s).
Proof.
  revert s. induction n as [|n IH]; intros s; [reflexivity|].
  destruct s as [|c s]; [reflexivity|].
  cbn [Str.take hex_bits]. rewrite IH.
  replace (4 * S n)%nat with (4 + 4 * n)%nat by lia.
  assert (E : forall d, firstn (4 + 4 * n) (bits_from d 3 4) = bits_from d 3 4)
    by (intros d; apply firstn_all2; rewrite bits_from_length; lia).
  rewrite firstn_app, bits_from_length, E.
  f_equal. f_equal. lia.
Qed.

Lemma forallb_take p n s :
  Str.forallb p s = true -> Str.forallb p (Str.take n s) = true.
Proof.
  revert s. induction n as [|n IH]; intros s H; [reflexivity|].
  destruct s as [|c s]; [reflexivity|].
  cbn [Str.take Str.forallb] in *. apply andb_true_iff in H. destruct H as [-> H].
  now rewrite IH.
Qed.

Lemma take_length n s :
  (n <= String.length s)%nat -> String.length (Str.take n s) = n.
Proof.
  revert s. induction n as [|n IH]; intros s H; [reflexivity|].
  destruct s as [|c s]; [cbn in H; lia|].
  cbn [Str.take String.length] in *. rewrite IH; lia.
Qed.

(** [hex.fromBits] writes the bits of a bitArray whose length is a
    multiple of four, in hexadecimal digits. *)
Theorem fromBits_spec a :
  wf a -> bitArray.bitLength a mod 4 = 0 ->
  hex_bits (hex.fromBits a) = bits a
  /\ Str.forallb Str.is_hex (hex.fromBits a) = true
  /\ Z.of_nat (String.length (hex.fromBits a)) = bitArray.bitLength a / 4.
Proof.
  intros Hw H4. pose proof (bitLength_nonneg a Hw) as H0.
  pose proof (bitLength_le a Hw) as Hle.
  unfold hex.fromBits, Str.substr, JS.trunc_div.
  rewrite Z.quot_div_nonneg by lia.
  change (Z.to_nat 0) with 0%nat. cbn [Str.drop].
  set (q := bitArray.bitLength a / 4).
  assert (Hq : bitArray.bitLength a = 4 * q)
    by (unfold q; pose proof (Z.div_mod (bitArray.bitLength a) 4 ltac:(lia)); lia).
  split; [|split].
  - rewrite hex_bits_take, hex_words_bits, (bits_prefix a Hw). f_equal. lia.
  - apply forallb_take, hex_words_is_hex.
  - rewrite take_length; [lia|]. rewrite hex_words_length. lia.
Qed.


Lemma strip_cons c r :
  hex.strip (String c r)
  = if Str.is_space c then hex.strip r
    else match c, r with
         | "0"%char, String "x"%char r' => hex.strip r'
         | _, _ => String c (hex.strip r)
         end.
Proof. reflexivity. Qed.

(** Hexadecimal digits contain nothing that [toBits] strips. *)
Lemma strip_hex s : Str.forallb Str.is_hex s = true -> hex.strip s = s.
Proof.
  induction s as [|c r IH]; [reflexivity|]. intros H.
  cbn [Str.forallb] in H. apply andb_true_iff in H. destruct H as [Hc Hr].
  specialize (IH Hr). rewrite strip_cons.
  destruct (is_hex_not_special c Hc) as [-> _].
  destruct r as [|c1 r1].
  - destruct c as [[] [] [] [] [] [] [] []]; reflexivity.
  - cbn [Str.forallb] in Hr. apply andb_true_iff in Hr. destruct Hr as [Hc1 _].
    destruct c as [[] [] [] [] [] [] [] []]; try (now rewrite IH).
    destruct c1 as [[] [] [] [] [] [] [] []]; try (now rewrite IH).
    discriminate Hc1.
Qed.

(** Reading a string of hexadecimal digits: the digits read, the value
    above them, and the bits of the digits. *)
Lemma hex_prefix_all t :
  Str.forallb Str.is_hex t = true -> forall acc m,
  snd (Str.hex_prefix t acc m) = (m + String.length t)%nat
  /\ fst (Str.hex_prefix t acc m) / 16 ^ Z.of_nat (String.length t) = acc
  /\ bits_from (fst (Str.hex_prefix t acc m))
       (4 * Z.of_nat (String.length t) - 1) (4 * String.length t)
     = hex_bits t.
Proof.
  induction t as [|c t IH]; intros H acc m.
  - cbn. rewrite Z.div_1_r. split; [lia|]. split; reflexivity.
  - cbn [Str.forallb] in H. apply andb_true_iff in H. destruct H as [Hc Ht].
    unfold Str.is_hex in Hc. cbn [Str.hex_prefix hex_bits String.length].
    destruct (Str.hex_val c) as [d|] eqn:Ed; [|discriminate].
    pose proof (hex_val_range c d Ed) as Rd.
    destruct (IH Ht (16 * acc + d) (S m)) as (I1 & I2 & I3).
    set (v := fst (Str.hex_prefix t (16 * acc + d) (S m))) in *.
    set (n := String.length t) in *.
    pose proof (pow16_pos (Z.of_nat n) ltac:(lia)) as Pp.
    split; [lia|]. split.
    + replace (Z.of_nat (S n)) with (Z.of_nat n + 1) by lia.
      rewrite Z.pow_add_r, Z.pow_1_r, <- Z.div_div, I2 by lia.
      rewrite Z.mul_comm, Z.div_add_l by lia. rewrite Z.div_small; lia.
    + replace (4 * S n)%nat with (4 + 4 * n)%nat by lia.
      rewrite bits_from_app. f_equal.
      * apply bits_from_ext. intros i Hi. cbn in Hi.
        replace (4 * Z.of_nat (S n) - 1 - i) with (3 - i + 4 * Z.of_nat n) by lia.
        rewrite <- Z.div_pow2_bits, <- pow16, I2 by lia.
        change 16 with (2 ^ 4).
        rewrite <- (Z.mod_pow2_bits_low (2 ^ 4 * acc + d) 4) by lia.
        rewrite Z.add_comm, Z.mul_comm, Z.mod_add by lia.
        change (2 ^ 4) with 16. rewrite Z.mod_small by lia. reflexivity.
      * rewrite <- I3. f_equal. lia.
Qed.

(** A chunk of eight digits parses to the word holding its bits. *)
Lemma parse_word_bits c :
  String.length c = 8%nat -> Str.forallb Str.is_hex c = true ->
  word_bits 32 (hex.parse_word c) = hex_bits c.
Proof.
  intros Hl Hh. unfold hex.parse_word. rewrite parseInt16_hex by assumption.
  destruct (hex_prefix_all c Hh 0 0%nat) as (S1 & _ & S3).
  destruct (Str.hex_prefix c 0 0) as [v k]. cbn [fst snd] in *.
  rewrite Hl in *. cbn [Nat.add] in S1. subst k.
  rewrite xor_0_r, word_bits_ToInt32 by lia.
  exact S3.
Qed.

Lemma parse_word_int32 c : int32 (hex.parse_word c).
Proof.
  unfold hex.parse_word. destruct (Str.parseInt16 c); [apply xor_int32|].
  unfold int32. zconst. lia.
Qed.

Lemma words_int32 fuel : forall s, Forall int32 (hex.words fuel s).
Proof.
  induction fuel as [|f IH]; intros s; [constructor|].
  destruct s as [|c s]; [constructor|].
  cbn [hex.words]. constructor; [apply parse_word_int32 | apply IH].
Qed.

Lemma take_app_ge n (a b : string) :
  (n <= String.length a)%nat -> Str.take n (a ++ b) = Str.take n a.
Proof.
  revert a. induction n as [|n IH]; intros a H; [reflexivity|].
  destruct a as [|c a]; [cbn in H; lia|].
  cbn [append Str.take]. f_equal. apply IH. cbn in H. lia.
Qed.

Lemma drop_app_ge n (a b : string) :
  (n <= String.length a)%nat -> Str.drop n (a ++ b) = (Str.drop n a ++ b)%string.
Proof.
  revert a. induction n as [|n IH]; intros a H; [reflexivity|].
  destruct a as [|c a]; [cbn in H; lia|].
  cbn [append Str.drop]. apply IH. cbn in H. lia.
Qed.

Lemma take_app_lt n (a b : string) :
  (String.length a <= n)%nat ->
  Str.take n (a ++ b) = (a ++ Str.take (n - String.length a) b)%string.
Proof.
  revert n. induction a as [|c a IH]; intros n H.
  - cbn [append String.length]. now rewrite Nat.sub_0_r.
  - destruct n as [|n]; [cbn in H; lia|].
    cbn [append Str.take String.length Nat.sub]. f_equal. apply IH. cbn in H. lia.
Qed.

Lemma take_drop n s : (Str.take n s ++ Str.drop n s)%string = s.
Proof.
  revert s. induction n as [|n IH]; intros s; [reflexivity|].
  destruct s as [|c s]; [reflexivity|]. cbn [Str.take Str.drop append]. now rewrite IH.
Qed.

Lemma drop_length n s : String.length (Str.drop n s) = (String.length s - n)%nat.
Proof.
  revert s. induction n as [|n IH]; intros s; [cbn; lia|].
  destruct s as [|c s]; [reflexivity|]. cbn [Str.drop String.length]. rewrite IH. lia.
Qed.

Lemma forallb_drop p n s :
  Str.forallb p s = true -> Str.forallb p (Str.drop n s) = true.
Proof.
  revert s. induction n as [|n IH]; intros s H; [assumption|].
  destruct s as [|c s]; [reflexivity|].
  cbn [Str.drop Str.forallb] in *. apply andb_true_iff in H. now apply IH.
Qed.

Lemma words_cons f c s :
  hex.words (S f) (String c s)
  = hex.parse_word (Str.take 8 (String c s)) :: hex.words f (Str.drop 8 (String c s)).
Proof. reflexivity. Qed.

(** The words read from [s ‖ 00000000] start with the bits of [s]. *)
Lemma words_prefix n : forall s fuel,
  (String.length s <= n)%nat -> Str.forallb Str.is_hex s = true ->
  (String.length s < 8 * fuel)%nat ->
  exists T, bits32 (hex.words fuel (s ++ "00000000")) = hex_bits s ++ T.
Proof.
  induction n as [|n IH]; intros s fuel Hn Hh Hf.
  - destruct s; [|cbn in Hn; lia]. eexists. reflexivity.
  - destruct fuel as [|f]; [lia|].
    assert (Hc : exists c r, (s ++ "00000000")%string = String c r).
    { destruct s; cbn [append]; eauto. }
    destruct Hc as (c0 & r0 & E0). rewrite E0, words_cons, <- E0.
    unfold bits32. cbn [flat_map]. fold (bits32 (hex.words f (Str.drop 8 (s ++ "00000000")))).
    destruct (Nat.le_gt_cases 8 (String.length s)) as [G|G].
    + rewrite take_app_ge, drop_app_ge by assumption.
      destruct (IH (Str.drop 8 s) f) as [T ET].
      * rewrite drop_length. lia.
      * now apply forallb_drop.
      * rewrite drop_length. lia.
      * rewrite ET, parse_word_bits
          by (try apply take_length; try apply forallb_take; assumption).
        exists T. rewrite app_assoc, <- hex_bits_app, take_drop. reflexivity.
    + rewrite take_app_lt by lia.
      rewrite parse_word_bits.
      * rewrite hex_bits_app, <- app_assoc. eexists. reflexivity.
      * rewrite append_length, take_length; [lia | cbn [String.length]; lia].
      * rewrite forallb_app, Hh. apply forallb_take. reflexivity.
Qed.

(** [hex.toBits] on a string of hexadecimal digits: the canonical
    bitArray holding the bits spelled by the digits. *)
Theorem toBits_spec s :
  Str.forallb Str.is_hex s = true ->
  canon (hex.toBits s) /\ bits (hex.toBits s) = hex_bits s.
Proof.
  intros Hh. unfold hex.toBits. rewrite strip_hex by assumption.
  set (W := hex.words (String.length (s ++ "00000000")) (s ++ "00000000")).
  pose proof (words_int32 (String.length (s ++ "00000000")) (s ++ "00000000")) as Wi.
  fold W in Wi.
  destruct (words_prefix (String.length s) s (String.length (s ++ "00000000"))
              (Nat.le_refl _) Hh) as [T ET].
  { rewrite append_length. cbn [String.length]. lia. }
  fold W in ET.
  pose proof (forallb_int32_full W Wi) as Wf.
  pose proof (canon_int32 W Wi) as Wc.
  pose proof (bitLength_full W Wf) as Wl.
  assert (Hlen : 0 <= Z.of_nat (String.length s) * 4 <= bitArray.bitLength W).
  { split; [lia|]. rewrite Wl.
    assert (E : List.length (bits32 W) = List.length (hex_bits s ++ T)) by now rewrite ET.
    rewrite bits32_length, length_app, hex_bits_length in E. lia. }
  split; [now apply clamp_canon|].
  destruct (clamp_spec W _ (canon_wf W Wc) Hlen) as [_ B]. rewrite B.
  rewrite (bits_full W Wf), ET.
  replace (Z.to_nat (Z.of_nat (String.length s) * 4))
    with (List.length (hex_bits s) + 0)%nat by (rewrite hex_bits_length; lia).
  rewrite firstn_app_2. cbn [firstn]. apply app_nil_r.
Qed.


(** ** CBC decryption and the response nonce *)

Lemma blocks_of_blocks (bl : list (list Z)) :
  Forall (fun b => List.length b = 4%nat) bl -> blocks_of (List.concat bl) = bl.
Proof.
  induction 1 as [|b bl Hb _ IH]; [reflexivity|].
  destruct b as [|b0 [|b1 [|b2 [|b3 [|]]]]]; try discriminate.
  cbn [List.concat app blocks_of]. now rewrite IH.
Qed.

Lemma blocks_of_len4 a : Forall (fun b => List.length b = 4%nat) (blocks_of a).
Proof.
  assert (G : forall n a, (List.length a <= n)%nat ->
                          Forall (fun b => List.length b = 4%nat) (blocks_of a)).
  { induction n as [|n IH]; intros l Hl.
    - destruct l; [constructor | cbn in Hl; lia].
    - destruct l as [|x0 [|x1 [|x2 [|x3 r]]]]; try constructor; [reflexivity|].
      apply IH. cbn in Hl. lia. }
  now apply (G (List.length a)).
Qed.

Lemma slice_block_app (pre b r : list Z) :
  List.length b = 4%nat ->
  JS.slice (pre ++ b ++ r) (Z.of_nat (List.length pre)) (Z.of_nat (List.length pre) + 4)
  = b.
Proof.
  destruct b as [|b0 [|b1 [|b2 [|b3 [|]]]]]; try discriminate. intros _.
  apply (slice_block pre b0 b1 b2 b3 r).
Qed.

Section Decrypt.
Context {C : BlockCipher}.

(** The decryption loop of [cbc.decrypt] computes [CBC_decrypt_spec] and
    logs one decryption per block. *)
Lemma cbc_decrypt_loop_run a m : forall rest pre c out w,
  List.length rest = (4 * m)%nat ->
  cbc_decrypt_loop a (pre ++ rest) m (Z.of_nat (List.length pre)) c out w
  = (Ok (out ++ CBC_decrypt_spec (sjcl.cipher_key a) c (blocks_of rest)),
     mkWorld (entropy w)
       (trace w ++ List.map (AesDecrypt (sjcl.cipher_key a)) (blocks_of rest))).
Proof.
  induction m as [|m IH]; intros rest pre c out w Hl.
  - destruct rest; [|discriminate]. cbn. now rewrite !app_nil_r, world_eta.
  - destruct rest as [|x0 [|x1 [|x2 [|x3 r]]]]; try (cbn in Hl; lia).
    cbn [cbc_decrypt_loop]. rewrite slice_block.
    erewrite bind_run by (apply decrypt_run; reflexivity).
    rewrite (snoc_block pre x0 x1 x2 x3 r), (snoc_block_length pre x0 x1 x2 x3),
      IH by (cbn in Hl; lia).
    cbn [blocks_of CBC_decrypt_spec List.map entropy trace].
    now rewrite <- !app_assoc.
Qed.

Lemma CBC_decrypt_spec_words k : forall blocks c,
  Forall int32 (CBC_decrypt_spec k c blocks)
  /\ List.length (CBC_decrypt_spec k c blocks) = (4 * List.length blocks)%nat.
Proof.
  induction blocks as [|b r IH]; intros c; [split; [constructor | reflexivity]|].
  cbn [CBC_decrypt_spec List.length]. destruct (IH b) as [Ii Il]. split.
  - apply Forall_app. split; [apply xor_int32s | assumption].
  - rewrite length_app, xor_length, Il. lia.
Qed.

(** [cbc.decrypt] with padding removal: the blocks are decrypted and the
    PKCS#7 padding is taken off as [pkcs7.unpad] does. *)
Lemma cbc_decrypt_run a ct iv m w :
  forallb fullb ct = true -> List.length ct = (4 * m)%nat -> (1 <= m)%nat ->
  bitArray.bitLength ct < 2 ^ 31 -> bitArray.bitLength iv = 128 ->
  cbc_decrypt a ct iv [] false w
  = (pkcs7.unpad (CBC_decrypt_spec (sjcl.cipher_key a) iv (blocks_of ct)) None,
     mkWorld (entropy w)
       (trace w ++ List.map (AesDecrypt (sjcl.cipher_key a)) (blocks_of ct))).
Proof.
  intros Hf Hl Hm Hlt Hiv. unfold cbc_decrypt. cbn [List.length Nat.eqb].
  rewrite Hiv. cbn [Z.eqb Pos.eqb].
  pose proof (bitLength_full ct Hf) as Hbl. rewrite Hl in Hbl.
  assert (Hbl' : bitArray.bitLength ct = Z.of_nat m * 128) by lia.
  rewrite and_127, Hbl', Z.mod_mul by lia. rewrite Hl.
  replace (Nat.eqb (4 * m) 0) with false by (symmetry; apply Nat.eqb_neq; lia).
  cbn [Z.eqb negb andb].
  replace (Z.to_nat (JS.ceil_div (Z.of_nat (4 * m)) 4)) with m.
  2:{ unfold JS.ceil_div. replace (- Z.of_nat (4 * m)) with (- Z.of_nat m * 4) by lia.
      rewrite Z.div_mul by lia. lia. }
  erewrite bind_run by (exact (cbc_decrypt_loop_run a m ct [] iv [] w Hl)).
  cbn [app].
  set (o := CBC_decrypt_spec (sjcl.cipher_key a) iv (blocks_of ct)).
  destruct (CBC_decrypt_spec_words (sjcl.cipher_key a) (blocks_of ct) iv) as [Oi Ol].
  fold o in Oi, Ol. rewrite (blocks_of_length m ct Hl) in Ol.
  pose proof (forallb_int32_full o Oi) as Of.
  pose proof (bitLength_full o Of) as Ob. rewrite Ol in Ob.
  unfold pkcs7.unpad. rewrite check_blocklen_default. cbn [rbind].
  rewrite and_127, Ob.
  replace (32 * Z.of_nat (4 * m)) with (Z.of_nat m * 128) by lia.
  rewrite Z.mod_mul by lia. rewrite Ol.
  replace (Nat.eqb (4 * m) 0) with false by (symmetry; apply Nat.eqb_neq; lia).
  cbn [Z.eqb negb andb].
  assert (B31 : Z.of_nat m * 128 < 2 ^ 31) by lia.
  rewrite (sar_nonneg (Z.of_nat m * 128) 3) by (zconst; lia). change (2 ^ 3) with 8.
  replace (Z.of_nat m * 128 / 8) with (Z.of_nat m * 16)
    by (replace (Z.of_nat m * 128) with (Z.of_nat m * 16 * 8) by lia;
        now rewrite Z.div_mul).
  rewrite (sar_nonneg (Z.of_nat m * 16) 2) by (zconst; lia). change (2 ^ 2) with 4.
  replace (Z.of_nat m * 16 / 4) with (4 * Z.of_nat m)
    by (replace (Z.of_nat m * 16) with (4 * Z.of_nat m * 4) by lia;
        now rewrite Z.div_mul).
  destruct (negb _); [|reflexivity].
  destruct (bitArray.equal _ _); reflexivity.
Qed.

Context {L : BlockCipherLaws C}.

(** Decryption undoes encryption, up to [ToInt32] on the words. *)
Lemma CBC_decrypt_encrypt k : forall blocks c,
  Forall (fun b => List.length b = 4%nat) blocks ->
  CBC_decrypt_spec k c (CBC_spec k c blocks)
  = List.map JS.ToInt32 (List.concat blocks).
Proof.
  induction blocks as [|p r IH]; intros c H; [reflexivity|].
  inversion H as [|? ? Hp Hr]; subst.
  cbn [CBC_spec CBC_decrypt_spec List.concat].
  rewrite decrypt_encrypt_block by (try apply xor_length; apply xor_int32s).
  rewrite xor_cancel, IH, map_app by assumption. reflexivity.
Qed.

Lemma CBC_spec_len4 k : forall blocks c,
  Forall (fun b => List.length b = 4%nat) (CBC_spec k c blocks).
Proof.
  induction blocks as [|p r IH]; intros c; [constructor|].
  cbn [CBC_spec]. constructor; [apply (encrypt_block_words k) | apply IH].
Qed.

Lemma decrypt_encrypt_spec k iv q m :
  List.length q = (4 * m)%nat ->
  CBC_decrypt_spec k iv (blocks_of (CBC_encrypt_spec k iv q))
  = List.map JS.ToInt32 q.
Proof.
  intros Hq. unfold CBC_encrypt_spec.
  rewrite blocks_of_blocks by apply CBC_spec_len4.
  rewrite CBC_decrypt_encrypt by apply blocks_of_len4.
  now rewrite (blocks_of_concat m q Hq).
Qed.

End Decrypt.

(** On a nonce of two full words [demangleNonce] subtracts the constant
    from both. *)
Lemma demangle_two m0 m1 :
  fullb m1 = true ->
  comm.demangleNonce [m0; m1] = Ok [m0 - 0x01010101; m1 - 0x01010101].
Proof.
  intros H. unfold comm.demangleNonce.
  assert (E : bitArray.bitLength [m0; m1] = 64).
  { unfold bitArray.bitLength. cbn [List.length last]. rewrite getPartial_full by assumption.
    reflexivity. }
  rewrite E. reflexivity.
Qed.


(** ** Reading a message body *)

Lemma firstn_exact {A} (a b : list A) n :
  List.length a = n -> firstn n (a ++ b) = a.
Proof. intros <-. rewrite firstn_app, Nat.sub_diag, firstn_all. cbn. apply app_nil_r. Qed.

Lemma skipn_exact {A} (a b : list A) n :
  List.length a = n -> skipn n (a ++ b) = b.
Proof. intros <-. rewrite skipn_app, Nat.sub_diag, skipn_all. reflexivity. Qed.

Lemma hex_bits_upper n v :
  hex_bits (Str.toUpperCase (hexn n v)) = hex_bits (hexn n v)
  /\ Str.forallb Str.is_hex (Str.toUpperCase (hexn n v)) = true.
Proof.
  induction n as [|n [IH1 IH2]]; [split; reflexivity|].
  cbn [hexn Str.toUpperCase Str.map hex_bits Str.forallb].
  fold (Str.toUpperCase (hexn n v)).
  assert (R : 0 <= (v / 16 ^ Z.of_nat n) mod 16 < 16) by (apply Z.mod_pos_bound; lia).
  unfold Str.is_hex. rewrite hex_val_upper, hex_val_char by assumption.
  split; [now rewrite IH1 | exact IH2].
Qed.

(** The first ["_"] after a run of hexadecimal digits. *)
Lemma indexOf_hex h rest :
  Str.forallb Str.is_hex h = true ->
  Str.indexOf "_" (h ++ String "_" rest) = Z.of_nat (String.length h).
Proof.
  induction h as [|c h IH]; intros H; [reflexivity|].
  cbn [Str.forallb] in H. apply andb_true_iff in H. destruct H as [Hc Hh].
  cbn [append Str.indexOf String.length]. rewrite (IH Hh).
  destruct (is_hex_not_special c Hc) as (_ & _ & _ & _ & _ & Hu).
  destruct (Ascii.eqb_spec "_" c) as [E|_]; [now subst c|].
  destruct (Z.ltb_spec (Z.of_nat (String.length h)) 0); lia.
Qed.

Lemma bits_map_ToInt32 a :
  forallb fullb a = true -> bits (List.map JS.ToInt32 a) = bits a.
Proof.
  intros Hf. rewrite (bits_full a Hf).
  rewrite bits_full.
  - unfold bits32. induction a as [|x a IH]; [reflexivity|].
    cbn [List.map flat_map] in *. apply andb_true_iff in Hf.
    rewrite word_bits_ToInt32 by lia. now rewrite IH.
  - apply forallb_int32_full. apply Forall_map, Forall_forall.
    intros x _. apply ToInt32_int32.
Qed.

Lemma map_ToInt32_int32 a : Forall int32 (List.map JS.ToInt32 a).
Proof. apply Forall_map, Forall_forall. intros x _. apply ToInt32_int32. Qed.

(** A canonical bitArray of 64 bits is two 32-bit integers. *)
Lemma canon_64 a :
  canon a -> bitArray.bitLength a = 64 ->
  exists n0 n1, a = [n0; n1] /\ int32 n0 /\ int32 n1.
Proof.
  intros Hc Hl.
  assert (Hi : Forall int32 a) by (apply canon_full_int32; [assumption | now rewrite Hl]).
  pose proof (bitLength_full a (forallb_int32_full a Hi)) as Hb.
  destruct a as [|n0 [|n1 [|n2 r]]]; cbn [List.length] in Hb; try lia.
  inversion Hi as [|? ? H0 Hi1]; subst. inversion Hi1 as [|? ? H1 _]; subst.
  eauto.
Qed.

(** The fields of a body [plainLen ‖ plain ‖ CT ‖ TAG] given in
    hexadecimal. *)
Lemma body_parse H len P R :
  Str.forallb Str.is_hex H = true ->
  0 <= len < 2 ^ 16 -> Z.of_nat (List.length P) = 8 * len ->
  hex_bits H = bits_from len 15 16 ++ P ++ R ->
  let ba := hex.toBits H in
  bitArray.extract ba 0 16 = len
  /\ (canon (bitArray.bitSlice ba 0 (Some (16 + 8 * len)))
      /\ bits (bitArray.bitSlice ba 0 (Some (16 + 8 * len)))
         = bits_from len 15 16 ++ P)
  /\ (canon (bitArray.bitSlice ba 16 (Some (16 + 8 * len)))
      /\ bits (bitArray.bitSlice ba 16 (Some (16 + 8 * len))) = P)
  /\ (canon (bitArray.bitSlice ba (16 + 8 * len) None)
      /\ bits (bitArray.bitSlice ba (16 + 8 * len) None) = R).
Proof.
  intros Hh Hlen HP HB ba.
  destruct (toBits_spec H Hh) as [Cb Bb]. fold ba in Cb, Bb.
  rewrite HB in Bb. pose proof (canon_wf ba Cb) as Wb.
  pose proof (bits_length ba Wb) as Lb.
  rewrite Bb, !length_app, bits_from_length in Lb.
  assert (B0 : 16 + 8 * len <= bitArray.bitLength ba) by lia.
  split; [|split; [|split]].
  - apply (extract_0_value ba 16 len (P ++ R)); [assumption | lia | assumption |].
    exact Bb.
  - split; [apply bitSlice_canon; [assumption | lia | lia]|].
    destruct (bitSlice_spec ba 0 (16 + 8 * len) Wb ltac:(lia) B0) as [_ B].
    rewrite B, Bb. change (Z.to_nat 0) with 0%nat. cbn [skipn].
    rewrite app_assoc. apply firstn_exact.
    rewrite length_app, bits_from_length. lia.
  - split; [apply bitSlice_canon; [assumption | lia | lia]|].
    destruct (bitSlice_spec ba 16 (16 + 8 * len) Wb ltac:(lia) B0) as [_ B].
    rewrite B, Bb. rewrite skipn_exact by (rewrite bits_from_length; reflexivity).
    apply firstn_exact. lia.
  - split; [apply bitSlice_from_canon; [assumption | lia]|].
    destruct (bitSlice_from_spec ba (16 + 8 * len) Wb ltac:(lia)) as [_ B].
    rewrite B, Bb, app_assoc. apply skipn_exact.
    rewrite length_app, bits_from_length. lia.
Qed.

(** Splitting [CT ‖ TAG] 128 bits before the end. *)
Lemma prot_split prot ct tag :
  canon prot -> canon ct -> canon tag ->
  bits prot = bits ct ++ bits tag -> bitArray.bitLength tag = 128 ->
  bitArray.bitLength prot - 128 = bitArray.bitLength ct
  /\ bitArray.bitSlice prot 0 (Some (bitArray.bitLength prot - 128)) = ct
  /\ bitArray.bitSlice prot (bitArray.bitLength prot - 128) None = tag.
Proof.
  intros Cp Cc Ct HB Lt.
  pose proof (canon_wf _ Cp) as Wp. pose proof (canon_wf _ Cc) as Wc.
  pose proof (canon_wf _ Ct) as Wt.
  pose proof (bits_length prot Wp) as Lp. pose proof (bits_length ct Wc) as Lc.
  pose proof (bits_length tag Wt) as Ltg.
  pose proof (bitLength_nonneg ct Wc) as Nc.
  rewrite HB, length_app in Lp.
  assert (E : bitArray.bitLength prot - 128 = bitArray.bitLength ct) by lia.
  split; [assumption|]. rewrite E. split.
  - apply canon_inj; [apply bitSlice_canon; [assumption | lia | lia] | assumption |].
    destruct (bitSlice_spec prot 0 (bitArray.bitLength ct) Wp ltac:(lia) ltac:(lia))
      as [_ B].
    rewrite B, HB. change (Z.to_nat 0) with 0%nat. cbn [skipn].
    apply firstn_exact. lia.
  - apply canon_inj; [apply bitSlice_from_canon; [assumption | lia] | assumption |].
    destruct (bitSlice_from_spec prot (bitArray.bitLength ct) Wp ltac:(lia)) as [_ B].
    rewrite B, HB. apply skipn_exact. lia.
Qed.

(** The rewritten frame: the flag byte becomes [f1], the two nonce
    words are mangled, everything else stays. *)
Lemma mirror_spec frame F U N R :
  canon frame -> bits frame = F ++ U ++ N ++ R ->
  List.length F = 8%nat -> List.length U = 32%nat -> List.length N = 64%nat ->
  exists n0 n1,
    int32 n0 /\ int32 n1 /\ bits [n0; n1] = N
    /\ canon (mirror frame)
    /\ bits (mirror frame)
       = byte_bits 0xf1 ++ U ++ bits [mangle_word n0; mangle_word n1] ++ R.
Proof.
  intros Cf HB LF LU LN. pose proof (canon_wf _ Cf) as Wf.
  pose proof (bits_length frame Wf) as Lf.
  rewrite HB, !length_app, LF, LU, LN in Lf.
  assert (CU : canon (bitArray.bitSlice frame 8 (Some 40)))
    by (apply bitSlice_canon; [assumption | lia | lia]).
  assert (CN : canon (bitArray.bitSlice frame 40 (Some 104)))
    by (apply bitSlice_canon; [assumption | lia | lia]).
  assert (CR : canon (bitArray.bitSlice frame 104 None))
    by (apply bitSlice_from_canon; [assumption | lia]).
  destruct (bitSlice_spec frame 8 40 Wf ltac:(lia) ltac:(lia)) as [_ BU].
  destruct (bitSlice_spec frame 40 104 Wf ltac:(lia) ltac:(lia)) as [_ BN].
  destruct (bitSlice_from_spec frame 104 Wf ltac:(lia)) as [_ BR].
  rewrite HB in BU, BN, BR.
  rewrite (skipn_exact F _ 8 LF) in BU.
  change (Z.to_nat (40 - 8)) with 32%nat in BU. rewrite (firstn_exact U _ 32 LU) in BU.
  replace (F ++ U ++ N ++ R) with ((F ++ U) ++ N ++ R) in BN, BR
    by now rewrite <- app_assoc.
  rewrite (skipn_exact (F ++ U) _ 40) in BN by (rewrite length_app; lia).
  change (Z.to_nat (104 - 40)) with 64%nat in BN. rewrite (firstn_exact N _ 64 LN) in BN.
  replace ((F ++ U) ++ N ++ R) with (((F ++ U) ++ N) ++ R) in BR
    by now rewrite <- !app_assoc.
  rewrite (skipn_exact ((F ++ U) ++ N) _ 104) in BR by (rewrite !length_app; lia).
  pose proof (bitSlice_bitLength frame 40 104 Wf ltac:(lia) ltac:(lia)) as LNb.
  destruct (canon_64 _ CN LNb) as (n0 & n1 & EN & I0 & I1).
  exists n0, n1. split; [assumption|]. split; [assumption|].
  split; [now rewrite <- EN|].
  unfold mirror. rewrite EN.
  assert (EM : mangle [n0; n1] = [mangle_word n0; mangle_word n1]).
  { cbn [mangle]. unfold mangle_last.
    now rewrite (getPartial_full n1 (int32_full n1 I1)). }
  rewrite EM.
  assert (CM : canon [mangle_word n0; mangle_word n1])
    by (apply canon_int32; repeat constructor; apply or_int32).
  assert (CF : canon [bitArray.partial 8 0xf1 false]) by reflexivity.
  pose proof (concat_canon _ _ CF CU) as C1.
  pose proof (concat_canon _ _ C1 CM) as C2.
  pose proof (concat_canon _ _ C2 CR) as C3.
  split; [exact C3|].
  destruct (concat_spec _ _ (canon_wf _ CF) (canon_wf _ CU)) as [_ B1].
  destruct (concat_spec _ _ (canon_wf _ C1) (canon_wf _ CM)) as [_ B2].
  destruct (concat_spec _ _ (canon_wf _ C2) (canon_wf _ CR)) as [_ B3].
  rewrite B3, B2, B1, BU, BR.
  change (bits [bitArray.partial 8 241 false]) with (byte_bits 0xf1).
  now rewrite <- !app_assoc.
Qed.

(** Demangling the mangled words gives back the bits of the nonce. *)
Lemma demangled_bits n0 n1 :
  int32 n0 -> int32 n1 ->
  wf [mangle_word n0 - 0x01010101; mangle_word n1 - 0x01010101]
  /\ bits [mangle_word n0 - 0x01010101; mangle_word n1 - 0x01010101]
     = bits [n0; n1].
Proof.
  intros I0 I1.
  assert (F : forall n, int32 n -> fullb (mangle_word n - 0x01010101) = true
                        /\ word_bits 32 (mangle_word n - 0x01010101) = word_bits 32 n).
  { intros n Hn. pose proof (or_int32 (n + 0x01010101) 0) as Hm.
    fold (mangle_word n) in Hm. unfold int32 in *. split.
    - apply fullb_spec. zconst. lia.
    - apply word_bits_mod; [lia|]. unfold mangle_word. rewrite or_0_r.
      rewrite Zminus_mod, ToInt32_mod, <- Zminus_mod. f_equal. lia. }
  destruct (F n0 I0) as [F0 B0]. destruct (F n1 I1) as [F1 B1].
  assert (Ff : forallb fullb [mangle_word n0 - 0x01010101; mangle_word n1 - 0x01010101] = true)
    by (cbn [forallb]; now rewrite F0, F1).
  split; [now apply wf_full|].
  rewrite (bits_full _ Ff).
  rewrite (bits_full [n0; n1])
    by (apply forallb_int32_full, Forall_cons;
        [assumption | apply Forall_cons; [assumption | apply Forall_nil]]).
  unfold bits32. cbn [flat_map]. now rewrite B0, B1.
Qed.


(** ** The loopback *)

(** Padding depends on the length only. *)
Lemma pad_spec_same_length (l1 l2 : list bool) :
  List.length l1 = List.length l2 ->
  pkcs7_pad_spec l2
  = l2 ++ skipn (List.length l1) (pkcs7_pad_spec l1).
Proof.
  intros E. unfold pkcs7_pad_spec. rewrite skipn_exact by reflexivity.
  now rewrite E.
Qed.

Lemma pad_spec_split l :
  pkcs7_pad_spec l = l ++ skipn (List.length l) (pkcs7_pad_spec l).
Proof. now apply pad_spec_same_length. Qed.

Section LoopbackRun.
Context {C : BlockCipher} {L : BlockCipherLaws C}.

Lemma CBC_spec_last k : forall blocks c d,
  List.length d = 4%nat -> Forall int32 d ->
  List.length (last (CBC_spec k c blocks) d) = 4%nat
  /\ Forall int32 (last (CBC_spec k c blocks) d).
Proof.
  induction blocks as [|p r IH]; intros c d Hd Hi; [split; assumption|].
  cbn [CBC_spec]. rewrite last_cons_default.
  destruct (encrypt_block_words k (misc.xor c p)) as [E4 Ei]. now apply IH.
Qed.

(** CT and TAG are canonical bitArrays of whole blocks. *)
Lemma ct_tag_canon ek mk q m :
  List.length q = (4 * m)%nat ->
  let CT := CBC_encrypt_spec ek [0; 0; 0; 0] q in
  let TAG := CBC_MAC_spec mk CT in
  Forall int32 CT /\ List.length CT = (4 * m)%nat
  /\ canon CT /\ bitArray.bitLength CT = 128 * Z.of_nat m
  /\ canon TAG /\ bitArray.bitLength TAG = 128.
Proof.
  intros Hq CT TAG.
  destruct (CBC_spec_words ek (blocks_of q) [0; 0; 0; 0]) as [Ci Cl].
  rewrite (blocks_of_length m q Hq) in Cl. fold (CBC_encrypt_spec ek [0; 0; 0; 0] q) in Ci, Cl.
  fold CT in Ci, Cl.
  assert (Z4 : Forall int32 [0; 0; 0; 0])
    by (repeat apply Forall_cons; try apply Forall_nil; unfold int32; zconst; lia).
  destruct (CBC_spec_last mk (blocks_of CT) [0; 0; 0; 0] [0; 0; 0; 0] eq_refl Z4)
    as [T4 Ti].
  fold (CBC_MAC_spec mk CT) in T4, Ti. fold TAG in T4, Ti.
  split; [assumption|]. split; [assumption|]. split; [now apply canon_int32|].
  split; [rewrite (bitLength_full CT (forallb_int32_full CT Ci)), Cl; lia|].
  split; [now apply canon_int32|].
  rewrite (bitLength_full TAG (forallb_int32_full TAG Ti)), T4. reflexivity.
Qed.

(** What the loopback answers to a well-formed request. *)
Lemma loopback_spec reqType plainData p m ek mk U Nb D :
  byte_aligned plainData -> byte_length plainData < 2 ^ 16 ->
  wf p -> forallb fullb p = true -> List.length p = (4 * m)%nat ->
  bits p = pkcs7_pad_spec (byte_bits 0x1f ++ U ++ Nb ++ D) ->
  List.length U = 32%nat -> List.length Nb = 64%nat ->
  let len := byte_length plainData in
  let CT := CBC_encrypt_spec ek [0; 0; 0; 0] p in
  let TAG := CBC_MAC_spec mk CT in
  let wire := ("Packet0_" ++ reqType ++ "_" ++ Str.toUpperCase (hexn 4 len)
               ++ hex.fromBits plainData ++ hex.fromBits CT ++ hex.fromBits TAG)%string in
  exists q n0 n1 H,
    loopback ek mk reqType wire
    = {| processData.json_status := Some "9000"%string;
         processData.json_statusdetail := None;
         processData.json_function := Some "ProcessData"%string;
         processData.json_result := Some (H ++ "_")%string |}
    /\ Str.forallb Str.is_hex H = true
    /\ hex_bits H
       = bits_from len 15 16 ++ bits plainData
         ++ bits (CBC_encrypt_spec ek [0; 0; 0; 0] q)
         ++ bits (CBC_MAC_spec mk (CBC_encrypt_spec ek [0; 0; 0; 0] q))
    /\ canon q /\ List.length q = (4 * m)%nat
    /\ int32 n0 /\ int32 n1 /\ bits [n0; n1] = Nb
    /\ bits q
       = pkcs7_pad_spec (byte_bits 0xf1 ++ U
                         ++ bits [mangle_word n0; mangle_word n1] ++ D).
Proof.
  intros [Wpl Apl] Lpl Wp Fp Lp Bp LU LN len CT TAG wire.
  pose proof (bitLength_nonneg plainData Wpl) as Npl.
  assert (Hlen : 0 <= len < 2 ^ 16)
    by (split; [apply Z.div_pos; lia | assumption]).
  assert (Epl : bitArray.bitLength plainData = 8 * len)
    by (unfold len, byte_length;
        pose proof (Z.div_mod (bitArray.bitLength plainData) 8 ltac:(lia)); lia).
  destruct (ct_tag_canon ek mk p m Lp) as (Ci & Cl & Cc & Cb & Tc & Tb).
  fold CT in Ci, Cl, Cc, Cb, Tc, Tb. fold TAG in Tc, Tb.
  (* the body of the request *)
  destruct (fromBits_spec plainData Wpl) as (P1 & P2 & _).
  { rewrite Epl. replace (8 * len) with (2 * len * 4) by lia. apply Z.mod_mul. lia. }
  destruct (fromBits_spec CT (canon_wf _ Cc)) as (C1 & C2 & _).
  { rewrite Cb. replace (128 * Z.of_nat m) with (32 * Z.of_nat m * 4) by lia.
    apply Z.mod_mul. lia. }
  destruct (fromBits_spec TAG (canon_wf _ Tc)) as (T1 & T2 & _).
  { now rewrite Tb. }
  destruct (hex_bits_upper 4 len) as [U1 U2].
  set (body := (Str.toUpperCase (hexn 4 len) ++ hex.fromBits plainData
                ++ hex.fromBits CT ++ hex.fromBits TAG)%string).
  assert (Hbody : Str.forallb Str.is_hex body = true)
    by (unfold body; now rewrite !forallb_app, U2, P2, C2, T2).
  assert (Bbody : hex_bits body
                  = bits_from len 15 16 ++ bits plainData ++ bits CT ++ bits TAG).
  { unfold body. rewrite !hex_bits_app, U1, P1, C1, T1, hex_bits_hexn. reflexivity. }
  assert (Ewire : Str.drop (String.length ("Packet0_" ++ reqType ++ "_")) wire = body).
  { unfold wire. fold body.
    replace ("Packet0_" ++ reqType ++ "_" ++ body)%string
      with (("Packet0_" ++ reqType ++ "_") ++ body)%string
      by (now rewrite !append_assoc).
    now apply drop_app. }
  assert (LP : Z.of_nat (List.length (bits plainData)) = 8 * len)
    by (rewrite (bits_length plainData Wpl); exact Epl).
  destruct (body_parse body len (bits plainData) (bits CT ++ bits TAG)
              Hbody Hlen LP Bbody) as (X1 & (X2 & X3) & _ & (X4 & X5)).
  destruct (prot_split _ CT TAG X4 Cc Tc X5 Tb) as (_ & Y1 & _).
  (* the decrypted frame and its mirror *)
  pose proof (decrypt_encrypt_spec ek [0; 0; 0; 0] p m Lp) as Dp. fold CT in Dp.
  set (fd := List.map JS.ToInt32 p) in *.
  assert (Cfd : canon fd) by (apply canon_int32, map_ToInt32_int32).
  assert (Bfd : bits fd = byte_bits 0x1f ++ U ++ Nb
                          ++ (D ++ skipn (List.length (byte_bits 0x1f ++ U ++ Nb ++ D))
                                     (pkcs7_pad_spec (byte_bits 0x1f ++ U ++ Nb ++ D)))).
  { unfold fd. rewrite (bits_map_ToInt32 p Fp), Bp.
    rewrite (pad_spec_split (byte_bits 0x1f ++ U ++ Nb ++ D)) at 1.
    now rewrite <- !app_assoc. }
  destruct (mirror_spec fd _ U Nb _ Cfd Bfd eq_refl LU LN)
    as (n0 & n1 & I0 & I1 & BN & Cq & Bq).
  set (q := mirror fd) in *.
  assert (LM : List.length (bits [mangle_word n0; mangle_word n1]) = 64%nat).
  { rewrite bits_full
      by (apply forallb_int32_full; repeat apply Forall_cons;
          try apply Forall_nil; apply or_int32).
    reflexivity. }
  assert (Bq' : bits q = pkcs7_pad_spec (byte_bits 0xf1 ++ U
                           ++ bits [mangle_word n0; mangle_word n1] ++ D)).
  { rewrite Bq.
    rewrite (pad_spec_same_length (byte_bits 0x1f ++ U ++ Nb ++ D)
               (byte_bits 0xf1 ++ U ++ bits [mangle_word n0; mangle_word n1] ++ D)).
    - now rewrite <- !app_assoc.
    - rewrite !length_app, LN, LM. reflexivity. }
  assert (Lq : List.length q = (4 * m)%nat).
  { pose proof (bits_length q (canon_wf _ Cq)) as Lb.
    pose proof (bits_length p Wp) as Lbp.
    assert (E : List.length (bits q) = List.length (bits p)).
    { rewrite <- (bits_map_ToInt32 p Fp). fold fd.
      rewrite Bq, Bfd, !length_app, LN, LM. reflexivity. }
    rewrite (bitLength_full p Fp), Lp in Lbp.
    destruct (wf_full_length q (Z.of_nat m) (canon_wf _ Cq)) as (_ & Lq & _); [lia|].
    rewrite Lq. lia. }
  destruct (ct_tag_canon ek mk q m Lq) as (Ci' & Cl' & Cc' & Cb' & Tc' & Tb').
  set (CT' := CBC_encrypt_spec ek [0; 0; 0; 0] q) in *.
  set (TAG' := CBC_MAC_spec mk CT') in *.
  set (head := bitArray.bitSlice (hex.toBits body) 0 (Some (16 + 8 * len))) in *.
  destruct (concat_spec head CT' (canon_wf _ X2) (canon_wf _ Cc')) as [W1 B1].
  destruct (concat_spec _ TAG' W1 (canon_wf _ Tc')) as [W2 B2].
  set (R' := bitArray.concat (bitArray.concat head CT') TAG') in *.
  destruct (fromBits_spec R' W2) as (R1 & R2 & _).
  { assert (LR : bitArray.bitLength R' = (4 + 2 * len + 32 * Z.of_nat m + 32) * 4).
    { rewrite <- (bits_length R' W2), B2, B1, X3, !length_app, !Nat2Z.inj_add.
      rewrite bits_from_length, LP.
      rewrite (bits_length CT' (canon_wf _ Cc')), (bits_length TAG' (canon_wf _ Tc')).
      rewrite Cb', Tb'. lia. }
    rewrite LR. apply Z.mod_mul. lia. }
  exists q, n0, n1, (hex.fromBits R').
  split.
  { unfold loopback. rewrite Ewire, X1. fold head. rewrite Y1, Dp.
    fold q. fold CT'. fold TAG'. reflexivity. }
  split; [assumption|]. split.
  { rewrite R1, B2, B1, X3. now rewrite <- !app_assoc. }
  repeat (split; [assumption|]). exact Bq'.
Qed.

End LoopbackRun.


(** ** Parsing a response *)

Lemma response_body H :
  Str.forallb Str.is_hex H = true ->
  Str.substring0 (H ++ "_") (Str.indexOf "_" (H ++ "_")) = H.
Proof.
  intros Hh. rewrite (indexOf_hex H EmptyString Hh).
  unfold Str.substring0. rewrite Nat2Z.id.
  now apply take_app.
Qed.

Section ParseRun.
Context {C : BlockCipher} {L : BlockCipherLaws C}.

(** The parser on a response whose body holds [plainLen ‖ plain ‖ CT ‖ TAG]
    with [CT] the encryption of a padded frame
    [f1 ‖ UOid ‖ nonce' ‖ data] and [TAG] its MAC. *)
Lemma parse_run (ps : processData.parser) H len P q m ek mk U m0 m1 D w :
  Str.forallb Str.is_hex H = true ->
  0 <= len < 2 ^ 16 -> Z.of_nat (List.length P) = 8 * len ->
  canon q -> List.length q = (4 * m)%nat -> (1 <= m)%nat ->
  128 * Z.of_nat m < 2 ^ 31 ->
  hex_bits H
  = bits_from len 15 16 ++ P ++ bits (CBC_encrypt_spec ek [0; 0; 0; 0] q)
    ++ bits (CBC_MAC_spec mk (CBC_encrypt_spec ek [0; 0; 0; 0] q)) ->
  bits q = pkcs7_pad_spec (byte_bits 0xf1 ++ U ++ bits [m0; m1] ++ D) ->
  List.length U = 32%nat -> int32 m0 -> int32 m1 ->
  (List.length D mod 8 = 0)%nat ->
  misc.inputToBits (processData.parser_aesKey ps) = Ok ek ->
  List.length ek = 8%nat ->
  misc.inputToBits (processData.parser_macKey ps) = Ok mk ->
  List.length mk = 8%nat ->
  let CT := CBC_encrypt_spec ek [0; 0; 0; 0] q in
  let TAG := CBC_MAC_spec mk CT in
  exists resp,
    processData.parse ps
      {| processData.json_status := Some "9000"%string;
         processData.json_statusdetail := None;
         processData.json_function := Some "ProcessData"%string;
         processData.json_result := Some (H ++ "_")%string |} w
    = (Ok resp,
       mkWorld (entropy w)
         (trace w ++ CBC_events mk [0; 0; 0; 0] (blocks_of CT)
                  ++ List.map (AesDecrypt ek) (blocks_of CT)))
    /\ processData.statusCode resp = Some 0x9000
    /\ canon (processData.plainData resp)
    /\ bits (processData.plainData resp) = P
    /\ canon (processData.protectedData resp)
    /\ bits (processData.protectedData resp) = D
    /\ processData.resp_nonce resp = [m0 - 0x01010101; m1 - 0x01010101]
    /\ processData.resp_mac resp = TAG
    /\ processData.computedMac resp = TAG.
Proof.
  intros Hh Hlen LP Cq Lq Hm Bm HB Bq LU I0 I1 LD Hek Lek Hmk Lmk CT TAG.
  fold CT in HB. fold TAG in HB.
  destruct (ct_tag_canon ek mk q m Lq) as (Ci & Cl & Cc & Cb & Tc & Tb).
  fold CT in Ci, Cl, Cc, Cb, Tc, Tb. fold TAG in Tc, Tb.
  destruct (body_parse H len P (bits CT ++ bits TAG) Hh Hlen LP HB)
    as (X1 & _ & (X2 & X3) & (X4 & X5)).
  destruct (prot_split _ CT TAG X4 Cc Tc X5 Tb) as (Y0 & Y1 & Y2).
  (* the decrypted frame *)
  assert (Qi : Forall int32 q).
  { apply canon_full_int32; [assumption|].
    pose proof (bits_length q (canon_wf _ Cq)) as Lb.
    destruct (wf_full_length q (Z.of_nat m) (canon_wf _ Cq)) as (Ff & _ & _).
    - assert (Ef : forallb fullb q = true).
      { apply wf_aligned_full; [now apply canon_wf|].
        destruct (pkcs7_pad_spec_length
                    (byte_bits 0xf1 ++ U ++ bits [m0; m1] ++ D)) as [P128 _].
        - rewrite !length_app, LU.
          rewrite (bits_full [m0; m1])
            by (apply forallb_int32_full, Forall_cons;
                [assumption | apply Forall_cons; [assumption | apply Forall_nil]]).
          change (List.length (byte_bits 241)) with 8%nat.
          change (List.length (bits32 [m0; m1])) with 64%nat.
          pose proof (Nat.div_mod_eq (List.length D) 8) as Dm. rewrite LD in Dm.
          replace (Z.of_nat (8 + (32 + (64 + List.length D))))
            with ((13 + Z.of_nat (List.length D / 8)) * 8) by lia.
          apply Z.mod_mul. lia.
        - rewrite <- Bq, Lb in P128.
          pose proof (Z.div_mod (bitArray.bitLength q) 128 ltac:(lia)) as Dq.
          rewrite P128 in Dq. rewrite Dq.
          replace (128 * (bitArray.bitLength q / 128) + 0)
            with (4 * (bitArray.bitLength q / 128) * 32) by lia.
          apply Z.mod_mul. lia. }
      rewrite (bitLength_full q Ef), Lq. lia.
    - rewrite (bitLength_full q Ff), Lq.
      replace (32 * Z.of_nat (4 * m)) with (4 * Z.of_nat m * 32) by lia.
      apply Z.mod_mul. lia. }
  pose proof (forallb_int32_full q Qi) as Qf.
  pose proof (bitLength_full q Qf) as Qb. rewrite Lq in Qb.
  pose proof (decrypt_encrypt_spec ek [0; 0; 0; 0] q m Lq) as Dq.
  fold CT in Dq. rewrite (map_ToInt32_id q Qi) in Dq.
  set (X := byte_bits 0xf1 ++ U ++ bits [m0; m1] ++ D) in *.
  assert (LM : List.length (bits [m0; m1]) = 64%nat).
  { rewrite bits_full
      by (apply forallb_int32_full, Forall_cons;
          [assumption | apply Forall_cons; [assumption | apply Forall_nil]]).
    reflexivity. }
  assert (LX : (List.length X mod 8 = 0)%nat).
  { unfold X. rewrite !length_app, LU, LM.
    change (List.length (byte_bits 241)) with 8%nat.
    pose proof (Nat.div_mod_eq (List.length D) 8) as Dm. rewrite LD in Dm.
    replace (8 + (32 + (64 + List.length D)))%nat
      with ((13 + List.length D / 8) * 8)%nat by lia.
    apply Nat.Div0.mod_mul. }
  pose proof (pkcs7_unpad_spec_ok q (canon_wf _ Cq) ltac:(lia)) as Un.
  rewrite Bq, (pkcs7_unpad_pad_spec X LX) in Un.
  destruct Un as (Dd & EDd & WDd & BDd & CDd). specialize (CDd Cq).
  pose proof (bits_length Dd WDd) as LDd.
  rewrite BDd in LDd. unfold X in LDd, BDd.
  rewrite !length_app, LU, LM in LDd.
  change (List.length (byte_bits 241)) with 8%nat in LDd.
  (* the fields of the decrypted frame *)
  assert (E1 : bitArray.extract Dd 0 8 = 0xf1).
  { apply (extract_0_value Dd 8 0xf1 (U ++ bits [m0; m1] ++ D));
      [assumption | lia | split; [lia | reflexivity] | exact BDd]. }
  assert (E2 : bitArray.bitSlice Dd (5 * 8) (Some (5 * 8 + 8 * 8)) = [m0; m1]).
  { change (5 * 8) with 40. change (40 + 8 * 8) with 104.
    apply canon_inj.
    - apply bitSlice_canon; [assumption | lia | lia].
    - apply canon_int32, Forall_cons;
        [assumption | apply Forall_cons; [assumption | apply Forall_nil]].
    - destruct (bitSlice_spec Dd 40 104 WDd ltac:(lia) ltac:(lia)) as [_ B].
      rewrite B, BDd.
      replace (byte_bits 241 ++ U ++ bits [m0; m1] ++ D)
        with ((byte_bits 241 ++ U) ++ bits [m0; m1] ++ D)
        by now rewrite <- app_assoc.
      rewrite skipn_exact by (rewrite length_app, LU; reflexivity).
      now apply firstn_exact. }
  assert (E3 : canon (bitArray.bitSlice Dd (5 * 8 + 8 * 8) None)
               /\ bits (bitArray.bitSlice Dd (5 * 8 + 8 * 8) None) = D).
  { change (5 * 8 + 8 * 8) with 104. split.
    - apply bitSlice_from_canon; [assumption | lia].
    - destruct (bitSlice_from_spec Dd 104 WDd ltac:(lia)) as [_ B].
      rewrite B, BDd.
      replace (byte_bits 241 ++ U ++ bits [m0; m1] ++ D)
        with (((byte_bits 241 ++ U) ++ bits [m0; m1]) ++ D)
        by now rewrite <- !app_assoc.
      apply skipn_exact. rewrite !length_app, LU, LM. reflexivity. }
  (* running the parser *)
  eexists. split.
  { unfold processData.parse, processData.parseCommonHeaders.
    cbn [processData.json_status processData.json_function
         processData.json_statusdetail processData.json_result
         processData.nonempty processData.or_empty andb].
    change (Str.parseInt16 "9000") with (Some 36864).
    match goal with
    | |- bind (lift (Ok ?r)) ?k w = _ => change (bind (lift (Ok r)) k w) with (k r w)
    end.
    cbv beta.
    cbn [processData.isCodeOk processData.statusCode processData.raw_result
         processData.statusDetail processData.function_name].
    change (36864 =? 36864) with true. cbn [negb].
    match goal with
    | |- bind (lift (Ok ?r)) ?k w = _ => change (bind (lift (Ok r)) k w) with (k r w)
    end.
    cbv beta.
    rewrite (response_body H Hh).
    change (2 * 8) with 16. rewrite X1.
    replace (16 + len * 8) with (16 + 8 * len) by lia.
    rewrite (bind_lift _ _ w ek Hek), (bind_lift _ _ w mk Hmk).
    rewrite (bind_lift _ _ w _ (aes_ok ek Lek)), (bind_lift _ _ w _ (aes_ok mk Lmk)).
    change (16 * 8) with 128. rewrite Y1, Y2.
    rewrite and_127, Cb.
    replace (128 * Z.of_nat m) with (Z.of_nat m * 128) by lia.
    rewrite Z.mod_mul by lia. change (0 =? 0) with true. cbv iota.
    rewrite Tb. change (128 =? 128) with true. cbv iota.
    erewrite bind_run
      by (apply (mac_run _ CT m); [apply forallb_int32_full; exact Ci | exact Cl]).
    cbn [sjcl.cipher_key]. fold TAG. rewrite equal_refl. cbv iota.
    erewrite bind_run.
    2:{ rewrite (cbc_decrypt_run _ CT [0; 0; 0; 0] m);
          [| apply forallb_int32_full; exact Ci | exact Cl | exact Hm
           | rewrite Cb; exact Bm | reflexivity].
        cbn [sjcl.cipher_key]. rewrite Dq, EDd. reflexivity. }
    rewrite E1. change (241 =? 241) with true. cbv iota.
    rewrite E2, (bind_lift _ _ _ _ (demangle_two m0 m1 (int32_full m1 I1))).
    unfold ret. cbn [entropy trace]. rewrite <- app_assoc. reflexivity. }
  cbn [processData.statusCode processData.plainData processData.protectedData
       processData.resp_nonce processData.resp_mac processData.computedMac].
  split; [reflexivity|]. split; [exact X2|]. split; [exact X3|].
  split; [apply E3|]. split; [apply E3|]. repeat split; reflexivity.
Qed.

End ParseRun.


(** ** The ProcessData round trip *)

Section RoundTrip.
Context {C : BlockCipher} {L : BlockCipherLaws C}.

(** C1.  With 256-bit keys, a 32-bit object id, an 8-byte nonce, plain
    data of less than [2^16] bytes and byte-aligned user data, the
    request built by [build], sent through the loopback and parsed by
    [parse] under the same keys gives a response whose [protectedData]
    holds the bits of the user data (and is that very bitArray when it
    is canonical) and whose demangled nonce holds the bits of the
    request nonce. *)
Theorem process_data_round_trip (this : processData.builder)
    plainData userData w nb uoid ek mk :
  processData.truthy (processData.nonce this) = true ->
  misc.inputToBits (processData.nonce this) = Ok nb ->
  wf nb -> bitArray.bitLength nb = 64 ->
  misc.inputToHexNum (processData.userObjectId this) = Ok uoid ->
  0 <= uoid < 2 ^ 32 ->
  misc.inputToBits (processData.aesKey this) = Ok ek -> List.length ek = 8%nat ->
  misc.inputToBits (processData.macKey this) = Ok mk -> List.length mk = 8%nat ->
  byte_aligned userData -> bitArray.bitLength userData < 2 ^ 30 ->
  byte_aligned plainData -> byte_length plainData < 2 ^ 16 ->
  exists wire w1 resp w2,
    processData.build this plainData userData w = (Ok wire, w1)
    /\ processData.parse
         {| processData.parser_aesKey := processData.aesKey this;
            processData.parser_macKey := processData.macKey this |}
         (loopback ek mk (processData.reqType this) wire) w1
       = (Ok resp, w2)
    /\ bits (processData.protectedData resp) = bits userData
    /\ (canon userData -> processData.protectedData resp = userData)
    /\ bits (processData.resp_nonce resp) = bits nb
    /\ bitArray.equal (processData.resp_nonce resp) nb = true
    /\ bits (processData.plainData resp) = bits plainData
    /\ processData.statusCode resp = Some 0x9000.
Proof.
  intros Ht Hnb Wnb Lnb Hu Bu Hek Lek Hmk Lmk Hr Lr Hp Lp.
  destruct (build_run this plainData userData w nb uoid ek mk
              Ht Hnb Wnb Lnb Hu Bu Hek Lek Hmk Lmk Hr Lr)
    as (p & m & Wp & Fp & Lenp & Hm & Bp & _ & E).
  cbv zeta in E.
  destruct Hp as [Wpl Apl]. destruct Hr as [Wr Ar].
  pose proof (bitLength_nonneg plainData Wpl) as Npl.
  pose proof (bitLength_nonneg userData Wr) as Nr.
  assert (Hlen : 0 <= byte_length plainData < 2 ^ 16)
    by (split; [apply Z.div_pos; lia | assumption]).
  assert (EX : sprintf.X 4 (JS.trunc_div (bitArray.bitLength plainData) 8)
               = Str.toUpperCase (hexn 4 (byte_length plainData))).
  { unfold JS.trunc_div. rewrite Z.quot_div_nonneg by lia.
    fold (byte_length plainData). now apply sprintf_X4. }
  rewrite EX in E.
  assert (LU : List.length (word_bits 32 uoid) = 32%nat) by apply word_bits_length.
  assert (LN : List.length (bits nb) = 64%nat)
    by (pose proof (bits_length nb Wnb); lia).
  destruct (loopback_spec (processData.reqType this) plainData p m ek mk
              (word_bits 32 uoid) (bits nb) (bits userData)
              (conj Wpl Apl) Lp Wp Fp Lenp Bp LU LN)
    as (q & n0 & n1 & H & EL & Hh & HB & Cq & Lq & I0 & I1 & BN & Bq).
  assert (Bm : 128 * Z.of_nat m < 2 ^ 31).
  { pose proof (bits_length p Wp) as Lb.
    rewrite (bitLength_full p Fp), Lenp in Lb.
    destruct (pkcs7_pad_spec_length
                (byte_bits 0x1f ++ word_bits 32 uoid ++ bits nb ++ bits userData))
      as [_ Rg].
    - rewrite !length_app, LU, LN. change (List.length (byte_bits 31)) with 8%nat.
      pose proof (bits_length userData Wr) as Lbr.
      replace (Z.of_nat (8 + (32 + (64 + List.length (bits userData)))))
        with (bitArray.bitLength userData + 13 * 8) by lia.
      rewrite Z.mod_add by lia. exact Ar.
    - rewrite <- Bp in Rg. rewrite !length_app, LU, LN in Rg.
      change (List.length (byte_bits 31)) with 8%nat in Rg.
      pose proof (bits_length userData Wr) as Lbr.
      zconst. change (2 ^ 30) with 1073741824 in Lr. lia. }
  assert (LD : (List.length (bits userData) mod 8 = 0)%nat).
  { pose proof (bits_length userData Wr) as Lbr.
    apply Nat2Z.inj. rewrite Nat2Z.inj_mod, Lbr. exact Ar. }
  assert (LP : Z.of_nat (List.length (bits plainData)) = 8 * byte_length plainData).
  { rewrite (bits_length plainData Wpl). unfold byte_length.
    pose proof (Z.div_mod (bitArray.bitLength plainData) 8 ltac:(lia)). lia. }
  destruct (parse_run
              {| processData.parser_aesKey := processData.aesKey this;
                 processData.parser_macKey := processData.macKey this |}
              H (byte_length plainData) (bits plainData) q m ek mk
              (word_bits 32 uoid) (mangle_word n0) (mangle_word n1)
              (bits userData)
              (mkWorld (entropy w)
                 (trace w ++ CBC_events ek [0; 0; 0; 0] (blocks_of p)
                  ++ CBC_events mk [0; 0; 0; 0]
                       (blocks_of (CBC_encrypt_spec ek [0; 0; 0; 0] p))))
              Hh Hlen LP Cq Lq Hm Bm HB Bq LU
              (or_int32 _ _) (or_int32 _ _) LD Hek Lek Hmk Lmk)
    as (resp & EP & S1 & S2 & S3 & S4 & S5 & S6 & _).
  destruct (demangled_bits n0 n1 I0 I1) as [Wd Bd].
  eexists _, _, resp, _.
  split; [exact E|]. split; [rewrite EL; exact EP|].
  split; [exact S5|]. split.
  { intros Cu. apply canon_inj; assumption. }
  rewrite S6. split; [now rewrite Bd|].
  split; [|split; [exact S3 | exact S1]].
  apply equal_bits; [assumption | assumption | now rewrite Bd].
Qed.

End RoundTrip.

Lemma process_data_round_trip_witness :
  processData.truthy (processData.nonce sample_builder) = true
  /\ byte_aligned (hex.toBits "1122334455")
  /\ byte_aligned [] /\ byte_length [] < 2 ^ 16
  /\ exists wire w1 resp w2,
       @processData.build xor_cipher sample_builder [] (hex.toBits "1122334455")
         sample_world = (Ok wire, w1)
       /\ @processData.parse xor_cipher
            {| processData.parser_aesKey := processData.aesKey sample_builder;
               processData.parser_macKey := processData.macKey sample_builder |}
            (@loopback xor_cipher [0; 0; 0; 0; 0; 0; 0; 0] [0; 0; 0; 0; 0; 0; 0; 0]
               "PLAINAES" wire) w1
          = (Ok resp, w2)
       /\ processData.protectedData resp = hex.toBits "1122334455"
       /\ bits (processData.resp_nonce resp) = bits [-1431651397; -858989091].
Proof.
  assert (H1 : processData.truthy (processData.nonce sample_builder) = true)
    by reflexivity.
  assert (H2 : byte_aligned []) by (split; reflexivity).
  assert (H3 : byte_length [] < 2 ^ 16) by reflexivity.
  destruct (@process_data_round_trip xor_cipher xor_cipher_laws sample_builder []
              (hex.toBits "1122334455") sample_world
              [-1431651397; -858989091] 0xEE01
              [0; 0; 0; 0; 0; 0; 0; 0] [0; 0; 0; 0; 0; 0; 0; 0]
              H1 sample_nonce_bits eq_refl eq_refl eq_refl sample_uoid_range
              sample_key_bits eq_refl sample_key_bits eq_refl
              sample_request_aligned eq_refl H2 H3)
    as (wire & w1 & resp & w2 & E1 & E2 & _ & E4 & E5 & _).
  refine (conj H1 (conj sample_request_aligned (conj H2 (conj H3 _)))).
  exists wire, w1, resp, w2.
  refine (conj E1 (conj E2 (conj (E4 _) E5))). reflexivity.
Defined.


(** ** The MAC is verified before anything is decrypted *)

Section MacFirst.
Context {C : BlockCipher}.

Lemma decrypt_events a block w :
  exists r es,
    sjcl.decrypt a block w = (r, mkWorld (entropy w) (trace w ++ es))
    /\ forallb is_decrypt es = true.
Proof.
  unfold sjcl.decrypt. destruct (Nat.eqb (List.length block) 4).
  - eexists _, [_]. split; reflexivity.
  - eexists _, []. unfold throw. now rewrite app_nil_r, world_eta.
Qed.

(** The decryption loop logs decryptions only. *)
Lemma cbc_decrypt_loop_events a b n : forall i c out w,
  exists r es,
    cbc_decrypt_loop a b n i c out w = (r, mkWorld (entropy w) (trace w ++ es))
    /\ forallb is_decrypt es = true.
Proof.
  induction n as [|n IH]; intros i c out w.
  - eexists _, []. cbn. now rewrite app_nil_r, world_eta.
  - cbn [cbc_decrypt_loop].
    destruct (decrypt_events a (JS.slice b i (i + 4)) w) as (r & es & E & D).
    destruct r as [x|e].
    + rewrite (bind_run _ _ _ _ _ E).
      destruct (IH (i + 4) (JS.slice b i (i + 4))
                  (out ++ misc.xor c x)
                  (mkWorld (entropy w) (trace w ++ es))) as (r' & es' & E' & D').
      exists r', (es ++ es'). rewrite E'. cbn [entropy trace].
      split; [now rewrite app_assoc | now rewrite List.forallb_app, D, D'].
    + rewrite (bind_throw _ _ _ _ _ E). eauto.
Qed.

Lemma cbc_decrypt_events a b c d noPad w :
  exists r es,
    cbc_decrypt a b c d noPad w = (r, mkWorld (entropy w) (trace w ++ es))
    /\ forallb is_decrypt es = true.
Proof.
  assert (T : forall e, exists r es,
                @throw (list Z) e w = (r, mkWorld (entropy w) (trace w ++ es))
                /\ forallb is_decrypt es = true).
  { intros e. eexists _, []. unfold throw. now rewrite app_nil_r, world_eta. }
  unfold cbc_decrypt.
  destruct (Nat.eqb (List.length d) 0); [|apply T].
  destruct (bitArray.bitLength c =? 128); [|apply T].
  destruct (_ && _); [|apply T].
  destruct (cbc_decrypt_loop_events a b
              (Z.to_nat (JS.ceil_div (Z.of_nat (List.length b)) 4)) 0 c [] w)
    as (r & es & E & D).
  destruct r as [o|e].
  - rewrite (bind_run _ _ _ _ _ E).
    destruct noPad; [eexists _, es; split; [reflexivity | exact D]|].
    destruct (negb _); [|eexists _, es; split; [reflexivity | exact D]].
    destruct (bitArray.equal _ _); eexists _, es; (split; [reflexivity | exact D]).
  - rewrite (bind_throw _ _ _ _ _ E). eauto.
Qed.

End MacFirst.


Lemma headers_result data resp0 :
  processData.parseCommonHeaders data = Ok resp0 ->
  processData.raw_result resp0 = processData.json_result data.
Proof.
  unfold processData.parseCommonHeaders.
  destruct (_ && _); [|discriminate]. now intros [= <-].
Qed.

Ltac stop_here :=
  exists (@nil event); split;
  [cbn [snd]; now rewrite app_nil_r, world_eta | left; reflexivity].

Ltac after_mac s mk am computed macs decs Hres Ham Em Dm Eq Dd :=
  exists (macs ++ decs); split;
  [ cbv [throw ret bind lift]; cbn [snd]; rewrite app_assoc; reflexivity
  | right; exists s, mk, am, computed, macs, decs;
    split; [exact Hres|];
    split; [reflexivity|];
    split; [exact Ham|];
    split; [exact Em|];
    split; [exact Dm|];
    split; [exact Eq|];
    split; [reflexivity | exact Dd] ].

Section MacFirstTheorem.
Context {C : BlockCipher}.

(** A tag that differs from the computed MAC stops the parser with
    Corrupt; by then the cipher has only encrypted. *)
Lemma parse_mac_mismatch (ps : processData.parser)
    (data : processData.json) (w : world) resp0 s ek mk a am computed w1 :
  processData.parseCommonHeaders data = Ok resp0 ->
  processData.isCodeOk resp0 = true ->
  processData.raw_result resp0 = Some s ->
  misc.inputToBits (processData.parser_aesKey ps) = Ok ek ->
  misc.inputToBits (processData.parser_macKey ps) = Ok mk ->
  sjcl.aes ek = Ok a -> sjcl.aes mk = Ok am ->
  JS.and (bitArray.bitLength (response_ct s)) 127 = 0 ->
  bitArray.bitLength (response_tag s) = 128 ->
  mac {| _cipher := am; _bs := 16; _padding := padding.empty |}
      (response_ct s) w = (Ok computed, w1) ->
  bitArray.equal (response_tag s) computed = false ->
  processData.parse ps data w
  = (Throw (SjclCorrupt "Padding is not valid"), w1)
  /\ exists macs, w1 = mkWorld (entropy w) (trace w ++ macs)
                  /\ existsb is_decrypt macs = false.
Proof.
  intros E0 Eok Er Hek Hmk Ha Ham H127 H128 Em Eq.
  split.
  - unfold processData.parse.
    rewrite (bind_lift _ _ w resp0 E0), Eok. cbn [negb].
    rewrite Er. rewrite (bind_lift _ _ w s eq_refl).
    rewrite (bind_lift _ _ w ek Hek), (bind_lift _ _ w mk Hmk).
    rewrite (bind_lift _ _ w a Ha), (bind_lift _ _ w am Ham).
    cbv zeta.
    match goal with
    | |- context [mac _ ?d] =>
        assert (Hct : d = response_ct s)
          by (unfold response_ct, response_protected; reflexivity);
        rewrite !Hct
    end.
    match goal with
    | |- context [bitArray.equal ?t _] =>
        assert (Htag : t = response_tag s)
          by (unfold response_tag, response_protected; reflexivity);
        rewrite !Htag
    end.
    rewrite H127. change (0 =? 0) with true. cbv iota.
    rewrite H128. change (128 =? 16 * 8) with true. cbv iota.
    rewrite (bind_run _ _ _ _ _ Em), Eq. reflexivity.
  - destruct (mac_events am (response_ct s) w) as (c' & macs & Em' & Dm).
    rewrite Em in Em'. injection Em' as _ ->. eauto.
Qed.

(** A run of [parse] that decrypts has computed the MAC before, found it
    equal to the tag, and encrypts nothing after the first decryption. *)
Lemma parse_decrypts_after_mac (ps : processData.parser)
    (data : processData.json) (w : world) :
  exists es,
    snd (processData.parse ps data w) = mkWorld (entropy w) (trace w ++ es)
    /\ (existsb is_decrypt es = false
        \/ exists s mk am computed macs decs,
             processData.json_result data = Some s
             /\ misc.inputToBits (processData.parser_macKey ps) = Ok mk
             /\ sjcl.aes mk = Ok am
             /\ mac {| _cipher := am; _bs := 16; _padding := padding.empty |}
                    (response_ct s) w
                = (Ok computed, mkWorld (entropy w) (trace w ++ macs))
             /\ existsb is_decrypt macs = false
             /\ bitArray.equal (response_tag s) computed = true
             /\ es = macs ++ decs
             /\ forallb is_decrypt decs = true).
Proof.
  unfold processData.parse.
  destruct (processData.parseCommonHeaders data) as [resp0|e] eqn:E0;
    [|stop_here].
  rewrite (bind_lift _ _ w resp0 eq_refl).
  pose proof (headers_result data resp0 E0) as Hres.
  destruct (negb (processData.isCodeOk resp0)); [stop_here|].
  destruct (processData.raw_result resp0) as [s|] eqn:Er; [|stop_here].
  rewrite (bind_lift _ _ w s eq_refl).
  destruct (misc.inputToBits (processData.parser_aesKey ps)) as [ek|e] eqn:Hek;
    [|stop_here].
  rewrite (bind_lift _ _ w ek eq_refl).
  destruct (misc.inputToBits (processData.parser_macKey ps)) as [mk|e] eqn:Hmk;
    [|stop_here].
  rewrite (bind_lift _ _ w mk eq_refl).
  destruct (sjcl.aes ek) as [a|e] eqn:Ha; [|stop_here].
  rewrite (bind_lift _ _ w a eq_refl).
  destruct (sjcl.aes mk) as [am|e] eqn:Ham; [|stop_here].
  rewrite (bind_lift _ _ w am eq_refl).
  cbv zeta.
  destruct (JS.and _ 127 =? 0); [|stop_here].
  destruct (bitArray.bitLength _ =? 16 * 8); [|stop_here].
  match goal with
  | |- context [bind (mac ?h ?d) _ w] =>
      destruct (mac_events am d w) as (computed & macs & Em & Dm)
  end.
  rewrite (bind_run _ _ _ _ _ Em).
  destruct (bitArray.equal _ computed) eqn:Eq.
  2:{ exists macs. split; [reflexivity | left; exact Dm]. }
  match goal with
  | |- context [bind (cbc_decrypt ?a ?b ?c ?d ?n) _ ?w1] =>
      destruct (cbc_decrypt_events a b c d n w1) as (r & decs & Ed & Dd)
  end.
  cbn [entropy trace] in Ed.
  symmetry in Hres.
  destruct r as [dd|e].
  + rewrite (bind_run _ _ _ _ _ Ed).
    destruct (bitArray.extract dd 0 8 =? 241);
      [|after_mac s mk am computed macs decs Hres Ham Em Dm Eq Dd].
    destruct (comm.demangleNonce _) as [nn|e] eqn:En;
      after_mac s mk am computed macs decs Hres Ham Em Dm Eq Dd.
  + rewrite (bind_throw _ _ _ _ _ Ed).
    after_mac s mk am computed macs decs Hres Ham Em Dm Eq Dd.
Qed.

(** C3.  [parse] computes the CBC-MAC of [CT] under the MAC key and
    compares it with the trailing 16-byte tag before it decrypts
    anything.  When the comparison fails the parser raises Corrupt and
    the cipher has only been used to encrypt, for the MAC.  Whenever a
    block decryption appears in the trace of a run of [parse], the MAC
    was computed first, it matched the tag, and all its encryptions
    precede the decryptions. *)
Theorem parse_mac_before_decrypt (ps : processData.parser)
    (data : processData.json) (w : world) :
  (forall resp0 s ek mk a am computed w1,
     processData.parseCommonHeaders data = Ok resp0 ->
     processData.isCodeOk resp0 = true ->
     processData.raw_result resp0 = Some s ->
     misc.inputToBits (processData.parser_aesKey ps) = Ok ek ->
     misc.inputToBits (processData.parser_macKey ps) = Ok mk ->
     sjcl.aes ek = Ok a -> sjcl.aes mk = Ok am ->
     JS.and (bitArray.bitLength (response_ct s)) 127 = 0 ->
     bitArray.bitLength (response_tag s) = 128 ->
     mac {| _cipher := am; _bs := 16; _padding := padding.empty |}
         (response_ct s) w = (Ok computed, w1) ->
     bitArray.equal (response_tag s) computed = false ->
     processData.parse ps data w
     = (Throw (SjclCorrupt "Padding is not valid"), w1)
     /\ exists macs, w1 = mkWorld (entropy w) (trace w ++ macs)
                     /\ existsb is_decrypt macs = false)
  /\ exists es,
       snd (processData.parse ps data w) = mkWorld (entropy w) (trace w ++ es)
       /\ (existsb is_decrypt es = false
           \/ exists s mk am computed macs decs,
                processData.json_result data = Some s
                /\ misc.inputToBits (processData.parser_macKey ps) = Ok mk
                /\ sjcl.aes mk = Ok am
                /\ mac {| _cipher := am; _bs := 16; _padding := padding.empty |}
                       (response_ct s) w
                   = (Ok computed, mkWorld (entropy w) (trace w ++ macs))
                /\ existsb is_decrypt macs = false
                /\ bitArray.equal (response_tag s) computed = true
                /\ es = macs ++ decs
                /\ forallb is_decrypt decs = true).
Proof.
  split.
  - intros resp0 s ek mk a am computed w1. apply parse_mac_mismatch.
  - apply parse_decrypts_after_mac.
Qed.

End MacFirstTheorem.

Lemma parse_mac_before_decrypt_witness :
  @processData.parse xor_cipher sample_parser sample_bad_response (mkWorld [] [])
  = (Throw (SjclCorrupt "Padding is not valid"),
     mkWorld [] [AesEncrypt [0; 0; 0; 0; 0; 0; 0; 0]
                   [1122867; 1146447479; -2003195205; -857870593]]).
Proof.
  destruct (@parse_mac_before_decrypt xor_cipher sample_parser sample_bad_response
              (mkWorld [] [])) as [A _].
  refine (proj1 (A _ _ [0; 0; 0; 0; 0; 0; 0; 0] [0; 0; 0; 0; 0; 0; 0; 0]
                   {| sjcl.cipher_key := [0; 0; 0; 0; 0; 0; 0; 0] |}
                   {| sjcl.cipher_key := [0; 0; 0; 0; 0; 0; 0; 0] |}
                   [1122867; 1146447479; -2003195205; -857870593] _
                   eq_refl eq_refl eq_refl eq_refl eq_refl eq_refl eq_refl
                   _ _ _ _));
    vm_compute; reflexivity.
Defined.


(** * Further properties of the code

    ** Reading single bits and bit fields of a bitArray *)

Lemma nth_bits_from n : forall x hi i,
  (i < n)%nat -> nth i (bits_from x hi n) false = Z.testbit x (hi - Z.of_nat i).
Proof.
  induction n as [|n IH]; intros x hi i Hi; [lia|].
  destruct i as [|i]; cbn [bits_from nth].
  - f_equal. lia.
  - rewrite IH by lia. f_equal. lia.
Qed.

Lemma bits32_nth a : forall p,
  0 <= p < 32 * Z.of_nat (List.length a) ->
  nth (Z.to_nat p) (bits32 a) false
  = Z.testbit (nth (Z.to_nat (p / 32)) a 0) (31 - p mod 32).
Proof.
  induction a as [|x r IH]; intros p Hp; [cbn [List.length] in Hp; lia|].
  change (bits32 (x :: r)) with (word_bits 32 x ++ bits32 r).
  destruct (Z_lt_ge_dec p 32) as [Hlt|Hge].
  - rewrite app_nth1 by (rewrite word_bits_length; lia).
    unfold word_bits. rewrite nth_bits_from by lia.
    rewrite Z.div_small, Z.mod_small by lia. cbn [Z.to_nat nth].
    f_equal. lia.
  - rewrite app_nth2 by (rewrite word_bits_length; lia).
    rewrite word_bits_length.
    replace (Z.to_nat p - 32)%nat with (Z.to_nat (p - 32)) by lia.
    cbn [List.length] in Hp.
    rewrite IH by lia.
    replace p with ((p - 32) + 1 * 32) at 3 4 by lia.
    rewrite Z.div_add, Z.mod_add by lia.
    assert (0 <= (p - 32) / 32) by (apply Z.div_pos; lia).
    replace (Z.to_nat ((p - 32) / 32 + 1)) with (S (Z.to_nat ((p - 32) / 32))) by lia.
    reflexivity.
Qed.

(** Bit [p] of a well-formed bitArray sits in word [p / 32], at bit
    [31 - p mod 32] of that word. *)
Lemma bit_testbit a p :
  wf a -> 0 <= p < bitArray.bitLength a ->
  nth (Z.to_nat p) (bits a) false
  = Z.testbit (JS.get a (p / 32)) (31 - p mod 32).
Proof.
  intros W Hp.
  pose proof (bitLength_le a W) as Hle.
  rewrite (bits_prefix a W).
  rewrite nth_firstn.
  destruct (Nat.ltb_spec (Z.to_nat p) (Z.to_nat (bitArray.bitLength a))) as [_|H]; [|lia].
  rewrite bits32_nth by lia.
  unfold JS.get.
  assert (0 <= p / 32) by (apply Z.div_pos; lia).
  destruct (Z.ltb_spec (p / 32) 0); [lia|]. reflexivity.
Qed.

Lemma nth_firstn_skipn {A} (l : list A) d p n i :
  (i < n)%nat -> nth i (firstn n (skipn p l)) d = nth (p + i) l d.
Proof.
  intros Hi. rewrite nth_firstn.
  destruct (Nat.ltb_spec i n); [|lia].
  revert l. induction p as [|p IH]; intros l; [reflexivity|].
  destruct l as [|x l]; cbn [skipn Nat.add nth].
  - now destruct i.
  - apply IH.
Qed.

(** A number whose low [n] bits spell the bits [p .. p + n) of a list. *)
Lemma bits_from_field r (l : list bool) p n :
  (p + n <= List.length l)%nat ->
  (forall k, 0 <= k < Z.of_nat n ->
     Z.testbit r k = nth (p + (n - 1 - Z.to_nat k)) l false) ->
  bits_from r (Z.of_nat n - 1) n = firstn n (skipn p l).
Proof.
  intros Hl H.
  apply (nth_ext _ _ false false).
  - rewrite bits_from_length, length_firstn, length_skipn. lia.
  - intros i Hi. rewrite bits_from_length in Hi.
    rewrite nth_bits_from by assumption.
    rewrite nth_firstn_skipn by assumption.
    rewrite H by lia. f_equal. lia.
Qed.

(** The word-boundary test of [extract] and [extract32]. *)
Lemma cross_test u v :
  0 <= u < 2 ^ 31 -> 0 <= v < 2 ^ 31 ->
  (JS.and (JS.xor u v) (-32) =? 0) = (u / 32 =? v / 32).
Proof.
  intros Hu Hv. apply bool_eq_iff. rewrite !Z.eqb_eq. split.
  - intros H.
    change 32 with (2 ^ 5). rewrite <- !Z.shiftr_div_pow2 by lia.
    apply Z.bits_inj'. intros n Hn.
    rewrite !Z.shiftr_spec by lia.
    destruct (Z_lt_ge_dec (n + 5) 31) as [Hlt|Hge].
    + assert (T : Z.testbit (JS.and (JS.xor u v) (-32)) (n + 5) = false)
        by (rewrite H; apply Z.bits_0).
      rewrite tb_and, tb_xor in T by lia.
      assert (M : Z.testbit (-32) (n + 5) = true).
      { change (-32) with (Z.lnot 31). rewrite Z.lnot_spec by lia.
        change 31 with (Z.ones 5). rewrite Z.ones_spec_high by lia. reflexivity. }
      rewrite M, andb_true_r in T.
      destruct (Z.testbit u (n + 5)), (Z.testbit v (n + 5)); cbn in T; congruence.
    + rewrite !(Z.bits_above_log2) ; try reflexivity; try lia.
      * destruct (Z.eq_dec v 0) as [->|]; [cbn; lia|].
        apply Z.lt_le_trans with 31; [|lia]. apply Z.log2_lt_pow2; lia.
      * destruct (Z.eq_dec u 0) as [->|]; [cbn; lia|].
        apply Z.lt_le_trans with 31; [|lia]. apply Z.log2_lt_pow2; lia.
  - intros H.
    apply int32_ext; [apply and_int32 | unfold int32; lia |].
    intros k Hk. rewrite Z.bits_0, tb_and, tb_xor by lia.
    destruct (Z_lt_ge_dec k 5) as [Hlt|Hge].
    + change (-32) with (Z.lnot 31). rewrite Z.lnot_spec by lia.
      change 31 with (Z.ones 5). rewrite Z.ones_spec_low by lia.
      apply andb_false_r.
    + assert (E : Z.testbit u k = Z.testbit v k).
      { replace k with ((k - 5) + 5) by lia.
        rewrite <- !Z.shiftr_spec by lia.
        rewrite !Z.shiftr_div_pow2 by lia. change (2 ^ 5) with 32.
        now rewrite H. }
      rewrite E, xorb_nilpotent. reflexivity.
Qed.

Lemma shl_1 len : 0 <= len <= 30 -> JS.shl 1 len = 2 ^ len.
Proof.
  intros H. rewrite shl_small.
  - lia.
  - lia.
  - unfold int32; lia.
  - unfold int32. rewrite Z.mul_1_l.
    assert (2 ^ len <= 2 ^ 30) by (apply Z.pow_le_mono_r; lia).
    assert (0 < 2 ^ len) by (apply Z.pow_pos_nonneg; lia). lia.
Qed.

(** [extract] on a well-formed bitArray: the number spelled by the
    [len] bits from position [p]. *)
Lemma extract_field a p len :
  wf a -> 1 <= len <= 30 -> 0 <= p ->
  p + len <= bitArray.bitLength a -> bitArray.bitLength a < 2 ^ 31 ->
  0 <= bitArray.extract a p len < 2 ^ len
  /\ bits_from (bitArray.extract a p len) (len - 1) (Z.to_nat len)
     = firstn (Z.to_nat len) (skipn (Z.to_nat p) (bits a)).
Proof.
  intros W Hlen Hp Hb Hbl.
  unfold bitArray.extract.
  rewrite shl_1 by lia. rewrite and_ones by lia.
  rewrite and_31.
  rewrite cross_test by lia.
  unfold JS.trunc_div. rewrite Z.quot_div_nonneg by lia.
  set (X := if negb ((p + len - 1) / 32 =? p / 32)
            then JS.xor (JS.shl (JS.get a (p / 32)) (32 - (- p - len) mod 32))
                        (JS.shr (JS.get a (p / 32 + 1)) ((- p - len) mod 32))
            else JS.shr (JS.get a (p / 32)) ((- p - len) mod 32)).
  split; [apply Z.mod_pos_bound; apply Z.pow_pos_nonneg; lia|].
  replace (len - 1) with (Z.of_nat (Z.to_nat len) - 1) by lia.
  apply bits_from_field.
  - pose proof (bits_length a W). lia.
  - intros k Hk.
    rewrite Z.mod_pow2_bits_low by lia.
    replace (Z.to_nat p + (Z.to_nat len - 1 - Z.to_nat k))%nat
      with (Z.to_nat (p + (len - 1 - k))) by lia.
    rewrite bit_testbit by (auto; lia).
    subst X.
    pose proof (Z.mod_pos_bound (- p - len) 32 ltac:(lia)) as Hsh.
    destruct (Z.eqb_spec ((p + len - 1) / 32) (p / 32)) as [E|E]; cbn [negb].
    + rewrite tb_shr by lia.
      assert (A1 : (p + (len - 1 - k)) / 32 = p / 32)
        by (Z.div_mod_to_equations; lia).
      assert (A2 : k + (- p - len) mod 32 = 31 - (p + (len - 1 - k)) mod 32)
        by (Z.div_mod_to_equations; lia).
      rewrite A1, A2.
      destruct (Z.ltb_spec (31 - (p + (len - 1 - k)) mod 32) 32) as [_|F];
        [reflexivity|].
      pose proof (Z.mod_pos_bound (p + (len - 1 - k)) 32 ltac:(lia)). lia.
    + assert (B0 : 0 <= 32 - (- p - len) mod 32 < 32)
        by (Z.div_mod_to_equations; lia).
      rewrite tb_xor, tb_shl, tb_shr by lia.
      destruct (Z.leb_spec (32 - (- p - len) mod 32) k) as [G|G].
      * destruct (Z.ltb_spec (k + (- p - len) mod 32) 32) as [F|_]; [lia|].
        rewrite xorb_false_r.
        assert (A1 : (p + (len - 1 - k)) / 32 = p / 32)
          by (Z.div_mod_to_equations; lia).
        assert (A2 : k - (32 - (- p - len) mod 32) = 31 - (p + (len - 1 - k)) mod 32)
          by (Z.div_mod_to_equations; lia).
        now rewrite A1, A2.
      * destruct (Z.ltb_spec (k + (- p - len) mod 32) 32) as [_|F]; [|lia].
        rewrite xorb_false_l.
        assert (A1 : (p + (len - 1 - k)) / 32 = p / 32 + 1)
          by (Z.div_mod_to_equations; lia).
        assert (A2 : k + (- p - len) mod 32 = 31 - (p + (len - 1 - k)) mod 32)
          by (Z.div_mod_to_equations; lia).
        now rewrite A1, A2.
Qed.

(** The value read by [extract]. *)
Lemma extract_value a p len :
  wf a -> 1 <= len <= 30 -> 0 <= p ->
  p + len <= bitArray.bitLength a -> bitArray.bitLength a < 2 ^ 31 ->
  bitArray.extract a p len
  = bits_value (firstn (Z.to_nat len) (skipn (Z.to_nat p) (bits a))).
Proof.
  intros W Hlen Hp Hb Hbl.
  destruct (extract_field a p len W Hlen Hp Hb Hbl) as [R B].
  rewrite <- B, bits_value_bits_from by lia.
  replace (len - 1 - Z.of_nat (Z.to_nat len) + 1) with 0 by lia.
  rewrite Z.pow_0_r, Z.div_1_r, Z2Nat.id by lia.
  symmetry. now apply Z.mod_small.
Qed.


(** ** Numbers in bitArrays: [extract32] and the 64-bit codec *)

Lemma ToInt32_mod32 x : JS.ToInt32 (x mod 2 ^ 32) = JS.ToInt32 x.
Proof.
  apply ToInt32_ext. intros k Hk.
  now rewrite Z.mod_pow2_bits_low by lia.
Qed.

Lemma bits_value_word x : bits_value (word_bits 32 x) = x mod 2 ^ 32.
Proof.
  unfold word_bits. rewrite bits_value_bits_from by (cbn; lia).
  cbn [Z.of_nat Pos.of_succ_nat Pos.succ]. now rewrite Z.div_1_r.
Qed.

(** The bits and the range of the number returned by [extract32]. *)
Lemma extract32_field a p :
  wf a -> 0 <= p -> p + 32 <= bitArray.bitLength a ->
  bitArray.bitLength a < 2 ^ 31 ->
  word_bits 32 (bitArray.extract32 a p)
  = firstn 32 (skipn (Z.to_nat p) (bits a))
  /\ (p mod 32 = 0 -> 0 <= bitArray.extract32 a p < 2 ^ 32)
  /\ (p mod 32 <> 0 -> int32 (bitArray.extract32 a p)).
Proof.
  intros W Hp Hb Hbl.
  unfold bitArray.extract32.
  rewrite and_31, cross_test by lia.
  unfold JS.trunc_div. rewrite Z.quot_div_nonneg by lia.
  pose proof (Z.mod_pos_bound (- p - 32) 32 ltac:(lia)) as Hsh.
  split; [|split].
  - unfold word_bits. change 31 with (Z.of_nat 32 - 1).
    apply bits_from_field.
    + pose proof (bits_length a W). lia.
    + intros k Hk.
      replace (Z.to_nat p + (32 - 1 - Z.to_nat k))%nat
        with (Z.to_nat (p + (31 - k))) by lia.
      rewrite bit_testbit by (auto; lia).
      destruct (Z.eqb_spec ((p + 32 - 1) / 32) (p / 32)) as [E|E]; cbn [negb].
      * rewrite tb_shr by lia.
        assert (A0 : (- p - 32) mod 32 = 0) by (Z.div_mod_to_equations; lia).
        assert (A1 : (p + (31 - k)) / 32 = p / 32)
          by (Z.div_mod_to_equations; lia).
        assert (A2 : k = 31 - (p + (31 - k)) mod 32)
          by (Z.div_mod_to_equations; lia).
        rewrite A0, A1, Z.add_0_r.
        destruct (Z.ltb_spec k 32); [|lia].
        now rewrite <- A2.
      * assert (B0 : 0 < 32 - (- p - 32) mod 32 < 32)
          by (Z.div_mod_to_equations; lia).
        rewrite tb_xor, tb_shl, tb_shr by lia.
        destruct (Z.leb_spec (32 - (- p - 32) mod 32) k) as [G|G].
        -- destruct (Z.ltb_spec (k + (- p - 32) mod 32) 32) as [F|_]; [lia|].
           rewrite xorb_false_r.
           assert (A1 : (p + (31 - k)) / 32 = p / 32)
             by (Z.div_mod_to_equations; lia).
           assert (A2 : k - (32 - (- p - 32) mod 32) = 31 - (p + (31 - k)) mod 32)
             by (Z.div_mod_to_equations; lia).
           now rewrite A1, A2.
        -- destruct (Z.ltb_spec (k + (- p - 32) mod 32) 32) as [_|F]; [|lia].
           rewrite xorb_false_l.
           assert (A1 : (p + (31 - k)) / 32 = p / 32 + 1)
             by (Z.div_mod_to_equations; lia).
           assert (A2 : k + (- p - 32) mod 32 = 31 - (p + (31 - k)) mod 32)
             by (Z.div_mod_to_equations; lia).
           now rewrite A1, A2.
  - intros Hal.
    destruct (Z.eqb_spec ((p + 32 - 1) / 32) (p / 32)) as [E|E]; cbn [negb].
    + apply ToUint32_range.
    + exfalso. apply E. Z.div_mod_to_equations. lia.
  - intros Hal.
    destruct (Z.eqb_spec ((p + 32 - 1) / 32) (p / 32)) as [E|E]; cbn [negb].
    + exfalso. Z.div_mod_to_equations. lia.
    + apply xor_int32.
Qed.

(** X1.  [sjcl.bitArray.extract32(a, bstart)] returns the 32 bits of [a]
    from position [bstart] read as a big-endian number: as an unsigned
    number when [bstart] is a multiple of 32 (the word is shifted by
    [>>> 0]), and as a signed 32-bit number otherwise (the two halves
    are joined by [^]). *)
Theorem extract32_reads_word a bstart :
  wf a -> 0 <= bstart -> bstart + 32 <= bitArray.bitLength a ->
  bitArray.bitLength a < 2 ^ 31 ->
  let v := bits_value (firstn 32 (skipn (Z.to_nat bstart) (bits a))) in
  bitArray.extract32 a bstart
  = if bstart mod 32 =? 0 then v else JS.ToInt32 v.
Proof.
  intros W Hp Hb Hbl v.
  destruct (extract32_field a bstart W Hp Hb Hbl) as (B & Ru & Rs).
  assert (V : v = bitArray.extract32 a bstart mod 2 ^ 32).
  { subst v. rewrite <- B. apply bits_value_word. }
  destruct (Z.eqb_spec (bstart mod 32) 0) as [E|E].
  - rewrite V. symmetry. apply Z.mod_small. now apply Ru.
  - rewrite V, ToInt32_mod32. symmetry. apply ToInt32_id. now apply Rs.
Qed.

(** [extract32_reads_word] on the three words [80000001 ffffffff
    00000000]: at offsets 0 and 32 a whole word is read as an unsigned
    number, at offset 40 the bytes [ff ff ff 00] are read as the signed
    number [-256]. *)
Lemma extract32_reads_word_witness :
  let a := [-2147483647; -1; 0] in
  wf a /\ bitArray.bitLength a < 2 ^ 31
  /\ bitArray.extract32 a 0 = 2147483649
  /\ bitArray.extract32 a 32 = 4294967295
  /\ bitArray.extract32 a 40 = -256.
Proof.
  intros a.
  assert (W : wf a) by reflexivity.
  assert (L : bitArray.bitLength a < 2 ^ 31) by reflexivity.
  split; [exact W|]. split; [exact L|].
  split; [|split].
  - rewrite (extract32_reads_word a 0 W); [reflexivity | lia | cbn; lia | exact L].
  - rewrite (extract32_reads_word a 32 W); [reflexivity | lia | cbn; lia | exact L].
  - rewrite (extract32_reads_word a 40 W); [reflexivity | lia | cbn; lia | exact L].
Defined.

Lemma bits_value_app l1 l2 :
  bits_value (l1 ++ l2)
  = bits_value l1 * 2 ^ Z.of_nat (List.length l2) + bits_value l2.
Proof.
  induction l2 as [|b l2 IH] using rev_ind.
  - rewrite app_nil_r. cbn. lia.
  - rewrite app_assoc, !bits_value_snoc, IH, length_app.
    cbn [List.length]. rewrite Nat2Z.inj_add, Z.pow_add_r by lia.
    change (2 ^ Z.of_nat 1) with 2. lia.
Qed.

Lemma bits_value_range l : 0 <= bits_value l < 2 ^ Z.of_nat (List.length l).
Proof.
  induction l as [|b l IH] using rev_ind.
  - cbn. lia.
  - rewrite bits_value_snoc, length_app. cbn [List.length].
    rewrite Nat2Z.inj_add, Z.pow_add_r by lia.
    change (2 ^ Z.of_nat 1) with 2. destruct b; lia.
Qed.

Lemma firstn_skipn_split {A} (l : list A) p n m :
  firstn (n + m) (skipn p l)
  = firstn n (skipn p l) ++ firstn m (skipn (p + n) l).
Proof.
  rewrite <- (firstn_skipn n (skipn p l)) at 1.
  rewrite skipn_skipn, (Nat.add_comm n p).
  destruct (Nat.le_gt_cases n (List.length (skipn p l))) as [H|H].
  - rewrite firstn_app, firstn_firstn, length_firstn.
    replace (Nat.min (n + m) n) with n by lia.
    replace (n + m - Nat.min n (List.length (skipn p l)))%nat with m by lia.
    reflexivity.
  - rewrite length_skipn in H.
    rewrite (skipn_all2 (n := p + n)) by lia.
    rewrite firstn_nil, app_nil_r.
    apply firstn_all2. rewrite length_firstn. lia.
Qed.

(** A 32-bit field read by [extract32], with the correction
    [lo + (lo < 0 ? 0x100000000 : 0)] applied, is the unsigned number
    held by the field. *)
Lemma extract32_unsigned a p :
  wf a -> 0 <= p -> p + 32 <= bitArray.bitLength a ->
  bitArray.bitLength a < 2 ^ 31 ->
  let lo := bitArray.extract32 a p in
  lo + (if lo <? 0 then 0x100000000 else 0)
  = bits_value (firstn 32 (skipn (Z.to_nat p) (bits a))).
Proof.
  intros W Hp Hb Hbl lo.
  destruct (extract32_field a p W Hp Hb Hbl) as (B & Ru & Rs).
  rewrite <- B, bits_value_word. fold lo.
  destruct (Z.eq_dec (p mod 32) 0) as [E|E].
  - specialize (Ru E). fold lo in Ru.
    destruct (Z.ltb_spec lo 0); [lia|].
    rewrite Z.mod_small by lia. lia.
  - specialize (Rs E). fold lo in Rs. unfold int32 in Rs.
    destruct (Z.ltb_spec lo 0).
    + apply Z.mod_unique with (q := -1); lia.
    + rewrite Z.mod_small by lia. lia.
Qed.

(** X2.  [eb.misc.deserialize64bit(arr, offset)] returns the 64 bits of
    [arr] from bit position [offset], at any alignment, read as a
    big-endian number, as long as that number is a safe integer (below
    [2^53]). *)
Theorem deserialize64bit_reads_number arr offset :
  wf arr -> 0 <= offset -> offset + 64 <= bitArray.bitLength arr ->
  bitArray.bitLength arr < 2 ^ 31 ->
  let v := bits_value (firstn 64 (skipn (Z.to_nat offset) (bits arr))) in
  v < 2 ^ 53 ->
  misc.deserialize64bit arr (Some offset) = v.
Proof.
  intros W Hp Hb Hbl v Hv.
  unfold misc.deserialize64bit.
  pose proof (extract32_unsigned arr (offset + 32) W ltac:(lia) ltac:(lia) Hbl) as Lo.
  cbv zeta in Lo.
  destruct (extract32_field arr offset W Hp ltac:(lia) Hbl) as (B & Ru & Rs).
  assert (S : v = bits_value (firstn 32 (skipn (Z.to_nat offset) (bits arr))) * 2 ^ 32
                  + bits_value (firstn 32 (skipn (Z.to_nat (offset + 32)) (bits arr)))).
  { subst v. change 64%nat with (32 + 32)%nat.
    rewrite firstn_skipn_split, bits_value_app.
    replace (Z.to_nat offset + 32)%nat with (Z.to_nat (offset + 32)) by lia.
    f_equal. f_equal.
    pose proof (bits_length arr W) as Lb.
    rewrite length_firstn, length_skipn.
    replace (Nat.min 32 (List.length (bits arr) - Z.to_nat (offset + 32))) with 32%nat by lia.
    reflexivity. }
  pose proof (bits_value_range (firstn 32 (skipn (Z.to_nat (offset + 32)) (bits arr)))) as R2.
  pose proof (bits_value_range (firstn 32 (skipn (Z.to_nat offset) (bits arr)))) as R1.
  assert (Hhi : bits_value (firstn 32 (skipn (Z.to_nat offset) (bits arr))) < 2 ^ 21).
  { change (2 ^ 53) with (2 ^ 21 * 2 ^ 32) in Hv.
    destruct R2 as [R2 _]. nia. }
  assert (Ehi : bitArray.extract32 arr offset
                = bits_value (firstn 32 (skipn (Z.to_nat offset) (bits arr)))).
  { rewrite <- B, bits_value_word.
    destruct (Z.eq_dec (offset mod 32) 0) as [E|E].
    - specialize (Ru E). symmetry. apply Z.mod_small. exact Ru.
    - specialize (Rs E). unfold int32 in Rs.
      assert (M : 0 <= bitArray.extract32 arr offset mod 2 ^ 32 < 2 ^ 21).
      { rewrite <- bits_value_word, B. lia. }
      destruct (Z_lt_ge_dec (bitArray.extract32 arr offset) 0) as [N|N].
      + exfalso.
        assert (bitArray.extract32 arr offset mod 2 ^ 32
                = bitArray.extract32 arr offset + 2 ^ 32)
          by (symmetry; apply Z.mod_unique with (q := -1); lia).
        change (2 ^ 21) with 2097152 in *. change (2 ^ 32) with 4294967296 in *.
        change (2 ^ 31) with 2147483648 in *. lia.
      + symmetry. apply Z.mod_small. lia. }
  rewrite Ehi, S.
  change 0x100000000 with (2 ^ 32) in *. lia.
Qed.

(** [deserialize64bit_reads_number] on the bytes [aa 00 00 00 01 00 00
    00 02 bb]: the number [0x0000000100000002 = 4294967298] sits at bit
    offset 8. *)
Lemma deserialize64bit_reads_number_witness :
  let arr := hex.toBits "aa0000000100000002bb" in
  wf arr /\ bitArray.bitLength arr = 80
  /\ misc.deserialize64bit arr (Some 8) = 4294967298.
Proof.
  intros arr.
  assert (W : wf arr) by reflexivity.
  assert (L : bitArray.bitLength arr = 80) by reflexivity.
  split; [exact W|]. split; [exact L|].
  rewrite (deserialize64bit_reads_number arr 8 W).
  - reflexivity.
  - lia.
  - rewrite L. lia.
  - rewrite L. lia.
  - vm_compute. reflexivity.
Defined.

(** X3.  For a safe non-negative integer [num],
    [deserialize64bit(serialize64bit(num))] is [num], and the
    serialized form is a canonical bitArray of 64 bits. *)
Theorem serialize64bit_round_trip num :
  0 <= num < 2 ^ 53 ->
  misc.deserialize64bit (misc.serialize64bit num) None = num
  /\ canon (misc.serialize64bit num)
  /\ bitArray.bitLength (misc.serialize64bit num) = 64.
Proof.
  intros Hn.
  assert (Hhi : 0 <= num / 2 ^ 32 < 2 ^ 21).
  { split; [apply Z.div_pos; lia|].
    apply Z.div_lt_upper_bound; [lia|]. change (2 ^ 32 * 2 ^ 21) with (2 ^ 53). lia. }
  assert (I : Forall int32 (misc.serialize64bit num)).
  { unfold misc.serialize64bit. change 0x100000000 with (2 ^ 32).
    apply Forall_cons; [unfold int32; change (2 ^ 21) with 2097152 in Hhi;
                        change (2 ^ 31) with 2147483648; lia|].
    apply Forall_cons; [apply or_int32 | apply Forall_nil]. }
  split; [|split].
  - unfold misc.deserialize64bit, misc.serialize64bit, bitArray.extract32.
    change (JS.and (- 0 - 32) 31) with 0.
    change (JS.and (- (0 + 32) - 32) 31) with 0.
    change (negb (JS.and (JS.xor (0 + 32 - 1) 0) (-32) =? 0)) with false.
    change (negb (JS.and (JS.xor (0 + 32 + 32 - 1) (0 + 32)) (-32) =? 0)) with false.
    cbv iota.
    change (JS.trunc_div 0 32) with 0. change (JS.trunc_div (0 + 32) 32) with 1.
    change 0x100000000 with (2 ^ 32).
    change (JS.get [num / 2 ^ 32; JS.or num 0] 0) with (num / 2 ^ 32).
    change (JS.get [num / 2 ^ 32; JS.or num 0] 1) with (JS.or num 0).
    unfold JS.shr. change (0 mod 32) with 0. rewrite !Z.shiftr_0_r.
    unfold JS.ToUint32. rewrite !Zmod_mod.
    rewrite or_0_r, ToInt32_mod.
    rewrite (Z.mod_small (num / 2 ^ 32)) by (change (2 ^ 21) with 2097152 in Hhi;
                                               change (2 ^ 32) with 4294967296 in *; lia).
    pose proof (Z.mod_pos_bound num (2 ^ 32) ltac:(lia)).
    destruct (Z.ltb_spec (num mod 2 ^ 32) 0); [lia|].
    pose proof (Z.div_mod num (2 ^ 32) ltac:(lia)). lia.
  - now apply canon_int32.
  - rewrite bitLength_full by now apply forallb_int32_full. reflexivity.
Qed.

(** [serialize64bit_round_trip] at [2^32 + 2]. *)
Lemma serialize64bit_round_trip_witness :
  0 <= 4294967298 < 2 ^ 53
  /\ misc.serialize64bit 4294967298 = [1; 2]
  /\ misc.deserialize64bit (misc.serialize64bit 4294967298) None = 4294967298.
Proof.
  assert (H : 0 <= 4294967298 < 2 ^ 53) by (cbn; lia).
  split; [exact H|]. split; [reflexivity|].
  exact (proj1 (serialize64bit_round_trip 4294967298 H)).
Defined.


(** ** Bit vectors made by [eb.misc] *)

Lemma bits32_repeat_0 k : bits32 (List.repeat 0 k) = List.repeat false (32 * k).
Proof.
  induction k as [|k IH]; [reflexivity|].
  cbn [List.repeat]. change (bits32 (0 :: List.repeat 0 k))
    with (word_bits 32 0 ++ bits32 (List.repeat 0 k)).
  rewrite IH. replace (32 * S k)%nat with (32 + 32 * k)%nat by lia.
  rewrite repeat_app. reflexivity.
Qed.

Lemma forallb_fullb_repeat_0 k : forallb fullb (List.repeat 0 k) = true.
Proof. induction k as [|k IH]; [reflexivity|]. cbn [List.repeat forallb]. now rewrite IH. Qed.

Lemma firstn_repeat {A} (x : A) n m :
  (n <= m)%nat -> firstn n (List.repeat x m) = List.repeat x n.
Proof.
  revert m. induction n as [|n IH]; intros m H; [reflexivity|].
  destruct m as [|m]; [lia|]. cbn [List.repeat firstn]. f_equal. apply IH. lia.
Qed.

(** X4.  [eb.misc.numberToBits(num, bitSize)] returns a bitArray of
    exactly [bitSize] bits holding the [bitSize] low bits of [num], so
    the number it spells is [num mod 2^bitSize]; a size above 32 is
    refused. *)
Theorem numberToBits_low_bits num bitSize :
  fullb num = true -> 0 <= bitSize ->
  if 32 <? bitSize
  then misc.numberToBits num bitSize
       = Throw (EbInvalid "num can be maximally 32bit wide")
  else exists r,
      misc.numberToBits num bitSize = Ok r
      /\ wf r
      /\ bitArray.bitLength r = bitSize
      /\ bits r = bits_from num (bitSize - 1) (Z.to_nat bitSize)
      /\ bits_value (bits r) = num mod 2 ^ bitSize.
Proof.
  intros Hf Hs. unfold misc.numberToBits.
  destruct (Z.ltb_spec 32 bitSize) as [Hgt|Hle]; cbn [negb]; [reflexivity|].
  assert (W1 : wf [num]) by (apply wf_full; cbn [forallb]; now rewrite Hf).
  assert (V : bits_value (bits_from num (bitSize - 1) (Z.to_nat bitSize))
              = num mod 2 ^ bitSize).
  { rewrite bits_value_bits_from by lia.
    replace (bitSize - 1 - Z.of_nat (Z.to_nat bitSize) + 1) with 0 by lia.
    now rewrite Z.pow_0_r, Z.div_1_r, Z2Nat.id by lia. }
  destruct (Z.eqb_spec bitSize 32) as [->|Hne].
  - exists [num]. split; [reflexivity|]. split; [exact W1|].
    split; [rewrite bitLength_full by (cbn [forallb]; now rewrite Hf); reflexivity|].
    assert (B : bits [num] = bits_from num (32 - 1) (Z.to_nat 32))
      by now rewrite bits_single_full.
    split; [exact B|]. rewrite B. exact V.
  - assert (L1 : bitArray.bitLength [num] = 32)
      by (rewrite bitLength_full by (cbn [forallb]; now rewrite Hf); reflexivity).
    destruct (bitSlice_spec [num] (32 - bitSize) 32 W1 ltac:(lia) ltac:(lia))
      as [Wr Br].
    assert (B : bits (bitArray.bitSlice [num] (32 - bitSize) (Some 32))
                = bits_from num (bitSize - 1) (Z.to_nat bitSize)).
    { rewrite Br, bits_single_full by assumption. unfold word_bits.
      rewrite skipn_bits_from by lia.
      replace (32 - Z.to_nat (32 - bitSize))%nat with (Z.to_nat bitSize) by lia.
      replace (Z.to_nat (32 - (32 - bitSize))) with (Z.to_nat bitSize) by lia.
      rewrite firstn_all2 by (rewrite bits_from_length; lia).
      f_equal. lia. }
    eexists. split; [reflexivity|]. split; [exact Wr|].
    split; [|split; [exact B | rewrite B; exact V]].
    rewrite <- (bits_length _ Wr), B, bits_from_length. lia.
Qed.

(** [numberToBits_low_bits] at [0x1234] and 12 bits: the result holds
    [0x234]. *)
Lemma numberToBits_low_bits_witness :
  fullb 0x1234 = true /\ 0 <= 12
  /\ exists r, misc.numberToBits 0x1234 12 = Ok r
               /\ bitArray.bitLength r = 12
               /\ bits_value (bits r) = 0x234.
Proof.
  assert (H1 : fullb 0x1234 = true) by reflexivity.
  assert (H2 : 0 <= 12) by lia.
  split; [exact H1|]. split; [exact H2|].
  pose proof (numberToBits_low_bits 0x1234 12 H1 H2) as T.
  change (32 <? 12) with false in T. cbv iota in T.
  destruct T as (r & E & _ & L & _ & V).
  exists r. split; [exact E|]. split; [exact L|]. rewrite V. reflexivity.
Defined.

(** X5.  [eb.misc.getZeroBits(bitLength)] is a well-formed bitArray of
    exactly [bitLength] bits, all of them zero; for a length that is
    not positive it is empty. *)
Theorem getZeroBits_all_zero bitLength :
  wf (misc.getZeroBits bitLength)
  /\ bits (misc.getZeroBits bitLength) = List.repeat false (Z.to_nat bitLength)
  /\ bitArray.bitLength (misc.getZeroBits bitLength) = Z.max 0 bitLength.
Proof.
  unfold misc.getZeroBits.
  destruct (Z.leb_spec bitLength 0) as [Hle|Hgt].
  - replace (Z.to_nat bitLength) with 0%nat by lia.
    repeat split. cbn. lia.
  - set (extra := if 256 <? bitLength
                  then JS.ceil_div (bitLength - 256) 32 else 0).
    assert (He : 0 <= extra /\ bitLength <= 32 * (8 + extra)).
    { subst extra. destruct (Z.ltb_spec 256 bitLength) as [H|H]; [|lia].
      rewrite ceil_div_32 by lia.
      destruct (Z.eqb_spec ((bitLength - 256) mod 32) 0);
        Z.div_mod_to_equations; lia. }
    set (k := (8 + Z.to_nat extra)%nat).
    assert (F : forallb fullb (List.repeat 0 k) = true) by apply forallb_fullb_repeat_0.
    assert (L : bitArray.bitLength (List.repeat 0 k) = 32 * Z.of_nat k)
      by (rewrite bitLength_full by exact F; now rewrite repeat_length).
    destruct (bitSlice_spec (List.repeat 0 k) 0 bitLength (wf_full _ F))
      as [W B]; [lia | subst k; lia |].
    assert (B' : bits (bitArray.bitSlice (List.repeat 0 k) 0 (Some bitLength))
                 = List.repeat false (Z.to_nat bitLength)).
    { rewrite B, bits_full, bits32_repeat_0 by exact F.
      cbn [Z.to_nat skipn]. rewrite Z.sub_0_r.
      apply firstn_repeat. subst k. lia. }
    split; [exact W|]. split; [exact B'|].
    rewrite <- (bits_length _ W), B', repeat_length. lia.
Qed.

Lemma bits32_map_ToInt32 a : bits32 (List.map JS.ToInt32 a) = bits32 a.
Proof.
  induction a as [|x r IH]; [reflexivity|].
  cbn [List.map]. change (bits32 (JS.ToInt32 x :: List.map JS.ToInt32 r))
    with (word_bits 32 (JS.ToInt32 x) ++ bits32 (List.map JS.ToInt32 r)).
  rewrite IH, word_bits_ToInt32 by lia. reflexivity.
Qed.

Lemma map_or_0 a : List.map (fun x => JS.or x 0) a = List.map JS.ToInt32 a.
Proof. apply map_ext. intros x. apply or_0_r. Qed.

(** X6.  [eb.misc.getRandomBits(bitLength)] consumes
    [ceil(bitLength / 32)] words of the generator and returns their
    first [bitLength] bits as a canonical bitArray of that length; when
    the generator cannot deliver that many words the call fails with
    [notReady] and nothing is consumed. *)
Theorem getRandomBits_draws bitLength w :
  0 <= bitLength ->
  let k := Z.to_nat (JS.ceil_div bitLength 32) in
  if Nat.ltb (List.length (entropy w)) k
  then misc.getRandomBits bitLength w = (Throw SjclNotReady, w)
  else exists r,
      misc.getRandomBits bitLength w
      = (Ok r, mkWorld (skipn k (entropy w)) (trace w))
      /\ canon r
      /\ bitArray.bitLength r = bitLength
      /\ bits r = firstn (Z.to_nat bitLength) (bits32 (firstn k (entropy w))).
Proof.
  intros Hn k. unfold misc.getRandomBits, bind, sjcl.randomWords. fold k.
  destruct (Nat.ltb_spec (List.length (entropy w)) k) as [Hlt|Hge]; [reflexivity|].
  unfold ret.
  set (ws := List.map (fun x => JS.or x 0) (firstn k (entropy w))).
  assert (I : Forall int32 ws)
    by (subst ws; rewrite map_or_0; apply map_ToInt32_int32).
  assert (Lw : List.length ws = k)
    by (subst ws; rewrite length_map, length_firstn; lia).
  assert (Hk : bitLength <= 32 * Z.of_nat k).
  { subst k. rewrite ceil_div_32 by lia.
    destruct (Z.eqb_spec (bitLength mod 32) 0);
      Z.div_mod_to_equations; lia. }
  assert (Bl : bitArray.bitLength ws = 32 * Z.of_nat k)
    by (rewrite bitLength_full by (now apply forallb_int32_full); now rewrite Lw).
  destruct (clamp_spec ws bitLength (canon_wf _ (canon_int32 _ I))) as [W B]; [lia|].
  assert (B' : bits (bitArray.clamp ws bitLength)
               = firstn (Z.to_nat bitLength) (bits32 (firstn k (entropy w)))).
  { rewrite B, bits_full by (now apply forallb_int32_full).
    subst ws. now rewrite map_or_0, bits32_map_ToInt32. }
  eexists. split; [reflexivity|].
  split; [apply clamp_canon; [now apply canon_int32 | lia]|].
  split; [|exact B'].
  rewrite <- (bits_length _ W), B', length_firstn, bits32_length, length_firstn.
  lia.
Qed.

(** [getRandomBits_draws] for 40 bits on the sample generator: two
    words are consumed, and the last is cut to its first byte. *)
Lemma getRandomBits_draws_witness :
  0 <= 40
  /\ exists r, misc.getRandomBits 40 sample_world
               = (Ok r, mkWorld (List.repeat 0x01020304 126) [])
               /\ bitArray.bitLength r = 40
               /\ bits r = bits (hex.toBits "0102030401").
Proof.
  assert (H : 0 <= 40) by lia.
  split; [exact H|].
  pose proof (getRandomBits_draws 40 sample_world H) as T.
  cbv zeta in T.
  change (Nat.ltb (List.length (entropy sample_world))
            (Z.to_nat (JS.ceil_div 40 32))) with false in T.
  cbv iota in T.
  destruct T as (r & E & _ & L & B).
  exists r. split; [exact E|]. split; [exact L|]. rewrite B. reflexivity.
Defined.

(** ** Padded lengths *)

(** X7.  [eb.misc.padToBlockSize(x, bs)] is the smallest multiple of
    [bs] that is strictly greater than [x] (a whole block is added to a
    multiple of [bs]), and for [bs = 16] it is the number of bytes that
    [eb.padding.pkcs7.pad] returns for an input of [x] bytes. *)
Theorem padToBlockSize_is_padded_length a :
  byte_aligned a -> bitArray.bitLength a < 2 ^ 31 - 128 ->
  (forall x bs, 0 <= x -> 0 < bs ->
     exists r, misc.padToBlockSize x bs = Some r
               /\ r mod bs = 0 /\ x < r <= x + bs)
  /\ exists p, pkcs7.pad a None = Ok p
               /\ misc.padToBlockSize (byte_length a) 16 = Some (byte_length p).
Proof.
  intros Ha Hb. split.
  - intros x bs Hx Hbs. unfold misc.padToBlockSize.
    destruct (Z.eqb_spec bs 0) as [E|_]; [lia|].
    eexists. split; [reflexivity|].
    rewrite Z.rem_mod_nonneg by lia.
    pose proof (Z.mod_pos_bound x bs Hbs) as M.
    pose proof (Z.div_mod x bs ltac:(lia)) as D.
    split; [|lia].
    replace (x + (bs - x mod bs)) with ((x / bs + 1) * bs) by lia.
    apply Z.mod_mul. lia.
  - destruct (pkcs7_pad_spec_ok a Ha Hb) as (p & E & W & B & _).
    exists p. split; [exact E|].
    destruct Ha as [Wa Al].
    pose proof (bitLength_nonneg a Wa) as N.
    unfold misc.padToBlockSize. cbn [Z.eqb]. f_equal.
    assert (Lp : bitArray.bitLength p
                 = bitArray.bitLength a + 8 * pkcs7_padlen (bitArray.bitLength a)).
    { rewrite <- (bits_length p W), B. unfold pkcs7_pad_spec.
      pose proof (bits_length a Wa) as La.
      rewrite length_app, bytes_bits_length, repeat_length, La.
      pose proof (padlen_range (bitArray.bitLength a)) as R. lia. }
    unfold byte_length. rewrite Lp. unfold pkcs7_padlen.
    assert (0 <= bitArray.bitLength a / 8) by (apply Z.div_pos; lia).
    rewrite Z.rem_mod_nonneg by lia.
    Z.div_mod_to_equations. lia.
Qed.

(** [padToBlockSize_is_padded_length] at a 16-byte input: a whole block
    is added, 32 bytes in all. *)
Lemma padToBlockSize_is_padded_length_witness :
  let a := hex.toBits "000102030405060708090a0b0c0d0e0f" in
  byte_aligned a /\ bitArray.bitLength a < 2 ^ 31 - 128
  /\ misc.padToBlockSize 16 16 = Some 32
  /\ exists p, pkcs7.pad a None = Ok p /\ byte_length p = 32.
Proof.
  intros a.
  assert (H1 : byte_aligned a) by (split; reflexivity).
  assert (H2 : bitArray.bitLength a < 2 ^ 31 - 128) by reflexivity.
  split; [exact H1|]. split; [exact H2|]. split; [reflexivity|].
  destruct (padToBlockSize_is_padded_length a H1 H2) as [_ (p & E & L)].
  exists p. split; [exact E|].
  change (byte_length a) with 16 in L. change (misc.padToBlockSize 16 16) with (Some 32) in L.
  now injection L.
Defined.


(** [Str.forallb] over a concatenation of strings. *)
Lemma str_forallb_app p (a b : string) :
  Str.forallb p (a ++ b) = Str.forallb p a && Str.forallb p b.
Proof.
  induction a as [|c a IH]; [reflexivity|].
  cbn [append Str.forallb]. now rewrite IH, andb_assoc.
Qed.

(** ** The helpers of the demo page (src/public/enigma.js) *)

Lemma enigma_unpad_eq a : enigma.unpad a = pkcs7.unpad a None.
Proof.
  unfold pkcs7.unpad. rewrite check_blocklen_default. reflexivity.
Qed.

Lemma pkcs7_unpad_spec_shorter l r :
  pkcs7_unpad_spec l = Some r -> (List.length r < List.length l)%nat.
Proof.
  unfold pkcs7_unpad_spec.
  set (n := Z.of_nat (List.length l)).
  destruct ((n mod 128 =? 0) && (0 <? n)) eqn:G; [|discriminate].
  set (k := bits_value (skipn (Z.to_nat (n - 8)) l)).
  set (m := Z.to_nat (n - 8 * k)).
  destruct ((1 <=? k) && (k <=? 16)
            && bits_eqb (skipn m l)
                 (bytes_bits (List.repeat k (Z.to_nat k)))) eqn:K; [|discriminate].
  intros [= <-].
  apply andb_true_iff in G as [_ G]. apply Z.ltb_lt in G.
  apply andb_true_iff in K as [K _]. apply andb_true_iff in K as [K1 K2].
  apply Z.leb_le in K1. apply Z.leb_le in K2.
  rewrite length_firstn. subst m n. lia.
Qed.

Lemma enigma_padlen a :
  wf a -> bitArray.bitLength a < 2 ^ 31 ->
  16 - JS.and (JS.sar (bitArray.bitLength a) 3) 15
  = 16 - byte_length a mod 16.
Proof.
  intros W Hb. pose proof (bitLength_nonneg a W).
  rewrite sar_nonneg by lia. rewrite and_15. reflexivity.
Qed.

(** X8.  The PKCS#7 padding of the demo page differs from the one of
    the library in one case: an input whose length is a multiple of 16
    bytes is returned unpadded.  So on the page [unpad(pad(a))] gives
    [a] back exactly when [a] does not fill its last block; for a
    block-aligned [a] it never does (it fails, or strips bytes of [a]
    itself). *)
Theorem enigma_pad_round_trip a :
  byte_aligned a -> bitArray.bitLength a < 2 ^ 31 - 128 ->
  if byte_length a mod 16 =? 0
  then enigma.pad a = a /\ enigma.unpad (enigma.pad a) <> Ok a
  else pkcs7.pad a None = Ok (enigma.pad a)
       /\ exists r, enigma.unpad (enigma.pad a) = Ok r
                    /\ bits r = bits a /\ (canon a -> r = a).
Proof.
  intros Ha Hb. pose proof Ha as [W Al].
  pose proof (bitLength_nonneg a W) as N.
  assert (PL := enigma_padlen a W ltac:(lia)).
  destruct (Z.eqb_spec (byte_length a mod 16) 0) as [E|E].
  - assert (P : enigma.pad a = a).
    { unfold enigma.pad. rewrite PL, E. reflexivity. }
    split; [exact P|]. rewrite P, enigma_unpad_eq.
    pose proof (pkcs7_unpad_spec_ok a W ltac:(lia)) as U.
    destruct (pkcs7_unpad_spec (bits a)) as [l|] eqn:S.
    + destruct U as (r & -> & _ & Br & _). intros [= ->].
      apply pkcs7_unpad_spec_shorter in S. rewrite Br in S. lia.
    + destruct U as (m & ->). discriminate.
  - destruct (pkcs7_pad_spec_ok a Ha Hb) as (p & Ep & Wp & Bp & Cp).
    assert (P : enigma.pad a = p).
    { assert (Q : pkcs7.pad a None = Ok (enigma.pad a)).
      { unfold pkcs7.pad. rewrite check_blocklen_default.
        cbn [rbind]. unfold enigma.pad. rewrite PL.
        pose proof (Z.mod_pos_bound (byte_length a) 16 ltac:(lia)).
        destruct (Z.eqb_spec (16 - byte_length a mod 16) 16); [lia|].
        rewrite <- PL. reflexivity. }
      congruence. }
    rewrite P. split; [exact Ep|]. rewrite enigma_unpad_eq.
    assert (Lp : bitArray.bitLength p < 2 ^ 31).
    { rewrite <- (bits_length p Wp), Bp.
      destruct (pkcs7_pad_spec_length (bits a)) as [_ R].
      - rewrite (bits_length a W). exact Al.
      - rewrite (bits_length a W) in R. lia. }
    pose proof (pkcs7_unpad_spec_ok p Wp Lp) as U.
    rewrite Bp, pkcs7_unpad_pad_spec in U.
    + destruct U as (r & Er & Wr & Br & Cr).
      exists r. split; [exact Er|]. split; [exact Br|].
      intros Ca. apply canon_inj; auto.
    + apply Nat2Z.inj. rewrite Nat2Z.inj_mod, (bits_length a W). exact Al.
Qed.

(** [enigma_pad_round_trip] on one block of sixteen bytes [10]: the
    page's [pad] leaves it alone and [unpad] then strips all of it; on
    the two bytes [aabb] padding and unpadding give the input back. *)
Lemma enigma_pad_round_trip_witness :
  let a := hex.toBits "10101010101010101010101010101010" in
  let b := hex.toBits "aabb" in
  byte_aligned a /\ bitArray.bitLength a < 2 ^ 31 - 128
  /\ enigma.pad a = a /\ enigma.unpad (enigma.pad a) = Ok []
  /\ enigma.unpad (enigma.pad b) = Ok b.
Proof.
  intros a b.
  assert (H1 : byte_aligned a) by (split; reflexivity).
  assert (H2 : bitArray.bitLength a < 2 ^ 31 - 128) by reflexivity.
  assert (H3 : byte_aligned b) by (split; reflexivity).
  assert (H4 : bitArray.bitLength b < 2 ^ 31 - 128) by reflexivity.
  split; [exact H1|]. split; [exact H2|].
  pose proof (enigma_pad_round_trip a H1 H2) as Ta.
  change (byte_length a mod 16 =? 0) with true in Ta. cbv iota in Ta.
  destruct Ta as [Pa _].
  split; [exact Pa|]. split; [reflexivity|].
  pose proof (enigma_pad_round_trip b H3 H4) as Tb.
  change (byte_length b mod 16 =? 0) with false in Tb. cbv iota in Tb.
  destruct Tb as [_ (r & Er & _ & Cr)].
  rewrite Er. f_equal. apply Cr. reflexivity.
Defined.

Lemma line_terminator_space c :
  enigma.is_line_terminator c = true -> Str.is_space c = true.
Proof.
  unfold enigma.is_line_terminator, Str.is_space.
  set (n := Z.of_nat (nat_of_ascii c)). intros H.
  apply orb_true_iff in H as [H|H]; apply Z.eqb_eq in H; rewrite H; reflexivity.
Qed.

Lemma hex_not_line_terminator c :
  Str.is_hex c = true -> enigma.is_line_terminator c = false.
Proof.
  intros H. destruct (is_hex_not_special c H) as [S _].
  destruct (enigma.is_line_terminator c) eqn:T; [|reflexivity].
  apply line_terminator_space in T. congruence.
Qed.

(** A code unit is written as its four hexadecimal digits. *)
Lemma hex4 c :
  0 <= c < 2 ^ 16 ->
  enigma.slice_last 4 ("000" ++ Str.toString16 c) = hexn 4 c.
Proof.
  intros Hc.
  destruct (toString16_hexn c ltac:(lia)) as (k & K1 & K2 & K3 & ->).
  assert (K4 : (k <= 4)%nat).
  { destruct K3 as [->|K3]; [lia|].
    destruct (Nat.le_gt_cases k 4) as [|G]; [assumption|exfalso].
    assert (16 ^ 4 <= 16 ^ (Z.of_nat k - 1)) by (apply Z.pow_le_mono_r; lia).
    change (16 ^ 4) with (2 ^ 16) in *. lia. }
  unfold enigma.slice_last.
  rewrite append_length, hexn_length.
  change (String.length "000") with 3%nat.
  replace (3 + k - 4)%nat with (k - 1)%nat by lia.
  destruct k as [|[|[|[|[|k]]]]]; try lia.
  - change (hexn 4 c) with (hexn (3 + 1) c). rewrite hexn_pad by lia. reflexivity.
  - change (hexn 4 c) with (hexn (2 + 2) c). rewrite hexn_pad by lia. reflexivity.
  - change (hexn 4 c) with (hexn (1 + 3) c). rewrite hexn_pad by lia. reflexivity.
  - reflexivity.
Qed.

Lemma chunks4_hexn c rest :
  enigma.chunks4 (hexn 4 c ++ rest) EmptyString
  = hexn 4 c :: enigma.chunks4 rest EmptyString.
Proof.
  assert (T : forall d, enigma.is_line_terminator
                          (Str.hex_char ((c / 16 ^ d) mod 16)) = false).
  { intros d. apply hex_not_line_terminator, is_hex_char.
    apply Z.mod_pos_bound. lia. }
  cbn [hexn append enigma.chunks4 Z.of_nat].
  rewrite !T. cbn [append String.length Nat.eqb]. reflexivity.
Qed.

Lemma parseInt16_hexn4 c :
  0 <= c < 2 ^ 16 -> Str.parseInt16 (hexn 4 c) = Some c.
Proof.
  intros Hc. rewrite parseInt16_hex by apply hexn_is_hex.
  rewrite <- (append_nil_r (hexn 4 c)), hex_prefix_hexn.
  cbn [Str.hex_prefix Nat.add]. change (16 ^ Z.of_nat 4) with (2 ^ 16).
  rewrite Z.mul_0_l, Z.add_0_l, Z.mod_small by lia. reflexivity.
Qed.

(** X9.  On the demo page, [hexDecode] undoes [hexEncode]: every UTF-16
    code unit of a string is written as exactly four hexadecimal
    digits, and reading the digits back in groups of four returns the
    code units. *)
Theorem hexDecode_hexEncode s :
  Forall (fun c => 0 <= c < 2 ^ 16) s ->
  enigma.hexDecode (enigma.hexEncode s) = s
  /\ String.length (enigma.hexEncode s) = (4 * List.length s)%nat
  /\ Str.forallb Str.is_hex (enigma.hexEncode s) = true.
Proof.
  unfold enigma.hexDecode, enigma.hexEncode.
  induction 1 as [|c s Hc Hs (IH1 & IH2 & IH3)].
  - repeat split.
  - cbn [List.map Str.concat]. rewrite (hex4 c Hc).
    split; [|split].
    + rewrite chunks4_hexn. cbn [List.map].
      rewrite (parseInt16_hexn4 c Hc), Z.mod_small by lia.
      now rewrite IH1.
    + rewrite append_length, hexn_length, IH2. cbn [List.length]. lia.
    + rewrite str_forallb_app, hexn_is_hex, IH3. reflexivity.
Qed.

(** [hexDecode_hexEncode] on the code units of ["Ab"] followed by
    U+20AC. *)
Lemma hexDecode_hexEncode_witness :
  Forall (fun c => 0 <= c < 2 ^ 16) [65; 98; 8364]
  /\ enigma.hexEncode [65; 98; 8364] = "0041006220ac"%string
  /\ enigma.hexDecode "0041006220ac" = [65; 98; 8364].
Proof.
  assert (H : Forall (fun c => 0 <= c < 2 ^ 16) [65; 98; 8364]).
  { repeat (apply Forall_cons; [cbn; lia|]). apply Forall_nil. }
  split; [exact H|]. split; [reflexivity|].
  exact (proj1 (hexDecode_hexEncode [65; 98; 8364] H)).
Defined.


(** ** PKCS#1 v1.5: removing the padding *)

(** The block built by [pkcs15.pad] when the data fits. *)
Lemma pkcs15_pad_run a blockLen bt w PS rest :
  byte_aligned a -> a <> [] -> bt = 0 \/ bt = 1 \/ bt = 2 ->
  byte_length a + 3 <= blockLen ->
  pkcs15_ps bt (Z.to_nat (blockLen - 3 - byte_length a)) (entropy w)
  = Some (PS, rest) ->
  exists r,
    pkcs15.pad a blockLen (Some bt) w = (Ok r, mkWorld rest (trace w))
    /\ wf r
    /\ bits r = bytes_bits (0 :: bt :: PS ++ [0]) ++ bits a
    /\ Z.of_nat (List.length PS) = blockLen - 3 - byte_length a
    /\ Forall is_byte PS
    /\ (bt = 0 -> PS = List.repeat 0 (List.length PS))
    /\ (bt = 1 -> PS = List.repeat 0xff (List.length PS))
    /\ (bt = 2 -> Forall (fun b => 1 <= b <= 255) PS).
Proof.
  intros [Hw Hm] Hne Hbt. unfold byte_length. intros Hle EPS.
  unfold pkcs15.pad. rewrite and_7, Hm. change (0 =? 0) with true.
  destruct (Nat.eqb_spec (List.length a) 0) as [E|_];
    [apply length_zero_iff_nil in E; contradiction|].
  cbn [andb negb].
  replace ((bt =? 0) || (bt =? 1) || (bt =? 2)) with true
    by (destruct Hbt as [->|[->| ->]]; reflexivity).
  destruct (Z.leb_spec (bitArray.bitLength a / 8 + 3) blockLen); [|lia].
  set (n := blockLen - 3 - bitArray.bitLength a / 8) in *.
  destruct (pkcs15_ps_spec _ _ _ _ _ EPS) as (LPS & BPS & P1 & P2 & P0).
  unfold bind. destruct w as [pool tr]. cbn [entropy trace] in *.
  rewrite (ps_loop_run bt _ pool PS rest 0 [] 0 tr EPS).
  pose proof (ps_array_spec PS BPS) as A. cbv zeta in A.
  replace (Z.of_nat (List.length PS)) with n in A by lia.
  destruct (pack_loop PS 0 [] 0) as [ps tmp]. destruct A as [Wps Bps].
  set (arr := if JS.and n 3 =? 0 then ps
              else ps ++ [bitArray.partial (8 * JS.and n 3) tmp false]) in *.
  destruct (partial_byte_spec 0) as [W0 B0].
  destruct (partial_byte_spec bt) as [Wb Bb].
  destruct (concat_spec _ _ W0 Wb) as [W1 B1].
  destruct (concat_spec _ _ W1 Wps) as [W2 B2].
  destruct (concat_spec _ _ W2 W0) as [W3 B3].
  destruct (concat_spec _ _ W3 Hw) as [W4 B4].
  eexists. split; [reflexivity|]. split; [exact W4|]. split.
  - rewrite B4, B3, B2, B1, B0, Bb, Bps.
    change (0 :: bt :: PS ++ [0]) with ([0; bt] ++ PS ++ [0]).
    rewrite !bytes_bits_app. cbn [bytes_bits flat_map].
    rewrite !app_nil_r. now rewrite <- !app_assoc.
  - rewrite LPS. repeat split; try lia; auto.
Qed.

Lemma bits_value_byte b : is_byte b -> bits_value (byte_bits b) = b.
Proof.
  intros Hb. unfold byte_bits. rewrite bits_value_bits_from by (cbn; lia).
  cbn [Z.of_nat Pos.of_succ_nat Pos.succ Z.sub Z.add Z.opp Z.pos_sub Pos.pred_double].
  change (7 - 8 + 1) with 0. rewrite Z.pow_0_r, Z.div_1_r.
  apply Z.mod_small. exact Hb.
Qed.

Lemma byte_bits_length b : List.length (byte_bits b) = 8%nat.
Proof. apply bits_from_length. Qed.

Lemma bytes_bits_nth (B : list Z) : forall i (D : list bool),
  (i < List.length B)%nat ->
  firstn 8 (skipn (8 * i) (bytes_bits B ++ D)) = byte_bits (nth i B 0).
Proof.
  induction B as [|b B IH]; intros i D Hi; [cbn in Hi; lia|].
  change (bytes_bits (b :: B)) with (byte_bits b ++ bytes_bits B).
  rewrite <- app_assoc.
  destruct i as [|i].
  - cbn [Nat.mul skipn nth]. apply firstn_exact, byte_bits_length.
  - replace (8 * S i)%nat with (8 * i + 8)%nat by lia.
    rewrite <- skipn_skipn.
    rewrite (skipn_exact (byte_bits b)) by apply byte_bits_length.
    cbn [nth]. apply IH. cbn [List.length] in Hi. lia.
Qed.

(** The byte at index [i] of a bitArray that starts with the bytes [B]. *)
Lemma byte_at a (B : list Z) (D : list bool) i :
  wf a -> bitArray.bitLength a < 2 ^ 31 ->
  bits a = bytes_bits B ++ D -> Forall is_byte B ->
  0 <= i < Z.of_nat (List.length B) ->
  bitArray.extract a (8 * i) 8 = nth (Z.to_nat i) B 0.
Proof.
  intros W Hb E HB Hi.
  assert (L : 8 * Z.of_nat (List.length B) <= bitArray.bitLength a).
  { rewrite <- (bits_length a W), E, length_app, bytes_bits_length. lia. }
  rewrite extract_value by (auto; lia).
  rewrite E. replace (Z.to_nat (8 * i)) with (8 * Z.to_nat i)%nat by lia.
  change (Z.to_nat 8) with 8%nat.
  rewrite bytes_bits_nth by lia.
  apply bits_value_byte.
  rewrite Forall_forall in HB. apply HB. apply nth_In. lia.
Qed.

Section Scan.
Variables (a : list Z) (B : list Z) (D : list bool) (bt : Z).
Hypothesis Wa : wf a.
Hypothesis La : bitArray.bitLength a < 2 ^ 31.
Hypothesis Ba : bits a = bytes_bits B ++ D.
Hypothesis HB : Forall is_byte B.

(** The scanning loop walks over bytes that do not end the scan. *)
Lemma scan_skip : forall m n i ff,
  0 <= i -> i + Z.of_nat m <= Z.of_nat (List.length B) ->
  (forall j, i <= j < i + Z.of_nat m ->
     (bt = 0 /\ nth (Z.to_nat j) B 0 = 0)
     \/ (bt = 1 /\ nth (Z.to_nat j) B 0 = 0xff)
     \/ (bt = 2 /\ nth (Z.to_nat j) B 0 <> 0)) ->
  pkcs15.scan a bt (m + n) i ff = pkcs15.scan a bt n (i + Z.of_nat m) ff.
Proof.
  induction m as [|m IH]; intros n i ff Hi Hm H.
  - cbn [Nat.add Z.of_nat]. now rewrite Z.add_0_r.
  - cbn [Nat.add pkcs15.scan].
    rewrite (byte_at a B D i Wa La Ba HB) by lia.
    replace (i + Z.of_nat (S m)) with ((i + 1) + Z.of_nat m) by lia.
    destruct (H i ltac:(lia)) as [[-> E]|[[-> E]|[-> E]]].
    + rewrite E. cbn [Z.eqb negb]. apply IH; [lia | lia |].
      intros j Hj. apply H. lia.
    + rewrite E. cbn [Z.eqb negb andb Pos.eqb]. apply IH; [lia | lia |].
      intros j Hj. apply H. lia.
    + cbn [Z.eqb Pos.eqb].
      destruct (Z.eqb_spec (nth (Z.to_nat i) B 0) 0) as [Z0|_]; [contradiction|].
      apply IH; [lia | lia |]. intros j Hj. apply H. lia.
Qed.

(** ... and stops at the byte that does. *)
Lemma scan_stop n i ff :
  0 <= i < Z.of_nat (List.length B) ->
  (bt = 0 /\ nth (Z.to_nat i) B 0 <> 0)
  \/ ((bt = 1 \/ bt = 2) /\ nth (Z.to_nat i) B 0 = 0) ->
  pkcs15.scan a bt (S n) i ff = (if bt =? 0 then i else i + 1, ff).
Proof.
  intros Hi H. cbn [pkcs15.scan].
  rewrite (byte_at a B D i Wa La Ba HB) by lia.
  destruct H as [[-> E]|[[->| ->] E]].
  - cbn [Z.eqb]. destruct (Z.eqb_spec (nth (Z.to_nat i) B 0) 0); [contradiction|].
    reflexivity.
  - rewrite E. reflexivity.
  - rewrite E. reflexivity.
Qed.

End Scan.

Lemma nth_layout (PS : list Z) bt b0 :
  let B := (0 :: bt :: PS ++ [0]) ++ [b0] in
  List.length B = (List.length PS + 4)%nat
  /\ nth 0 B 0 = 0 /\ nth 1 B 0 = bt
  /\ (forall k, (k < List.length PS)%nat -> nth (2 + k) B 0 = nth k PS 0)
  /\ nth (2 + List.length PS) B 0 = 0
  /\ nth (3 + List.length PS) B 0 = b0.
Proof.
  intros B. subst B. split; [|split; [|split; [|split; [|split]]]].
  - cbn [List.length app]. rewrite !length_app. cbn [List.length]. lia.
  - reflexivity.
  - reflexivity.
  - intros k Hk. cbn [app Nat.add nth].
    rewrite <- app_assoc. now rewrite app_nth1.
  - cbn [app Nat.add nth]. rewrite <- app_assoc.
    rewrite app_nth2 by lia. now rewrite Nat.sub_diag.
  - cbn [app Nat.add nth]. rewrite <- app_assoc.
    rewrite app_nth2 by lia.
    replace (S (List.length PS) - List.length PS)%nat with 1%nat by lia.
    reflexivity.
Qed.

Lemma repeat_Forall_eq {A} (x : A) n : Forall (fun b => b = x) (List.repeat x n).
Proof. apply Forall_forall. intros y Hy. now apply repeat_spec in Hy. Qed.

(** X10.  [eb.padding.pkcs15.unpad] undoes [eb.padding.pkcs15.pad]: for
    non-empty byte-aligned data that fits the block, the padded block
    has exactly [blockLength] bytes and unpadding it returns the bits
    of the data, for block types 1 and 2, and for block type 0 when the
    data does not begin with a zero byte (a leading zero byte cannot be
    told from the zero padding). *)
Theorem pkcs15_unpad_pad a blockLen bt w PS rest :
  byte_aligned a -> a <> [] -> bt = 0 \/ bt = 1 \/ bt = 2 ->
  (bt = 0 -> bitArray.extract a 0 8 <> 0) ->
  byte_length a + 3 <= blockLen -> blockLen < 2 ^ 28 ->
  pkcs15_ps bt (Z.to_nat (blockLen - 3 - byte_length a)) (entropy w)
  = Some (PS, rest) ->
  exists r a',
    pkcs15.pad a blockLen (Some bt) w = (Ok r, mkWorld rest (trace w))
    /\ byte_length r = blockLen
    /\ pkcs15.unpad r = Ok a'
    /\ wf a' /\ bits a' = bits a /\ bitArray.equal a' a = true.
Proof.
  intros Ha Hne Hbt H0 Hle Hbl EPS.
  destruct (pkcs15_pad_run a blockLen bt w PS rest Ha Hne Hbt Hle EPS)
    as (r & Er & Wr & Br & LPS & BPS & P0 & P1 & P2).
  destruct Ha as [Wa Al].
  pose proof (bitLength_nonneg a Wa) as Na.
  assert (Pa : 8 <= bitArray.bitLength a).
  { assert (bitArray.bitLength a <> 0) by (intros E; now apply (wf_empty_iff a Wa) in E).
    Z.div_mod_to_equations. lia. }
  assert (Ea : bitArray.bitLength a = 8 * byte_length a)
    by (unfold byte_length; Z.div_mod_to_equations; lia).
  (* the first data byte *)
  set (b0 := bitArray.extract a 0 8) in *.
  destruct (extract_field a 0 8 Wa ltac:(lia) ltac:(lia) ltac:(lia) ltac:(lia))
    as [Rb Fb]. fold b0 in Rb, Fb.
  change (Z.to_nat 8) with 8%nat in Fb. change (Z.to_nat 0) with 0%nat in Fb.
  cbn [skipn] in Fb. change (8 - 1) with 7 in Fb. fold (byte_bits b0) in Fb.
  set (D := skipn 8 (bits a)).
  assert (Sa : bits a = byte_bits b0 ++ D)
    by (subst D; rewrite Fb; symmetry; apply firstn_skipn).
  set (B := (0 :: bt :: PS ++ [0]) ++ [b0]).
  assert (Brr : bits r = bytes_bits B ++ D).
  { rewrite Br, Sa. subst B. rewrite bytes_bits_app. cbn [bytes_bits flat_map].
    rewrite app_nil_r. now rewrite <- !app_assoc. }
  assert (HB : Forall is_byte B).
  { subst B. apply Forall_app. split; [|apply Forall_cons; [exact Rb | apply Forall_nil]].
    apply Forall_cons; [unfold is_byte; lia|].
    apply Forall_cons; [unfold is_byte; destruct Hbt as [->|[->| ->]]; lia|].
    apply Forall_app. split; [exact BPS|].
    apply Forall_cons; [unfold is_byte; lia | apply Forall_nil]. }
  destruct (nth_layout PS bt b0) as (LB & N0 & N1 & NP & NS & ND). fold B in LB, N0, N1, NP, NS, ND.
  assert (Lr : bitArray.bitLength r = 8 * blockLen).
  { rewrite <- (bits_length r Wr), Br, length_app, bytes_bits_length.
    cbn [List.length]. rewrite length_app. cbn [List.length].
    pose proof (bits_length a Wa). lia. }
  assert (Lr' : bitArray.bitLength r < 2 ^ 31)
    by (rewrite Lr; change (2 ^ 31) with (8 * 2 ^ 28); lia).
  exists r.
  (* unpad *)
  assert (Bl : byte_length r = blockLen)
    by (unfold byte_length; rewrite Lr, Z.mul_comm; apply Z.div_mul; lia).
  assert (Nr : Nat.eqb (List.length r) 0 = false).
  { destruct r as [|x r']; [|reflexivity].
    change (bitArray.bitLength []) with 0 in Lr. lia. }
  assert (X0 : bitArray.extract r 0 8 = 0).
  { change 0 with (8 * 0) at 1.
    rewrite (byte_at r B D 0 Wr Lr' Brr HB) by lia. exact N0. }
  assert (X1 : bitArray.extract r 8 8 = bt).
  { change 8 with (8 * 1) at 1.
    rewrite (byte_at r B D 1 Wr Lr' Brr HB) by lia. exact N1. }
  assert (SC : pkcs15.scan r bt (Z.to_nat (blockLen - 2)) 2 true
               = (3 + Z.of_nat (List.length PS), true)).
  { destruct Hbt as [E0|E12].
    - (* zeros up to and including the separator, then the data *)
      replace (Z.to_nat (blockLen - 2))
        with (S (List.length PS) + S (Z.to_nat (byte_length a - 1)))%nat by lia.
      rewrite (scan_skip r B D bt Wr Lr' Brr HB); [| lia | lia |].
      + rewrite (scan_stop r B D bt Wr Lr' Brr HB); [| lia |].
        * rewrite E0. cbn [Z.eqb]. f_equal. lia.
        * left. split; [exact E0|].
          replace (Z.to_nat (2 + Z.of_nat (S (List.length PS))))
            with (3 + List.length PS)%nat by lia.
          rewrite ND. now apply H0.
      + intros j Hj. left. split; [exact E0|].
        destruct (Z.eq_dec j (2 + Z.of_nat (List.length PS))) as [->|Nj].
        * replace (Z.to_nat (2 + Z.of_nat (List.length PS)))
            with (2 + List.length PS)%nat by lia. exact NS.
        * replace (Z.to_nat j) with (2 + Z.to_nat (j - 2))%nat by lia.
          rewrite NP by lia. rewrite (P0 E0).
          apply nth_repeat_lt. lia.
    - replace (Z.to_nat (blockLen - 2))
        with (List.length PS + S (Z.to_nat (byte_length a)))%nat by lia.
      rewrite (scan_skip r B D bt Wr Lr' Brr HB); [| lia | lia |].
      + rewrite (scan_stop r B D bt Wr Lr' Brr HB); [| lia |].
        * destruct E12 as [-> | ->]; cbn [Z.eqb]; f_equal; lia.
        * right. split; [exact E12|].
          replace (Z.to_nat (2 + Z.of_nat (List.length PS)))
            with (2 + List.length PS)%nat by lia. exact NS.
      + intros j Hj. right.
        replace (Z.to_nat j) with (2 + Z.to_nat (j - 2))%nat by lia.
        rewrite NP by lia.
        destruct E12 as [E1|E2]; [left | right].
        * split; [exact E1|]. rewrite (P1 E1).
          apply nth_repeat_lt. lia.
        * split; [exact E2|].
          specialize (P2 E2). rewrite Forall_forall in P2.
          assert (In (nth (Z.to_nat (j - 2)) PS 0) PS) by (apply nth_In; lia).
          specialize (P2 _ H). lia. }
  destruct (bitSlice_from_spec r ((3 + Z.of_nat (List.length PS)) * 8) Wr)
    as [Wo Bo]; [lia|].
  assert (Bo' : bits (bitArray.bitSlice r ((3 + Z.of_nat (List.length PS)) * 8) None)
                = bits a).
  { rewrite Bo, Br. apply skipn_exact.
    rewrite bytes_bits_length. cbn [List.length]. rewrite length_app.
    cbn [List.length]. lia. }
  eexists. split; [exact Er|]. split; [exact Bl|].
  split; [|split; [exact Wo | split; [exact Bo'|]]].
  - unfold pkcs15.unpad. rewrite and_7, Lr.
    replace (8 * blockLen mod 8) with 0 by (symmetry; rewrite Z.mul_comm; apply Z.mod_mul; lia).
    replace (8 * blockLen / 8) with blockLen by (symmetry; rewrite Z.mul_comm; apply Z.div_mul; lia).
    rewrite Nr. destruct (Z.ltb_spec blockLen 3); [lia|].
    cbn [Z.eqb andb negb]. rewrite X0. cbn [Z.eqb]. rewrite X1.
    replace ((bt =? 0) || (bt =? 1) || (bt =? 2)) with true
      by (destruct Hbt as [->|[->| ->]]; reflexivity).
    rewrite SC.
    destruct (Z.ltb_spec (3 + Z.of_nat (List.length PS)) 0); [lia|].
    destruct (Z.ltb_spec blockLen (3 + Z.of_nat (List.length PS))); [lia|].
    reflexivity.
  - apply equal_bits; assumption.
Qed.

(** [pkcs15_unpad_pad] at data [aabb], a 16-byte block and block type
    2, with the sample generator: eleven padding bytes [04] are drawn,
    and unpadding returns [aabb]. *)
Lemma pkcs15_unpad_pad_witness :
  let a := hex.toBits "aabb" in
  byte_aligned a /\ a <> []
  /\ pkcs15_ps 2 (Z.to_nat (16 - 3 - byte_length a)) (entropy sample_world)
     = Some (List.repeat 4 11, List.repeat 0x01020304 117)
  /\ exists r a',
       pkcs15.pad a 16 (Some 2) sample_world
       = (Ok r, mkWorld (List.repeat 0x01020304 117) [])
       /\ bits r = bits (hex.toBits "0002040404040404040404040400aabb")
       /\ pkcs15.unpad r = Ok a'
       /\ bits a' = bits a.
Proof.
  intros a.
  assert (H1 : byte_aligned a) by (split; reflexivity).
  assert (H2 : a <> []) by discriminate.
  assert (H3 : 2 = 0 \/ 2 = 1 \/ 2 = 2) by (right; right; reflexivity).
  assert (H4 : 2 = 0 -> bitArray.extract a 0 8 <> 0) by (intros X; discriminate X).
  assert (H5 : byte_length a + 3 <= 16) by (change (byte_length a) with 2; lia).
  assert (H6 : 16 < 2 ^ 28) by reflexivity.
  assert (H7 : pkcs15_ps 2 (Z.to_nat (16 - 3 - byte_length a)) (entropy sample_world)
               = Some (List.repeat 4 11, List.repeat 0x01020304 117)) by reflexivity.
  split; [exact H1|]. split; [exact H2|]. split; [exact H7|].
  destruct (pkcs15_unpad_pad a 16 2 sample_world _ _ H1 H2 H3 H4 H5 H6 H7)
    as (r & a' & Er & _ & Eu & _ & Ba & _).
  exists r, a'. split; [exact Er|]. split; [|split; [exact Eu | exact Ba]].
  cbv in Er. injection Er as <-. reflexivity.
Defined.

Lemma scan_range a bt : forall n i ff d ff',
  pkcs15.scan a bt n i ff = (d, ff') ->
  d = -1 \/ i <= d <= i + Z.of_nat n.
Proof.
  induction n as [|n IH]; intros i ff d ff' H.
  - cbn [pkcs15.scan] in H. injection H as <- _. now left.
  - cbn [pkcs15.scan] in H.
    assert (R : forall ff0, pkcs15.scan a bt n (i + 1) ff0 = (d, ff') ->
                            d = -1 \/ i <= d <= i + Z.of_nat (S n)).
    { intros ff0 H'. destruct (IH _ _ _ _ H') as [->|R]; [now left | right; lia]. }
    destruct (bt =? 0).
    + destruct (negb (bitArray.extract a (8 * i) 8 =? 0)).
      * injection H as <- _. right. lia.
      * eapply R, H.
    + destruct (bt =? 1).
      * destruct (bitArray.extract a (8 * i) 8 =? 0).
        -- injection H as <- _. right. lia.
        -- eapply R, H.
      * destruct (bitArray.extract a (8 * i) 8 =? 0).
        -- injection H as <- _. right. lia.
        -- eapply R, H.
Qed.

(** X11.  Whatever [eb.padding.pkcs15.unpad] accepts is a block of
    whole bytes that starts with the byte [00] and a block type 0, 1
    or 2, and what it returns is that block without its first [k]
    bytes for some [k] from 2 up to the length of the block; every
    other input is refused. *)
Theorem pkcs15_unpad_sound a r :
  wf a -> bitArray.bitLength a < 2 ^ 31 ->
  pkcs15.unpad a = Ok r ->
  bitArray.bitLength a mod 8 = 0
  /\ 3 <= byte_length a
  /\ bitArray.extract a 0 8 = 0
  /\ (bitArray.extract a 8 8 = 0 \/ bitArray.extract a 8 8 = 1
      \/ bitArray.extract a 8 8 = 2)
  /\ exists k, 2 <= k <= byte_length a
               /\ wf r /\ bits r = skipn (Z.to_nat (8 * k)) (bits a).
Proof.
  intros W Hb. unfold pkcs15.unpad. rewrite and_7. fold (byte_length a).
  destruct (Z.eqb_spec (bitArray.bitLength a mod 8) 0) as [Al|]; [|discriminate].
  destruct (Z.ltb_spec (byte_length a) 3) as [|L3]; [discriminate|].
  destruct (Nat.eqb (List.length a) 0); [discriminate|]. cbn [andb negb].
  destruct (Z.eqb_spec (bitArray.extract a 0 8) 0) as [X0|]; [|discriminate].
  set (bt := bitArray.extract a 8 8).
  destruct ((bt =? 0) || (bt =? 1) || (bt =? 2)) eqn:Hbt; [|discriminate].
  destruct (pkcs15.scan a bt (Z.to_nat (byte_length a - 2)) 2 true)
    as [d ff] eqn:SC.
  destruct ff; [|discriminate].
  destruct (Z.ltb_spec d 0) as [|D0]; [discriminate|].
  destruct (Z.ltb_spec (byte_length a) d) as [|D1]; [discriminate|].
  cbn [orb negb]. intros E.
  assert (Er : r = bitArray.bitSlice a (d * 8) None) by congruence.
  clear E.
  split; [exact Al|]. split; [exact L3|]. split; [exact X0|]. split.
  - apply orb_true_iff in Hbt as [Hbt|Hbt];
      [apply orb_true_iff in Hbt as [Hbt|Hbt]|]; apply Z.eqb_eq in Hbt; auto.
  - exists d.
    destruct (scan_range _ _ _ _ _ _ _ SC) as [->|R]; [lia|].
    split; [lia|].
    assert (8 * byte_length a = bitArray.bitLength a)
      by (unfold byte_length; Z.div_mod_to_equations; lia).
    rewrite (Z.mul_comm 8 d), Er.
    exact (bitSlice_from_spec a (d * 8) W ltac:(lia)).
Qed.

(** [pkcs15_unpad_sound] on the block [00 01 ff ff 00 aa bb]: five
    bytes are removed. *)
Lemma pkcs15_unpad_sound_witness :
  let a := hex.toBits "0001ffff00aabb" in
  wf a /\ bitArray.bitLength a < 2 ^ 31
  /\ pkcs15.unpad a = Ok (hex.toBits "aabb")
  /\ exists k, 2 <= k <= byte_length a
               /\ bits (hex.toBits "aabb") = skipn (Z.to_nat (8 * k)) (bits a).
Proof.
  intros a.
  assert (H1 : wf a) by reflexivity.
  assert (H2 : bitArray.bitLength a < 2 ^ 31) by reflexivity.
  assert (H3 : pkcs15.unpad a = Ok (hex.toBits "aabb")) by reflexivity.
  split; [exact H1|]. split; [exact H2|]. split; [exact H3|].
  destruct (pkcs15_unpad_sound a _ H1 H2 H3) as (_ & _ & _ & _ & k & Hk & _ & Bk).
  exists k. split; [exact Hk | exact Bk].
Defined.


(** ** CBC with its built-in padding, and the CBC-MAC on ragged input *)

(** Appending to a bitArray leaves its whole words alone. *)
Lemma concat_prefix a1 a2 k :
  wf a1 -> wf a2 -> 32 * Z.of_nat k <= bitArray.bitLength a1 ->
  firstn k (bitArray.concat a1 a2) = firstn k a1.
Proof.
  intros H1 H2 Hk. destruct a1 as [|x1 r1].
  - change (bitArray.bitLength []) with 0 in Hk.
    replace k with 0%nat by lia. reflexivity.
  - destruct a2 as [|x2 r2].
    + unfold bitArray.concat. now rewrite !app_nil_r.
    + unfold bitArray.concat.
      destruct (wf_inv _ H1) as [E|(init & l & E & Hi & Hl)]; [discriminate|].
      rewrite E, last_last, removelast_last.
      rewrite E, bitLength_snoc in Hk.
      destruct (Z.eqb_spec (bitArray.getPartial l) 32) as [E32|N32].
      * apply firstn_app_le. rewrite length_app. cbn [List.length]. lia.
      * destruct (lastb_cases l Hl) as [[_ ?]|(len & v & -> & Hlen & Hv & Hz & Ep)];
          [contradiction|].
        rewrite Ep, or_0_r, ToInt32_partial by assumption.
        destruct (shiftRight_spec (x2 :: r2) len v ltac:(lia) H2 Hz)
          as (R & HR & _ & _ & _).
        rewrite HR. rewrite Ep in Hk.
        rewrite !firstn_app_le by lia. reflexivity.
Qed.

Lemma blocks_of_app x y m :
  List.length x = (4 * m)%nat -> blocks_of (x ++ y) = blocks_of x ++ blocks_of y.
Proof.
  intros H. revert y.
  apply (blocks_ind (fun x => forall y, blocks_of (x ++ y) = blocks_of x ++ blocks_of y))
    with (m := m); [reflexivity | | exact H].
  intros x0 x1 x2 x3 r IH y. cbn [app]. rewrite !blocks_of_app4, IH. reflexivity.
Qed.

Section CbcPadding.
Context {C : BlockCipher}.

Lemma CBC_spec_app k : forall b1 b2 c,
  CBC_spec k c (b1 ++ b2)
  = CBC_spec k c b1 ++ CBC_spec k (last (CBC_spec k c b1) c) b2.
Proof.
  induction b1 as [|p r IH]; intros b2 c; [reflexivity|].
  cbn [app CBC_spec]. rewrite IH, last_cons_default. reflexivity.
Qed.

Lemma CBC_events_app k : forall b1 b2 c,
  CBC_events k c (b1 ++ b2)
  = CBC_events k c b1 ++ CBC_events k (last (CBC_spec k c b1) c) b2.
Proof.
  induction b1 as [|p r IH]; intros b2 c; [reflexivity|].
  cbn [app CBC_spec CBC_events]. rewrite IH, last_cons_default. reflexivity.
Qed.

(** The MAC loop reads the whole blocks it is told to read and nothing
    after them. *)
Lemma mac_loop_tail a m : forall blocks pre tail c w,
  List.length blocks = (4 * m)%nat ->
  mac_loop a (pre ++ blocks ++ tail) m (Z.of_nat (List.length pre)) c w
  = (Ok (last (CBC_spec (sjcl.cipher_key a) c (blocks_of blocks)) c),
     mkWorld (entropy w)
       (trace w ++ CBC_events (sjcl.cipher_key a) c (blocks_of blocks))).
Proof.
  induction m as [|m IH]; intros blocks pre tail c w Hl.
  - destruct blocks; [|discriminate]. cbn. now rewrite app_nil_r, world_eta.
  - destruct blocks as [|x0 [|x1 [|x2 [|x3 r]]]]; try (cbn in Hl; lia).
    cbn [mac_loop app]. rewrite slice_block.
    erewrite bind_run by (apply encrypt_run, xor_length).
    rewrite (snoc_block pre x0 x1 x2 x3 (r ++ tail)),
      (snoc_block_length pre x0 x1 x2 x3), IH by (cbn in Hl; lia).
    cbn [blocks_of CBC_spec CBC_events entropy trace].
    now rewrite last_cons_default, <- app_assoc.
Qed.

Context {L : BlockCipherLaws C}.

Lemma cbc_encrypt_loop_tail a m : forall blocks pre tail c out w,
  List.length blocks = (4 * m)%nat ->
  cbc_encrypt_loop a (pre ++ blocks ++ tail) m (Z.of_nat (List.length pre)) c out w
  = (Ok (last (CBC_spec (sjcl.cipher_key a) c (blocks_of blocks)) c,
         out ++ List.concat (CBC_spec (sjcl.cipher_key a) c (blocks_of blocks))),
     mkWorld (entropy w)
       (trace w ++ CBC_events (sjcl.cipher_key a) c (blocks_of blocks))).
Proof.
  induction m as [|m IH]; intros blocks pre tail c out w Hl.
  - destruct blocks; [|discriminate]. cbn. now rewrite !app_nil_r, world_eta.
  - destruct blocks as [|x0 [|x1 [|x2 [|x3 r]]]]; try (cbn in Hl; lia).
    cbn [cbc_encrypt_loop app]. rewrite slice_block.
    erewrite bind_run by (apply encrypt_run, xor_length).
    rewrite get4 by apply (encrypt_block_words (sjcl.cipher_key a)).
    rewrite (snoc_block pre x0 x1 x2 x3 (r ++ tail)),
      (snoc_block_length pre x0 x1 x2 x3), IH by (cbn in Hl; lia).
    cbn [blocks_of CBC_spec CBC_events List.concat entropy trace].
    now rewrite last_cons_default, <- !app_assoc.
Qed.

(** [cbc.encrypt] with its built-in padding, on byte-aligned input. *)
Lemma cbc_encrypt_padded_run a b iv w :
  byte_aligned b -> bitArray.bitLength b < 2 ^ 31 - 128 ->
  bitArray.bitLength iv = 128 ->
  exists p m,
    pkcs7.pad b None = Ok p
    /\ wf p /\ forallb fullb p = true /\ List.length p = (4 * m)%nat
    /\ Z.of_nat m = bitArray.bitLength b / 128 + 1
    /\ bits p = pkcs7_pad_spec (bits b) /\ (canon b -> canon p)
    /\ cbc_encrypt a b iv [] false w
       = (Ok (CBC_encrypt_spec (sjcl.cipher_key a) iv p),
          mkWorld (entropy w)
            (trace w ++ CBC_events (sjcl.cipher_key a) iv (blocks_of p))).
Proof.
  intros Hb Hlt Hiv. pose proof Hb as [W Al].
  pose proof (bitLength_nonneg b W) as N.
  destruct (pkcs7_pad_spec_ok b Hb Hlt) as (p & Ep & Wp & Bp & Cp).
  set (bl := bitArray.bitLength b) in *.
  set (n := Z.to_nat (bl / 128)).
  assert (Hn : Z.of_nat n = bl / 128)
    by (subst n; rewrite Z2Nat.id; [reflexivity | apply Z.div_pos; lia]).
  (* the length of the padded frame *)
  assert (Lp : bitArray.bitLength p = 128 * (bl / 128 + 1)).
  { rewrite <- (bits_length p Wp), Bp. unfold pkcs7_pad_spec.
    pose proof (bits_length b W) as Lb. fold bl in Lb.
    rewrite length_app, bytes_bits_length, repeat_length, Lb.
    pose proof (padlen_range bl) as R. unfold pkcs7_padlen in *.
    Z.div_mod_to_equations. lia. }
  destruct (wf_full_length p (bl / 128 + 1) Wp Lp) as (Fp & Lenp & _).
  replace (Z.to_nat (bl / 128 + 1)) with (S n) in Lenp by lia.
  (* the padded frame as the whole blocks of [b] and one more block *)
  set (fill := (16 - JS.and (JS.sar bl 3) 15) * 16843009).
  assert (Pe : p = firstn (4 * n + 4) (bitArray.concat b [fill; fill; fill; fill])).
  { assert (Ep' : pkcs7.pad b None
                  = Ok (JS.slice (bitArray.concat b [fill; fill; fill; fill]) 0
                          (JS.sar (JS.sar bl 3 + (16 - JS.and (JS.sar bl 3) 15)) 2)))
      by (unfold pkcs7.pad; rewrite check_blocklen_default; reflexivity).
    assert (Es : p = JS.slice (bitArray.concat b [fill; fill; fill; fill]) 0
                       (JS.sar (JS.sar bl 3 + (16 - JS.and (JS.sar bl 3) 15)) 2))
      by congruence.
    rewrite Es. clear Es Ep'.
    rewrite !(sar_nonneg bl 3) by lia. rewrite and_15. change (2 ^ 3) with 8.
    assert (0 <= bl / 8) by (apply Z.div_pos; lia).
    assert (0 <= (bl / 8) mod 16 < 16) by (apply Z.mod_pos_bound; lia).
    rewrite sar_nonneg by (change (2 ^ 31) with 2147483648 in *;
                           Z.div_mod_to_equations; lia).
    change (2 ^ 2) with 4.
    replace ((bl / 8 + (16 - (bl / 8) mod 16)) / 4) with (4 * Z.of_nat n + 4)
      by (rewrite Hn; Z.div_mod_to_equations; lia).
    rewrite slice_0 by lia. f_equal. lia. }
  assert (Wf : wf [fill; fill; fill; fill]).
  { subst fill. rewrite sar_nonneg by lia. rewrite and_15.
    pose proof (Z.mod_pos_bound (bl / 2 ^ 3) 16 ltac:(lia)).
    destruct (fill_words (16 - (bl / 2 ^ 3) mod 16) ltac:(lia)) as [If _].
    apply canon_wf, canon_int32. exact If. }
  set (cc := bitArray.concat b [fill; fill; fill; fill]) in *.
  set (X := firstn (4 * n) b).
  assert (LX : List.length X = (4 * n)%nat).
  { subst X. rewrite length_firstn. pose proof (bitLength_le b W). fold bl in H.
    assert (128 * (bl / 128) <= bl) by (Z.div_mod_to_equations; lia). lia. }
  assert (EX : firstn (4 * n) cc = X).
  { subst cc X. apply concat_prefix; [assumption | assumption |].
    fold bl. Z.div_mod_to_equations. lia. }
  set (P2 := firstn 4 (skipn (4 * n) cc)).
  assert (Ps : p = X ++ P2).
  { rewrite Pe. pose proof (firstn_skipn_split cc 0 (4 * n) 4) as S.
    cbn [skipn Nat.add] in S. rewrite S, EX. reflexivity. }
  assert (L2 : List.length P2 = 4%nat).
  { rewrite Ps, length_app, LX in Lenp. lia. }
  exists p, (S n).
  split; [exact Ep|]. split; [exact Wp|]. split; [exact Fp|].
  split; [exact Lenp|]. split; [lia|]. split; [exact Bp|]. split; [exact Cp|].
  (* run *)
  unfold cbc_encrypt. cbn [List.length Nat.eqb]. rewrite Hiv.
  cbn [Z.eqb Pos.eqb andb negb]. fold bl. rewrite and_7, Al. cbn [Z.eqb].
  fold n. fold fill. fold cc.
  assert (Sb : b = [] ++ X ++ skipn (4 * n) b)
    by (subst X; cbn [app]; symmetry; apply firstn_skipn).
  rewrite Sb at 1.
  erewrite bind_run
    by (exact (cbc_encrypt_loop_tail a n X [] (skipn (4 * n) b) iv [] w LX)).
  cbn [app].
  rewrite slice_spec by lia.
  replace (Z.to_nat (4 * Z.of_nat n + 4 - 4 * Z.of_nat n)) with 4%nat by lia.
  replace (Z.to_nat (4 * Z.of_nat n)) with (4 * n)%nat by lia.
  fold P2.
  erewrite bind_run by (apply encrypt_run, xor_length).
  rewrite get4 by apply (encrypt_block_words (sjcl.cipher_key a)).
  unfold ret. cbn [entropy trace].
  unfold CBC_encrypt_spec.
  rewrite Ps, (blocks_of_app X P2 n LX), CBC_spec_app, CBC_events_app.
  destruct P2 as [|y0 [|y1 [|y2 [|y3 [|y4 r]]]]]; try discriminate L2.
  cbn [blocks_of CBC_spec CBC_events].
  rewrite concat_app. cbn [List.concat]. rewrite app_nil_r, <- app_assoc.
  reflexivity.
Qed.

(** X12.  [sjcl.mode.cbc.encrypt] with its built-in padding encrypts
    the PKCS#7-padded plaintext: on byte-aligned input it returns what
    [encrypt] without padding returns for [eb.padding.pkcs7.pad] of
    that input, with the same cipher calls; the ciphertext is one
    block longer than the whole blocks of the plaintext. *)
Theorem cbc_encrypt_pads_pkcs7 a b iv w :
  byte_aligned b -> bitArray.bitLength b < 2 ^ 31 - 128 ->
  bitArray.bitLength iv = 128 ->
  exists p ct w',
    pkcs7.pad b None = Ok p
    /\ cbc_encrypt a b iv [] false w = (Ok ct, w')
    /\ cbc_encrypt a p iv [] true w = (Ok ct, w')
    /\ canon ct
    /\ bitArray.bitLength ct = 128 * (bitArray.bitLength b / 128 + 1).
Proof.
  intros Hb Hlt Hiv.
  destruct (cbc_encrypt_padded_run a b iv w Hb Hlt Hiv)
    as (p & m & Ep & Wp & Fp & Lp & Hm & Bp & _ & Run).
  destruct (ct_tag_canon (sjcl.cipher_key a) (sjcl.cipher_key a) p m Lp)
    as (_ & _ & Cc & _).
  destruct (CBC_spec_words (sjcl.cipher_key a) (blocks_of p) iv) as [Ci Cl].
  fold (CBC_encrypt_spec (sjcl.cipher_key a) iv p) in Ci, Cl.
  rewrite (blocks_of_length m p Lp) in Cl.
  eexists p, _, _. split; [exact Ep|]. split; [exact Run|]. split.
  - apply cbc_encrypt_run with (m := m); try assumption.
    rewrite (bitLength_full p Fp), Lp.
    pose proof Hb as [W _]. pose proof (bitLength_nonneg b W).
    change (2 ^ 31) with 2147483648 in *. Z.div_mod_to_equations. lia.
  - split; [now apply canon_int32|].
    rewrite bitLength_full by now apply forallb_int32_full.
    rewrite Cl. lia.
Qed.

(** X13.  [sjcl.mode.cbc.decrypt] undoes [sjcl.mode.cbc.encrypt] (both
    with the built-in padding): for byte-aligned plaintext and a
    128-bit IV, decrypting the ciphertext under the same key and IV
    returns the bits of the plaintext, and the plaintext itself when it
    is canonical. *)
Theorem cbc_decrypt_encrypt a b iv w :
  byte_aligned b -> bitArray.bitLength b < 2 ^ 31 - 128 ->
  bitArray.bitLength iv = 128 ->
  exists ct w1 r w2,
    cbc_encrypt a b iv [] false w = (Ok ct, w1)
    /\ cbc_decrypt a ct iv [] false w1 = (Ok r, w2)
    /\ bits r = bits b /\ (canon b -> r = b).
Proof.
  intros Hb Hlt Hiv. pose proof Hb as [W Al].
  pose proof (bitLength_nonneg b W) as N.
  destruct (cbc_encrypt_padded_run a b iv w Hb Hlt Hiv)
    as (p & m & Ep & Wp & Fp & Lp & Hm & Bp & Cp & Run).
  set (k := sjcl.cipher_key a) in *.
  set (ct := CBC_encrypt_spec k iv p) in *.
  destruct (CBC_spec_words k (blocks_of p) iv) as [Ci Cl].
  fold (CBC_encrypt_spec k iv p) in Ci, Cl. fold ct in Ci, Cl.
  rewrite (blocks_of_length m p Lp) in Cl.
  assert (M1 : (1 <= m)%nat)
    by (assert (0 <= bitArray.bitLength b / 128) by (apply Z.div_pos; lia); lia).
  assert (Lct : bitArray.bitLength ct < 2 ^ 31).
  { rewrite bitLength_full by now apply forallb_int32_full.
    rewrite Cl. change (2 ^ 31) with 2147483648 in *.
    Z.div_mod_to_equations. lia. }
  pose proof (cbc_decrypt_run a ct iv m
                (mkWorld (entropy w) (trace w ++ CBC_events k iv (blocks_of p)))
                (forallb_int32_full _ Ci) Cl M1 Lct Hiv) as Dec.
  fold k in Dec. subst ct.
  rewrite (decrypt_encrypt_spec k iv p m Lp) in Dec.
  set (q := List.map JS.ToInt32 p) in *.
  assert (Cq : canon q) by (apply canon_int32, map_ToInt32_int32).
  assert (Bq : bits q = pkcs7_pad_spec (bits b))
    by (subst q; rewrite bits_map_ToInt32 by exact Fp; exact Bp).
  assert (Lq : bitArray.bitLength q < 2 ^ 31).
  { rewrite <- (bits_length q (canon_wf _ Cq)), Bq, <- Bp, (bits_length p Wp).
    rewrite (bitLength_full p Fp), Lp.
    change (2 ^ 31) with 2147483648 in *. Z.div_mod_to_equations. lia. }
  pose proof (pkcs7_unpad_spec_ok q (canon_wf _ Cq) Lq) as U.
  rewrite Bq, pkcs7_unpad_pad_spec in U
    by (apply Nat2Z.inj; rewrite Nat2Z.inj_mod, (bits_length b W); exact Al).
  destruct U as (r & Er & Wr & Br & Cr).
  rewrite Er in Dec.
  eexists _, _, r, _. split; [exact Run|]. split; [exact Dec|].
  split; [exact Br|].
  intros Cb. apply canon_inj; auto.
Qed.

End CbcPadding.

(** [cbc_encrypt_pads_pkcs7] on the five bytes [1122334455] with the
    sample cipher: one block of ciphertext. *)
Lemma cbc_encrypt_pads_pkcs7_witness :
  let b := hex.toBits "1122334455" in
  let a := {| sjcl.cipher_key := [1; 2; 3; 4; 5; 6; 7; 8] |} in
  byte_aligned b /\ bitArray.bitLength b < 2 ^ 31 - 128
  /\ bitArray.bitLength [0; 0; 0; 0] = 128
  /\ exists p ct w',
       pkcs7.pad b None = Ok p
       /\ @cbc_encrypt xor_cipher a b [0; 0; 0; 0] [] false sample_world = (Ok ct, w')
       /\ @cbc_encrypt xor_cipher a p [0; 0; 0; 0] [] true sample_world = (Ok ct, w')
       /\ bitArray.bitLength ct = 128.
Proof.
  intros b a.
  assert (H1 : byte_aligned b) by (split; reflexivity).
  assert (H2 : bitArray.bitLength b < 2 ^ 31 - 128) by reflexivity.
  assert (H3 : bitArray.bitLength [0; 0; 0; 0] = 128) by reflexivity.
  split; [exact H1|]. split; [exact H2|]. split; [exact H3|].
  destruct (@cbc_encrypt_pads_pkcs7 xor_cipher xor_cipher_laws a b [0; 0; 0; 0]
              sample_world H1 H2 H3) as (p & ct & w' & Ep & E1 & E2 & _ & Lc).
  exists p, ct, w'. split; [exact Ep|]. split; [exact E1|]. split; [exact E2|].
  exact Lc.
Defined.

(** [cbc_decrypt_encrypt] on the five bytes [1122334455] with the
    sample cipher. *)
Lemma cbc_decrypt_encrypt_witness :
  let b := hex.toBits "1122334455" in
  let a := {| sjcl.cipher_key := [1; 2; 3; 4; 5; 6; 7; 8] |} in
  byte_aligned b /\ bitArray.bitLength b < 2 ^ 31 - 128
  /\ bitArray.bitLength [0; 0; 0; 0] = 128
  /\ exists ct w1 w2,
       @cbc_encrypt xor_cipher a b [0; 0; 0; 0] [] false sample_world = (Ok ct, w1)
       /\ @cbc_decrypt xor_cipher a ct [0; 0; 0; 0] [] false w1 = (Ok b, w2).
Proof.
  intros b a.
  assert (H1 : byte_aligned b) by (split; reflexivity).
  assert (H2 : bitArray.bitLength b < 2 ^ 31 - 128) by reflexivity.
  assert (H3 : bitArray.bitLength [0; 0; 0; 0] = 128) by reflexivity.
  split; [exact H1|]. split; [exact H2|]. split; [exact H3|].
  destruct (@cbc_decrypt_encrypt xor_cipher xor_cipher_laws a b [0; 0; 0; 0]
              sample_world H1 H2 H3) as (ct & w1 & r & w2 & E1 & E2 & _ & Cr).
  exists ct, w1, w2. split; [exact E1|].
  rewrite E2. f_equal. f_equal. apply Cr. reflexivity.
Defined.


(** ** Decryption and its padding check; the MAC of ragged input *)

Lemma bitLength_app a b :
  b <> [] ->
  bitArray.bitLength (a ++ b)
  = 32 * Z.of_nat (List.length a) + bitArray.bitLength b.
Proof.
  intros Hb. destruct (snoc_cases b) as [->|(init & l & ->)]; [contradiction|].
  rewrite app_assoc, !bitLength_snoc, length_app. lia.
Qed.

Section Decrypt.
Context {C : BlockCipher}.

(** The decryption loop either fails or appends four signed words per
    round. *)
Lemma cbc_decrypt_loop_shape a b n : forall i c out w out' w',
  cbc_decrypt_loop a b n i c out w = (Ok out', w') ->
  exists X, out' = out ++ X /\ List.length X = (4 * n)%nat /\ Forall int32 X.
Proof.
  induction n as [|n IH]; intros i c out w out' w' H.
  - cbn [cbc_decrypt_loop] in H. unfold ret in H. injection H as <- _.
    exists []. rewrite app_nil_r. repeat split. constructor.
  - cbn [cbc_decrypt_loop] in H. unfold bind in H.
    destruct (sjcl.decrypt a (JS.slice b i (i + 4)) w) as [[x|e] w1] eqn:D;
      [|discriminate].
    apply IH in H. destruct H as (X & -> & LX & IX).
    exists (misc.xor c x ++ X). split; [now rewrite app_assoc|].
    split.
    + rewrite length_app, xor_length, LX. lia.
    + apply Forall_app. split; [apply xor_int32s | exact IX].
Qed.

(** X14.  The padding check built into [sjcl.mode.cbc.decrypt] is
    [eb.padding.pkcs7.unpad]: decrypting with padding is decrypting
    without padding followed by [unpad], with the same result, the
    same errors and the same cipher calls, for every key, ciphertext,
    IV and associated data. *)
Theorem cbc_decrypt_unpads_pkcs7 a b c d w :
  Z.of_nat (List.length b) + 3 < 2 ^ 26 ->
  cbc_decrypt a b c d false w
  = bind (cbc_decrypt a b c d true)
         (fun out => lift (pkcs7.unpad out None)) w.
Proof.
  intros Hb. unfold cbc_decrypt.
  destruct (Nat.eqb (List.length d) 0); [|reflexivity].
  destruct (bitArray.bitLength c =? 128); [|reflexivity].
  destruct ((JS.and (bitArray.bitLength b) 127 =? 0)
            && negb (Nat.eqb (List.length b) 0)) eqn:G; [|reflexivity].
  apply andb_true_iff in G as [_ G]. apply negb_true_iff, Nat.eqb_neq in G.
  set (n := Z.to_nat (JS.ceil_div (Z.of_nat (List.length b)) 4)).
  assert (Hn : 1 <= Z.of_nat n /\ 4 * Z.of_nat n < 2 ^ 26).
  { subst n. unfold JS.ceil_div. change (2 ^ 26) with 67108864 in *.
    assert (0 < Z.of_nat (List.length b)) by lia.
    rewrite Z2Nat.id by (Z.div_mod_to_equations; lia).
    Z.div_mod_to_equations. lia. }
  destruct (cbc_decrypt_loop a b n 0 c [] w) as [[o|e] w'] eqn:Loop.
  2:{ unfold bind. rewrite Loop. reflexivity. }
  destruct (cbc_decrypt_loop_shape _ _ _ _ _ _ _ _ _ Loop) as (X & -> & LX & IX).
  cbn [app] in *. unfold bind. rewrite Loop. unfold ret, lift.
  pose proof (forallb_int32_full X IX) as Of.
  pose proof (bitLength_full X Of) as Ob. rewrite LX in Ob.
  unfold pkcs7.unpad. rewrite check_blocklen_default. cbn [rbind].
  rewrite and_127, Ob.
  replace (32 * Z.of_nat (4 * n)) with (Z.of_nat n * 128) by lia.
  rewrite Z.mod_mul by lia. rewrite LX.
  replace (Nat.eqb (4 * n) 0) with false by (symmetry; apply Nat.eqb_neq; lia).
  cbn [Z.eqb negb andb].
  change (2 ^ 26) with 67108864 in Hn.
  rewrite (sar_nonneg (Z.of_nat n * 128) 3) by (zconst; lia). change (2 ^ 3) with 8.
  replace (Z.of_nat n * 128 / 8) with (Z.of_nat n * 16)
    by (replace (Z.of_nat n * 128) with (Z.of_nat n * 16 * 8) by lia;
        now rewrite Z.div_mul).
  rewrite (sar_nonneg (Z.of_nat n * 16) 2) by (zconst; lia). change (2 ^ 2) with 4.
  replace (Z.of_nat n * 16 / 4) with (4 * Z.of_nat n)
    by (replace (Z.of_nat n * 16) with (4 * Z.of_nat n * 4) by lia;
        now rewrite Z.div_mul).
  destruct (negb _); [|reflexivity].
  destruct (bitArray.equal _ _); reflexivity.
Qed.

(** X15.  With the empty padding that ProcessData uses,
    [sjcl.misc.hmac_cbc.mac] covers the whole 16-byte blocks of its
    input only: up to 15 further bytes after the last whole block are
    neither padded nor refused, and do not change the tag, which is
    the CBC-MAC of the whole blocks as the standard defines it
    ([CBC_MAC_std]: blocks chained from a zero block by the bitwise
    exclusive or, the last cipher block being the tag). *)
Theorem mac_ignores_partial_block a data tail m w :
  forallb fullb data = true -> List.length data = (4 * m)%nat ->
  wf tail -> bitArray.bitLength tail < 128 ->
  let h := {| _cipher := a; _bs := 16; _padding := padding.empty |} in
  mac h (data ++ tail) w = mac h data w
  /\ mac h data w
     = (Ok (CBC_MAC_std (sjcl.cipher_key a) data),
        mkWorld (entropy w)
          (trace w ++ CBC_calls (sjcl.cipher_key a) [0; 0; 0; 0] (blocks_of data))).
Proof.
  intros Hf Hl Wt Lt h.
  assert (R : mac h data w
              = (Ok (CBC_MAC_spec (sjcl.cipher_key a) data),
                 mkWorld (entropy w)
                   (trace w ++ CBC_events (sjcl.cipher_key a) [0; 0; 0; 0]
                                 (blocks_of data))))
    by (apply mac_run with (m := m); assumption).
  split; [|now rewrite R, CBC_MAC_spec_std, CBC_events_calls]. rewrite R.
  subst h. unfold mac. cbn [_padding _cipher _bs padding.pad padding.empty].
  change (bind (lift (Ok (data ++ tail))) ?k w) with (k (data ++ tail) w). cbv beta.
  change (JS.shl 16 3) with 128. change (misc.getZeroBits (16 * 8)) with [0; 0; 0; 0].
  pose proof (bitLength_nonneg tail Wt) as Nt.
  assert (En : Z.to_nat (bitArray.bitLength (data ++ tail) / 128) = m).
  { destruct tail as [|t0 tl].
    - rewrite app_nil_r, (bitLength_full data Hf), Hl.
      replace (32 * Z.of_nat (4 * m)) with (Z.of_nat m * 128) by lia.
      rewrite Z.div_mul by lia. lia.
    - rewrite bitLength_app by discriminate. rewrite Hl.
      replace (32 * Z.of_nat (4 * m) + bitArray.bitLength (t0 :: tl))
        with (bitArray.bitLength (t0 :: tl) + Z.of_nat m * 128) by lia.
      rewrite Z.div_add by lia. rewrite Z.div_small by lia. lia. }
  rewrite En.
  exact (mac_loop_tail a m data [] tail [0; 0; 0; 0] w Hl).
Qed.

End Decrypt.

(** [cbc_decrypt_unpads_pkcs7] on one block with the sample cipher: the
    block decrypts to sixteen bytes [10], which the padding check
    strips, leaving the empty plaintext. *)
Lemma cbc_decrypt_unpads_pkcs7_witness :
  let a := {| sjcl.cipher_key := [1; 2; 3; 4; 5; 6; 7; 8] |} in
  let ct := [269488145; 269488146; 269488147; 269488148] in
  Z.of_nat (List.length ct) + 3 < 2 ^ 26
  /\ fst (@cbc_decrypt xor_cipher a ct [0; 0; 0; 0] [] false sample_world) = Ok []
  /\ @cbc_decrypt xor_cipher a ct [0; 0; 0; 0] [] false sample_world
     = bind (@cbc_decrypt xor_cipher a ct [0; 0; 0; 0] [] true)
            (fun out => lift (pkcs7.unpad out None)) sample_world.
Proof.
  intros a ct.
  assert (H : Z.of_nat (List.length ct) + 3 < 2 ^ 26) by reflexivity.
  split; [exact H|]. split; [reflexivity|].
  exact (@cbc_decrypt_unpads_pkcs7 xor_cipher a ct [0; 0; 0; 0] [] sample_world H).
Defined.

(** [mac_ignores_partial_block] on one block followed by the three
    bytes [aabbcc], with the sample cipher. *)
Lemma mac_ignores_partial_block_witness :
  let a := {| sjcl.cipher_key := [1; 2; 3; 4; 5; 6; 7; 8] |} in
  let h := {| _cipher := a; _bs := 16; _padding := padding.empty |} in
  let data := [1; 2; 3; 4] in
  let tail := hex.toBits "aabbcc" in
  forallb fullb data = true /\ wf tail /\ bitArray.bitLength tail < 128
  /\ @mac xor_cipher h (data ++ tail) sample_world
     = @mac xor_cipher h data sample_world
  /\ fst (@mac xor_cipher h data sample_world)
     = Ok (@CBC_MAC_std xor_cipher [1; 2; 3; 4; 5; 6; 7; 8] data).
Proof.
  intros a h data tail.
  assert (H1 : forallb fullb data = true) by reflexivity.
  assert (H2 : List.length data = (4 * 1)%nat) by reflexivity.
  assert (H3 : wf tail) by reflexivity.
  assert (H4 : bitArray.bitLength tail < 128) by reflexivity.
  split; [exact H1|]. split; [exact H3|]. split; [exact H4|].
  destruct (@mac_ignores_partial_block xor_cipher a data tail 1 sample_world
              H1 H2 H3 H4) as [E1 E2].
  split; [exact E1|]. exact (f_equal fst E2).
Defined.


(** ** Nonces and handles *)

Lemma get_opt_app (pre rest : list Z) x :
  JS.get_opt (pre ++ x :: rest) (Z.of_nat (List.length pre)) = Some x.
Proof.
  unfold JS.get_opt. destruct (Z.ltb_spec (Z.of_nat (List.length pre)) 0); [lia|].
  rewrite Nat2Z.id, nth_error_app2 by lia. now rewrite Nat.sub_diag.
Qed.

Lemma demangle_loop_map rest : forall pre out,
  comm.demangle_loop (pre ++ rest) (List.length rest)
    (Z.of_nat (List.length pre)) out
  = out ++ List.map (fun x => x - 0x01010101) rest.
Proof.
  induction rest as [|x rest IH]; intros pre out.
  - cbn. now rewrite app_nil_r.
  - cbn [List.length comm.demangle_loop List.map].
    rewrite get_opt_app.
    replace (pre ++ x :: rest) with ((pre ++ [x]) ++ rest)
      by now rewrite <- app_assoc.
    replace (Z.of_nat (List.length pre) + 1)
      with (Z.of_nat (List.length (pre ++ [x])))
      by (rewrite length_app; cbn [List.length]; lia).
    rewrite IH, <- app_assoc. reflexivity.
Qed.

(** X16.  On a nonce made of whole 32-bit words,
    [eb.comm.demangleNonce] subtracts [0x01010101] from every word and
    returns as many words as it was given; the differences are not
    reduced to 32 bits, and the bits they hold are those of the
    difference modulo [2^32]. *)
Theorem demangleNonce_whole_words nonce :
  forallb fullb nonce = true ->
  comm.demangleNonce nonce
  = Ok (List.map (fun x => x - 0x01010101) nonce)
  /\ bits32 (List.map (fun x => x - 0x01010101) nonce)
     = bits32 (List.map (fun x => JS.ToInt32 (x - 0x01010101)) nonce).
Proof.
  intros Hf. split.
  - unfold comm.demangleNonce.
    rewrite (bitLength_full nonce Hf), and_7.
    replace (32 * Z.of_nat (List.length nonce))
      with (Z.of_nat (List.length nonce) * 4 * 8) by lia.
    rewrite Z.mod_mul by lia. cbn [Z.eqb].
    replace (Z.of_nat (List.length nonce) * 4 * 8 / 32)
      with (Z.of_nat (List.length nonce))
      by (replace (Z.of_nat (List.length nonce) * 4 * 8)
            with (Z.of_nat (List.length nonce) * 32) by lia;
          now rewrite Z.div_mul).
    rewrite Nat2Z.id.
    pose proof (demangle_loop_map nonce [] []) as Lp. cbn [app List.length] in Lp.
    change (Z.of_nat 0) with 0 in Lp. rewrite Lp.
    destruct (Z.eqb_spec (32 * Z.of_nat (List.length nonce) + 32)
                (Z.of_nat (List.length nonce) * 4 * 8)) as [E|_]; [lia|].
    f_equal. unfold bitArray.clamp. rewrite length_app, length_map.
    cbn [List.length].
    destruct (Z.ltb_spec (Z.of_nat (List.length nonce + 1) * 32)
                (Z.of_nat (List.length nonce) * 4 * 8)) as [E|_]; [lia|].
    replace (JS.ceil_div (Z.of_nat (List.length nonce) * 4 * 8) 32)
      with (Z.of_nat (List.length nonce))
      by (unfold JS.ceil_div;
          replace (- (Z.of_nat (List.length nonce) * 4 * 8))
            with (- Z.of_nat (List.length nonce) * 32) by lia;
          rewrite Z.div_mul by lia; lia).
    rewrite slice_0 by lia. rewrite Nat2Z.id.
    rewrite firstn_exact by now rewrite length_map.
    rewrite and_31.
    replace (Z.of_nat (List.length nonce) * 4 * 8)
      with (Z.of_nat (List.length nonce) * 32) by lia.
    rewrite Z.mod_mul by lia. cbn [Z.eqb negb]. rewrite andb_false_r.
    reflexivity.
  - rewrite <- (bits32_map_ToInt32 (List.map _ nonce)), map_map. reflexivity.
Qed.

(** [demangleNonce_whole_words] on the mangled nonce [abababac
    cdcdcdce]. *)
Lemma demangleNonce_whole_words_witness :
  let nonce := hex.toBits "abababaccdcdcdce" in
  forallb fullb nonce = true
  /\ comm.demangleNonce nonce = Ok (hex.toBits "aaaaaaabcccccccd").
Proof.
  intros nonce.
  assert (H : forallb fullb nonce = true) by reflexivity.
  split; [exact H|].
  rewrite (proj1 (demangleNonce_whole_words nonce H)). reflexivity.
Defined.

Lemma match_00_hex8_sound s g r :
  comm.match_00_hex8 s = Some (g, r) ->
  s = ("00" ++ g ++ r)%string
  /\ String.length g = 8%nat /\ Str.forallb Str.is_hex g = true.
Proof.
  unfold comm.match_00_hex8.
  destruct s as [|c0 [|c1 t]]; [discriminate | |].
  { destruct c0 as [[] [] [] [] [] [] [] []]; discriminate. }
  destruct (Ascii.eqb_spec c0 "0"%char) as [->|N0].
  2:{ destruct c0 as [[] [] [] [] [] [] [] []]; try discriminate; contradiction. }
  destruct (Ascii.eqb_spec c1 "0"%char) as [->|N1].
  2:{ destruct c1 as [[] [] [] [] [] [] [] []]; try discriminate; contradiction. }
  destruct (Nat.eqb_spec (String.length (Str.take 8 t)) 8) as [L|]; [|discriminate].
  destruct (Str.forallb Str.is_hex (Str.take 8 t)) eqn:Hh; [|discriminate].
  cbn [andb]. intros E.
  assert (Eg : g = Str.take 8 t) by congruence.
  assert (Er : r = Str.drop 8 t) by congruence.
  rewrite Eg, Er.
  split; [|split; assumption].
  cbn [append]. now rewrite take_drop.
Qed.

Lemma match_tail_sound s id ty :
  comm.match_tail s = Some (id, ty) ->
  s = ("00" ++ id ++ match ty with Some t => "00" ++ t | None => "" end)%string
  /\ String.length id = 8%nat /\ Str.forallb Str.is_hex id = true
  /\ match ty with
     | Some t => String.length t = 8%nat /\ Str.forallb Str.is_hex t = true
     | None => True
     end.
Proof.
  unfold comm.match_tail.
  destruct (comm.match_00_hex8 s) as [[g r]|] eqn:M1; [|discriminate].
  apply match_00_hex8_sound in M1 as (-> & Lg & Hg).
  destruct (comm.match_00_hex8 r) as [[g2 r2]|] eqn:M2.
  - apply match_00_hex8_sound in M2 as (-> & Lg2 & Hg2).
    destruct r2.
    + intros [= <- <-]. rewrite append_nil_r. repeat split; assumption.
    + cbn [append]. discriminate.
  - destruct r; [|discriminate].
    intros [= <- <-]. repeat split; assumption.
Qed.

Lemma match_handle_sound s : forall key r,
  Str.forallb comm.is_key_char key = true ->
  comm.match_handle key s = Some r ->
  (key ++ s)%string
  = (comm.apiKey r ++ "00" ++ comm.uoId r
     ++ match comm.uoType r with Some t => "00" ++ t | None => "" end)%string
  /\ comm.apiKey r <> EmptyString
  /\ Str.forallb comm.is_key_char (comm.apiKey r) = true
  /\ String.length (comm.uoId r) = 8%nat
  /\ Str.forallb Str.is_hex (comm.uoId r) = true
  /\ match comm.uoType r with
     | Some t => String.length t = 8%nat /\ Str.forallb Str.is_hex t = true
     | None => True
     end.
Proof.
  induction s as [|c s IH]; intros key r Hk H; [discriminate|].
  cbn [comm.match_handle] in H.
  destruct (comm.is_key_char c) eqn:Hc; [|discriminate].
  assert (Hk' : Str.forallb comm.is_key_char (key ++ String c "") = true)
    by (rewrite str_forallb_app, Hk; cbn [Str.forallb]; now rewrite Hc).
  assert (Es : (key ++ String c s = (key ++ String c "") ++ s)%string)
    by (rewrite append_assoc; reflexivity).
  destruct (comm.match_tail s) as [[id ty]|] eqn:T.
  - injection H as <-. cbn [comm.apiKey comm.uoId comm.uoType].
    apply match_tail_sound in T as (-> & L & Hh & Ht).
    split; [exact Es|]. split.
    + destruct key; discriminate.
    + repeat split; assumption.
  - rewrite Es. now apply IH.
Qed.

(** X17.  Whatever [eb.comm.parseHandle] accepts has the form
    [apiKey ‖ "00" ‖ uoId ‖ ("00" ‖ uoType)?]: the parts it returns,
    joined again, are the handle it was given; the key is not empty and
    consists of letters, digits, [_] and [-]; the object id and, when
    present, the type are exactly eight hexadecimal digits. *)
Theorem parseHandle_sound h r :
  comm.parseHandle h = Ok r ->
  h = (comm.apiKey r ++ "00" ++ comm.uoId r
       ++ match comm.uoType r with Some t => "00" ++ t | None => "" end)%string
  /\ comm.apiKey r <> EmptyString
  /\ Str.forallb comm.is_key_char (comm.apiKey r) = true
  /\ String.length (comm.uoId r) = 8%nat
  /\ Str.forallb Str.is_hex (comm.uoId r) = true
  /\ match comm.uoType r with
     | Some t => String.length t = 8%nat /\ Str.forallb Str.is_hex t = true
     | None => True
     end.
Proof.
  unfold comm.parseHandle.
  destruct (comm.match_handle "" h) as [r'|] eqn:M; [|discriminate].
  intros [= <-].
  apply (match_handle_sound h "" r' eq_refl) in M.
  exact M.
Qed.

(** [parseHandle_sound] on a handle without the type part. *)
Lemma parseHandle_sound_witness :
  comm.parseHandle "TEST_API0000a00004"
  = Ok {| comm.apiKey := "TEST_API"; comm.uoId := "00a00004"; comm.uoType := None |}
  /\ ("TEST_API0000a00004" = "TEST_API" ++ "00" ++ "00a00004" ++ "")%string.
Proof.
  assert (H : comm.parseHandle "TEST_API0000a00004"
              = Ok {| comm.apiKey := "TEST_API"; comm.uoId := "00a00004";
                      comm.uoType := None |}) by reflexivity.
  split; [exact H|].
  exact (proj1 (parseHandle_sound _ _ H)).
Defined.

Lemma hex_alphabet_at i :
  0 <= i < 16 ->
  Str.substr "0123456789abcdef" i 1 = String (Str.hex_char i) "".
Proof.
  intros Hi. rewrite <- (Z2Nat.id i) by lia.
  assert (Hn : (Z.to_nat i < 16)%nat) by lia.
  generalize dependent (Z.to_nat i). intros n Hn.
  do 16 (destruct n as [|n]; [reflexivity|]). lia.
Qed.

Lemma low_digit x : JS.and (JS.or x 0) 0xffff mod 16 = x mod 16.
Proof.
  rewrite or_0_r. change 0xffff with (2 ^ 16 - 1). rewrite and_ones by lia.
  unfold JS.ToInt32. change (2 ^ 16) with 65536.
  change (2 ^ 31) with 2147483648. change (2 ^ 32) with 4294967296.
  Z.div_mod_to_equations. lia.
Qed.

Lemma concat_digits_length (l : list Z) :
  String.length
    (Str.concat (List.map (fun x => String (Str.hex_char (x mod 16)) "") l))
  = List.length l
  /\ Str.forallb Str.is_hex
       (Str.concat (List.map (fun x => String (Str.hex_char (x mod 16)) "") l))
     = true.
Proof.
  induction l as [|x l [IH1 IH2]]; [split; reflexivity|].
  cbn [List.map Str.concat append String.length List.length Str.forallb].
  rewrite IH1, IH2, is_hex_char by (apply Z.mod_pos_bound; lia).
  split; reflexivity.
Qed.

(** The run of [genHexNonce] when the generator delivers. *)
Lemma genHexNonce_run n w :
  (n <= List.length (entropy w))%nat ->
  processData.genHexNonce n w
  = (Ok (Str.concat (List.map (fun x => String (Str.hex_char (x mod 16)) "")
                       (firstn n (entropy w)))),
     mkWorld (skipn n (entropy w)) (trace w)).
Proof.
  intros Hn. unfold processData.genHexNonce, processData.genNonce, bind,
    sjcl.randomWords.
  destruct (Nat.ltb_spec (List.length (entropy w)) n); [lia|].
  unfold ret. f_equal. f_equal. f_equal.
  rewrite map_map. apply map_ext. intros x.
  change (Z.of_nat (String.length "0123456789abcdef")) with 16.
  rewrite low_digit. apply hex_alphabet_at. apply Z.mod_pos_bound. lia.
Qed.

(** X18.  [eb.misc.genHexNonce(length)] draws one word of the generator
    per character and returns [length] hexadecimal digits, the i-th
    being the lowest hexadecimal digit of the i-th word drawn. *)
Theorem genHexNonce_shape n w :
  (n <= List.length (entropy w))%nat ->
  exists s,
    processData.genHexNonce n w
    = (Ok s, mkWorld (skipn n (entropy w)) (trace w))
    /\ String.length s = n
    /\ Str.forallb Str.is_hex s = true
    /\ s = Str.concat (List.map (fun x => String (Str.hex_char (x mod 16)) "")
                         (firstn n (entropy w))).
Proof.
  intros Hn. eexists. split; [apply genHexNonce_run; exact Hn|].
  destruct (concat_digits_length (firstn n (entropy w))) as [L H].
  split; [|split; [exact H | reflexivity]].
  rewrite L, length_firstn. lia.
Qed.

(** [genHexNonce_shape] for four characters on the words [0x1a 0x2b
    0x3c 0x4d 0x5e]. *)
Lemma genHexNonce_shape_witness :
  let w := mkWorld [0x1a; 0x2b; 0x3c; 0x4d; 0x5e] [] in
  (4 <= List.length (entropy w))%nat
  /\ processData.genHexNonce 4 w = (Ok "abcd"%string, mkWorld [0x5e] []).
Proof.
  intros w.
  assert (H : (4 <= List.length (entropy w))%nat) by (cbn; lia).
  split; [exact H|].
  destruct (genHexNonce_shape 4 w H) as (s & E & _ & _ & Es).
  rewrite E, Es. reflexivity.
Defined.

Section DefaultNonce.
Context {C : BlockCipher}.

(** X19.  When the builder has no nonce,
    [processDataRequestBodyBuilder.build] draws 16 words, takes the 16
    hexadecimal digits [genHexNonce] makes of them as the nonce (8
    bytes, as the frame requires) and goes on exactly as the builder
    that was given this nonce. *)
Theorem build_generates_nonce (this : processData.builder) plainData requestData w :
  processData.truthy (processData.nonce this) = false ->
  (16 <= List.length (entropy w))%nat ->
  exists s nb,
    processData.genHexNonce 16 w
    = (Ok s, mkWorld (skipn 16 (entropy w)) (trace w))
    /\ String.length s = 16%nat
    /\ misc.inputToBits (InStr s) = Ok nb
    /\ canon nb /\ bitArray.bitLength nb = 64
    /\ processData.build this plainData requestData w
       = processData.build
           {| processData.nonce := InStr s;
              processData.aesKey := processData.aesKey this;
              processData.macKey := processData.macKey this;
              processData.userObjectId := processData.userObjectId this;
              processData.reqType := processData.reqType this |}
           plainData requestData (mkWorld (skipn 16 (entropy w)) (trace w)).
Proof.
  intros Ht Hn.
  pose proof (genHexNonce_run 16 w Hn) as E.
  destruct (concat_digits_length (firstn 16 (entropy w))) as [L H].
  rewrite length_firstn in L.
  replace (Nat.min 16 (List.length (entropy w))) with 16%nat in L by lia.
  set (s := Str.concat (List.map (fun x => String (Str.hex_char (x mod 16)) "")
                          (firstn 16 (entropy w)))) in *.
  assert (Ne : s <> EmptyString) by (destruct s; [discriminate L | discriminate]).
  destruct (toBits_spec s H) as [Cn Bn].
  exists s, (hex.toBits s).
  split; [exact E|]. split; [exact L|]. split.
  { unfold misc.inputToBits. now rewrite (hex_string_hex s Ne H). }
  split; [exact Cn|]. split.
  { rewrite <- (bits_length _ (canon_wf _ Cn)), Bn, hex_bits_length, L. reflexivity. }
  unfold processData.build. rewrite Ht.
  cbn [processData.nonce processData.aesKey processData.macKey
       processData.userObjectId processData.reqType].
  replace (processData.truthy (InStr s)) with true
    by (destruct s; [contradiction | reflexivity]).
  unfold bind at 1. unfold bind at 1. rewrite E.
  unfold bind at 2. unfold ret at 1 2. reflexivity.
Qed.

End DefaultNonce.

(** [build_generates_nonce] for the sample builder without its nonce,
    on the sample generator, whose words all end in the digit 4. *)
Lemma build_generates_nonce_witness :
  let this := {| processData.nonce := InStr "";
                 processData.aesKey := processData.aesKey sample_builder;
                 processData.macKey := processData.macKey sample_builder;
                 processData.userObjectId := processData.userObjectId sample_builder;
                 processData.reqType := processData.reqType sample_builder |} in
  processData.truthy (processData.nonce this) = false
  /\ (16 <= List.length (entropy sample_world))%nat
  /\ processData.genHexNonce 16 sample_world
     = (Ok "4444444444444444"%string, mkWorld (List.repeat 0x01020304 112) [])
  /\ @processData.build xor_cipher this [] (hex.toBits "1122334455") sample_world
     = @processData.build xor_cipher
         {| processData.nonce := InStr "4444444444444444";
            processData.aesKey := processData.aesKey sample_builder;
            processData.macKey := processData.macKey sample_builder;
            processData.userObjectId := processData.userObjectId sample_builder;
            processData.reqType := processData.reqType sample_builder |}
         [] (hex.toBits "1122334455") (mkWorld (List.repeat 0x01020304 112) []).
Proof.
  intros this.
  assert (H1 : processData.truthy (processData.nonce this) = false) by reflexivity.
  assert (H2 : (16 <= List.length (entropy sample_world))%nat) by (cbn; lia).
  split; [exact H1|]. split; [exact H2|].
  destruct (@build_generates_nonce xor_cipher this [] (hex.toBits "1122334455")
              sample_world H1 H2) as (s & nb & E & _ & _ & _ & _ & B).
  assert (Es : s = "4444444444444444"%string).
  { assert (G : processData.genHexNonce 16 sample_world
                = (Ok "4444444444444444"%string,
                   mkWorld (List.repeat 0x01020304 112) [])) by reflexivity.
    rewrite G in E. congruence. }
  split; [reflexivity|].
  rewrite B, Es. reflexivity.
Defined.


(** ** The object id and the MAC fields of a parsed response *)

Section ParseRunId.
Context {C : BlockCipher} {L : BlockCipherLaws C}.

(** The run of the parser on a mirrored response, with the object id
    it reads by [extract32] at bit offset 8 of the decrypted body. *)
Lemma parse_run_object_id (ps : processData.parser) H len P q m ek mk U m0 m1 D w :
  Str.forallb Str.is_hex H = true ->
  0 <= len < 2 ^ 16 -> Z.of_nat (List.length P) = 8 * len ->
  canon q -> List.length q = (4 * m)%nat -> (1 <= m)%nat ->
  128 * Z.of_nat m < 2 ^ 31 ->
  hex_bits H
  = bits_from len 15 16 ++ P ++ bits (CBC_encrypt_spec ek [0; 0; 0; 0] q)
    ++ bits (CBC_MAC_spec mk (CBC_encrypt_spec ek [0; 0; 0; 0] q)) ->
  bits q = pkcs7_pad_spec (byte_bits 0xf1 ++ U ++ bits [m0; m1] ++ D) ->
  List.length U = 32%nat -> int32 m0 -> int32 m1 ->
  (List.length D mod 8 = 0)%nat ->
  misc.inputToBits (processData.parser_aesKey ps) = Ok ek ->
  List.length ek = 8%nat ->
  misc.inputToBits (processData.parser_macKey ps) = Ok mk ->
  List.length mk = 8%nat ->
  let CT := CBC_encrypt_spec ek [0; 0; 0; 0] q in
  let TAG := CBC_MAC_spec mk CT in
  exists resp,
    processData.parse ps
      {| processData.json_status := Some "9000"%string;
         processData.json_statusdetail := None;
         processData.json_function := Some "ProcessData"%string;
         processData.json_result := Some (H ++ "_")%string |} w
    = (Ok resp,
       mkWorld (entropy w)
         (trace w ++ CBC_events mk [0; 0; 0; 0] (blocks_of CT)
                  ++ List.map (AesDecrypt ek) (blocks_of CT)))
    /\ processData.statusCode resp = Some 0x9000
    /\ canon (processData.plainData resp)
    /\ bits (processData.plainData resp) = P
    /\ canon (processData.protectedData resp)
    /\ bits (processData.protectedData resp) = D
    /\ processData.resp_nonce resp = [m0 - 0x01010101; m1 - 0x01010101]
    /\ processData.resp_mac resp = TAG
    /\ processData.computedMac resp = TAG
    /\ exists Dd,
         wf Dd
         /\ bits Dd = byte_bits 0xf1 ++ U ++ bits [m0; m1] ++ D
         /\ processData.userObjectID resp = bitArray.extract32 Dd 8.
Proof.
  intros Hh Hlen LP Cq Lq Hm Bm HB Bq LU I0 I1 LD Hek Lek Hmk Lmk CT TAG.
  fold CT in HB. fold TAG in HB.
  destruct (ct_tag_canon ek mk q m Lq) as (Ci & Cl & Cc & Cb & Tc & Tb).
  fold CT in Ci, Cl, Cc, Cb, Tc, Tb. fold TAG in Tc, Tb.
  destruct (body_parse H len P (bits CT ++ bits TAG) Hh Hlen LP HB)
    as (X1 & _ & (X2 & X3) & (X4 & X5)).
  destruct (prot_split _ CT TAG X4 Cc Tc X5 Tb) as (Y0 & Y1 & Y2).
  (* the decrypted frame *)
  assert (Qi : Forall int32 q).
  { apply canon_full_int32; [assumption|].
    pose proof (bits_length q (canon_wf _ Cq)) as Lb.
    destruct (wf_full_length q (Z.of_nat m) (canon_wf _ Cq)) as (Ff & _ & _).
    - assert (Ef : forallb fullb q = true).
      { apply wf_aligned_full; [now apply canon_wf|].
        destruct (pkcs7_pad_spec_length
                    (byte_bits 0xf1 ++ U ++ bits [m0; m1] ++ D)) as [P128 _].
        - rewrite !length_app, LU.
          rewrite (bits_full [m0; m1])
            by (apply forallb_int32_full, Forall_cons;
                [assumption | apply Forall_cons; [assumption | apply Forall_nil]]).
          change (List.length (byte_bits 241)) with 8%nat.
          change (List.length (bits32 [m0; m1])) with 64%nat.
          pose proof (Nat.div_mod_eq (List.length D) 8) as Dm. rewrite LD in Dm.
          replace (Z.of_nat (8 + (32 + (64 + List.length D))))
            with ((13 + Z.of_nat (List.length D / 8)) * 8) by lia.
          apply Z.mod_mul. lia.
        - rewrite <- Bq, Lb in P128.
          pose proof (Z.div_mod (bitArray.bitLength q) 128 ltac:(lia)) as Dq.
          rewrite P128 in Dq. rewrite Dq.
          replace (128 * (bitArray.bitLength q / 128) + 0)
            with (4 * (bitArray.bitLength q / 128) * 32) by lia.
          apply Z.mod_mul. lia. }
      rewrite (bitLength_full q Ef), Lq. lia.
    - rewrite (bitLength_full q Ff), Lq.
      replace (32 * Z.of_nat (4 * m)) with (4 * Z.of_nat m * 32) by lia.
      apply Z.mod_mul. lia. }
  pose proof (forallb_int32_full q Qi) as Qf.
  pose proof (bitLength_full q Qf) as Qb. rewrite Lq in Qb.
  pose proof (decrypt_encrypt_spec ek [0; 0; 0; 0] q m Lq) as Dq.
  fold CT in Dq. rewrite (map_ToInt32_id q Qi) in Dq.
  set (X := byte_bits 0xf1 ++ U ++ bits [m0; m1] ++ D) in *.
  assert (LM : List.length (bits [m0; m1]) = 64%nat).
  { rewrite bits_full
      by (apply forallb_int32_full, Forall_cons;
          [assumption | apply Forall_cons; [assumption | apply Forall_nil]]).
    reflexivity. }
  assert (LX : (List.length X mod 8 = 0)%nat).
  { unfold X. rewrite !length_app, LU, LM.
    change (List.length (byte_bits 241)) with 8%nat.
    pose proof (Nat.div_mod_eq (List.length D) 8) as Dm. rewrite LD in Dm.
    replace (8 + (32 + (64 + List.length D)))%nat
      with ((13 + List.length D / 8) * 8)%nat by lia.
    apply Nat.Div0.mod_mul. }
  pose proof (pkcs7_unpad_spec_ok q (canon_wf _ Cq) ltac:(lia)) as Un.
  rewrite Bq, (pkcs7_unpad_pad_spec X LX) in Un.
  destruct Un as (Dd & EDd & WDd & BDd & CDd). specialize (CDd Cq).
  pose proof (bits_length Dd WDd) as LDd.
  rewrite BDd in LDd. unfold X in LDd, BDd.
  rewrite !length_app, LU, LM in LDd.
  change (List.length (byte_bits 241)) with 8%nat in LDd.
  (* the fields of the decrypted frame *)
  assert (E1 : bitArray.extract Dd 0 8 = 0xf1).
  { apply (extract_0_value Dd 8 0xf1 (U ++ bits [m0; m1] ++ D));
      [assumption | lia | split; [lia | reflexivity] | exact BDd]. }
  assert (E2 : bitArray.bitSlice Dd (5 * 8) (Some (5 * 8 + 8 * 8)) = [m0; m1]).
  { change (5 * 8) with 40. change (40 + 8 * 8) with 104.
    apply canon_inj.
    - apply bitSlice_canon; [assumption | lia | lia].
    - apply canon_int32, Forall_cons;
        [assumption | apply Forall_cons; [assumption | apply Forall_nil]].
    - destruct (bitSlice_spec Dd 40 104 WDd ltac:(lia) ltac:(lia)) as [_ B].
      rewrite B, BDd.
      replace (byte_bits 241 ++ U ++ bits [m0; m1] ++ D)
        with ((byte_bits 241 ++ U) ++ bits [m0; m1] ++ D)
        by now rewrite <- app_assoc.
      rewrite skipn_exact by (rewrite length_app, LU; reflexivity).
      now apply firstn_exact. }
  assert (E3 : canon (bitArray.bitSlice Dd (5 * 8 + 8 * 8) None)
               /\ bits (bitArray.bitSlice Dd (5 * 8 + 8 * 8) None) = D).
  { change (5 * 8 + 8 * 8) with 104. split.
    - apply bitSlice_from_canon; [assumption | lia].
    - destruct (bitSlice_from_spec Dd 104 WDd ltac:(lia)) as [_ B].
      rewrite B, BDd.
      replace (byte_bits 241 ++ U ++ bits [m0; m1] ++ D)
        with (((byte_bits 241 ++ U) ++ bits [m0; m1]) ++ D)
        by now rewrite <- !app_assoc.
      apply skipn_exact. rewrite !length_app, LU, LM. reflexivity. }
  (* running the parser *)
  eexists. split.
  { unfold processData.parse, processData.parseCommonHeaders.
    cbn [processData.json_status processData.json_function
         processData.json_statusdetail processData.json_result
         processData.nonempty processData.or_empty andb].
    change (Str.parseInt16 "9000") with (Some 36864).
    match goal with
    | |- bind (lift (Ok ?r)) ?k w = _ => change (bind (lift (Ok r)) k w) with (k r w)
    end.
    cbv beta.
    cbn [processData.isCodeOk processData.statusCode processData.raw_result
         processData.statusDetail processData.function_name].
    change (36864 =? 36864) with true. cbn [negb].
    match goal with
    | |- bind (lift (Ok ?r)) ?k w = _ => change (bind (lift (Ok r)) k w) with (k r w)
    end.
    cbv beta.
    rewrite (response_body H Hh).
    change (2 * 8) with 16. rewrite X1.
    replace (16 + len * 8) with (16 + 8 * len) by lia.
    rewrite (bind_lift _ _ w ek Hek), (bind_lift _ _ w mk Hmk).
    rewrite (bind_lift _ _ w _ (aes_ok ek Lek)), (bind_lift _ _ w _ (aes_ok mk Lmk)).
    change (16 * 8) with 128. rewrite Y1, Y2.
    rewrite and_127, Cb.
    replace (128 * Z.of_nat m) with (Z.of_nat m * 128) by lia.
    rewrite Z.mod_mul by lia. change (0 =? 0) with true. cbv iota.
    rewrite Tb. change (128 =? 128) with true. cbv iota.
    erewrite bind_run
      by (apply (mac_run _ CT m); [apply forallb_int32_full; exact Ci | exact Cl]).
    cbn [sjcl.cipher_key]. fold TAG. rewrite equal_refl. cbv iota.
    erewrite bind_run.
    2:{ rewrite (cbc_decrypt_run _ CT [0; 0; 0; 0] m);
          [| apply forallb_int32_full; exact Ci | exact Cl | exact Hm
           | rewrite Cb; exact Bm | reflexivity].
        cbn [sjcl.cipher_key]. rewrite Dq, EDd. reflexivity. }
    rewrite E1. change (241 =? 241) with true. cbv iota.
    rewrite E2, (bind_lift _ _ _ _ (demangle_two m0 m1 (int32_full m1 I1))).
    unfold ret. cbn [entropy trace]. rewrite <- app_assoc. reflexivity. }
  cbn [processData.statusCode processData.plainData processData.protectedData
       processData.resp_nonce processData.resp_mac processData.computedMac
       processData.userObjectID].
  split; [reflexivity|]. split; [exact X2|]. split; [exact X3|].
  split; [apply E3|]. split; [apply E3|].
  split; [reflexivity|]. split; [reflexivity|]. split; [reflexivity|].
  exists Dd. split; [exact WDd|]. split; [exact BDd | reflexivity].
Qed.

End ParseRunId.

Section ObjectId.
Context {C : BlockCipher} {L : BlockCipherLaws C}.

(** X20.  In the ProcessData round trip the parsed response carries the
    object id of the request, read by [extract32] at bit offset 8 and
    therefore as a signed 32-bit number (an id of [2^31] or more comes
    back negative), and its two MAC fields are equal 128-bit tags, so
    that [isMacOk] holds. *)
Theorem process_data_echoes_object_id (this : processData.builder)
    plainData userData w nb uoid ek mk :
  processData.truthy (processData.nonce this) = true ->
  misc.inputToBits (processData.nonce this) = Ok nb ->
  wf nb -> bitArray.bitLength nb = 64 ->
  misc.inputToHexNum (processData.userObjectId this) = Ok uoid ->
  0 <= uoid < 2 ^ 32 ->
  misc.inputToBits (processData.aesKey this) = Ok ek -> List.length ek = 8%nat ->
  misc.inputToBits (processData.macKey this) = Ok mk -> List.length mk = 8%nat ->
  byte_aligned userData -> bitArray.bitLength userData < 2 ^ 30 ->
  byte_aligned plainData -> byte_length plainData < 2 ^ 16 ->
  exists wire w1 resp w2,
    processData.build this plainData userData w = (Ok wire, w1)
    /\ processData.parse
         {| processData.parser_aesKey := processData.aesKey this;
            processData.parser_macKey := processData.macKey this |}
         (loopback ek mk (processData.reqType this) wire) w1
       = (Ok resp, w2)
    /\ processData.userObjectID resp = JS.ToInt32 uoid
    /\ processData.isMacOk resp = true
    /\ processData.resp_mac resp = processData.computedMac resp
    /\ bitArray.bitLength (processData.resp_mac resp) = 128.
Proof.
  intros Ht Hnb Wnb Lnb Hu Bu Hek Lek Hmk Lmk Hr Lr Hp Lp.
  destruct (build_run this plainData userData w nb uoid ek mk
              Ht Hnb Wnb Lnb Hu Bu Hek Lek Hmk Lmk Hr Lr)
    as (p & m & Wp & Fp & Lenp & Hm & Bp & _ & E).
  cbv zeta in E.
  destruct Hp as [Wpl Apl]. destruct Hr as [Wr Ar].
  pose proof (bitLength_nonneg plainData Wpl) as Npl.
  pose proof (bitLength_nonneg userData Wr) as Nr.
  assert (Hlen : 0 <= byte_length plainData < 2 ^ 16)
    by (split; [apply Z.div_pos; lia | assumption]).
  assert (EX : sprintf.X 4 (JS.trunc_div (bitArray.bitLength plainData) 8)
               = Str.toUpperCase (hexn 4 (byte_length plainData))).
  { unfold JS.trunc_div. rewrite Z.quot_div_nonneg by lia.
    fold (byte_length plainData). now apply sprintf_X4. }
  rewrite EX in E.
  assert (LU : List.length (word_bits 32 uoid) = 32%nat) by apply word_bits_length.
  assert (LN : List.length (bits nb) = 64%nat)
    by (pose proof (bits_length nb Wnb); lia).
  destruct (loopback_spec (processData.reqType this) plainData p m ek mk
              (word_bits 32 uoid) (bits nb) (bits userData)
              (conj Wpl Apl) Lp Wp Fp Lenp Bp LU LN)
    as (q & n0 & n1 & H & EL & Hh & HB & Cq & Lq & I0 & I1 & BN & Bq).
  assert (Bm : 128 * Z.of_nat m < 2 ^ 31).
  { pose proof (bits_length p Wp) as Lb.
    rewrite (bitLength_full p Fp), Lenp in Lb.
    destruct (pkcs7_pad_spec_length
                (byte_bits 0x1f ++ word_bits 32 uoid ++ bits nb ++ bits userData))
      as [_ Rg].
    - rewrite !length_app, LU, LN. change (List.length (byte_bits 31)) with 8%nat.
      pose proof (bits_length userData Wr) as Lbr.
      replace (Z.of_nat (8 + (32 + (64 + List.length (bits userData)))))
        with (bitArray.bitLength userData + 13 * 8) by lia.
      rewrite Z.mod_add by lia. exact Ar.
    - rewrite <- Bp in Rg. rewrite !length_app, LU, LN in Rg.
      change (List.length (byte_bits 31)) with 8%nat in Rg.
      pose proof (bits_length userData Wr) as Lbr.
      zconst. change (2 ^ 30) with 1073741824 in Lr. lia. }
  assert (LD : (List.length (bits userData) mod 8 = 0)%nat).
  { pose proof (bits_length userData Wr) as Lbr.
    apply Nat2Z.inj. rewrite Nat2Z.inj_mod, Lbr. exact Ar. }
  assert (LP : Z.of_nat (List.length (bits plainData)) = 8 * byte_length plainData).
  { rewrite (bits_length plainData Wpl). unfold byte_length.
    pose proof (Z.div_mod (bitArray.bitLength plainData) 8 ltac:(lia)). lia. }
  destruct (parse_run_object_id
              {| processData.parser_aesKey := processData.aesKey this;
                 processData.parser_macKey := processData.macKey this |}
              H (byte_length plainData) (bits plainData) q m ek mk
              (word_bits 32 uoid) (mangle_word n0) (mangle_word n1)
              (bits userData)
              (mkWorld (entropy w)
                 (trace w ++ CBC_events ek [0; 0; 0; 0] (blocks_of p)
                  ++ CBC_events mk [0; 0; 0; 0]
                       (blocks_of (CBC_encrypt_spec ek [0; 0; 0; 0] p))))
              Hh Hlen LP Cq Lq Hm Bm HB Bq LU
              (or_int32 _ _) (or_int32 _ _) LD Hek Lek Hmk Lmk)
    as (resp & EP & _ & _ & _ & _ & _ & _ & M1 & M2 & Dd & WDd & BDd & EU).
  destruct (ct_tag_canon ek mk q m Lq) as (_ & _ & _ & _ & Tc & Tb).
  (* the object id *)
  assert (LDd : bitArray.bitLength Dd
                = 104 + bitArray.bitLength userData).
  { rewrite <- (bits_length Dd WDd), BDd, !length_app, LU.
    change (List.length (byte_bits 241)) with 8%nat.
    rewrite (bits_full [mangle_word n0; mangle_word n1])
      by (apply forallb_int32_full;
          repeat (apply Forall_cons; [apply or_int32|]); apply Forall_nil).
    change (List.length (bits32 [mangle_word n0; mangle_word n1])) with 64%nat.
    pose proof (bits_length userData Wr). lia. }
  destruct (extract32_field Dd 8 WDd ltac:(lia) ltac:(lia))
    as (B32 & _ & S32).
  { rewrite LDd. zconst. change (2 ^ 30) with 1073741824 in Lr. lia. }
  assert (EU' : processData.userObjectID resp = JS.ToInt32 uoid).
  { rewrite EU.
    rewrite <- (ToInt32_id (bitArray.extract32 Dd 8)) by (apply S32; discriminate).
    apply word_bits_32_inj. rewrite B32, BDd.
    change (Z.to_nat 8) with 8%nat.
    rewrite (skipn_exact (byte_bits 241)) by reflexivity.
    now apply firstn_exact. }
  eexists _, _, resp, _.
  split; [exact E|]. split; [rewrite EL; exact EP|].
  split; [exact EU'|].
  split; [|split; [now rewrite M1, M2 | rewrite M1; exact Tb]].
  unfold processData.isMacOk. rewrite M1, M2, Tb.
  change (16 * 8) with 128. rewrite Z.eqb_refl, equal_refl. reflexivity.
Qed.

End ObjectId.

(** [process_data_echoes_object_id] for the sample builder, whose
    object id is [0xEE01]. *)
Lemma process_data_echoes_object_id_witness :
  processData.truthy (processData.nonce sample_builder) = true
  /\ byte_aligned (hex.toBits "1122334455")
  /\ exists wire w1 resp w2,
       @processData.build xor_cipher sample_builder [] (hex.toBits "1122334455")
         sample_world = (Ok wire, w1)
       /\ @processData.parse xor_cipher
            {| processData.parser_aesKey := processData.aesKey sample_builder;
               processData.parser_macKey := processData.macKey sample_builder |}
            (@loopback xor_cipher [0; 0; 0; 0; 0; 0; 0; 0] [0; 0; 0; 0; 0; 0; 0; 0]
               "PLAINAES" wire) w1
          = (Ok resp, w2)
       /\ processData.userObjectID resp = 0xEE01
       /\ processData.isMacOk resp = true.
Proof.
  assert (H1 : processData.truthy (processData.nonce sample_builder) = true)
    by reflexivity.
  assert (H2 : byte_aligned []) by (split; reflexivity).
  assert (H3 : byte_length [] < 2 ^ 16) by reflexivity.
  destruct (@process_data_echoes_object_id xor_cipher xor_cipher_laws sample_builder []
              (hex.toBits "1122334455") sample_world
              [-1431651397; -858989091] 0xEE01
              [0; 0; 0; 0; 0; 0; 0; 0] [0; 0; 0; 0; 0; 0; 0; 0]
              H1 sample_nonce_bits eq_refl eq_refl eq_refl sample_uoid_range
              sample_key_bits eq_refl sample_key_bits eq_refl
              sample_request_aligned eq_refl H2 H3)
    as (wire & w1 & resp & w2 & E1 & E2 & E3 & E4 & _).
  refine (conj H1 (conj sample_request_aligned _)).
  exists wire, w1, resp, w2.
  refine (conj E1 (conj E2 (conj _ E4))). rewrite E3. reflexivity.
Defined.


(** ** Conversions between numbers, hexadecimal strings and bitArrays *)

Lemma sprintf_x0 n :
  0 <= n < 2 ^ 32 -> sprintf.x 0 n = Str.toString16 n.
Proof.
  intros Hn. unfold sprintf.x, sprintf.pad_left.
  rewrite ToUint32_id by exact Hn. reflexivity.
Qed.

(** X21.  [eb.misc.inputToHex] is undone by the two readers: the
    hexadecimal string written for a number below [2^32] is read back
    by [inputToHexNum] as that number, and the string written for a
    non-empty canonical bitArray of whole hexadecimal digits is read
    back by [inputToBits] as that bitArray. *)
Theorem inputToHex_round_trip n a :
  0 <= n < 2 ^ 32 ->
  canon a -> a <> [] -> bitArray.bitLength a mod 4 = 0 ->
  (exists s, misc.inputToHex (InNum n) = Ok s
             /\ Str.forallb Str.is_hex s = true
             /\ misc.inputToHexNum (InStr s) = Ok n)
  /\ (exists s, misc.inputToHex (InBits a) = Ok s
                /\ Str.forallb Str.is_hex s = true
                /\ Z.of_nat (String.length s) = bitArray.bitLength a / 4
                /\ misc.inputToBits (InStr s) = Ok a).
Proof.
  intros Hn Ca Ne H4. split.
  - destruct (toString16_hexn n ltac:(lia)) as (k & K1 & K2 & _ & Ek).
    exists (hexn k n). unfold misc.inputToHex.
    rewrite sprintf_x0, Ek by exact Hn.
    split; [reflexivity|]. split; [apply hexn_is_hex|].
    destruct k as [|k]; [lia|].
    apply inputToHexNum_hexn. lia.
  - pose proof (canon_wf a Ca) as W.
    destruct (fromBits_spec a W H4) as (B & Hh & Ls).
    exists (hex.fromBits a). split; [reflexivity|].
    split; [exact Hh|]. split; [exact Ls|].
    assert (Nes : hex.fromBits a <> EmptyString).
    { intros E. rewrite E in Ls. cbn in Ls.
      assert (bitArray.bitLength a <> 0)
        by (intros Z0; now apply (wf_empty_iff a W) in Z0).
      pose proof (bitLength_nonneg a W).
      Z.div_mod_to_equations. lia. }
    unfold misc.inputToBits. rewrite (hex_string_hex _ Nes Hh). cbn [rbind].
    f_equal. destruct (toBits_spec (hex.fromBits a) Hh) as [Ct Bt].
    apply canon_inj; [assumption | assumption | now rewrite Bt].
Qed.

(** [inputToHex_round_trip] at the number [0xa00004] and the three
    bytes [c0ffee]. *)
Lemma inputToHex_round_trip_witness :
  0 <= 0xa00004 < 2 ^ 32
  /\ canon (hex.toBits "c0ffee") /\ hex.toBits "c0ffee" <> []
  /\ misc.inputToHex (InNum 0xa00004) = Ok "a00004"%string
  /\ misc.inputToHexNum (InStr "a00004") = Ok 0xa00004
  /\ misc.inputToHex (InBits (hex.toBits "c0ffee")) = Ok "c0ffee"%string
  /\ misc.inputToBits (InStr "c0ffee") = Ok (hex.toBits "c0ffee").
Proof.
  assert (H1 : 0 <= 0xa00004 < 2 ^ 32) by (cbn; lia).
  assert (H2 : canon (hex.toBits "c0ffee")) by reflexivity.
  assert (H3 : hex.toBits "c0ffee" <> []) by discriminate.
  assert (H4 : bitArray.bitLength (hex.toBits "c0ffee") mod 4 = 0) by reflexivity.
  split; [exact H1|]. split; [exact H2|]. split; [exact H3|].
  destruct (inputToHex_round_trip 0xa00004 (hex.toBits "c0ffee") H1 H2 H3 H4)
    as [(s & E1 & _ & E2) (t & E3 & _ & _ & E4)].
  assert (Es : s = "a00004"%string)
    by (assert (G : misc.inputToHex (InNum 0xa00004) = Ok "a00004"%string)
          by reflexivity; congruence).
  assert (Et : t = "c0ffee"%string)
    by (assert (G : misc.inputToHex (InBits (hex.toBits "c0ffee")) = Ok "c0ffee"%string)
          by reflexivity; congruence).
  rewrite Es in *. rewrite Et in *.
  repeat split; assumption.
Defined.

(** ** Replacing a bit range *)

(** X22.  [eb.misc.replacePart(buffer, start, end, replacement)] removes
    the bits [start .. end) and puts the replacement in their place,
    whatever its length: the result is [end - start] bits shorter and
    [|replacement|] bits longer than the buffer, reading the range
    [start .. start + |replacement|) of the result gives the
    replacement back, and the bits before and after are those of the
    buffer. *)
Theorem replacePart_then_slice buffer s e repl :
  wf buffer -> wf repl -> 0 <= s <= e -> e <= bitArray.bitLength buffer ->
  let r := misc.replacePart buffer s e repl in
  let n := bitArray.bitLength repl in
  wf r
  /\ bitArray.bitLength r = bitArray.bitLength buffer - (e - s) + n
  /\ bits (bitArray.bitSlice r s (Some (s + n))) = bits repl
  /\ bits (bitArray.bitSlice r 0 (Some s)) = bits (bitArray.bitSlice buffer 0 (Some s))
  /\ bits (bitArray.bitSlice r (s + n) None) = bits (bitArray.bitSlice buffer e None).
Proof.
  intros Wb Wr Hs He r n.
  destruct (replacePart_spec buffer s e repl Wb Wr Hs He) as [W B].
  fold r in W, B.
  pose proof (bits_length buffer Wb) as Lb.
  pose proof (bits_length repl Wr) as Lr. fold n in Lr.
  pose proof (bitLength_nonneg repl Wr) as Nn. fold n in Nn.
  assert (L1 : List.length (firstn (Z.to_nat s) (bits buffer)) = Z.to_nat s)
    by (rewrite length_firstn; lia).
  assert (Lr' : bitArray.bitLength r = bitArray.bitLength buffer - (e - s) + n).
  { rewrite <- (bits_length r W), B, !length_app, L1, length_skipn. lia. }
  split; [exact W|]. split; [exact Lr'|].
  destruct (bitSlice_spec r s (s + n) W ltac:(lia) ltac:(lia)) as [_ B1].
  destruct (bitSlice_spec r 0 s W ltac:(lia) ltac:(lia)) as [_ B2].
  destruct (bitSlice_from_spec r (s + n) W ltac:(lia)) as [_ B3].
  destruct (bitSlice_spec buffer 0 s Wb ltac:(lia) ltac:(lia)) as [_ B4].
  destruct (bitSlice_from_spec buffer e Wb ltac:(lia)) as [_ B5].
  split; [|split].
  - rewrite B1, B, (skipn_exact _ _ _ L1).
    replace (Z.to_nat (s + n - s)) with (List.length (bits repl)) by lia.
    apply firstn_exact. reflexivity.
  - rewrite B2, B4, B. cbn [Z.to_nat skipn]. rewrite !Z.sub_0_r.
    rewrite (firstn_exact _ _ _ L1). reflexivity.
  - rewrite B3, B5, B.
    rewrite app_assoc. apply skipn_exact.
    rewrite length_app, L1. lia.
Qed.

(** [replacePart_then_slice] replacing the middle byte of [aabbcc] by
    the two bytes [1122]. *)
Lemma replacePart_then_slice_witness :
  let buffer := hex.toBits "aabbcc" in
  let repl := hex.toBits "1122" in
  wf buffer /\ wf repl /\ 0 <= 8 <= 16 /\ 16 <= bitArray.bitLength buffer
  /\ bits (misc.replacePart buffer 8 16 repl) = bits (hex.toBits "aa1122cc")
  /\ bits (bitArray.bitSlice (misc.replacePart buffer 8 16 repl) 8 (Some 24))
     = bits repl.
Proof.
  intros buffer repl.
  assert (H1 : wf buffer) by reflexivity.
  assert (H2 : wf repl) by reflexivity.
  assert (H3 : 0 <= 8 <= 16) by lia.
  assert (H4 : 16 <= bitArray.bitLength buffer)
    by (change (bitArray.bitLength buffer) with 24; lia).
  split; [exact H1|]. split; [exact H2|]. split; [exact H3|]. split; [exact H4|].
  split; [reflexivity|].
  exact (proj1 (proj2 (proj2 (replacePart_then_slice buffer 8 16 repl H1 H2 H3 H4)))).
Defined.


(** ** What [pkcs7.unpad] accepts *)

(** An accepted bit sequence is its result followed by [k] bytes [k],
    which is what [pad] makes of the result. *)
Lemma pkcs7_unpad_spec_inv l r :
  pkcs7_unpad_spec l = Some r ->
  exists k, 1 <= k <= 16
            /\ l = r ++ bytes_bits (List.repeat k (Z.to_nat k))
            /\ Z.of_nat (List.length l) mod 128 = 0
            /\ Z.of_nat (List.length r) = Z.of_nat (List.length l) - 8 * k
            /\ pkcs7_pad_spec r = l.
Proof.
  unfold pkcs7_unpad_spec.
  set (n := Z.of_nat (List.length l)).
  destruct (Z.eqb_spec (n mod 128) 0) as [M|]; [|discriminate].
  destruct (Z.ltb_spec 0 n) as [P|]; [|discriminate]. cbn [andb].
  set (k := bits_value (skipn (Z.to_nat (n - 8)) l)).
  destruct (Z.leb_spec 1 k) as [K1|]; [|discriminate].
  destruct (Z.leb_spec k 16) as [K2|]; [|discriminate]. cbn [andb].
  set (m := Z.to_nat (n - 8 * k)).
  destruct (bits_eqb (skipn m l) (bytes_bits (List.repeat k (Z.to_nat k))))
    eqn:E; [|discriminate].
  apply bits_eqb_spec in E. intros R.
  assert (Er : r = firstn m l) by congruence. clear R.
  assert (N128 : 128 <= n) by (Z.div_mod_to_equations; lia).
  assert (Lr : Z.of_nat (List.length r) = n - 8 * k).
  { rewrite Er, length_firstn. subst m n. lia. }
  assert (El : l = r ++ bytes_bits (List.repeat k (Z.to_nat k))).
  { rewrite Er, <- E. symmetry. apply firstn_skipn. }
  exists k. split; [lia|]. split; [exact El|]. split; [exact M|].
  split; [exact Lr|].
  unfold pkcs7_pad_spec. rewrite Lr.
  assert (Pk : pkcs7_padlen (n - 8 * k) = k).
  { unfold pkcs7_padlen. Z.div_mod_to_equations. lia. }
  rewrite Pk. symmetry. exact El.
Qed.

(** X23.  [eb.padding.pkcs7.unpad] accepts nothing but padded data: an
    accepted input is the result followed by [k] bytes of value [k]
    for some [k] from 1 to 16, and [eb.padding.pkcs7.pad] of the
    result gives the input back. *)
Theorem pkcs7_unpad_then_pad a r :
  wf a -> bitArray.bitLength a < 2 ^ 31 ->
  pkcs7.unpad a None = Ok r ->
  exists k p,
    1 <= k <= 16
    /\ bits a = bits r ++ bytes_bits (List.repeat k (Z.to_nat k))
    /\ bitArray.bitLength r = bitArray.bitLength a - 8 * k
    /\ pkcs7.pad r None = Ok p
    /\ bits p = bits a
    /\ (canon a -> p = a).
Proof.
  intros W Hb U.
  pose proof (pkcs7_unpad_spec_ok a W Hb) as S.
  destruct (pkcs7_unpad_spec (bits a)) as [l|] eqn:E.
  - destruct S as (r' & U' & Wr & Br & Cr).
    assert (r' = r) by congruence. subst r'.
    rewrite <- Br in E.
    destruct (pkcs7_unpad_spec_inv _ _ E) as (k & Hk & El & M & Lr & Ps).
    rewrite (bits_length a W) in M, Lr. rewrite (bits_length r Wr) in Lr.
    assert (Ar : byte_aligned r).
    { split; [exact Wr|]. rewrite Lr. Z.div_mod_to_equations. lia. }
    assert (Hr : bitArray.bitLength r < 2 ^ 31 - 128)
      by (change (2 ^ 31) with 2147483648 in *; Z.div_mod_to_equations; lia).
    destruct (pkcs7_pad_spec_ok r Ar Hr) as (p & Ep & Wp & Bp & Cp).
    exists k, p. split; [exact Hk|]. split; [exact El|].
    split; [exact Lr|]. split; [exact Ep|].
    assert (Bpa : bits p = bits a) by (rewrite Bp; exact Ps).
    split; [exact Bpa|].
    intros Ca. apply canon_inj; auto.
  - destruct S as (m & U'). congruence.
Qed.

(** [pkcs7_unpad_then_pad] on sixteen bytes, the last three of them
    [03]: [unpad] leaves thirteen bytes and [pad] restores the block. *)
Lemma pkcs7_unpad_then_pad_witness :
  let a := hex.toBits "00112233445566778899aabbcc030303" in
  let r := hex.toBits "00112233445566778899aabbcc" in
  wf a /\ bitArray.bitLength a < 2 ^ 31 /\ pkcs7.unpad a None = Ok r
  /\ exists k p,
    1 <= k <= 16
    /\ bits a = bits r ++ bytes_bits (List.repeat k (Z.to_nat k))
    /\ bitArray.bitLength r = bitArray.bitLength a - 8 * k
    /\ pkcs7.pad r None = Ok p
    /\ bits p = bits a
    /\ (canon a -> p = a).
Proof.
  intros a r.
  assert (W : wf a) by reflexivity.
  assert (L : bitArray.bitLength a < 2 ^ 31) by (vm_compute; reflexivity).
  assert (U : pkcs7.unpad a None = Ok r) by (vm_compute; reflexivity).
  split; [exact W|]. split; [exact L|]. split; [exact U|].
  exact (pkcs7_unpad_then_pad a r W L U).
Defined.


(** ** The TLV reader of the public key *)

Lemma firstn_skipn_mid {A} (pre mid post : list A) :
  firstn (List.length mid) (skipn (List.length pre) (pre ++ mid ++ post)) = mid.
Proof.
  rewrite skipn_app, skipn_all, Nat.sub_diag. cbn [app skipn].
  rewrite firstn_app, firstn_all, Nat.sub_diag. cbn [firstn].
  apply app_nil_r.
Qed.

Lemma tlv_record_length t v :
  List.length (tlv_record t v) = (24 + 8 * List.length v)%nat.
Proof.
  unfold tlv_record, byte_bits.
  rewrite !length_app, !bits_from_length, bytes_bits_length. lia.
Qed.

Lemma tlv_bits_length recs :
  (24 * List.length recs <= List.length (tlv_bits recs))%nat.
Proof.
  induction recs as [|[t v] r IH]; [cbn; lia|].
  unfold tlv_bits in *. cbn [flat_map fst snd List.length].
  rewrite length_app, tlv_record_length. lia.
Qed.

Lemma read_tlv_records ba :
  wf ba -> bitArray.bitLength ba < 2 ^ 31 ->
  forall recs fuel pre p n e,
    bits ba = pre ++ tlv_bits recs ->
    Z.of_nat (List.length pre) = 8 * p ->
    (List.length recs <= fuel)%nat -> Forall tlv_ok recs ->
    exists n' e',
      createUO.read_tlv fuel ba p (bitArray.bitLength ba / 8) n e = (n', e')
      /\ tlv_field n' (tlv_last 0x82 recs) n
      /\ tlv_field e' (tlv_last 0x81 recs) e.
Proof.
  intros W Hb. pose proof (bits_length ba W) as Lb.
  induction recs as [|[t v] rest IH]; intros fuel pre p n e B Lp Hf Hok.
  - exists n, e. split; [|split; reflexivity].
    cbn [tlv_bits flat_map] in B. rewrite app_nil_r in B.
    rewrite B in Lb.
    assert (E : bitArray.bitLength ba / 8 = p)
      by (rewrite <- Lb, Lp; Z.div_mod_to_equations; lia).
    rewrite E. destruct fuel as [|f]; [reflexivity|].
    cbn [createUO.read_tlv]. rewrite Z.ltb_irrefl. reflexivity.
  - destruct fuel as [|f]; [cbn in Hf; lia|].
    inversion Hok as [|x l (Ht & Hv & Hl) Hok' Ex]. subst x l.
    cbn [fst snd] in Ht, Hv, Hl.
    set (L := Z.of_nat (List.length v)) in *.
    unfold tlv_bits in B. cbn [flat_map fst snd] in B. fold (tlv_bits rest) in B.
    unfold tlv_record in B. fold L in B. rewrite <- !app_assoc in B.
    set (l16 := bits_from L 15 16) in *.
    assert (Llen : List.length (bits ba)
                   = (List.length pre + 8 + 16 + 8 * List.length v
                      + List.length (tlv_bits rest))%nat).
    { rewrite B, !length_app. unfold byte_bits, l16.
      rewrite !bits_from_length, bytes_bits_length. lia. }
    assert (Lt : 8 * (p + 3 + L) <= bitArray.bitLength ba) by (subst L; lia).
    assert (P0 : 0 <= p) by lia.
    (* the tag *)
    assert (Tag : bitArray.extract ba (8 * p) 8 = t).
    { rewrite extract_value by (try assumption; lia).
      replace (Z.to_nat (8 * p)) with (List.length pre) by lia.
      change (Z.to_nat 8) with (List.length (byte_bits t)).
      rewrite B, firstn_skipn_mid. apply bits_value_byte. exact Ht. }
    (* the length *)
    assert (Len : bitArray.extract ba (8 * (p + 1)) 16 = L).
    { rewrite extract_value by (try assumption; lia).
      replace (Z.to_nat (8 * (p + 1)))
        with (List.length (pre ++ byte_bits t))
        by (rewrite length_app; unfold byte_bits; rewrite bits_from_length; lia).
      change (Z.to_nat 16) with (List.length l16).
      rewrite B, (app_assoc pre), firstn_skipn_mid.
      unfold l16. rewrite bits_value_bits_from by (cbn; lia).
      change (15 - Z.of_nat 16 + 1) with 0. change (2 ^ 0) with 1.
      rewrite Z.div_1_r. apply Z.mod_small.
      change (Z.of_nat 16) with 16. subst L. lia. }
    (* the value *)
    destruct (bitSlice_spec ba (8 * (p + 1 + 2)) (8 * (p + 1 + 2 + L)) W
                ltac:(subst L; lia)
                ltac:(replace (p + 1 + 2 + L) with (p + 3 + L) by lia; exact Lt))
      as [Wd Bd].
    assert (Dat : bits (bitArray.bitSlice ba (8 * (p + 1 + 2))
                          (Some (8 * (p + 1 + 2 + L))))
                  = bytes_bits v).
    { rewrite Bd.
      replace (Z.to_nat (8 * (p + 1 + 2)))
        with (List.length (pre ++ byte_bits t ++ l16))
        by (rewrite !length_app; unfold byte_bits, l16;
            rewrite !bits_from_length; lia).
      replace (Z.to_nat (8 * (p + 1 + 2 + L) - 8 * (p + 1 + 2)))
        with (List.length (bytes_bits v))
        by (rewrite bytes_bits_length; subst L; lia).
      rewrite B.
      replace (pre ++ byte_bits t ++ l16 ++ bytes_bits v ++ tlv_bits rest)
        with ((pre ++ byte_bits t ++ l16) ++ bytes_bits v ++ tlv_bits rest)
        by (now rewrite <- !app_assoc).
      apply firstn_skipn_mid. }
    set (dat := bitArray.bitSlice ba (8 * (p + 1 + 2))
                  (Some (8 * (p + 1 + 2 + L)))) in *.
    (* one round of the loop *)
    assert (B' : bits ba
                 = (pre ++ byte_bits t ++ l16 ++ bytes_bits v) ++ tlv_bits rest)
      by (rewrite B; now rewrite <- !app_assoc).
    assert (Lp' : Z.of_nat (List.length (pre ++ byte_bits t ++ l16 ++ bytes_bits v))
                  = 8 * (p + 1 + 2 + L)).
    { rewrite !length_app. unfold byte_bits, l16.
      rewrite !bits_from_length, bytes_bits_length. subst L. lia. }
    assert (Hf' : (List.length rest <= f)%nat) by (cbn in Hf; lia).
    assert (Step :
      createUO.read_tlv (S f) ba p (bitArray.bitLength ba / 8) n e
      = createUO.read_tlv f ba (p + 1 + 2 + L) (bitArray.bitLength ba / 8)
          (if t =? 0x81 then n else if t =? 0x82 then Some dat else n)
          (if t =? 0x81 then Some dat else e)).
    { cbn [createUO.read_tlv].
      destruct (Z.ltb_spec p (bitArray.bitLength ba / 8)) as [_|Hge];
        [|exfalso; Z.div_mod_to_equations; lia].
      cbn [negb]. rewrite Tag, Len. fold dat.
      destruct (t =? 0x81); [reflexivity|].
      destruct (t =? 0x82); reflexivity. }
    rewrite Step.
    destruct (IH f _ (p + 1 + 2 + L)
                (if t =? 0x81 then n else if t =? 0x82 then Some dat else n)
                (if t =? 0x81 then Some dat else e) B' Lp' Hf' Hok')
      as (n' & e' & R & Fn & Fe).
    exists n', e'. split; [exact R|].
    cbn [tlv_last]. split.
    + destruct (tlv_last 0x82 rest) as [x|]; [exact Fn|].
      unfold tlv_field in Fn |- *.
      destruct (Z.eqb_spec t 0x82) as [->|N2].
      * change (0x82 =? 0x81) with false in Fn. cbn iota in Fn.
        exists dat. auto.
      * destruct (t =? 0x81); exact Fn.
    + destruct (tlv_last 0x81 rest) as [x|]; [exact Fe|].
      unfold tlv_field in Fe |- *.
      destruct (Z.eqb_spec t 0x81) as [->|N1].
      * exists dat. auto.
      * exact Fe.
Qed.

(** X24.  [readSerializedPubKey] reads a sequence of TLV records (tag
    byte, two-byte length, value): the value of the last record with
    tag [0x82] is returned as the modulus [n] and that of the last
    record with tag [0x81] as the exponent [e]; records with other
    tags are skipped, and when one of the two is missing the key is
    refused. *)
Theorem readSerializedPubKey_reads_records ba recs :
  wf ba -> bitArray.bitLength ba < 2 ^ 31 ->
  Forall tlv_ok recs -> bits ba = tlv_bits recs ->
  match tlv_last 0x82 recs, tlv_last 0x81 recs with
  | Some n, Some e =>
      exists n' e',
        createUO.readSerializedPubKey (InBits ba) = Ok (n', e')
        /\ wf n' /\ bits n' = bytes_bits n
        /\ wf e' /\ bits e' = bytes_bits e
  | _, _ =>
      createUO.readSerializedPubKey (InBits ba)
      = Throw (EbInvalid "Could not deserialize TLV serialized public key")
  end.
Proof.
  intros W Hb Hok B.
  pose proof (bits_length ba W) as Lb.
  pose proof (tlv_bits_length recs) as Lr. rewrite <- B in Lr.
  assert (Hf : (List.length recs <= Z.to_nat (bitArray.bitLength ba / 8))%nat).
  { rewrite <- Lb. apply Nat2Z.inj_le. rewrite Z2Nat.id.
    - Z.div_mod_to_equations. lia.
    - apply Z.div_pos; lia. }
  destruct (read_tlv_records ba W Hb recs _ [] 0 None None B eq_refl Hf Hok)
    as (n' & e' & R & Fn & Fe).
  unfold createUO.readSerializedPubKey, misc.inputToBits. cbn [rbind].
  rewrite R. unfold tlv_field in Fn, Fe.
  destruct (tlv_last 0x82 recs) as [n|].
  - destruct Fn as (xn & -> & Wn & Bn).
    destruct (tlv_last 0x81 recs) as [e|].
    + destruct Fe as (xe & -> & We & Be). exists xn, xe. auto.
    + subst e'. reflexivity.
  - subst n'. destruct e'; reflexivity.
Qed.

(** [readSerializedPubKey_reads_records] on the key
    [81 0003 010001 ‖ 7f 0001 aa ‖ 82 0002 c0de]: exponent [010001],
    modulus [c0de], the record with tag [7f] is skipped. *)
Lemma readSerializedPubKey_reads_records_witness :
  let ba := hex.toBits "8100030100017f0001aa820002c0de" in
  let recs := [(0x81, [1; 0; 1]); (0x7f, [0xaa]); (0x82, [0xc0; 0xde])] in
  wf ba /\ Forall tlv_ok recs /\ bits ba = tlv_bits recs
  /\ exists n' e',
        createUO.readSerializedPubKey (InBits ba) = Ok (n', e')
        /\ wf n' /\ bits n' = bytes_bits [0xc0; 0xde]
        /\ wf e' /\ bits e' = bytes_bits [1; 0; 1].
Proof.
  intros ba recs.
  assert (W : wf ba) by reflexivity.
  assert (L : bitArray.bitLength ba < 2 ^ 31) by (vm_compute; reflexivity).
  assert (K : Forall tlv_ok recs).
  { repeat constructor; cbn; try lia; try discriminate. }
  assert (B : bits ba = tlv_bits recs) by (vm_compute; reflexivity).
  split; [exact W|]. split; [exact K|]. split; [exact B|].
  exact (readSerializedPubKey_reads_records ba recs W L K B).
Defined.


(** ** The flag byte of a patched template *)

(** [appKeyProvided] after the loop: set when a slot of type ["app"]
    was filled. *)
Lemma fill_keys_app slots keys : forall ba app ba' app',
  createUO.fill_keys slots keys ba app = Ok (ba', app') ->
  app' = app || app_spliced keys slots.
Proof.
  induction slots as [|ko rest IH]; intros ba app ba' app' E.
  - cbn in E. assert (app' = app) by congruence. subst.
    now rewrite orb_false_r.
  - cbn [createUO.fill_keys] in E.
    unfold app_spliced. cbn [existsb]. fold (app_spliced keys rest).
    unfold spliced. unfold createUO.has_property in E.
    destruct (Nat.eqb (String.length (createUO.ko_type ko)) 0).
    { cbn [andb orb] in *. exact (IH _ _ _ _ E). }
    destruct (createUO.lookup (createUO.ko_type ko) keys) as [v|].
    2:{ cbn [andb orb]. cbn [orb] in E.
        destruct (createUO.inherited (createUO.ko_type ko)); cbn [negb] in E;
          [discriminate | exact (IH _ _ _ _ E)]. }
    cbn [negb orb] in E.
    destruct (misc.inputToBits v) as [b|x]; [|discriminate].
    cbn [rbind] in E.
    destruct (Z.eqb_spec (bitArray.bitLength b) (createUO.ko_length ko));
      cbn [negb] in E.
    + apply IH in E. rewrite E. cbn [andb].
      destruct (String.eqb (createUO.ko_type ko) "app"); cbn [orb].
      * now rewrite orb_true_r.
      * reflexivity.
    + cbn [andb orb]. exact (IH _ _ _ _ E).
Qed.

Lemma byte_cases (P : Z -> bool) :
  forallb P (List.map Z.of_nat (seq 0 256)) = true ->
  forall n, 0 <= n < 256 -> P n = true.
Proof.
  intros H n Hn. rewrite forallb_forall in H. apply H.
  rewrite <- (Z2Nat.id n) by lia. apply in_map, in_seq. lia.
Qed.

Lemma reset_flags_mask (app : bool) num :
  0 <= num < 256 ->
  (if app then JS.and (JS.and num (JS.not 0x8)) (JS.not 0x10)
   else JS.and num (JS.not 0x8))
  = Z.land num (if app then 0xe7 else 0xf7).
Proof.
  intros Hn. destruct app.
  - apply Z.eqb_eq.
    apply (byte_cases (fun n => JS.and (JS.and n (JS.not 0x8)) (JS.not 0x10)
                                =? Z.land n 0xe7)); [|exact Hn].
    vm_compute. reflexivity.
  - apply Z.eqb_eq.
    apply (byte_cases (fun n => JS.and n (JS.not 0x8) =? Z.land n 0xf7));
      [|exact Hn].
    vm_compute. reflexivity.
Qed.

Lemma land_byte num m : 0 <= num < 256 -> 0 <= m < 256 -> is_byte (Z.land num m).
Proof.
  intros Hn Hm. unfold is_byte. split.
  - apply Z.land_nonneg. lia.
  - destruct (Z.eq_dec (Z.land num m) 0) as [->|N]; [lia|].
    apply Z.log2_lt_cancel. change (Z.log2 256) with 8.
    eapply Z.le_lt_trans; [apply Z.log2_land; lia|].
    apply Z.min_lt_iff. left.
    destruct (Z.eq_dec num 0) as [->|]; [cbn; lia|].
    apply Z.log2_lt_pow2; lia.
Qed.

(** Two bit sequences that agree on [[s, s+n)] have the same field
    there. *)
Lemma firstn_skipn_ext (l1 l2 : list bool) s n :
  (s + n <= List.length l1)%nat -> (s + n <= List.length l2)%nat ->
  (forall i, (s <= i < s + n)%nat -> nth i l1 false = nth i l2 false) ->
  firstn n (skipn s l1) = firstn n (skipn s l2).
Proof.
  intros L1 L2 H.
  apply (nth_ext _ _ false false).
  - rewrite !length_firstn, !length_skipn. lia.
  - intros i Hi. rewrite length_firstn, length_skipn in Hi.
    rewrite !nth_firstn_skipn by lia. apply H. lia.
Qed.

(** X25.  After [templateFiller.build] has patched the template, the
    flag byte at bits [flagoffset+8 .. flagoffset+16) is the flag byte
    of the template with bit [0x8] cleared, and with bit [0x10] cleared
    as well exactly when a key slot of type ["app"] was filled; the
    other six flags are kept.  (The key slots are assumed not to
    overlap the flag byte, and none of them to have for its type a
    member that [keys] only inherits, on which the key loop fails.) *)
Theorem patch_resets_flags tpl keys ba0 :
  misc.inputToBits (createUO.template_data tpl) = Ok ba0 ->
  wf ba0 -> bitArray.bitLength ba0 < 2 ^ 31 ->
  keys_wf keys -> slots_in_range tpl (bitArray.bitLength ba0) ->
  existsb (dangling keys) (createUO.keyoffsets tpl) = false ->
  (forall i, in_flag_byte tpl i = true ->
             in_spliced_range keys (createUO.keyoffsets tpl) i = false) ->
  exists ba,
    createUO.patch tpl keys = Ok ba
    /\ bitArray.extract ba (createUO.flagoffset tpl + 8) 8
       = Z.land (bitArray.extract ba0 (createUO.flagoffset tpl + 8) 8)
                (if app_spliced keys (createUO.keyoffsets tpl)
                 then 0xe7 else 0xf7).
Proof.
  intros E0 W0 Hb Hk (Hslots & Hf1 & Hf2) Hd Hno.
  set (s := createUO.flagoffset tpl + 8) in *.
  pose proof (fill_keys_frame (createUO.keyoffsets tpl) keys Hk ba0 false W0 Hslots)
    as FK.
  rewrite Hd in FK. destruct FK as (ba1 & app & E1 & W1 & L1 & F1).
  pose proof (fill_keys_app _ _ _ _ _ _ E1) as Ea. cbn [orb] in Ea.
  set (x := bitArray.bitSlice ba1 s (Some (s + 8))).
  destruct (reset_flags_wf app x) as [Wf Lf].
  destruct (transformPart_spec ba1 s (s + 8) (createUO.reset_flags app) W1 Wf
              ltac:(lia) ltac:(lia)) as [W2 B2].
  fold x in B2.
  destruct (transformPart_frame ba1 s app W1 Hf1 ltac:(lia)) as (_ & L2 & _).
  set (r := misc.transformPart ba1 s (s + 8) (createUO.reset_flags app)) in *.
  exists r. split.
  { unfold createUO.patch. rewrite E0. cbn [rbind]. rewrite E1. cbn [rbind].
    replace (createUO.flagoffset tpl + 16) with (s + 8) by (subst s; lia).
    reflexivity. }
  pose proof (bits_length ba0 W0) as Lb0. pose proof (bits_length ba1 W1) as Lb1.
  (* the byte handed to the function is the flag byte of the template *)
  destruct (bitSlice_spec ba1 s (s + 8) W1 ltac:(lia) ltac:(lia)) as [Wx Bx].
  fold x in Wx, Bx. replace (Z.to_nat (s + 8 - s)) with 8%nat in Bx by lia.
  assert (Lx : bitArray.bitLength x = 8).
  { unfold x. rewrite bitSlice_bitLength by (try assumption; lia). lia. }
  assert (Same : firstn 8 (skipn (Z.to_nat s) (bits ba1))
                 = firstn 8 (skipn (Z.to_nat s) (bits ba0))).
  { apply firstn_skipn_ext; [lia | lia |].
    intros i Hi.
    assert (Fi := F1 (Z.of_nat i) ltac:(lia)).
    unfold bit in Fi. rewrite Nat2Z.id in Fi. apply Fi, Hno.
    unfold in_flag_byte. fold s.
    apply andb_true_iff. split; [apply Z.leb_le | apply Z.ltb_lt]; lia. }
  assert (Old : bitArray.extract x 0 8 = bitArray.extract ba0 s 8).
  { rewrite (extract_value x 0 8) by (try assumption; lia).
    rewrite (extract_value ba0 s 8) by (try assumption; lia).
    change (Z.to_nat 0) with 0%nat. change (Z.to_nat 8) with 8%nat.
    cbn [skipn]. rewrite Bx, Same.
    f_equal. apply firstn_all2. rewrite length_firstn. lia. }
  assert (Ro : 0 <= bitArray.extract ba0 s 8 < 256).
  { destruct (extract_field ba0 s 8 W0 ltac:(lia) ltac:(lia) ltac:(lia) Hb)
      as [R _]. change (2 ^ 8) with 256 in R. exact R. }
  (* what the function returns *)
  assert (New : bits (createUO.reset_flags app x)
                = byte_bits (Z.land (bitArray.extract ba0 s 8)
                                    (if app then 0xe7 else 0xf7))).
  { unfold createUO.reset_flags. rewrite Old.
    rewrite <- (reset_flags_mask app _ Ro).
    destruct (partial_byte_spec
                (if app
                 then JS.and (JS.and (bitArray.extract ba0 s 8) (JS.not 0x8))
                        (JS.not 0x10)
                 else JS.and (bitArray.extract ba0 s 8) (JS.not 0x8))) as [_ Bp].
    destruct app; exact Bp. }
  rewrite (extract_value r s 8) by (try assumption; lia).
  rewrite B2, New. rewrite <- Ea.
  assert (Lpre : List.length (firstn (Z.to_nat s) (bits ba1)) = Z.to_nat s)
    by (rewrite length_firstn; lia).
  set (pre := firstn (Z.to_nat s) (bits ba1)) in *.
  rewrite <- Lpre.
  change (Z.to_nat 8)
    with (List.length (byte_bits (Z.land (bitArray.extract ba0 s 8)
                                    (if app then 0xe7 else 0xf7)))).
  rewrite firstn_skipn_mid.
  apply bits_value_byte, land_byte; [exact Ro|]. destruct app; lia.
Qed.

(** [patch_resets_flags] on the sample template with an application
    key: the flag byte [ff] becomes [e7]. *)
Lemma patch_resets_flags_witness :
  let keys := [("app"%string, InStr "cafebabe")] in
  let ba0 := hex.toBits "00ff11223344556600112233445566778899aabbccddeeff0102030405060708" in
  keys_wf keys
  /\ (forall i, in_flag_byte sample_template i = true ->
                in_spliced_range keys (createUO.keyoffsets sample_template) i
                = false)
  /\ bitArray.extract ba0 8 8 = 0xff
  /\ exists ba,
       createUO.patch sample_template keys = Ok ba
       /\ bitArray.extract ba (createUO.flagoffset sample_template + 8) 8
          = Z.land (bitArray.extract ba0 (createUO.flagoffset sample_template + 8) 8)
                   (if app_spliced keys (createUO.keyoffsets sample_template)
                    then 0xe7 else 0xf7).
Proof.
  intros keys ba0.
  assert (H1 : misc.inputToBits (createUO.template_data sample_template) = Ok ba0)
    by reflexivity.
  assert (H2 : wf ba0) by reflexivity.
  assert (H3 : bitArray.bitLength ba0 < 2 ^ 31) by (vm_compute; reflexivity).
  assert (H4 : keys_wf keys).
  { intros k v H. cbn in H.
    destruct (String.eqb k "app"); [|discriminate].
    assert (v = InStr "cafebabe") by congruence. subst v.
    eexists. split; reflexivity. }
  assert (H5 : slots_in_range sample_template (bitArray.bitLength ba0))
    by exact sample_slots_in_range.
  assert (H6 : forall i, in_flag_byte sample_template i = true ->
                in_spliced_range keys (createUO.keyoffsets sample_template) i
                = false).
  { intros i Hi. unfold in_flag_byte in Hi. cbn [sample_template createUO.flagoffset] in Hi.
    apply andb_true_iff in Hi. destruct Hi as [A B].
    apply Z.leb_le in A. apply Z.ltb_lt in B.
    unfold in_spliced_range.
    cbn [sample_template createUO.keyoffsets existsb createUO.ko_offset
         createUO.ko_length].
    destruct (Z.leb_spec 128 i); [lia|].
    destruct (Z.leb_spec 192 i); [lia|].
    now rewrite !andb_false_r. }
  split; [exact H4|]. split; [exact H6|]. split; [reflexivity|].
  exact (patch_resets_flags sample_template keys ba0 H1 H2 H3 H4 H5 eq_refl H6).
Defined.


(** ** Padding of hexadecimal strings *)

Lemma remove_spaces_hex s :
  Str.forallb Str.is_hex s = true -> misc.remove_spaces s = s.
Proof.
  induction s as [|c s IH]; [reflexivity|].
  cbn [Str.forallb misc.remove_spaces]. intros H.
  apply andb_true_iff in H. destruct H as [Hc Hs].
  destruct (is_hex_not_special c Hc) as [-> _]. now rewrite IH.
Qed.

(** The clean-up at the head of [padHexToEven] and [padHexToSize]
    leaves a string of hexadecimal digits alone, and takes a leading
    [0x] away. *)
Lemma hex_cleanup s :
  Str.forallb Str.is_hex s = true ->
  let norm x :=
    let y := misc.remove_spaces (Str.trim x) in
    match y with
    | String "0"%char (String "x"%char r) => r
    | _ => y
    end in
  norm s = s /\ norm ("0x" ++ s)%string = s.
Proof.
  intros H norm. subst norm. cbv beta zeta. split.
  - rewrite (trim_hex s H), (remove_spaces_hex s H).
    exact (strip_0x_hex s H).
  - assert (T : Str.trim ("0x" ++ s) = ("0x" ++ s)%string).
    { unfold Str.trim. change (Str.skip_space ("0x" ++ s))
        with (String "0" (String "x" s)).
      cbn [Str.rtrim]. rewrite (rtrim_hex s H).
      destruct s; reflexivity. }
    rewrite T. cbn [append misc.remove_spaces].
    change (Str.is_space "0") with false. change (Str.is_space "x") with false.
    cbn iota. now rewrite (remove_spaces_hex s H).
Qed.

Lemma bits_value_zeros n l :
  bits_value (List.repeat false n ++ l) = bits_value l.
Proof.
  rewrite bits_value_app.
  assert (Z : bits_value (List.repeat false n) = 0).
  { induction n as [|n IH]; [reflexivity|].
    change (List.repeat false (S n)) with ([false] ++ List.repeat false n).
    rewrite bits_value_app, IH. reflexivity. }
  rewrite Z. lia.
Qed.

Lemma hex_bits_zeros k :
  hex_bits (Str.repeat "0" k) = List.repeat false (4 * k).
Proof.
  induction k as [|k IH]; [reflexivity|].
  cbn [Str.repeat hex_bits]. rewrite IH.
  replace (4 * S k)%nat with (4 + 4 * k)%nat by lia.
  rewrite repeat_app. reflexivity.
Qed.

Lemma repeat_0_length k : String.length (Str.repeat "0" k) = k.
Proof. induction k as [|k IH]; [reflexivity|]. cbn. now rewrite IH. Qed.

(** X26.  On a string of hexadecimal digits, with or without the prefix
    [0x], [eb.misc.padHexToEven] returns the digits with one leading
    zero when their number is odd, so that the result has an even
    number of digits, spells the same number and decodes to whole
    bytes; [eb.misc.padHexToSize] puts zeros in front up to [size]
    digits and never cuts a longer string. *)
Theorem padHex_pads_with_zeros s size :
  Str.forallb Str.is_hex s = true ->
  let e := misc.padHexToEven s in
  let p := misc.padHexToSize s size in
  Nat.even (String.length e) = true
  /\ (String.length s <= String.length e <= S (String.length s))%nat
  /\ bits_value (hex_bits e) = bits_value (hex_bits s)
  /\ bitArray.bitLength (hex.toBits e) mod 8 = 0
  /\ misc.padHexToEven ("0x" ++ s) = e
  /\ Z.of_nat (String.length p) = Z.max size (Z.of_nat (String.length s))
  /\ bits_value (hex_bits p) = bits_value (hex_bits s)
  /\ (exists k, p = (Str.repeat "0" k ++ s)%string)
  /\ misc.padHexToSize ("0x" ++ s) size = p.
Proof.
  intros H e p. destruct (hex_cleanup s H) as [N1 N2]. cbv beta zeta in N1, N2.
  assert (Ee : e = if Nat.odd (String.length s) then String "0" s else s).
  { subst e. unfold misc.padHexToEven. now rewrite N1. }
  assert (Ep : p = if Z.of_nat (String.length s) <? size
                   then (Str.repeat "0" (Z.to_nat (size - Z.of_nat (String.length s)))
                         ++ s)%string
                   else s).
  { subst p. unfold misc.padHexToSize. now rewrite N1. }
  assert (He : Str.forallb Str.is_hex e = true).
  { rewrite Ee. destruct (Nat.odd (String.length s)); [|exact H].
    cbn [Str.forallb]. now rewrite H. }
  assert (Le : Nat.even (String.length e) = true).
  { rewrite Ee. destruct (Nat.odd (String.length s)) eqn:O.
    - cbn [String.length]. rewrite Nat.even_succ. exact O.
    - rewrite <- Nat.negb_odd, O. reflexivity. }
  split; [exact Le|]. split.
  { rewrite Ee. destruct (Nat.odd (String.length s)); cbn [String.length]; lia. }
  split.
  { rewrite Ee. destruct (Nat.odd (String.length s)); [|reflexivity].
    change (hex_bits (String "0" s)) with (List.repeat false 4 ++ hex_bits s).
    apply bits_value_zeros. }
  split.
  { destruct (toBits_spec e He) as [Ce Be].
    rewrite <- (bits_length _ (canon_wf _ Ce)), Be, hex_bits_length.
    apply Nat.even_spec in Le. destruct Le as [m ->].
    rewrite !Nat2Z.inj_mul. change (Z.of_nat 4) with 4. change (Z.of_nat 2) with 2.
    replace (4 * (2 * Z.of_nat m)) with (Z.of_nat m * 8) by lia.
    apply Z.mod_mul. lia. }
  split.
  { subst e. unfold misc.padHexToEven. now rewrite N1, N2. }
  split.
  { rewrite Ep. destruct (Z.ltb_spec (Z.of_nat (String.length s)) size).
    - rewrite append_length, repeat_0_length. lia.
    - lia. }
  split.
  { rewrite Ep. destruct (Z.of_nat (String.length s) <? size); [|reflexivity].
    rewrite hex_bits_app, hex_bits_zeros. apply bits_value_zeros. }
  split.
  { rewrite Ep. destruct (Z.of_nat (String.length s) <? size).
    - eexists. reflexivity.
    - exists 0%nat. reflexivity. }
  subst p. unfold misc.padHexToSize. now rewrite N1, N2.
Qed.

(** [padHex_pads_with_zeros] on [abc]: padded to [0abc], and to
    [00000abc] for size 8. *)
Lemma padHex_pads_with_zeros_witness :
  let s := "abc"%string in
  let e := misc.padHexToEven s in
  let p := misc.padHexToSize s 8 in
  Str.forallb Str.is_hex s = true
  /\ e = "0abc"%string /\ p = "00000abc"%string
  /\ Nat.even (String.length e) = true
  /\ (String.length s <= String.length e <= S (String.length s))%nat
  /\ bits_value (hex_bits e) = bits_value (hex_bits s)
  /\ bitArray.bitLength (hex.toBits e) mod 8 = 0
  /\ misc.padHexToEven ("0x" ++ s) = e
  /\ Z.of_nat (String.length p) = Z.max 8 (Z.of_nat (String.length s))
  /\ bits_value (hex_bits p) = bits_value (hex_bits s)
  /\ (exists k, p = (Str.repeat "0" k ++ s)%string)
  /\ misc.padHexToSize ("0x" ++ s) 8 = p.
Proof.
  intros s e p.
  split; [reflexivity|]. split; [reflexivity|]. split; [reflexivity|].
  exact (padHex_pads_with_zeros s 8 eq_refl).
Defined.


(** ** The block XOR *)

Lemma JS_xor_comm a b : JS.xor a b = JS.xor b a.
Proof. unfold JS.xor. now rewrite Z.lxor_comm. Qed.

Lemma xor_words_tail x t y :
  (4 <= List.length x)%nat -> misc.xor (x ++ t) y = misc.xor x y.
Proof.
  intros L. destruct x as [|x0 [|x1 [|x2 [|x3 r]]]]; cbn in L; try lia.
  reflexivity.
Qed.

(** X27.  [eb.misc.xor(x, y)] is always a block of four signed 32-bit
    words, whatever the lengths of its arguments: words after the
    fourth are ignored.  It is symmetric, and on a block [y] of four
    32-bit words it is undone by a second XOR with the same mask:
    [xor(x, xor(x, y)) = y]. *)
Theorem xor_block_involution x y t :
  List.length y = 4%nat -> Forall int32 y ->
  List.length (misc.xor x y) = 4%nat
  /\ Forall int32 (misc.xor x y)
  /\ misc.xor x y = misc.xor y x
  /\ misc.xor x (y ++ t) = misc.xor x y
  /\ misc.xor x (misc.xor x y) = y
  /\ misc.xor (misc.xor y x) x = y.
Proof.
  intros L I.
  split; [reflexivity|]. split; [apply xor_int32s|].
  assert (Comm : forall a b, misc.xor a b = misc.xor b a).
  { intros a b. unfold misc.xor.
    now rewrite (JS_xor_comm (JS.get a 0)), (JS_xor_comm (JS.get a 1)),
      (JS_xor_comm (JS.get a 2)), (JS_xor_comm (JS.get a 3)). }
  split; [apply Comm|]. split.
  { rewrite (Comm x (y ++ t)), (Comm x y). apply xor_words_tail. lia. }
  assert (Inv : misc.xor x (misc.xor x y) = y).
  { rewrite (xor_cancel x y L). apply map_ToInt32_id. exact I. }
  split; [exact Inv|].
  rewrite (Comm (misc.xor y x) x), (Comm y x). exact Inv.
Qed.

(** [xor_block_involution] on a mask of two words and a block of four. *)
Lemma xor_block_involution_witness :
  let x := [0x0f0f0f0f; -1] in
  let y := [1; 2; 3; -4] in
  List.length y = 4%nat /\ Forall int32 y
  /\ misc.xor x y = [0x0f0f0f0e; -3; 3; -4]
  /\ misc.xor x (misc.xor x y) = y.
Proof.
  intros x y.
  assert (L : List.length y = 4%nat) by reflexivity.
  assert (I : Forall int32 y) by (repeat constructor; cbn; lia).
  split; [exact L|]. split; [exact I|]. split; [reflexivity|].
  exact (proj1 (proj2 (proj2 (proj2 (proj2
           (xor_block_involution x y [] L I)))))).
Defined.


(** ** The RSA wrapping of the template keys *)

(** A string of hexadecimal digits read as a number. *)
Lemma hex_prefix_value t :
  Str.forallb Str.is_hex t = true ->
  Str.hex_prefix t 0 O = (bits_value (hex_bits t), String.length t).
Proof.
  intros H. destruct (hex_prefix_all t H 0 O) as (S & D & B).
  destruct (Str.hex_prefix t 0 0) as [v n] eqn:E. cbn [fst snd] in *.
  f_equal; [|lia].
  pose proof (pow16_pos (Z.of_nat (String.length t)) ltac:(lia)) as P.
  apply Z.div_small_iff in D; [|lia]. destruct D as [D|D]; [|lia].
  rewrite <- B, bits_value_bits_from by lia.
  replace (4 * Z.of_nat (String.length t) - 1
           - Z.of_nat (4 * String.length t) + 1) with 0 by lia.
  change (2 ^ 0) with 1. rewrite Z.div_1_r.
  symmetry. apply Z.mod_small.
  rewrite Nat2Z.inj_mul. change (Z.of_nat 4) with 4.
  rewrite <- pow16 by lia. exact D.
Qed.

Lemma hex_value_fromBits a :
  wf a -> bitArray.bitLength a mod 4 = 0 ->
  createUO.hex_value (hex.fromBits a) = bits_value (bits a).
Proof.
  intros W M. destruct (fromBits_spec a W M) as (B & H & _).
  unfold createUO.hex_value. rewrite (hex_prefix_value _ H). cbn [fst].
  now rewrite B.
Qed.

Lemma parseInt16_fromBits a :
  wf a -> bitArray.bitLength a mod 4 = 0 -> 0 < bitArray.bitLength a ->
  Str.parseInt16 (hex.fromBits a) = Some (bits_value (bits a)).
Proof.
  intros W M P. destruct (fromBits_spec a W M) as (B & H & L).
  rewrite (parseInt16_hex _ H), (hex_prefix_value _ H), B.
  destruct (String.length (hex.fromBits a)) as [|n] eqn:E; [|reflexivity].
  exfalso. change (Z.of_nat 0) with 0 in L. Z.div_mod_to_equations. lia.
Qed.

Lemma padHexToEven_hex s :
  Str.forallb Str.is_hex s = true ->
  misc.padHexToEven s = if Nat.odd (String.length s) then String "0" s else s.
Proof.
  intros H. destruct (hex_cleanup s H) as [N _]. cbv beta zeta in N.
  unfold misc.padHexToEven. now rewrite N.
Qed.

(** [hex.toBits(padHexToEven(v.toString(16)))]: the number [v] on whole
    bytes. *)
Lemma toBits_toString16 v :
  0 <= v ->
  let c := hex.toBits (misc.padHexToEven (Str.toString16 v)) in
  canon c /\ bitArray.bitLength c mod 8 = 0 /\ bits_value (bits c) = v.
Proof.
  intros Hv c.
  destruct (toString16_hexn v Hv) as (k & K1 & K2 & _ & E).
  assert (Hs : Str.forallb Str.is_hex (Str.toString16 v) = true)
    by (rewrite E; apply hexn_is_hex).
  assert (Val : bits_value (hex_bits (Str.toString16 v)) = v).
  { rewrite E, hex_bits_hexn, bits_value_bits_from by lia.
    replace (4 * Z.of_nat k - 1 - Z.of_nat (4 * k) + 1) with 0 by lia.
    change (2 ^ 0) with 1. rewrite Z.div_1_r. apply Z.mod_small.
    rewrite Nat2Z.inj_mul. change (Z.of_nat 4) with 4.
    rewrite <- pow16 by lia. lia. }
  set (s := Str.toString16 v) in *.
  assert (Hp : Str.forallb Str.is_hex (misc.padHexToEven s) = true).
  { rewrite (padHexToEven_hex s Hs). destruct (Nat.odd (String.length s)); [|exact Hs].
    cbn [Str.forallb]. now rewrite Hs. }
  destruct (toBits_spec _ Hp) as [Cc Bc]. fold c in Cc, Bc.
  split; [exact Cc|]. split.
  - rewrite <- (bits_length c (canon_wf c Cc)), Bc, hex_bits_length.
    rewrite (padHexToEven_hex s Hs).
    destruct (Nat.odd (String.length s)) eqn:O.
    + cbn [String.length].
      assert (Ev : Nat.even (S (String.length s)) = true)
        by (rewrite Nat.even_succ; exact O).
      apply Nat.even_spec in Ev. destruct Ev as [m ->].
      rewrite !Nat2Z.inj_mul. change (Z.of_nat 4) with 4. change (Z.of_nat 2) with 2.
      replace (4 * (2 * Z.of_nat m)) with (Z.of_nat m * 8) by lia.
      apply Z.mod_mul. lia.
    + assert (Ev : Nat.even (String.length s) = true)
        by (rewrite <- Nat.negb_odd, O; reflexivity).
      apply Nat.even_spec in Ev. destruct Ev as [m ->].
      rewrite !Nat2Z.inj_mul. change (Z.of_nat 4) with 4. change (Z.of_nat 2) with 2.
      replace (4 * (2 * Z.of_nat m)) with (Z.of_nat m * 8) by lia.
      apply Z.mod_mul. lia.
  - rewrite Bc, (padHexToEven_hex s Hs).
    destruct (Nat.odd (String.length s)); [|exact Val].
    change (hex_bits (String "0" s)) with (List.repeat false 4 ++ hex_bits s).
    now rewrite bits_value_zeros.
Qed.

(** Square and multiply computes the modular power. *)
Lemma pow_mod_spec b m : forall e,
  createUO.pow_mod b e m = (b ^ Zpos e) mod m.
Proof.
  induction e as [e IH|e IH|]; cbn [createUO.pow_mod].
  - rewrite IH, Pos2Z.inj_xI.
    replace (2 * Z.pos e + 1) with (Z.pos e + Z.pos e + 1) by lia.
    rewrite !Z.pow_add_r, Z.pow_1_r by lia.
    rewrite <- Zmult_mod. rewrite Zmult_mod, Zmod_mod, <- Zmult_mod.
    reflexivity.
  - rewrite IH, Pos2Z.inj_xO.
    replace (2 * Z.pos e) with (Z.pos e + Z.pos e) by lia.
    rewrite Z.pow_add_r by lia. now rewrite <- Zmult_mod.
  - now rewrite Z.pow_1_r.
Qed.

Lemma modPowInt_spec msg exp modulus :
  1 <= exp < 2 ^ 32 ->
  createUO.modPowInt msg exp modulus = (msg ^ exp) mod modulus.
Proof.
  intros He. unfold createUO.modPowInt.
  destruct exp as [|e|e]; try lia.
  destruct (Z.ltb_spec 0xffffffff (Z.pos e)); [lia|].
  apply pow_mod_spec.
Qed.

(** The TLV reader on any input form of the key. *)
Lemma readSerializedPubKey_run x ba recs nb eb :
  misc.inputToBits x = Ok ba ->
  wf ba -> bitArray.bitLength ba < 2 ^ 31 ->
  Forall tlv_ok recs -> bits ba = tlv_bits recs ->
  tlv_last 0x82 recs = Some nb -> tlv_last 0x81 recs = Some eb ->
  exists n e,
    createUO.readSerializedPubKey x = Ok (n, e)
    /\ wf n /\ bits n = bytes_bits nb
    /\ wf e /\ bits e = bytes_bits eb.
Proof.
  intros Ex W Hb Hok B Ln Le.
  pose proof (bits_length ba W) as Lb.
  pose proof (tlv_bits_length recs) as Lr. rewrite <- B in Lr.
  assert (Hf : (List.length recs <= Z.to_nat (bitArray.bitLength ba / 8))%nat).
  { rewrite <- Lb. apply Nat2Z.inj_le. rewrite Z2Nat.id.
    - Z.div_mod_to_equations. lia.
    - apply Z.div_pos; lia. }
  destruct (read_tlv_records ba W Hb recs _ [] 0 None None B eq_refl Hf Hok)
    as (n' & e' & R & Fn & Fe).
  unfold createUO.readSerializedPubKey. rewrite Ex. cbn [rbind].
  rewrite R. unfold tlv_field in Fn, Fe. rewrite Ln in Fn. rewrite Le in Fe.
  destruct Fn as (xn & -> & Wn & Bn). destruct Fe as (xe & -> & We & Be).
  exists xn, xe. auto.
Qed.

Lemma bytes_bits_mod8 (l : list Z) (a : list Z) :
  wf a -> bits a = bytes_bits l ->
  bitArray.bitLength a = 8 * Z.of_nat (List.length l).
Proof.
  intros W B. rewrite <- (bits_length a W), B, bytes_bits_length. lia.
Qed.

(** [_rsaEncrypt] step by step. *)
Lemma rsaEncrypt_run input key w PS rest ba recs nb eb :
  byte_aligned input -> input <> [] ->
  let blk := (if String.eqb (createUO.ik_type key) "rsa2048" then 2048 else 1024) / 8 in
  byte_length input + 3 <= blk ->
  pkcs15_ps 2 (Z.to_nat (blk - 3 - byte_length input)) (entropy w)
  = Some (PS, rest) ->
  misc.inputToBits (createUO.ik_key key) = Ok ba ->
  wf ba -> bitArray.bitLength ba < 2 ^ 31 ->
  Forall tlv_ok recs -> bits ba = tlv_bits recs ->
  tlv_last 0x82 recs = Some nb -> tlv_last 0x81 recs = Some eb ->
  eb <> [] ->
  exists c,
    createUO.rsaEncrypt input (Some key) w = (Ok c, mkWorld rest (trace w))
    /\ canon c /\ bitArray.bitLength c mod 8 = 0
    /\ bits_value (bits c)
       = createUO.modPowInt
           (bits_value (bytes_bits (0 :: 2 :: PS ++ [0]) ++ bits input))
           (bits_value (bytes_bits eb))
           (bits_value (bytes_bits nb)).
Proof.
  intros Ai Ni blk Hl Hps Ek Wk Hk Hok B Ln Le Ne.
  destruct (pkcs15_pad_run input blk 2 w PS rest Ai Ni ltac:(auto) Hl Hps)
    as (r & Er & Wr & Br & Lps & _).
  destruct (readSerializedPubKey_run _ ba recs nb eb Ek Wk Hk Hok B Ln Le)
    as (n & e & Erd & Wn & Bn & We & Be).
  pose proof (bytes_bits_mod8 nb n Wn Bn) as Lnn.
  pose proof (bytes_bits_mod8 eb e We Be) as Lee.
  assert (Lr : bitArray.bitLength r mod 4 = 0).
  { rewrite <- (bits_length r Wr), Br, length_app, bytes_bits_length.
    destruct Ai as [Wi Al]. rewrite Nat2Z.inj_add, (bits_length input Wi).
    rewrite Nat2Z.inj_mul. change (Z.of_nat 8) with 8.
    Z.div_mod_to_equations. lia. }
  assert (Msg : createUO.hex_value (hex.fromBits r)
                = bits_value (bytes_bits (0 :: 2 :: PS ++ [0]) ++ bits input))
    by (rewrite (hex_value_fromBits r Wr Lr); now rewrite Br).
  assert (Mod : createUO.hex_value (hex.fromBits n) = bits_value (bytes_bits nb)).
  { rewrite (hex_value_fromBits n Wn) by (rewrite Lnn; Z.div_mod_to_equations; lia).
    now rewrite Bn. }
  assert (Exp : Str.parseInt16 (hex.fromBits e) = Some (bits_value (bytes_bits eb))).
  { rewrite (parseInt16_fromBits e We).
    - now rewrite Be.
    - rewrite Lee. Z.div_mod_to_equations. lia.
    - rewrite Lee. destruct eb; [congruence|]. cbn [List.length]. lia. }
  set (res := createUO.modPowInt
                (bits_value (bytes_bits (0 :: 2 :: PS ++ [0]) ++ bits input))
                (bits_value (bytes_bits eb)) (bits_value (bytes_bits nb))).
  assert (Hres : 0 <= res).
  { subst res. unfold createUO.modPowInt.
    pose proof (bits_value_range (bytes_bits nb)) as Rn.
    pose proof (bits_value_range (bytes_bits (0 :: 2 :: PS ++ [0]) ++ bits input)) as Rm.
    destruct (bits_value (bytes_bits eb)) as [|p|p]; try lia.
    destruct (0xffffffff <? Z.pos p); [lia|].
    rewrite pow_mod_spec.
    destruct (Z.eq_dec (bits_value (bytes_bits nb)) 0) as [->|Nz].
    - rewrite Z.mod_0_r. apply Z.pow_nonneg. lia.
    - apply Z.mod_pos_bound. lia. }
  destruct (toBits_toString16 res Hres) as (Cc & Lc & Vc).
  exists (hex.toBits (misc.padHexToEven (Str.toString16 res))).
  split; [|split; [exact Cc|split; [exact Lc|exact Vc]]].
  unfold createUO.rsaEncrypt. cbn [lift bind].
  rewrite (bind_run _ _ w r (mkWorld rest (trace w)) Er).
  rewrite Erd, (bind_lift (Ok (n, e)) _ _ (n, e) eq_refl).
  cbv beta iota. rewrite Msg, Mod, Exp. reflexivity.
Qed.

(** X28.  [_rsaEncrypt] is textbook RSA on the PKCS#1 v1.5 block of
    type 2: for a key whose TLV records give the modulus [N] and an
    exponent [E] between 1 and [2^32 - 1], the result is the number
    [M^E mod N] on whole bytes, where [M] is the block
    [00 ‖ 02 ‖ PS ‖ 00 ‖ input] of 128 bytes (256 for an [rsa2048]
    key) and [PS] the non-zero random bytes drawn for it. *)
Theorem rsaEncrypt_textbook input key w PS rest ba recs nb eb :
  byte_aligned input -> input <> [] ->
  let blk := if String.eqb (createUO.ik_type key) "rsa2048" then 256 else 128 in
  byte_length input + 3 <= blk ->
  pkcs15_ps 2 (Z.to_nat (blk - 3 - byte_length input)) (entropy w)
  = Some (PS, rest) ->
  misc.inputToBits (createUO.ik_key key) = Ok ba ->
  wf ba -> bitArray.bitLength ba < 2 ^ 31 ->
  Forall tlv_ok recs -> bits ba = tlv_bits recs ->
  tlv_last 0x82 recs = Some nb -> tlv_last 0x81 recs = Some eb ->
  let N := bits_value (bytes_bits nb) in
  let E := bits_value (bytes_bits eb) in
  let M := bits_value (bytes_bits (0 :: 2 :: PS ++ [0]) ++ bits input) in
  1 <= E < 2 ^ 32 -> 0 < N ->
  exists c,
    createUO.rsaEncrypt input (Some key) w = (Ok c, mkWorld rest (trace w))
    /\ canon c /\ bitArray.bitLength c mod 8 = 0
    /\ bits_value (bits c) = M ^ E mod N
    /\ 0 <= bits_value (bits c) < N
    /\ Z.of_nat (List.length PS) = blk - 3 - byte_length input
    /\ Forall (fun b => 1 <= b <= 255) PS.
Proof.
  intros Ai Ni blk Hl Hps Ek Wk Hk Hok B Ln Le N E M HE HN.
  assert (Eblk : (if String.eqb (createUO.ik_type key) "rsa2048"
                  then 2048 else 1024) / 8 = blk)
    by (subst blk; destruct (String.eqb (createUO.ik_type key) "rsa2048");
        reflexivity).
  assert (Ne : eb <> []).
  { intros ->. subst E. cbn in HE. lia. }
  pose proof (rsaEncrypt_run input key w PS rest ba recs nb eb Ai Ni) as R.
  cbv zeta in R. rewrite Eblk in R.
  destruct (R Hl Hps Ek Wk Hk Hok B Ln Le Ne) as (c & Ec & Cc & Lc & Vc).
  fold M E N in Vc. rewrite (modPowInt_spec M E N HE) in Vc.
  destruct (pkcs15_ps_spec _ _ _ _ _ Hps) as (LP & _ & _ & P2 & _).
  exists c. split; [exact Ec|]. split; [exact Cc|]. split; [exact Lc|].
  split; [exact Vc|]. split.
  - rewrite Vc. apply Z.mod_pos_bound. exact HN.
  - split; [|apply P2; reflexivity].
    rewrite LP. apply Z2Nat.id.
    destruct Ai as [Wi _]. unfold byte_length in *. lia.
Qed.

(** [rsaEncrypt_textbook] on four bytes wrapped under a toy key with
    [E = 3] and [N = 0xc0de]. *)
Lemma rsaEncrypt_textbook_witness :
  let input := hex.toBits "7654cafe" in
  let key := {| createUO.ik_id := 1; createUO.ik_type := "rsa1024";
                createUO.ik_key := InStr "81000103820002c0de" |} in
  let w := sample_world in
  let PS := List.repeat 4 121 in
  let rest := List.repeat 0x01020304 7 in
  let recs := [(0x81, [3]); (0x82, [0xc0; 0xde])] in
  let M := bits_value (bytes_bits (0 :: 2 :: PS ++ [0]) ++ bits input) in
  byte_aligned input
  /\ pkcs15_ps 2 121 (entropy w) = Some (PS, rest)
  /\ exists c,
    createUO.rsaEncrypt input (Some key) w = (Ok c, mkWorld rest (trace w))
    /\ canon c /\ bitArray.bitLength c mod 8 = 0
    /\ bits_value (bits c) = M ^ 3 mod 0xc0de
    /\ 0 <= bits_value (bits c) < 0xc0de
    /\ Z.of_nat (List.length PS) = 128 - 3 - byte_length input
    /\ Forall (fun b => 1 <= b <= 255) PS.
Proof.
  intros input key w PS rest recs M.
  assert (H1 : byte_aligned input) by (split; reflexivity).
  assert (H2 : input <> []) by discriminate.
  assert (H3 : byte_length input + 3 <= 128) by (vm_compute; discriminate).
  assert (H4 : pkcs15_ps 2 (Z.to_nat (128 - 3 - byte_length input)) (entropy w)
               = Some (PS, rest)) by (vm_compute; reflexivity).
  assert (H5 : misc.inputToBits (createUO.ik_key key)
               = Ok (hex.toBits "81000103820002c0de")) by reflexivity.
  assert (H6 : wf (hex.toBits "81000103820002c0de")) by reflexivity.
  assert (H7 : bitArray.bitLength (hex.toBits "81000103820002c0de") < 2 ^ 31)
    by (vm_compute; reflexivity).
  assert (H8 : Forall tlv_ok recs).
  { repeat constructor; cbn; try lia; try discriminate. }
  assert (H9 : bits (hex.toBits "81000103820002c0de") = tlv_bits recs)
    by (vm_compute; reflexivity).
  assert (H10 : 1 <= bits_value (bytes_bits [3]) < 2 ^ 32)
    by (vm_compute; split; [discriminate | reflexivity]).
  assert (H11 : 0 < bits_value (bytes_bits [0xc0; 0xde])) by reflexivity.
  split; [exact H1|]. split; [exact H4|].
  exact (rsaEncrypt_textbook input key w PS rest _ recs [0xc0; 0xde] [3]
           H1 H2 H3 H4 H5 H6 H7 H8 H9 eq_refl eq_refl H10 H11).
Defined.


(** ** The import blob of [templateFiller.build] *)

Lemma partial_16_spec v :
  wf [bitArray.partial 16 v false]
  /\ bits [bitArray.partial 16 v false] = bits_from v 15 16.
Proof.
  rewrite partial_shift by lia. split.
  - apply lastb_partial; [lia | apply shl_int32 | apply (shl_low_zero v 16); lia].
  - cbn [bits]. rewrite getPartial_partial by (try apply shl_int32; lia).
    rewrite word_bits_partial by lia. exact (word_bits_shl v 16 ltac:(lia)).
Qed.

Lemma randomWords_run n w :
  (n <= List.length (entropy w))%nat ->
  sjcl.randomWords n w
  = (Ok (List.map (fun x => JS.or x 0) (firstn n (entropy w))),
     mkWorld (skipn n (entropy w)) (trace w)).
Proof.
  intros H. unfold sjcl.randomWords.
  destruct (Nat.ltb_spec (List.length (entropy w)) n); [lia|reflexivity].
Qed.

Lemma or_0_words l : Forall int32 (List.map (fun x => JS.or x 0) l).
Proof.
  induction l as [|x l IH]; constructor; [apply or_int32 | exact IH].
Qed.

(** A TLV header and its value, as [bitArray.concat] joins them. *)
Lemma tlv_concat pre tag v :
  wf pre -> wf v ->
  let r := bitArray.concat
             (bitArray.concat (bitArray.concat pre [bitArray.partial 8 tag false])
                [bitArray.partial 16 (bitArray.bitLength v / 8) false]) v in
  wf r
  /\ bits r = bits pre ++ byte_bits tag
              ++ bits_from (bitArray.bitLength v / 8) 15 16 ++ bits v.
Proof.
  intros Wp Wv r.
  destruct (partial_byte_spec tag) as [W8 B8].
  destruct (partial_16_spec (bitArray.bitLength v / 8)) as [W16 B16].
  destruct (concat_spec _ _ Wp W8) as [W1 B1].
  destruct (concat_spec _ _ W1 W16) as [W2 B2].
  destruct (concat_spec _ _ W2 Wv) as [W3 B3].
  split; [exact W3|]. unfold r. rewrite B3, B2, B1, B8, B16.
  now rewrite <- !app_assoc.
Qed.

Section TemplateBuild.
Context {C : BlockCipher} {L : BlockCipherLaws C}.

(** The run of [templateFiller.build], in terms of the passes of the
    code. *)
Lemma template_build_run tpl keys w ba key kb recs nb eb oid PS rest :
  createUO.patch tpl keys = Ok ba ->
  wf ba -> bitArray.bitLength ba mod 8 = 0 -> bitArray.bitLength ba < 2 ^ 30 ->
  let enc := createUO.encryptionoffset tpl in
  0 <= enc <= bitArray.bitLength ba -> enc mod 8 = 0 ->
  (16 <= List.length (entropy w))%nat ->
  Str.parseInt16 (createUO.objectid tpl) = Some oid -> 0 <= oid < 2 ^ 32 ->
  createUO.getBestImportKey (createUO.importkeys tpl) = Some key ->
  let blk := if String.eqb (createUO.ik_type key) "rsa2048" then 256 else 128 in
  pkcs15_ps 2 (Z.to_nat (blk - 71)) (skipn 16 (entropy w)) = Some (PS, rest) ->
  misc.inputToBits (createUO.ik_key key) = Ok kb ->
  wf kb -> bitArray.bitLength kb < 2 ^ 31 ->
  Forall tlv_ok recs -> bits kb = tlv_bits recs ->
  tlv_last 0x82 recs = Some nb -> tlv_last 0x81 recs = Some eb ->
  let N := bits_value (bytes_bits nb) in
  let E := bits_value (bytes_bits eb) in
  1 <= E < 2 ^ 32 ->
  let tek := List.map (fun x => JS.or x 0) (firstn 8 (entropy w)) in
  let tmk := List.map (fun x => JS.or x 0) (firstn 8 (skipn 8 (entropy w))) in
  let IV := [0; 0; 0; 0] in
  exists f wrapped p1 p2,
    createUO.build tpl keys w
    = (Ok f, mkWorld rest (trace w ++ CBC_events tek IV (blocks_of p1)
                                   ++ CBC_events tmk IV (blocks_of p2)))
    /\ createUO.keyUsed f = Some key
    /\ wf p1
    /\ bits p1 = pkcs7_pad_spec (skipn (Z.to_nat enc) (bits ba))
    /\ let CT := CBC_encrypt_spec tek IV p1 in
       wf p2
       /\ bits p2
          = pkcs7_pad_spec (firstn (Z.to_nat enc) (bits ba) ++ bits32 CT)
       /\ let body := bits p2 ++ bits32 (CBC_MAC_spec tmk p2) in
          let M := bits_value (bytes_bits (0 :: 2 :: PS ++ [0])
                               ++ word_bits 32 oid ++ bits32 tek ++ bits32 tmk) in
          canon wrapped
          /\ bits_value (bits wrapped) = M ^ E mod N
          /\ wf (createUO.uo f)
          /\ bits (createUO.uo f)
             = byte_bits 0xa1
               ++ bits_from (bitArray.bitLength wrapped / 8) 15 16
               ++ bits wrapped
               ++ byte_bits 0xa2
               ++ bits_from (Z.of_nat (List.length body) / 8) 15 16
               ++ body.
Proof.
  intros Hp Wb Ab Sb enc He He8 Hent Hoid Roid Hkey blk Hps Hkb Wkb Skb Hrecs
    Bkb Hn Hex N E HE tek tmk IV. subst IV.
  pose proof (bits_length ba Wb) as Lb.
  change (2 ^ 30) with 1073741824 in Sb.
  (* the two halves of the patched template *)
  destruct (bitSlice_spec ba 0 enc Wb ltac:(lia) ltac:(lia)) as [Wpl Bpl].
  destruct (bitSlice_from_spec ba enc Wb ltac:(lia)) as [Wpr Bpr].
  rewrite Z.sub_0_r in Bpl. change (Z.to_nat 0) with 0%nat in Bpl.
  cbn [skipn] in Bpl.
  set (baPlain := bitArray.bitSlice ba 0 (Some enc)) in *.
  set (baProt := bitArray.bitSlice ba enc None) in *.
  assert (Lpl : bitArray.bitLength baPlain = enc).
  { rewrite <- (bits_length _ Wpl), Bpl, length_firstn. lia. }
  assert (Lpr : bitArray.bitLength baProt = bitArray.bitLength ba - enc).
  { rewrite <- (bits_length _ Wpr), Bpr, length_skipn. lia. }
  (* the keys *)
  assert (Ltek : List.length tek = 8%nat)
    by (unfold tek; rewrite length_map, length_firstn; lia).
  assert (Ltmk : List.length tmk = 8%nat)
    by (unfold tmk; rewrite length_map, length_firstn, length_skipn; lia).
  assert (Itek : Forall int32 tek) by apply or_0_words.
  assert (Itmk : Forall int32 tmk) by apply or_0_words.
  (* padding and encryption of the protected part *)
  assert (Apr : byte_aligned baProt).
  { split; [exact Wpr|]. rewrite Lpr. Z.div_mod_to_equations. lia. }
  destruct (pkcs7_pad_spec_ok baProt Apr ltac:(zconst; lia))
    as (p1 & Ep1 & Wp1 & Bp1 & _).
  assert (L8 : Z.of_nat (List.length (bits baProt)) mod 8 = 0)
    by (rewrite (bits_length _ Wpr); apply Apr).
  destruct (pkcs7_pad_spec_length (bits baProt) L8) as [P128 Prange].
  rewrite <- Bp1, (bits_length p1 Wp1), (bits_length _ Wpr) in *.
  set (m1 := bitArray.bitLength p1 / 128).
  assert (Hm1 : bitArray.bitLength p1 = 128 * m1)
    by (unfold m1; Z.div_mod_to_equations; lia).
  destruct (wf_full_length p1 m1 Wp1 Hm1) as (Fp1 & Lp1 & Nm1).
  assert (Sp1 : bitArray.bitLength p1 < 2 ^ 31) by (zconst; lia).
  destruct (ct_tag_canon tek tmk p1 (Z.to_nat m1) Lp1) as (Ict & Lct & Cct & Bct & _).
  set (CT := CBC_encrypt_spec tek [0; 0; 0; 0] p1) in *.
  (* plain part, ciphertext, second padding, MAC *)
  destruct (concat_spec baPlain CT Wpl (canon_wf CT Cct)) as [Wc Bc].
  set (ba2 := bitArray.concat baPlain CT) in *.
  assert (Lc : bitArray.bitLength ba2 = enc + 128 * Z.of_nat (Z.to_nat m1)).
  { rewrite <- (bits_length _ Wc), Bc, length_app, Nat2Z.inj_add.
    rewrite (bits_length baPlain Wpl), (bits_length CT (canon_wf CT Cct)). lia. }
  assert (Ac : byte_aligned ba2).
  { split; [exact Wc|]. rewrite Lc. Z.div_mod_to_equations. lia. }
  destruct (pkcs7_pad_spec_ok ba2 Ac ltac:(zconst; lia))
    as (p2 & Ep2 & Wp2 & Bp2 & _).
  assert (L8' : Z.of_nat (List.length (bits ba2)) mod 8 = 0)
    by (rewrite (bits_length _ Wc); apply Ac).
  destruct (pkcs7_pad_spec_length (bits ba2) L8') as [P128' Prange'].
  rewrite <- Bp2, (bits_length p2 Wp2), (bits_length _ Wc) in *.
  set (m2 := bitArray.bitLength p2 / 128).
  assert (Hm2 : bitArray.bitLength p2 = 128 * m2)
    by (unfold m2; Z.div_mod_to_equations; lia).
  destruct (wf_full_length p2 m2 Wp2 Hm2) as (Fp2 & Lp2 & Nm2).
  assert (Z4 : Forall int32 [0; 0; 0; 0])
    by (repeat apply Forall_cons; try apply Forall_nil; unfold int32; zconst; lia).
  destruct (CBC_spec_last tmk (blocks_of p2) [0; 0; 0; 0] [0; 0; 0; 0] eq_refl Z4)
    as [T4 Ti].
  fold (CBC_MAC_spec tmk p2) in T4, Ti.
  set (TAG := CBC_MAC_spec tmk p2) in *.
  assert (Ftag : forallb fullb TAG = true) by (apply forallb_int32_full; exact Ti).
  destruct (concat_spec p2 TAG Wp2 (wf_full _ Ftag)) as [Wbody Bbody].
  set (body := bitArray.concat p2 TAG) in *.
  (* the RSA input *)
  assert (Wu : wf [oid]) by (apply wf_full; cbn; now rewrite uoid_full).
  destruct (concat_spec [oid] tek Wu (wf_full _ (forallb_int32_full _ Itek)))
    as [W1 B1].
  destruct (concat_spec _ tmk W1 (wf_full _ (forallb_int32_full _ Itmk)))
    as [W2 B2].
  set (rsaIn := bitArray.concat (bitArray.concat [oid] tek) tmk) in *.
  assert (Brsa : bits rsaIn = word_bits 32 oid ++ bits32 tek ++ bits32 tmk).
  { rewrite B2, B1, (bits_single_full oid (uoid_full oid Roid)).
    rewrite (bits_full tek (forallb_int32_full _ Itek)).
    rewrite (bits_full tmk (forallb_int32_full _ Itmk)).
    now rewrite <- app_assoc. }
  assert (Lrsa : bitArray.bitLength rsaIn = 544).
  { rewrite <- (bits_length _ W2), Brsa, !length_app, word_bits_length,
      !bits32_length, Ltek, Ltmk. reflexivity. }
  assert (Arsa : byte_aligned rsaIn) by (split; [exact W2 | now rewrite Lrsa]).
  assert (Nrsa : rsaIn <> []).
  { intros E0. rewrite E0 in Lrsa. discriminate. }
  assert (Brl : byte_length rsaIn = 68) by (unfold byte_length; now rewrite Lrsa).
  (* the RSA wrapping *)
  set (tr := trace w ++ CBC_events tek [0; 0; 0; 0] (blocks_of p1)
                     ++ CBC_events tmk [0; 0; 0; 0] (blocks_of p2)).
  assert (Eblk : (if String.eqb (createUO.ik_type key) "rsa2048"
                  then 2048 else 1024) / 8 = blk)
    by (subst blk; destruct (String.eqb (createUO.ik_type key) "rsa2048");
        reflexivity).
  assert (Neb : eb <> []).
  { intros ->. subst E. cbn in HE. lia. }
  pose proof (rsaEncrypt_run rsaIn key (mkWorld (skipn 16 (entropy w)) tr)
                PS rest kb recs nb eb Arsa Nrsa) as R.
  cbv zeta in R. rewrite Eblk, Brl in R. cbn [entropy trace] in R.
  replace (blk - 3 - 68) with (blk - 71) in R by lia.
  destruct (R ltac:(subst blk; destruct (String.eqb _ _); lia)
              Hps Hkb Wkb Skb Hrecs Bkb Hn Hex Neb)
    as (wrapped & Ersa & Cw & Lw & Vw).
  rewrite Brsa in Vw. fold E N in Vw.
  rewrite (modPowInt_spec _ E N HE) in Vw.
  (* the run *)
  assert (Run : exists f,
    createUO.build tpl keys w = (Ok f, mkWorld rest tr)
    /\ createUO.keyUsed f = Some key
    /\ createUO.uo f
       = bitArray.concat
           (bitArray.concat
              (bitArray.concat
                 (bitArray.concat
                    (bitArray.concat
                       (bitArray.concat [] [bitArray.partial 8 0xa1 false])
                       [bitArray.partial 16 (bitArray.bitLength wrapped / 8) false])
                    wrapped)
                 [bitArray.partial 8 0xa2 false])
              [bitArray.partial 16 (bitArray.bitLength body / 8) false])
           body).
  { unfold createUO.build. cbv zeta. fold enc.
    rewrite (bind_lift _ _ w ba Hp).
    rewrite (bind_run _ _ w _ _ (randomWords_run 8 w ltac:(lia))). fold tek.
    rewrite (bind_run _ _ _ _ _
               (randomWords_run 8 (mkWorld (skipn 8 (entropy w)) (trace w))
                  ltac:(cbn [entropy]; rewrite length_skipn; lia))).
    cbn [entropy trace]. fold tmk. rewrite skipn_skipn.
    change (8 + 8)%nat with 16%nat.
    fold baPlain baProt.
    rewrite (bind_lift _ _ _ p1 Ep1).
    rewrite (bind_lift _ _ _ _ (aes_ok tek Ltek)), (bind_lift _ _ _ _ (aes_ok tmk Ltmk)).
    erewrite bind_run
      by (apply (cbc_encrypt_run _ p1 [0; 0; 0; 0] (Z.to_nat m1));
          [assumption | assumption | assumption | reflexivity]).
    cbn [sjcl.cipher_key entropy trace]. fold CT. fold ba2.
    rewrite (bind_lift _ _ _ p2 Ep2).
    erewrite bind_run
      by (apply (mac_run _ p2 (Z.to_nat m2)); [exact Fp2 | exact Lp2]).
    cbn [sjcl.cipher_key entropy trace]. fold TAG. fold body.
    rewrite Hkey, Hoid.
    change (bitArray.concat [] [oid]) with [oid]. fold rsaIn.
    rewrite <- app_assoc. fold tr.
    rewrite (bind_run _ _ _ _ _ Ersa).
    unfold ret. eexists. split; [reflexivity|]. split; reflexivity. }
  destruct Run as (f & Ef & Kf & Uf).
  (* the layout *)
  destruct (tlv_concat [] 0xa1 wrapped ltac:(reflexivity) (canon_wf _ Cw))
    as [Wt1 Bt1].
  destruct (tlv_concat _ 0xa2 body Wt1 Wbody) as [Wt2 Bt2].
  rewrite <- Uf in Wt2, Bt2.
  exists f, wrapped, p1, p2.
  split; [exact Ef|]. split; [exact Kf|]. split; [exact Wp1|].
  split; [now rewrite Bp1, Bpr|].
  assert (Bp2' : bits p2
                 = pkcs7_pad_spec (firstn (Z.to_nat enc) (bits ba) ++ bits32 CT)).
  { rewrite Bp2, Bc, Bpl.
    now rewrite (bits_full CT (forallb_int32_full CT Ict)). }
  split; [exact Wp2|]. split; [exact Bp2'|].
  split; [exact Cw|]. split; [exact Vw|]. split; [exact Wt2|].
  rewrite Bt2, Bt1, Bbody, (bits_full TAG Ftag).
  rewrite <- (bits_length body Wbody), Bbody, (bits_full TAG Ftag).
  cbn [bits app]. reflexivity.
Qed.

(** X29.  [templateFiller.build] returns the import blob
    [a1 ‖ len ‖ wrapped ‖ a2 ‖ len ‖ body]: two TLV records with
    two-byte lengths.  [body] is the patched template with its part
    from [encryptionoffset] on PKCS#7-padded and CBC-encrypted under a
    fresh key TEK with a zero IV, the whole padded once more and
    followed by its CBC-MAC under a fresh key TMK, both as the standard
    defines them ([CBC_encrypt_std], [CBC_MAC_std]); [wrapped] is the
    RSA encryption, under the best import key, of the PKCS#1 v1.5 block
    holding [objectid ‖ TEK ‖ TMK].  The sixteen words of the two keys
    are drawn before the bytes of the RSA padding. *)
Theorem template_build_layout tpl keys w ba key kb recs nb eb oid PS rest :
  createUO.patch tpl keys = Ok ba ->
  wf ba -> bitArray.bitLength ba mod 8 = 0 -> bitArray.bitLength ba < 2 ^ 30 ->
  let enc := createUO.encryptionoffset tpl in
  0 <= enc <= bitArray.bitLength ba -> enc mod 8 = 0 ->
  (16 <= List.length (entropy w))%nat ->
  Str.parseInt16 (createUO.objectid tpl) = Some oid -> 0 <= oid < 2 ^ 32 ->
  createUO.getBestImportKey (createUO.importkeys tpl) = Some key ->
  let blk := if String.eqb (createUO.ik_type key) "rsa2048" then 256 else 128 in
  pkcs15_ps 2 (Z.to_nat (blk - 71)) (skipn 16 (entropy w)) = Some (PS, rest) ->
  misc.inputToBits (createUO.ik_key key) = Ok kb ->
  wf kb -> bitArray.bitLength kb < 2 ^ 31 ->
  Forall tlv_ok recs -> bits kb = tlv_bits recs ->
  tlv_last 0x82 recs = Some nb -> tlv_last 0x81 recs = Some eb ->
  let N := bits_value (bytes_bits nb) in
  let E := bits_value (bytes_bits eb) in
  1 <= E < 2 ^ 32 ->
  let tek := List.map (fun x => JS.or x 0) (firstn 8 (entropy w)) in
  let tmk := List.map (fun x => JS.or x 0) (firstn 8 (skipn 8 (entropy w))) in
  let IV := [0; 0; 0; 0] in
  exists f wrapped p1 p2,
    createUO.build tpl keys w
    = (Ok f, mkWorld rest (trace w ++ CBC_calls tek IV (blocks_of p1)
                                   ++ CBC_calls tmk IV (blocks_of p2)))
    /\ createUO.keyUsed f = Some key
    /\ wf p1
    /\ bits p1 = pkcs7_pad_spec (skipn (Z.to_nat enc) (bits ba))
    /\ let CT := CBC_encrypt_std tek IV p1 in
       wf p2
       /\ bits p2
          = pkcs7_pad_spec (firstn (Z.to_nat enc) (bits ba) ++ bits32 CT)
       /\ let body := bits p2 ++ bits32 (CBC_MAC_std tmk p2) in
          let M := bits_value (bytes_bits (0 :: 2 :: PS ++ [0])
                               ++ word_bits 32 oid ++ bits32 tek ++ bits32 tmk) in
          canon wrapped
          /\ bits_value (bits wrapped) = M ^ E mod N
          /\ wf (createUO.uo f)
          /\ bits (createUO.uo f)
             = byte_bits 0xa1
               ++ bits_from (bitArray.bitLength wrapped / 8) 15 16
               ++ bits wrapped
               ++ byte_bits 0xa2
               ++ bits_from (Z.of_nat (List.length body) / 8) 15 16
               ++ body.
Proof.
  intros Hp Wb Ab Sb enc He He8 Hent Hoid Roid Hkey blk Hps Hkb Wkb Skb Hrecs
    Bkb Hn Hex N E HE tek tmk IV.
  destruct (template_build_run tpl keys w ba key kb recs nb eb oid PS rest
              Hp Wb Ab Sb He He8 Hent Hoid Roid Hkey Hps Hkb Wkb Skb Hrecs
              Bkb Hn Hex HE)
    as (f & wrapped & p1 & p2 & Ef & Kf & Wp1 & Bp1 & Wp2 & Bp2 & Cw & Vw & Wu & Bu).
  exists f, wrapped, p1, p2.
  rewrite !CBC_events_calls in Ef.
  rewrite CBC_encrypt_spec_std in Bp2. rewrite CBC_MAC_spec_std in Bu.
  split; [exact Ef|]. split; [exact Kf|]. split; [exact Wp1|].
  split; [exact Bp1|]. split; [exact Wp2|]. split; [exact Bp2|].
  split; [exact Cw|]. split; [exact Vw|]. split; [exact Wu|]. exact Bu.
Qed.

End TemplateBuild.

(** [template_build_layout] on the sample template with a toy import
    key ([E = 3], [N = 0xc0de]) and the XOR cipher: the blob starts
    with the tag [a1] and the key used is the import key. *)
Lemma template_build_layout_witness :
  let key := {| createUO.ik_id := 1; createUO.ik_type := "rsa1024";
                createUO.ik_key := InStr "81000103820002c0de" |} in
  let tpl := {| createUO.objectid := "7654";
                createUO.encryptionoffset := 64;
                createUO.flagoffset := 0;
                createUO.keyoffsets := createUO.keyoffsets sample_template;
                createUO.importkeys := [key];
                createUO.template_data := createUO.template_data sample_template |} in
  let ba := hex.toBits "00f71122334455660011223344556677deadbeefccddeeff0102030405060708" in
  let recs := [(0x81, [3]); (0x82, [0xc0; 0xde])] in
  createUO.patch tpl sample_keys = Ok ba
  /\ createUO.getBestImportKey (createUO.importkeys tpl) = Some key
  /\ pkcs15_ps 2 57 (skipn 16 (entropy sample_world))
     = Some (List.repeat 4 57, List.repeat 0x01020304 55)
  /\ bits (hex.toBits "81000103820002c0de") = tlv_bits recs
  /\ exists f wrapped,
       @createUO.build xor_cipher tpl sample_keys sample_world
       = (Ok f, mkWorld (List.repeat 0x01020304 55)
                  (trace (snd (@createUO.build xor_cipher tpl sample_keys
                                 sample_world))))
       /\ createUO.keyUsed f = Some key
       /\ firstn 24 (bits (createUO.uo f))
          = byte_bits 0xa1 ++ bits_from (bitArray.bitLength wrapped / 8) 15 16
       /\ 0 <= bits_value (bits wrapped) < 0xc0de.
Proof.
  intros key tpl ba recs.
  assert (H1 : createUO.patch tpl sample_keys = Ok ba) by (vm_compute; reflexivity).
  assert (H2 : wf ba) by reflexivity.
  assert (H3 : bitArray.bitLength ba mod 8 = 0) by reflexivity.
  assert (H4 : bitArray.bitLength ba < 2 ^ 30) by reflexivity.
  assert (H5 : 0 <= createUO.encryptionoffset tpl <= bitArray.bitLength ba)
    by (vm_compute; split; discriminate).
  assert (H6 : createUO.encryptionoffset tpl mod 8 = 0) by reflexivity.
  assert (H7 : (16 <= List.length (entropy sample_world))%nat)
    by (apply Nat.leb_le; reflexivity).
  assert (H8 : Str.parseInt16 (createUO.objectid tpl) = Some 0x7654) by reflexivity.
  assert (H9 : 0 <= 0x7654 < 2 ^ 32) by (split; [discriminate | reflexivity]).
  assert (H10 : createUO.getBestImportKey (createUO.importkeys tpl) = Some key)
    by reflexivity.
  assert (H11 : pkcs15_ps 2 57 (skipn 16 (entropy sample_world))
                = Some (List.repeat 4 57, List.repeat 0x01020304 55))
    by (vm_compute; reflexivity).
  assert (H12 : misc.inputToBits (createUO.ik_key key)
                = Ok (hex.toBits "81000103820002c0de")) by reflexivity.
  assert (H13 : wf (hex.toBits "81000103820002c0de")) by reflexivity.
  assert (H14 : bitArray.bitLength (hex.toBits "81000103820002c0de") < 2 ^ 31)
    by reflexivity.
  assert (H15 : Forall tlv_ok recs).
  { repeat constructor; cbn; try lia; try discriminate. }
  assert (H16 : bits (hex.toBits "81000103820002c0de") = tlv_bits recs)
    by (vm_compute; reflexivity).
  assert (H17 : 1 <= bits_value (bytes_bits [3]) < 2 ^ 32)
    by (vm_compute; split; [discriminate | reflexivity]).
  split; [exact H1|]. split; [exact H10|]. split; [exact H11|].
  split; [exact H16|].
  destruct (@template_build_layout xor_cipher xor_cipher_laws tpl sample_keys
              sample_world ba key _ recs [0xc0; 0xde] [3] 0x7654 _ _
              H1 H2 H3 H4 H5 H6 H7 H8 H9 H10 H11 H12 H13 H14 H15 H16
              eq_refl eq_refl H17)
    as (f & wrapped & p1 & p2 & Ef & Kf & _ & _ & _ & _ & Cw & Vw & _ & Bu).
  exists f, wrapped. split.
  { rewrite Ef. reflexivity. }
  split; [exact Kf|]. split.
  { rewrite Bu. reflexivity. }
  rewrite Vw. apply Z.mod_pos_bound. reflexivity.
Defined.


(** ** The choice of the import key *)

Lemma find_first {A} (p : A -> bool) l x :
  find p l = Some x ->
  exists l1 l2, l = l1 ++ x :: l2 /\ p x = true
                /\ forallb (fun y => negb (p y)) l1 = true.
Proof.
  induction l as [|y l IH]; [discriminate|]. cbn [find].
  destruct (p y) eqn:E.
  - intros H. assert (y = x) by congruence. subst y.
    exists [], l. auto.
  - intros H. destruct (IH H) as (l1 & l2 & -> & Px & F).
    exists (y :: l1), l2. cbn [forallb app]. rewrite E. auto.
Qed.

Lemma find_none {A} (p : A -> bool) l :
  find p l = None -> forallb (fun y => negb (p y)) l = true.
Proof.
  induction l as [|y l IH]; [reflexivity|]. cbn [find forallb].
  destruct (p y); [discriminate|]. exact IH.
Qed.

(** X30.  [_getBestImportKey] returns a key of the list, of type
    [rsa2048] or [rsa1024] and never of another type: the first
    [rsa2048] key wherever it stands, the first [rsa1024] key only
    when the list has no [rsa2048] key, and nothing exactly when the
    list has neither. *)
Theorem getBestImportKey_prefers_rsa2048 importKeys :
  let typ (t : string) (k : createUO.importkey) := String.eqb (createUO.ik_type k) t in
  match createUO.getBestImportKey importKeys with
  | Some k =>
      exists l1 l2,
        importKeys = l1 ++ k :: l2
        /\ ((typ "rsa2048"%string k = true
             /\ forallb (fun y => negb (typ "rsa2048"%string y)) l1 = true)
            \/ (typ "rsa1024"%string k = true
                /\ forallb (fun y => negb (typ "rsa1024"%string y)) l1 = true
                /\ forallb (fun y => negb (typ "rsa2048"%string y)) importKeys = true))
  | None =>
      forallb (fun y => negb (typ "rsa2048"%string y) && negb (typ "rsa1024"%string y))
        importKeys = true
  end.
Proof.
  intros typ. unfold createUO.getBestImportKey.
  fold (typ "rsa2048"%string). fold (typ "rsa1024"%string).
  destruct (find (typ "rsa2048"%string) importKeys) as [k|] eqn:F2.
  - destruct (find_first _ _ _ F2) as (l1 & l2 & E & Pk & N).
    exists l1, l2. split; [exact E|]. left. split; assumption.
  - pose proof (find_none _ _ F2) as N2.
    destruct (find (typ "rsa1024"%string) importKeys) as [k|] eqn:F1.
    + destruct (find_first _ _ _ F1) as (l1 & l2 & E & Pk & N).
      exists l1, l2. split; [exact E|]. right. repeat split; assumption.
    + pose proof (find_none _ _ F1) as N1.
      clear F1 F2. induction importKeys as [|y l IH]; [reflexivity|].
      cbn [forallb] in *.
      apply andb_true_iff in N1, N2. destruct N1 as [A1 B1], N2 as [A2 B2].
      rewrite A1, A2, (IH B2 B1). reflexivity.
Qed.
